(** * sql-genius: schema parsing, introspection folding and AI response extraction

    A shallow embedding of the reconciliation layer of sql-genius
    ([internal/schema/parser.go], the [getIndexes]/[getForeignKeys] folds of
    [internal/db], and the response extractors of the [ai] package), together
    with the fragments of Go's [strings], [unicode/utf8], [fmt], [regexp] and
    [encoding/json] packages that this code calls.

    Go strings are byte sequences; they are modelled by [string], whose
    characters are the bytes.  Runes are integers. *)

From Stdlib Require Import String Ascii List ZArith Bool Lia.
From stdpp Require Import base option strings gmap list.

Local Open Scope string_scope.
Local Open Scope list_scope.
Local Open Scope Z_scope.

(** ** Go slices: [nil] is distinguished from an empty, allocated slice *)

Module Slice.

Definition slice (A : Type) : Type := option (list A).

(** The zero value of a slice type ([var s []T]). *)
Definition nil_slice {A : Type} : slice A := None.

(** A slice literal [[]T{x1, ..., xn}]; [lit []] is empty but not nil. *)
Definition lit {A : Type} (l : list A) : slice A := Some l.

Definition elems {A : Type} (s : slice A) : list A :=
  match s with
  | None => []
  | Some l => l
  end.

Definition len {A : Type} (s : slice A) : nat := length (elems s).

Definition is_nil {A : Type} (s : slice A) : bool :=
  match s with
  | None => true
  | Some _ => false
  end.

(** [append(s, x)]: the result is never nil. *)
Definition append {A : Type} (s : slice A) (x : A) : slice A :=
  Some (elems s ++ [x]).

End Slice.
Export Slice.

(** ** Go functions returning [(value, error)] *)

Module GoResult.

(** Either the value with a nil error, or an error (with its message). *)
Inductive result (A : Type) : Type :=
| Ok (a : A)
| Err (e : string).
Arguments Ok {A} a.
Arguments Err {A} e.

Definition bind {A B : Type} (x : result A) (f : A -> result B) : result B :=
  match x with
  | Ok a => f a
  | Err e => Err e
  end.

End GoResult.
Export GoResult.

(** ** unicode/utf8 *)

Module Utf8.

Definition rune : Type := Z.

Definition RuneError : rune := 65533.
Definition RuneSelf : Z := 128.

Definition byte_val (c : ascii) : Z := Z.of_N (N_of_ascii c).
Definition byte_of (z : Z) : ascii := ascii_of_N (Z.to_N z).

(** [s[i]] as an integer, [-1] when [i] is out of range. *)
Fixpoint byte_at (s : string) (i : nat) : Z :=
  match s, i with
  | EmptyString, _ => -1
  | String c _, O => byte_val c
  | String _ s', S i' => byte_at s' i'
  end.

Fixpoint drop_bytes (n : nat) (s : string) : string :=
  match n, s with
  | O, _ => s
  | S n', String _ s' => drop_bytes n' s'
  | S _, EmptyString => EmptyString
  end.

Fixpoint take_bytes (n : nat) (s : string) : string :=
  match n, s with
  | S n', String c s' => String c (take_bytes n' s')
  | _, _ => EmptyString
  end.

Fixpoint rev_acc (s acc : string) : string :=
  match s with
  | EmptyString => acc
  | String c s' => rev_acc s' (String c acc)
  end.

Definition rev_string (s : string) : string := rev_acc s EmptyString.

Definition in_range (lo hi b : Z) : bool := (lo <=? b) && (b <=? hi).

(** A continuation byte [10xxxxxx]. *)
Definition is_cont (b : Z) : bool := in_range 128 191 b.

(** [utf8.RuneStart]: any byte that is not a continuation byte. *)
Definition RuneStart (b : Z) : bool := negb (Z.land b 192 =? 128).

(** [utf8.DecodeRuneInString]: the first rune of [s] and its width in bytes.
    The empty string gives [(RuneError, 0)]; an ill-formed or truncated
    encoding gives [(RuneError, 1)].  The accepted second-byte ranges are
    those of the [acceptRanges] table (no overlong forms, no surrogates,
    nothing above U+10FFFF). *)
Definition DecodeRuneInString (s : string) : rune * nat :=
  let b0 := byte_at s 0 in
  let b1 := byte_at s 1 in
  let b2 := byte_at s 2 in
  let b3 := byte_at s 3 in
  if b0 <? 0 then (RuneError, 0%nat)
  else if b0 <? RuneSelf then (b0, 1%nat)
  else if in_range 194 223 b0 then
    if is_cont b1
    then (Z.lor (Z.shiftl (Z.land b0 31) 6) (Z.land b1 63), 2%nat)
    else (RuneError, 1%nat)
  else if in_range 224 239 b0 then
    let lo := if b0 =? 224 then 160 else 128 in
    let hi := if b0 =? 237 then 159 else 191 in
    if in_range lo hi b1 && is_cont b2
    then (Z.lor (Z.lor (Z.shiftl (Z.land b0 15) 12)
                       (Z.shiftl (Z.land b1 63) 6))
                (Z.land b2 63), 3%nat)
    else (RuneError, 1%nat)
  else if in_range 240 244 b0 then
    let lo := if b0 =? 240 then 144 else 128 in
    let hi := if b0 =? 244 then 143 else 191 in
    if in_range lo hi b1 && is_cont b2 && is_cont b3
    then (Z.lor (Z.lor (Z.lor (Z.shiftl (Z.land b0 7) 18)
                              (Z.shiftl (Z.land b1 63) 12))
                       (Z.shiftl (Z.land b2 63) 6))
                (Z.land b3 63), 4%nat)
    else (RuneError, 1%nat)
  else (RuneError, 1%nat).

(** Where the backwards scan of [utf8.DecodeLastRuneInString] stops, as a
    number of bytes counted from the end of the string; [rs] is the string
    reversed.  The scan inspects the second, third and fourth byte from the
    end and stops at the first one that starts a rune; when there is none it
    ends one byte before the limit [len-4], or at the start of the string. *)
Definition last_rune_span (rs : string) : nat :=
  if RuneStart (byte_at rs 1) && (0 <=? byte_at rs 1) then 2%nat
  else if RuneStart (byte_at rs 2) && (0 <=? byte_at rs 2) then 3%nat
  else if RuneStart (byte_at rs 3) && (0 <=? byte_at rs 3) then 4%nat
  else Nat.min (String.length rs) 5.

(** [utf8.DecodeLastRuneInString], on the reversed string. *)
Definition DecodeLastRune_rev (rs : string) : rune * nat :=
  let b := byte_at rs 0 in
  if b <? 0 then (RuneError, 0%nat)
  else if b <? RuneSelf then (b, 1%nat)
  else
    let k := last_rune_span rs in
    let '(r, size) := DecodeRuneInString (rev_string (take_bytes k rs)) in
    if Nat.eqb size k then (r, size) else (RuneError, 1%nat).

Definition DecodeLastRuneInString (s : string) : rune * nat :=
  DecodeLastRune_rev (rev_string s).

(** The runes of a string, as [for _, r := range s] yields them. *)
Fixpoint runes_from (skip : nat) (s : string) : list rune :=
  match s with
  | EmptyString => []
  | String _ s' =>
      match skip with
      | S k => runes_from k s'
      | O => let '(r, w) := DecodeRuneInString s in
             r :: runes_from (Nat.pred w) s'
      end
  end.

Definition runes (s : string) : list rune := runes_from 0 s.

End Utf8.
Export Utf8.

(** ** The [strings] and [unicode] functions the program calls *)

Module GoStrings.

Definition LF : string := String (ascii_of_nat 10) EmptyString.

(** [unicode.IsSpace]: the White_Space property. *)
Definition unicode_IsSpace (r : rune) : bool :=
  in_range 9 13 r || (r =? 32) || (r =? 133) || (r =? 160) || (r =? 5760)
  || in_range 8192 8202 r || (r =? 8232) || (r =? 8233) || (r =? 8239)
  || (r =? 8287) || (r =? 12288).

Fixpoint HasPrefix (s prefix : string) : bool :=
  match prefix with
  | EmptyString => true
  | String p prefix' =>
      match s with
      | EmptyString => false
      | String c s' => if Ascii.eqb c p then HasPrefix s' prefix' else false
      end
  end.

Definition HasSuffix (s suffix : string) : bool :=
  HasPrefix (rev_string s) (rev_string suffix).

Definition TrimPrefix (s prefix : string) : string :=
  if HasPrefix s prefix then drop_bytes (String.length prefix) s else s.

Definition TrimSuffix (s suffix : string) : string :=
  if HasSuffix s suffix
  then take_bytes (String.length s - String.length suffix) s
  else s.

Fixpoint Contains (s substr : string) : bool :=
  if HasPrefix s substr then true
  else match s with
       | EmptyString => false
       | String _ s' => Contains s' substr
       end.

(** [strings.Replace(s, old, new, 1)]: the first occurrence only. *)
Fixpoint Replace1 (s old new : string) : string :=
  if HasPrefix s old then new +:+ drop_bytes (String.length old) s
  else match s with
       | EmptyString => EmptyString
       | String c s' => String c (Replace1 s' old new)
       end.

(** The pieces of [s] between the successive, non-overlapping occurrences of
    a non-empty [sep]; [cur] is the piece being read and [skip] counts the
    bytes of a separator still to be passed over. *)
Fixpoint split_from (sep : string) (skip : nat) (cur : string) (s : string)
  : list string :=
  match s with
  | EmptyString => [cur]
  | String c s' =>
      match skip with
      | S k => split_from sep k cur s'
      | O =>
          if HasPrefix s sep
          then cur :: split_from sep (Nat.pred (String.length sep)) EmptyString s'
          else split_from sep O (cur +:+ String c EmptyString) s'
      end
  end.

(** [strings.Split(s, sep)] with an empty [sep]: one piece per rune, an
    ill-formed byte becoming the encoding of U+FFFD. *)
Fixpoint explode (skip : nat) (s : string) : list string :=
  match s with
  | EmptyString => []
  | String _ s' =>
      match skip with
      | S k => explode k s'
      | O =>
          let '(r, w) := DecodeRuneInString s in
          (if r =? RuneError
           then String (byte_of 239) (String (byte_of 191) (String (byte_of 189) EmptyString))
           else take_bytes w s)
          :: explode (Nat.pred w) s'
      end
  end.

Definition Split (s sep : string) : list string :=
  match sep with
  | EmptyString => explode O s
  | _ => split_from sep O EmptyString s
  end.

Fixpoint Join (elems : list string) (sep : string) : string :=
  match elems with
  | [] => EmptyString
  | [x] => x
  | x :: rest => x +:+ sep +:+ Join rest sep
  end.

(** [strings.TrimLeftFunc(s, unicode.IsSpace)]. *)
Fixpoint trim_left_space (skip : nat) (s : string) : string :=
  match s with
  | EmptyString => EmptyString
  | String _ s' =>
      match skip with
      | S k => trim_left_space k s'
      | O =>
          let '(r, w) := DecodeRuneInString s in
          if unicode_IsSpace r then trim_left_space (Nat.pred w) s' else s
      end
  end.

(** [strings.TrimRightFunc(s, unicode.IsSpace)], on the reversed string:
    runes are decoded backwards with [DecodeLastRuneInString]. *)
Fixpoint trim_right_space_rev (skip : nat) (rs : string) : string :=
  match rs with
  | EmptyString => EmptyString
  | String _ rs' =>
      match skip with
      | S k => trim_right_space_rev k rs'
      | O =>
          let '(r, w) := DecodeLastRune_rev rs in
          if unicode_IsSpace r then trim_right_space_rev (Nat.pred w) rs' else rs
      end
  end.

(** [strings.TrimSpace]: leading, then trailing white space (Unicode's). *)
Definition TrimSpace (s : string) : string :=
  rev_string (trim_right_space_rev O (rev_string (trim_left_space O s))).

Fixpoint in_cutset (cutset : string) (c : ascii) : bool :=
  match cutset with
  | EmptyString => false
  | String d cutset' => Ascii.eqb c d || in_cutset cutset' c
  end.

Fixpoint trim_left_cutset (cutset s : string) : string :=
  match s with
  | EmptyString => EmptyString
  | String c s' => if in_cutset cutset c then trim_left_cutset cutset s' else s
  end.

(** [strings.Trim(s, cutset)] for a cutset of ASCII characters, which Go
    trims byte by byte (the program's only cutset is the five quoting
    characters). *)
Definition Trim (s cutset : string) : string :=
  rev_string (trim_left_cutset cutset (rev_string (trim_left_cutset cutset s))).

Definition upper_byte (c : ascii) : ascii :=
  let b := byte_val c in if in_range 97 122 b then byte_of (b - 32) else c.

Definition lower_byte (c : ascii) : ascii :=
  let b := byte_val c in if in_range 65 90 b then byte_of (b + 32) else c.

(** [strings.ToUpper], exactly on ASCII text; on other text, as far as the
    ASCII bytes of the result and their places between the other bytes go.
    ASCII letters are upper-cased; of the runes outside ASCII, the two
    whose upper case is an ASCII letter are mapped as [unicode.ToUpper]
    maps them (U+0131 to [I], U+017F to [S]).  Every other non-ASCII byte
    is kept, where Go may put another rune, again outside ASCII (U+00C9 for
    U+00E9, say).  The parser only searches the result for ASCII words,
    which this does not change; the DDL writer, which puts the result into
    its text, is defined over the library function itself. *)
Fixpoint ToUpper (s : string) : string :=
  match s with
  | EmptyString => EmptyString
  | String c s' =>
      match s' with
      | String d s'' =>
          if (byte_val c =? 196) && (byte_val d =? 177)
          then String (byte_of 73) (ToUpper s'')
          else if (byte_val c =? 197) && (byte_val d =? 191)
          then String (byte_of 83) (ToUpper s'')
          else String (upper_byte c) (ToUpper s')
      | EmptyString => String (upper_byte c) EmptyString
      end
  end.

(** [strings.ToLower], likewise: U+0130 goes to [i] and U+212A to [k]. *)
Fixpoint ToLower (s : string) : string :=
  match s with
  | EmptyString => EmptyString
  | String c s' =>
      match s' with
      | String d s'' =>
          if (byte_val c =? 196) && (byte_val d =? 176)
          then String (byte_of 105) (ToLower s'')
          else
            match s'' with
            | String e s''' =>
                if (byte_val c =? 226) && (byte_val d =? 132) && (byte_val e =? 170)
                then String (byte_of 107) (ToLower s''')
                else String (lower_byte c) (ToLower s')
            | EmptyString => String (lower_byte c) (ToLower s')
            end
      | EmptyString => String (lower_byte c) EmptyString
      end
  end.

(** The canonical member of a rune's [unicode.SimpleFold] orbit, for the
    orbits that contain an ASCII letter: a letter and its other case, with
    U+212A (Kelvin sign) in the orbit of [k] and U+017F (long s) in that of
    [s].  Other runes stand for themselves. *)
Definition fold_key (r : rune) : rune :=
  if in_range 65 90 r then r + 32
  else if r =? 8490 then 107
  else if r =? 383 then 115
  else r.

Fixpoint fold_equal_runes (a b : list rune) : bool :=
  match a, b with
  | [], [] => true
  | x :: a', y :: b' => (fold_key x =? fold_key y) && fold_equal_runes a' b'
  | _, _ => false
  end.

(** [strings.EqualFold]: equality of the rune sequences under simple case
    folding.  The program compares table names captured by a
    case-insensitive [\w+], whose runes all lie in the orbits that
    [fold_key] covers. *)
Definition EqualFold (s t : string) : bool :=
  fold_equal_runes (runes s) (runes t).

End GoStrings.
Export GoStrings.

(** ** [fmt.Sscanf(str, "%d", &n)] *)

Module Fmt.

(** [ss.SkipSpace] as [Sscanf] runs it: white space is passed over, but a
    newline is an error. *)
Fixpoint SkipSpace (skip : nat) (s : string) : option string :=
  match s with
  | EmptyString => Some EmptyString
  | String _ s' =>
      match skip with
      | S k => SkipSpace k s'
      | O =>
          let '(r, w) := DecodeRuneInString s in
          if r =? 10 then None
          else if unicode_IsSpace r then SkipSpace (Nat.pred w) s'
          else Some s
      end
  end.

(** The longest prefix of [s] made of characters accepted by [ok]. *)
Fixpoint accept_run (ok : string) (s : string) : string :=
  match s with
  | EmptyString => EmptyString
  | String c s' => if in_cutset ok c then String c (accept_run ok s') else EmptyString
  end.

(** The value of a run of decimal digits read left to right from [acc]
    ([strconv.ParseInt] in base 10); [None] on any other character. *)
Fixpoint decimal_value (digits : string) (acc : Z) : option Z :=
  match digits with
  | EmptyString => Some acc
  | String c rest =>
      let b := byte_val c in
      if in_range 48 57 b then decimal_value rest (10 * acc + (b - 48)) else None
  end.

(** What [fmt.Sscanf(str, "%d", &n)] stores in [n], if anything: an optional
    sign and a run of the digits [0] to [9] after optional white space (the
    verb [%d] accepts no underscore, which only [%v] lets through), provided
    the number fits the 64-bit [int]; input after the number, such as the
    [_0] of [7_0], is left unread. *)
Definition Sscanf_d (str : string) : option Z :=
  match SkipSpace O str with
  | None => None
  | Some s1 =>
      let '(neg, s2) :=
        match s1 with
        | String c rest =>
            if byte_val c =? 45 then (true, rest)
            else if byte_val c =? 43 then (false, rest)
            else (false, s1)
        | EmptyString => (false, s1)
        end in
      match accept_run "0123456789" s2 with
      | EmptyString => None
      | tok =>
          match decimal_value tok 0 with
          | None => None
          | Some v =>
              let n := if neg then - v else v in
              if in_range (- 9223372036854775808) 9223372036854775807 n
              then Some n else None
          end
      end
  end.

End Fmt.
Export Fmt.

(** ** pkg/models/types.go *)

Module Models.

Definition DBType : Type := string.
Definition MySQL : DBType := "mysql".
Definition PostgreSQL : DBType := "postgresql".
Definition SQLServer : DBType := "sqlserver".
Definition Oracle : DBType := "oracle".

Module Column.
Record t : Type := mk {
  Name : string;
  Type_ : string;
  Nullable : bool;
  Default : string;
  Comment : string;
  IsPK : bool;
  IsFK : bool;
  IsUnique : bool;
  IsAutoIncr : bool
}.
Definition zero : t := mk "" "" false "" "" false false false false.
End Column.

Module FK.
Record t : Type := mk {
  Name : string;
  Column : string;
  RefTable : string;
  RefColumn : string;
  OnDelete : string;
  OnUpdate : string
}.
Definition zero : t := mk "" "" "" "" "" "".
End FK.

Module Index.
Record t : Type := mk {
  Name : string;
  Columns : slice string;
  IsUnique : bool;
  Type_ : string
}.
Definition zero : t := mk "" nil_slice false "".
End Index.

Module Table.
Record t : Type := mk {
  Name : string;
  Columns : slice Column.t;
  PrimaryKey : slice string;
  ForeignKeys : slice FK.t;
  Indexes : slice Index.t
}.
Definition zero : t := mk "" nil_slice nil_slice nil_slice nil_slice.
End Table.

Module Schema.
Record t : Type := mk {
  Database : string;
  Tables : slice Table.t;
  DBType_ : DBType
}.
Definition zero : t := mk "" nil_slice "".
End Schema.

Module Issue.
Record t : Type := mk {
  Type_ : string;
  Message : string;
  Location : string;
  Suggestion : string
}.
End Issue.

Module QueryValidation.
Record t : Type := mk {
  IsValid : bool;
  Score : Z;
  OriginalQuery : string;
  OptimizedQuery : string;
  Issues : slice Issue.t;
  Suggestions : slice string;
  IndexUsage : slice string;
  ExecutionPlan : string;
  EstimatedTime : string;
  AIResponseTime : Z
}.
End QueryValidation.

End Models.
Export Models.

(** ** Package [ai]: extraction of structured records from model text *)

Module AI.

Import QueryValidation.

Definition nonempty (s : string) : bool := negb (String.eqb s "").

(** *** [parseQueryResponse] *)

(** The variables of the loop: the current section and the lines collected
    for each of the three parts. *)
Record query_acc : Type := mk_query_acc {
  q_section : string;
  queryLines : slice string;
  explainLines : slice string;
  tips : slice string
}.

Definition query_line (st : query_acc) (line : string) : query_acc :=
  let trimmed := TrimSpace line in
  if HasPrefix trimmed "SQL:" then
    mk_query_acc "sql" (queryLines st) (explainLines st) (tips st)
  else if HasPrefix trimmed "설명:" then
    mk_query_acc "explain" (queryLines st) (explainLines st) (tips st)
  else if HasPrefix trimmed "최적화 팁:" then
    mk_query_acc "tips" (queryLines st) (explainLines st) (tips st)
  else if String.eqb (q_section st) "sql" then
    if nonempty trimmed && negb (String.eqb trimmed "```sql")
       && negb (String.eqb trimmed "```")
    then mk_query_acc (q_section st) (append (queryLines st) line)
                      (explainLines st) (tips st)
    else st
  else if String.eqb (q_section st) "explain" then
    if nonempty trimmed
    then mk_query_acc (q_section st) (queryLines st)
                      (append (explainLines st) trimmed) (tips st)
    else st
  else if String.eqb (q_section st) "tips" then
    if HasPrefix trimmed "-" || HasPrefix trimmed "•" then
      let tip := TrimPrefix trimmed "-" in
      let tip := TrimPrefix tip "•" in
      mk_query_acc (q_section st) (queryLines st) (explainLines st)
                   (append (tips st) (TrimSpace tip))
    else st
  else st.

(** Returns [(query, explanation, tips)]. *)
Definition parseQueryResponse (response : string)
  : string * string * slice string :=
  let lines := Split response LF in
  let st := fold_left query_line lines
              (mk_query_acc "" nil_slice nil_slice (lit [])) in
  let query := TrimSpace (Join (elems (queryLines st)) LF) in
  let explanation := Join (elems (explainLines st)) " " in
  let query := TrimPrefix query "```sql" in
  let query := TrimPrefix query "```" in
  let query := TrimSuffix query "```" in
  let query := TrimSpace query in
  (query, explanation, tips st).

(** *** [parseIssue] *)

Definition parseIssue (line : string) : Issue.t :=
  let line := TrimPrefix line "-" in
  let line := TrimPrefix line "•" in
  let line := TrimSpace line in
  let '(type, line) :=
    if Contains line "[error]" then ("error", Replace1 line "[error]" "")
    else if Contains line "[warning]" then ("warning", Replace1 line "[warning]" "")
    else if Contains line "[info]" then ("info", Replace1 line "[info]" "")
    else ("info", line) in
  let parts := Split line "|" in
  let message :=
    if (1 <=? length parts)%nat then TrimSpace (nth 0 parts "") else "" in
  let location :=
    if (2 <=? length parts)%nat
    then TrimSpace (TrimPrefix (nth 1 parts "") "위치:") else "" in
  let suggestion :=
    if (3 <=? length parts)%nat
    then TrimSpace (TrimPrefix (nth 2 parts "") "해결:") else "" in
  Issue.mk type message location suggestion.

(** *** [parseValidationResponse] *)

Definition set_IsValid (v : QueryValidation.t) (b : bool) : QueryValidation.t :=
  mk b (Score v) (OriginalQuery v) (OptimizedQuery v) (Issues v)
     (Suggestions v) (IndexUsage v) (ExecutionPlan v) (EstimatedTime v)
     (AIResponseTime v).

Definition set_Score (v : QueryValidation.t) (n : Z) : QueryValidation.t :=
  mk (IsValid v) n (OriginalQuery v) (OptimizedQuery v) (Issues v)
     (Suggestions v) (IndexUsage v) (ExecutionPlan v) (EstimatedTime v)
     (AIResponseTime v).

Definition set_OptimizedQuery (v : QueryValidation.t) (q : string) : QueryValidation.t :=
  mk (IsValid v) (Score v) (OriginalQuery v) q (Issues v)
     (Suggestions v) (IndexUsage v) (ExecutionPlan v) (EstimatedTime v)
     (AIResponseTime v).

Definition set_Issues (v : QueryValidation.t) (l : slice Issue.t) : QueryValidation.t :=
  mk (IsValid v) (Score v) (OriginalQuery v) (OptimizedQuery v) l
     (Suggestions v) (IndexUsage v) (ExecutionPlan v) (EstimatedTime v)
     (AIResponseTime v).

Definition set_Suggestions (v : QueryValidation.t) (l : slice string) : QueryValidation.t :=
  mk (IsValid v) (Score v) (OriginalQuery v) (OptimizedQuery v) (Issues v)
     l (IndexUsage v) (ExecutionPlan v) (EstimatedTime v)
     (AIResponseTime v).

Definition set_IndexUsage (v : QueryValidation.t) (l : slice string) : QueryValidation.t :=
  mk (IsValid v) (Score v) (OriginalQuery v) (OptimizedQuery v) (Issues v)
     (Suggestions v) l (ExecutionPlan v) (EstimatedTime v)
     (AIResponseTime v).

Definition set_ExecutionPlan (v : QueryValidation.t) (p : string) : QueryValidation.t :=
  mk (IsValid v) (Score v) (OriginalQuery v) (OptimizedQuery v) (Issues v)
     (Suggestions v) (IndexUsage v) p (EstimatedTime v)
     (AIResponseTime v).

Definition set_EstimatedTime (v : QueryValidation.t) (e : string) : QueryValidation.t :=
  mk (IsValid v) (Score v) (OriginalQuery v) (OptimizedQuery v) (Issues v)
     (Suggestions v) (IndexUsage v) (ExecutionPlan v) e
     (AIResponseTime v).

(** The value of [score] after [fmt.Sscanf(scoreStr, "%d", &score)] on a
    freshly declared [var score int]. *)
Definition scanned_score (scoreStr : string) : Z :=
  match Sscanf_d scoreStr with
  | Some n => n
  | None => 0
  end.

(** The text after the score header, as the loop hands it to [Sscanf]. *)
Definition score_token (trimmed : string) : string :=
  TrimSuffix (TrimSpace (TrimPrefix trimmed "점수:")) "점".

Definition is_bullet (trimmed : string) : bool :=
  HasPrefix trimmed "-" || HasPrefix trimmed "•".

Definition strip_bullet (trimmed : string) : string :=
  TrimSpace (TrimPrefix (TrimPrefix trimmed "-") "•").

(** One iteration of the loop over the lines; the state is the record under
    construction and the current section. *)
Definition validation_line (originalQuery : string)
    (st : QueryValidation.t * string) (line : string)
  : QueryValidation.t * string :=
  let '(validation, section) := st in
  let trimmed := TrimSpace line in
  if HasPrefix trimmed "유효성:" then
    let val := TrimSpace (TrimPrefix trimmed "유효성:") in
    (set_IsValid validation
       (Contains (ToLower val) "true" || Contains val "유효"), section)
  else if HasPrefix trimmed "점수:" then
    let score := scanned_score (score_token trimmed) in
    if (0 <? score) && (score <=? 100)
    then (set_Score validation score, section)
    else (validation, section)
  else if HasPrefix trimmed "문제점:" then (validation, "issues")
  else if HasPrefix trimmed "인덱스 활용:" then (validation, "indexes")
  else if HasPrefix trimmed "최적화된 쿼리:" then (validation, "optimized")
  else if HasPrefix trimmed "실행 계획:" then (validation, "plan")
  else if HasPrefix trimmed "예상 시간:" then
    (set_EstimatedTime validation
       (TrimSpace (TrimPrefix trimmed "예상 시간:")), section)
  else if HasPrefix trimmed "개선 제안:" then (validation, "suggestions")
  else if String.eqb section "issues" then
    if is_bullet trimmed then
      let issue := parseIssue trimmed in
      if nonempty (Issue.Message issue)
      then (set_Issues validation (append (Issues validation) issue), section)
      else st
    else st
  else if String.eqb section "indexes" then
    if is_bullet trimmed then
      let idx := strip_bullet trimmed in
      if nonempty idx && negb (String.eqb idx "없음")
      then (set_IndexUsage validation (append (IndexUsage validation) idx), section)
      else st
    else st
  else if String.eqb section "optimized" then
    if nonempty trimmed && negb (Contains trimmed "원본 쿼리가 최적") then
      if negb (String.eqb trimmed "```sql") && negb (String.eqb trimmed "```") then
        if String.eqb (OptimizedQuery validation) originalQuery
        then (set_OptimizedQuery validation trimmed, section)
        else (set_OptimizedQuery validation
                (OptimizedQuery validation +:+ LF +:+ trimmed), section)
      else st
    else st
  else if String.eqb section "plan" then
    if nonempty trimmed then
      if String.eqb (ExecutionPlan validation) ""
      then (set_ExecutionPlan validation trimmed, section)
      else (set_ExecutionPlan validation
              (ExecutionPlan validation +:+ " " +:+ trimmed), section)
    else st
  else if String.eqb section "suggestions" then
    if is_bullet trimmed then
      let sug := strip_bullet trimmed in
      if nonempty sug
      then (set_Suggestions validation (append (Suggestions validation) sug), section)
      else st
    else st
  else st.

(** The clean-up of the optimized query after the loop. *)
Definition tidy_optimized (optimized originalQuery : string) : string :=
  let q := TrimPrefix optimized "```sql" in
  let q := TrimSuffix q "```" in
  let q := TrimSpace q in
  if String.eqb q "" then originalQuery else q.

Definition initial_validation (originalQuery : string) : QueryValidation.t :=
  mk true 50 originalQuery originalQuery (lit []) (lit []) (lit []) "" "" 0.

Definition parseValidationResponse (response originalQuery : string)
  : QueryValidation.t :=
  let lines := Split response LF in
  let '(validation, _) :=
    fold_left (validation_line originalQuery) lines
              (initial_validation originalQuery, "") in
  set_OptimizedQuery validation
    (tidy_optimized (OptimizedQuery validation) originalQuery).

End AI.

(** ** Package [regexp]: leftmost-first matching with submatches

    Go's [regexp] finds the match a backtracking matcher would find first:
    the leftmost start, and from there the first alternative, the longest
    run of a greedy repetition, the shortest of a lazy one.  The input is
    read rune by rune, an ill-formed byte counting as U+FFFD. *)

Module Regexp.

(** A character class: a list of inclusive rune ranges, possibly negated. *)
Record class : Type := mk_class {
  negated : bool;
  ranges : list (rune * rune)
}.

Definition class_has (c : class) (r : rune) : bool :=
  xorb (negated c) (existsb (fun lh => in_range (fst lh) (snd lh) r) (ranges c)).

Inductive re : Type :=
| Empty
| Class (c : class)
| Cat (a b : re)
| Alt (a b : re)
| Star (greedy : bool) (a : re)
| Cap (n : nat) (a : re)
| BeginText
| EndText.

(** Positions of the submatches found so far, most recent first. *)
Definition captures : Type := list (nat * (nat * nat)).

Fixpoint cap_lookup (n : nat) (caps : captures) : option (nat * nat) :=
  match caps with
  | [] => None
  | (m, span) :: rest => if Nat.eqb m n then Some span else cap_lookup n rest
  end.

Definition or_else {A : Type} (x y : option A) : option A :=
  match x with
  | Some _ => x
  | None => y
  end.

(** What a match in progress returns: the end of the match and the
    submatches. *)
Definition outcome : Type := option (nat * captures).

(** Where a match in progress continues: position, remaining text,
    submatches so far. *)
Definition continuation : Type := nat -> string -> captures -> outcome.

(** The rounds of a repetition whose body is matched by [body]: a greedy
    one tries another round before leaving, a lazy one leaves first.  A
    round that consumes nothing is abandoned; [fuel] bounds the number of
    rounds. *)
Fixpoint star_loop (body : nat -> string -> captures -> continuation -> outcome)
    (greedy : bool) (k : continuation) (fuel : nat)
    (pos : nat) (rest : string) (caps : captures) : outcome :=
  match fuel with
  | O => None
  | S fuel' =>
      let more :=
        body pos rest caps
          (fun pos' rest' caps' =>
             if (pos <? pos')%nat
             then star_loop body greedy k fuel' pos' rest' caps'
             else None) in
      if greedy then or_else more (k pos rest caps)
      else or_else (k pos rest caps) more
  end.

(** [exec_with slack r pos rest caps k] matches [r] at byte offset [pos],
    where [rest] is the text from [pos] on, and hands the position reached
    to the continuation [k]; alternatives are tried in priority order.  A
    repetition is given one round more than there are bytes left, which it
    cannot use up since every round consumes input, plus [slack] rounds. *)
Fixpoint exec_with (slack : nat) (r : re) (pos : nat) (rest : string)
    (caps : captures) (k : continuation) : outcome :=
  match r with
  | Empty => k pos rest caps
  | Class c =>
      let '(x, w) := DecodeRuneInString rest in
      if Nat.eqb w 0 then None
      else if class_has c x then k (pos + w)%nat (drop_bytes w rest) caps
      else None
  | Cat a b =>
      exec_with slack a pos rest caps
        (fun pos' rest' caps' => exec_with slack b pos' rest' caps' k)
  | Alt a b =>
      or_else (exec_with slack a pos rest caps k)
              (exec_with slack b pos rest caps k)
  | Star greedy a =>
      star_loop (exec_with slack a) greedy k
                (slack + S (String.length rest)) pos rest caps
  | Cap n a =>
      exec_with slack a pos rest caps
        (fun pos' rest' caps' => k pos' rest' ((n, (pos, pos')) :: caps'))
  | BeginText => if Nat.eqb pos 0 then k pos rest caps else None
  | EndText =>
      match rest with
      | EmptyString => k pos rest caps
      | _ => None
      end
  end.

Definition exec : re -> nat -> string -> captures -> continuation -> outcome :=
  exec_with 0.

(** A compiled expression with its number of capture groups. *)
Record Regexp : Type := MustCompile {
  prog : re;
  NumSubexp : nat
}.

(** One match: start, end, submatch positions. *)
Definition match_pos : Type := (nat * nat * captures)%type.

(** The leftmost match starting at or after [pos], trying the start of each
    rune in turn; [skip] counts the remaining bytes of the rune being
    passed. *)
Fixpoint search (r : re) (skip : nat) (pos : nat) (rest : string)
  : option match_pos :=
  match skip with
  | S k =>
      match rest with
      | EmptyString => None
      | String _ rest' => search r k (S pos) rest'
      end
  | O =>
      match exec r pos rest [] (fun e _ caps => Some (e, caps)) with
      | Some (e, caps) => Some (pos, e, caps)
      | None =>
          match rest with
          | EmptyString => None
          | String _ rest' =>
              search r (Nat.pred (snd (DecodeRuneInString rest))) (S pos) rest'
          end
      end
  end.

Definition slice_of (text : string) (b e : nat) : string :=
  take_bytes (e - b) (drop_bytes b text).

(** The strings of a match: the whole match, then each group, a group that
    took no part giving the empty string. *)
Definition submatch_strings (re : Regexp) (text : string) (m : match_pos)
  : list string :=
  let '(b, e, caps) := m in
  slice_of text b e
  :: map (fun i => match cap_lookup i caps with
                   | Some (s, t) => slice_of text s t
                   | None => EmptyString
                   end)
         (seq 1 (NumSubexp re)).

(** [re.FindStringSubmatch(text)]; [[]] stands for the nil result. *)
Definition FindStringSubmatch (re : Regexp) (text : string) : list string :=
  match search (prog re) O O text with
  | Some m => submatch_strings re text m
  | None => []
  end.

(** The loop of [re.allMatches]: successive matches, each search resuming
    where the previous match ended; an empty match directly after the
    previous match is dropped and the search moves on by one rune. *)
Fixpoint all_matches (fuel : nat) (r : re) (text : string) (pos : nat)
    (prevMatchEnd : option nat) : list match_pos :=
  match fuel with
  | O => []
  | S fuel' =>
      if (String.length text <? pos)%nat then []
      else
        match search r O pos (drop_bytes pos text) with
        | None => []
        | Some (b, e, caps) =>
            if Nat.eqb e pos then
              let width := snd (DecodeRuneInString (drop_bytes pos text)) in
              let pos' := if Nat.eqb width 0 then S (String.length text)
                          else (pos + width)%nat in
              let accept :=
                match prevMatchEnd with
                | Some p => negb (Nat.eqb b p)
                | None => true
                end in
              (if accept then [(b, e, caps)] else [])
              ++ all_matches fuel' r text pos' (Some e)
            else (b, e, caps) :: all_matches fuel' r text e (Some e)
        end
  end.

(** [re.FindAllStringSubmatch(text, -1)]. *)
Definition FindAllStringSubmatch (re : Regexp) (text : string)
  : list (list string) :=
  map (submatch_strings re text)
      (all_matches (S (S (String.length text))) (prog re) text O None).

(** *** Syntax *)

Definition plus (a : re) : re := Cat a (Star true a).
Definition star (a : re) : re := Star true a.
Definition lazy_star (a : re) : re := Star false a.
Definition quest (a : re) : re := Alt a Empty.

Fixpoint cat (l : list re) : re :=
  match l with
  | [] => Empty
  | [a] => a
  | a :: l' => Cat a (cat l')
  end.

Definition one_of (l : list rune) : class :=
  mk_class false (map (fun c => (c, c)) l).

Definition none_of (l : list (rune * rune)) : class := mk_class true l.

(** The runes a literal [c] matches: itself, or under [(?i)] its whole
    [unicode.SimpleFold] orbit. *)
Definition fold_orbit (c : rune) : list rune :=
  let lower := if in_range 65 90 c then c + 32 else c in
  if in_range 97 122 lower then
    [lower - 32; lower]
    ++ (if lower =? 107 then [8490] else if lower =? 115 then [383] else [])
  else [c].

Definition chr (c : rune) : re := Class (one_of [c]).
Definition chr_i (c : rune) : re := Class (one_of (fold_orbit c)).

(** A literal word, and the same under the flag [(?i)]. *)
Definition str (s : string) : re := cat (map chr (runes s)).
Definition str_i (s : string) : re := cat (map chr_i (runes s)).

(** [\s] is [[\t\n\f\r ]]. *)
Definition space_ranges : list (rune * rune) := [(9, 10); (12, 13); (32, 32)].
Definition ws : re := Class (mk_class false space_ranges).

(** [\w] is [[0-9A-Za-z_]]; under [(?i)] the class is closed under case
    folding, which adds U+017F and U+212A. *)
Definition word_ranges : list (rune * rune) :=
  [(48, 57); (65, 90); (95, 95); (97, 122)].
Definition word : re := Class (mk_class false word_ranges).
Definition word_i : re :=
  Class (mk_class false (word_ranges ++ [(383, 383); (8490, 8490)])).

(** [[\s\S]]: any rune; [.]: any rune but a newline. *)
Definition any : re := Class (mk_class false [(0, 1114111)]).
Definition dot : re := Class (none_of [(10, 10)]).

Definition LPAREN : rune := 40.
Definition RPAREN : rune := 41.
Definition BACKTICK : rune := 96.
Definition DQUOTE : rune := 34.
Definition SQUOTE : rune := 39.
Definition LBRACKET : rune := 91.
Definition RBRACKET : rune := 93.
Definition COMMA : rune := 44.

(** The optional quoting character before and after an identifier. *)
Definition open_quote : re :=
  quest (Class (one_of [BACKTICK; DQUOTE; SQUOTE; LBRACKET])).
Definition close_quote : re :=
  quest (Class (one_of [BACKTICK; DQUOTE; SQUOTE; RBRACKET])).

Definition not_rparen : re := Class (none_of [(RPAREN, RPAREN)]).

End Regexp.
Export Regexp.

(** ** Package [encoding/json], for the schema records

    A JSON text is represented by the value it denotes; the layout of the
    text (white space, escapes, indentation) is the library's business and
    is not modelled.  What is modelled is how [json.Unmarshal] stores a
    value into the records of [pkg/models] according to their field tags,
    and which value [json.MarshalIndent] writes for them. *)

Module Json.

#[local] Unset Elimination Schemes.

Inductive json : Type :=
| JNull
| JBool (b : bool)
| JNumber (text : string)
| JString (s : string)
| JArray (items : list json)
| JObject (members : list (string * json)).

#[local] Set Elimination Schemes.

(** The encoding of U+FFFD. *)
Definition replacement : string :=
  String (byte_of 239) (String (byte_of 191) (String (byte_of 189) EmptyString)).

(** The string a Go string is written as: each byte that does not belong to
    a well-formed UTF-8 sequence becomes U+FFFD. *)
Fixpoint to_valid_from (skip : nat) (s : string) : string :=
  match s with
  | EmptyString => EmptyString
  | String c s' =>
      match skip with
      | S k => String c (to_valid_from k s')
      | O =>
          let '(r, w) := DecodeRuneInString s in
          if (r =? RuneError) && Nat.eqb w 1
          then replacement +:+ to_valid_from O s'
          else String c (to_valid_from (Nat.pred w) s')
      end
  end.

Definition ToValidUTF8 (s : string) : string := to_valid_from O s.

(** *** Marshal *)

Definition enc_string (s : string) : json := JString (ToValidUTF8 s).

(** A nil slice is written [null], any other slice as an array. *)
Definition enc_slice {A : Type} (f : A -> json) (s : slice A) : json :=
  match s with
  | None => JNull
  | Some l => JArray (map f l)
  end.

(** A string field tagged [omitempty]. *)
Definition omitempty (name : string) (s : string) : list (string * json) :=
  if String.eqb s "" then [] else [(name, enc_string s)].

Definition enc_Column (c : Column.t) : json :=
  JObject
    ([("name", enc_string (Column.Name c));
      ("type", enc_string (Column.Type_ c));
      ("nullable", JBool (Column.Nullable c))]
     ++ omitempty "default" (Column.Default c)
     ++ omitempty "comment" (Column.Comment c)
     ++ [("is_pk", JBool (Column.IsPK c));
         ("is_fk", JBool (Column.IsFK c));
         ("is_unique", JBool (Column.IsUnique c));
         ("is_auto_incr", JBool (Column.IsAutoIncr c))]).

Definition enc_FK (f : FK.t) : json :=
  JObject
    ([("name", enc_string (FK.Name f));
      ("column", enc_string (FK.Column f));
      ("ref_table", enc_string (FK.RefTable f));
      ("ref_column", enc_string (FK.RefColumn f))]
     ++ omitempty "on_delete" (FK.OnDelete f)
     ++ omitempty "on_update" (FK.OnUpdate f)).

Definition enc_Index (i : Index.t) : json :=
  JObject
    [("name", enc_string (Index.Name i));
     ("columns", enc_slice enc_string (Index.Columns i));
     ("is_unique", JBool (Index.IsUnique i));
     ("type", enc_string (Index.Type_ i))].

Definition enc_Table (t : Table.t) : json :=
  JObject
    [("name", enc_string (Table.Name t));
     ("columns", enc_slice enc_Column (Table.Columns t));
     ("primary_key", enc_slice enc_string (Table.PrimaryKey t));
     ("foreign_keys", enc_slice enc_FK (Table.ForeignKeys t));
     ("indexes", enc_slice enc_Index (Table.Indexes t))].

Definition enc_Schema (s : Schema.t) : json :=
  JObject
    [("database", enc_string (Schema.Database s));
     ("tables", enc_slice enc_Table (Schema.Tables s));
     ("db_type", enc_string (Schema.DBType_ s))].

(** *** Unmarshal

    Each decoder stores a value into a destination that already holds
    [cur].  A [null] leaves strings, booleans and records as they are and
    makes a slice nil; a value of the wrong kind is an
    [UnmarshalTypeError] (only the fact of the error is modelled, not its
    text).

    A slice that is stored into keeps its backing array, and an array
    element is decoded into what the backing array holds at its position:
    an element of the slice, or, past the length of the slice, what an
    earlier and longer array has left there (which takes an object with
    several members for the same field), or a zero value.  A destination
    is therefore a record as memory holds it: [held A] is a slice with what
    its backing array holds past its length, and [IndexMem], [TableMem] and
    [SchemaMem] are the records of [pkg/models] with such slices. *)

Record held (A : Type) : Type := Held {
  shown : slice A;
  beyond : list A
}.
Arguments Held {A} shown beyond.
Arguments shown {A} h.
Arguments beyond {A} h.

(** The zero value of a slice type: nil, without a backing array. *)
Definition unheld {A : Type} : held A := Held nil_slice [].

(** The backing array, as far as it has been written. *)
Definition backing {A : Type} (h : held A) : list A := elems (shown h) ++ beyond h.

Module IndexMem.
Record t : Type := mk {
  Name : string;
  Columns : held string;
  IsUnique : bool;
  Type_ : string
}.
Definition zero : t := mk "" unheld false "".
Definition value (x : t) : Index.t :=
  Index.mk (Name x) (shown (Columns x)) (IsUnique x) (Type_ x).
End IndexMem.

Module TableMem.
Record t : Type := mk {
  Name : string;
  Columns : held Column.t;
  PrimaryKey : held string;
  ForeignKeys : held FK.t;
  Indexes : held IndexMem.t
}.
Definition zero : t := mk "" unheld unheld unheld unheld.
Definition value (x : t) : Table.t :=
  Table.mk (Name x) (shown (Columns x)) (shown (PrimaryKey x))
           (shown (ForeignKeys x))
           (option_map (map IndexMem.value) (shown (Indexes x))).
End TableMem.

Module SchemaMem.
Record t : Type := mk {
  Database : string;
  Tables : held TableMem.t;
  DBType_ : DBType
}.
Definition zero : t := mk "" unheld "".
Definition value (x : t) : Schema.t :=
  Schema.mk (Database x) (option_map (map TableMem.value) (shown (Tables x)))
            (DBType_ x).
End SchemaMem.

Definition type_error : string := "json: cannot unmarshal value into Go struct field".

Definition dec_string (cur : string) (j : json) : result string :=
  match j with
  | JString s => Ok s
  | JNull => Ok cur
  | _ => Err type_error
  end.

Definition dec_bool (cur : bool) (j : json) : result bool :=
  match j with
  | JBool b => Ok b
  | JNull => Ok cur
  | _ => Err type_error
  end.

(** The elements of an array are decoded one after the other, each into
    what the backing array [cur] holds at its position, and into a zero
    value where the backing array has not been written. *)
Fixpoint dec_items {A : Type} (dec : A -> json -> result A) (zero : A)
    (cur : list A) (items : list json) : result (list A) :=
  match items with
  | [] => Ok []
  | j :: rest =>
      bind (dec (hd zero cur) j) (fun a =>
      bind (dec_items dec zero (tl cur) rest) (fun l => Ok (a :: l)))
  end.

(** A [null] makes the slice nil and an empty array makes it a new, empty
    slice; both give up the backing array.  Any other array is decoded into
    the backing array, the slice takes the length of the array, and what
    the backing array holds after that stays there. *)
Definition dec_slice {A : Type} (dec : A -> json -> result A) (zero : A)
    (cur : held A) (j : json) : result (held A) :=
  match j with
  | JNull => Ok unheld
  | JArray [] => Ok (Held (Some []) [])
  | JArray items =>
      bind (dec_items dec zero (backing cur) items) (fun l =>
        Ok (Held (Some l) (skipn (length items) (backing cur))))
  | _ => Err type_error
  end.

Fixpoint index_where (p : string -> bool) (names : list string) : option nat :=
  match names with
  | [] => None
  | n :: rest => if p n then Some O else option_map S (index_where p rest)
  end.

(** The field a member name selects: the field with exactly that name, and
    failing that the first whose name equals it under case folding. *)
Definition match_field (names : list string) (key : string) : option nat :=
  match index_where (String.eqb key) names with
  | Some i => Some i
  | None => index_where (fun n => EqualFold n key) names
  end.

(** The members of an object are stored one after the other, in the order
    of the text; a member that selects no field is skipped. *)
Fixpoint dec_members {T : Type} (names : list string)
    (store : T -> nat -> json -> result T) (cur : T)
    (members : list (string * json)) : result T :=
  match members with
  | [] => Ok cur
  | (key, v) :: rest =>
      match match_field names key with
      | Some i => bind (store cur i v) (fun cur' => dec_members names store cur' rest)
      | None => dec_members names store cur rest
      end
  end.

Definition dec_object {T : Type} (names : list string)
    (store : T -> nat -> json -> result T) (cur : T) (j : json) : result T :=
  match j with
  | JObject members => dec_members names store cur members
  | JNull => Ok cur
  | _ => Err type_error
  end.

Definition Column_fields : list string :=
  ["name"; "type"; "nullable"; "default"; "comment"; "is_pk"; "is_fk";
   "is_unique"; "is_auto_incr"].

Definition store_Column (c : Column.t) (i : nat) (v : json) : result Column.t :=
  let '(Column.mk name type nullable default comment isPK isFK isUnique isAutoIncr) := c in
  match i with
  | 0%nat => bind (dec_string name v) (fun x =>
      Ok (Column.mk x type nullable default comment isPK isFK isUnique isAutoIncr))
  | 1%nat => bind (dec_string type v) (fun x =>
      Ok (Column.mk name x nullable default comment isPK isFK isUnique isAutoIncr))
  | 2%nat => bind (dec_bool nullable v) (fun x =>
      Ok (Column.mk name type x default comment isPK isFK isUnique isAutoIncr))
  | 3%nat => bind (dec_string default v) (fun x =>
      Ok (Column.mk name type nullable x comment isPK isFK isUnique isAutoIncr))
  | 4%nat => bind (dec_string comment v) (fun x =>
      Ok (Column.mk name type nullable default x isPK isFK isUnique isAutoIncr))
  | 5%nat => bind (dec_bool isPK v) (fun x =>
      Ok (Column.mk name type nullable default comment x isFK isUnique isAutoIncr))
  | 6%nat => bind (dec_bool isFK v) (fun x =>
      Ok (Column.mk name type nullable default comment isPK x isUnique isAutoIncr))
  | 7%nat => bind (dec_bool isUnique v) (fun x =>
      Ok (Column.mk name type nullable default comment isPK isFK x isAutoIncr))
  | _ => bind (dec_bool isAutoIncr v) (fun x =>
      Ok (Column.mk name type nullable default comment isPK isFK isUnique x))
  end.

Definition dec_Column : Column.t -> json -> result Column.t :=
  dec_object Column_fields store_Column.

Definition FK_fields : list string :=
  ["name"; "column"; "ref_table"; "ref_column"; "on_delete"; "on_update"].

Definition store_FK (f : FK.t) (i : nat) (v : json) : result FK.t :=
  let '(FK.mk name column refTable refColumn onDelete onUpdate) := f in
  match i with
  | 0%nat => bind (dec_string name v) (fun x =>
      Ok (FK.mk x column refTable refColumn onDelete onUpdate))
  | 1%nat => bind (dec_string column v) (fun x =>
      Ok (FK.mk name x refTable refColumn onDelete onUpdate))
  | 2%nat => bind (dec_string refTable v) (fun x =>
      Ok (FK.mk name column x refColumn onDelete onUpdate))
  | 3%nat => bind (dec_string refColumn v) (fun x =>
      Ok (FK.mk name column refTable x onDelete onUpdate))
  | 4%nat => bind (dec_string onDelete v) (fun x =>
      Ok (FK.mk name column refTable refColumn x onUpdate))
  | _ => bind (dec_string onUpdate v) (fun x =>
      Ok (FK.mk name column refTable refColumn onDelete x))
  end.

Definition dec_FK : FK.t -> json -> result FK.t :=
  dec_object FK_fields store_FK.

Definition Index_fields : list string := ["name"; "columns"; "is_unique"; "type"].

Definition store_Index (x : IndexMem.t) (i : nat) (v : json) : result IndexMem.t :=
  let '(IndexMem.mk name columns isUnique type) := x in
  match i with
  | 0%nat => bind (dec_string name v) (fun y => Ok (IndexMem.mk y columns isUnique type))
  | 1%nat => bind (dec_slice dec_string "" columns v) (fun y =>
      Ok (IndexMem.mk name y isUnique type))
  | 2%nat => bind (dec_bool isUnique v) (fun y => Ok (IndexMem.mk name columns y type))
  | _ => bind (dec_string type v) (fun y => Ok (IndexMem.mk name columns isUnique y))
  end.

Definition dec_Index : IndexMem.t -> json -> result IndexMem.t :=
  dec_object Index_fields store_Index.

Definition Table_fields : list string :=
  ["name"; "columns"; "primary_key"; "foreign_keys"; "indexes"].

Definition store_Table (t : TableMem.t) (i : nat) (v : json) : result TableMem.t :=
  let '(TableMem.mk name columns primaryKey foreignKeys indexes) := t in
  match i with
  | 0%nat => bind (dec_string name v) (fun y =>
      Ok (TableMem.mk y columns primaryKey foreignKeys indexes))
  | 1%nat => bind (dec_slice dec_Column Column.zero columns v) (fun y =>
      Ok (TableMem.mk name y primaryKey foreignKeys indexes))
  | 2%nat => bind (dec_slice dec_string "" primaryKey v) (fun y =>
      Ok (TableMem.mk name columns y foreignKeys indexes))
  | 3%nat => bind (dec_slice dec_FK FK.zero foreignKeys v) (fun y =>
      Ok (TableMem.mk name columns primaryKey y indexes))
  | _ => bind (dec_slice dec_Index IndexMem.zero indexes v) (fun y =>
      Ok (TableMem.mk name columns primaryKey foreignKeys y))
  end.

Definition dec_Table : TableMem.t -> json -> result TableMem.t :=
  dec_object Table_fields store_Table.

Definition Schema_fields : list string := ["database"; "tables"; "db_type"].

Definition store_Schema (s : SchemaMem.t) (i : nat) (v : json) : result SchemaMem.t :=
  let '(SchemaMem.mk database tables dbType) := s in
  match i with
  | 0%nat => bind (dec_string database v) (fun y => Ok (SchemaMem.mk y tables dbType))
  | 1%nat => bind (dec_slice dec_Table TableMem.zero tables v) (fun y =>
      Ok (SchemaMem.mk database y dbType))
  | _ => bind (dec_string dbType v) (fun y => Ok (SchemaMem.mk database tables y))
  end.

Definition dec_Schema : SchemaMem.t -> json -> result SchemaMem.t :=
  dec_object Schema_fields store_Schema.

(** What [json.Unmarshal] is given: bytes that are not a JSON text (a
    [SyntaxError]), or a JSON text, standing here for its value. *)
Inductive document : Type :=
| Malformed (syntaxError : string)
| WellFormed (value : json).

(** [json.Unmarshal(data, &schema)] on a freshly declared [schema], and the
    schema that [schema] then is. *)
Definition Unmarshal_Schema (data : document) : result Schema.t :=
  match data with
  | Malformed e => Err e
  | WellFormed value =>
      bind (dec_Schema SchemaMem.zero value) (fun m => Ok (SchemaMem.value m))
  end.

(** [json.MarshalIndent(schema, prefix, indent)]; it cannot fail on these
    records. *)
Definition MarshalIndent_Schema (schema : Schema.t) : result document :=
  Ok (WellFormed (enc_Schema schema)).

End Json.

(** ** internal/schema/parser.go *)

Module SchemaParser.

Import Json.

(** [ParseJSON]: [json.Unmarshal] into a fresh [Schema]; an error is
    wrapped and returned with a nil schema. *)
Definition ParseJSON (data : document) : result Schema.t :=
  match Unmarshal_Schema data with
  | Err e => Err ("JSON 파싱 실패: " +:+ e)
  | Ok schema => Ok schema
  end.

(** [ToJSON]: [json.MarshalIndent(schema, "", "  ")]. *)
Definition ToJSON (schema : Schema.t) : result document :=
  MarshalIndent_Schema schema.

(** The patterns are quoted with the double-quote character written
    [\x22] and with a blank between a star and a closing parenthesis that
    follows it.  [sub m i] is [m[i]]. *)
Definition sub (m : list string) (i : nat) : string := nth i m EmptyString.

(** [(?i)CREATE\s+TABLE\s+(?:IF\s+NOT\s+EXISTS\s+)?[`\x22'\[]?(\w+)[`\x22'\]]?\s*\(([\s\S]*?)\)] *)
Definition tablePattern : Regexp :=
  MustCompile
    (cat [str_i "CREATE"; plus ws; str_i "TABLE"; plus ws;
          quest (cat [str_i "IF"; plus ws; str_i "NOT"; plus ws;
                      str_i "EXISTS"; plus ws]);
          open_quote; Cap 1 (plus word_i); close_quote; star ws;
          chr LPAREN; Cap 2 (lazy_star any); chr RPAREN])
    2.

(** [^\s*[`\x22'\[]?(\w+)[`\x22'\]]?\s+(\w+(?:\([^)]+\))?)\s*(.* )$] *)
Definition columnPattern : Regexp :=
  MustCompile
    (cat [BeginText; star ws; open_quote; Cap 1 (plus word); close_quote;
          plus ws;
          Cap 2 (cat [plus word;
                      quest (cat [chr LPAREN; plus not_rparen; chr RPAREN])]);
          star ws; Cap 3 (star dot); EndText])
    3.

(** [(?i)DEFAULT\s+([^\s,]+)] *)
Definition defaultPattern : Regexp :=
  MustCompile
    (cat [str_i "DEFAULT"; plus ws;
          Cap 1 (plus (Class (none_of (space_ranges ++ [(COMMA, COMMA)]))))])
    1.

(** [(?i)COMMENT\s+'([^']* )'] *)
Definition commentPattern : Regexp :=
  MustCompile
    (cat [str_i "COMMENT"; plus ws; chr SQUOTE;
          Cap 1 (star (Class (none_of [(SQUOTE, SQUOTE)]))); chr SQUOTE])
    1.

(** [(?i)PRIMARY\s+KEY\s*\(([^)]+)\)] *)
Definition pkPattern : Regexp :=
  MustCompile
    (cat [str_i "PRIMARY"; plus ws; str_i "KEY"; star ws; chr LPAREN;
          Cap 1 (plus not_rparen); chr RPAREN])
    1.

(** [(?i)(?:CONSTRAINT\s+(\w+)\s+)?FOREIGN\s+KEY\s*\([`\x22'\[]?(\w+)[`\x22'\]]?\)\s*REFERENCES\s+[`\x22'\[]?(\w+)[`\x22'\]]?\s*\([`\x22'\[]?(\w+)[`\x22'\]]?\)] *)
Definition fkPattern : Regexp :=
  MustCompile
    (cat [quest (cat [str_i "CONSTRAINT"; plus ws; Cap 1 (plus word_i); plus ws]);
          str_i "FOREIGN"; plus ws; str_i "KEY"; star ws;
          chr LPAREN; open_quote; Cap 2 (plus word_i); close_quote; chr RPAREN;
          star ws; str_i "REFERENCES"; plus ws;
          open_quote; Cap 3 (plus word_i); close_quote; star ws;
          chr LPAREN; open_quote; Cap 4 (plus word_i); close_quote; chr RPAREN])
    4.

(** [(?i)CREATE\s+(UNIQUE\s+)?INDEX\s+[`\x22'\[]?(\w+)[`\x22'\]]?\s+ON\s+[`\x22'\[]?(\w+)[`\x22'\]]?\s*\(([^)]+)\)] *)
Definition indexPattern : Regexp :=
  MustCompile
    (cat [str_i "CREATE"; plus ws;
          quest (Cap 1 (cat [str_i "UNIQUE"; plus ws]));
          str_i "INDEX"; plus ws;
          open_quote; Cap 2 (plus word_i); close_quote; plus ws;
          str_i "ON"; plus ws;
          open_quote; Cap 3 (plus word_i); close_quote; star ws;
          chr LPAREN; Cap 4 (plus not_rparen); chr RPAREN])
    4.

(** The five quoting characters stripped by [strings.Trim]. *)
Definition quote_cutset : string :=
  String (byte_of BACKTICK) (String (byte_of DQUOTE) "'[]").

Definition is_constraint_line (upperLine : string) : bool :=
  HasPrefix upperLine "PRIMARY KEY"
  || HasPrefix upperLine "FOREIGN KEY"
  || HasPrefix upperLine "CONSTRAINT"
  || HasPrefix upperLine "INDEX"
  || HasPrefix upperLine "KEY"
  || HasPrefix upperLine "UNIQUE".

(** The body of the loop of [parseColumns] over the comma-separated
    pieces. *)
Definition parseColumns_line (columns : slice Column.t) (line : string)
  : slice Column.t :=
  let line := TrimSpace line in
  let upperLine := ToUpper line in
  if is_constraint_line upperLine then columns
  else
    let m := FindStringSubmatch columnPattern line in
    if (length m <? 3)%nat then columns
    else
      let name := sub m 1 in
      let type := sub m 2 in
      let constraints := ToUpper (sub m 3) in
      let nullable := negb (Contains constraints "NOT NULL") in
      let isPK := Contains constraints "PRIMARY KEY" in
      let isUnique := Contains constraints "UNIQUE" in
      let isAutoIncr :=
        Contains constraints "AUTO_INCREMENT"
        || Contains (ToUpper type) "SERIAL"
        || Contains constraints "IDENTITY" in
      let defaultMatch := FindStringSubmatch defaultPattern (sub m 3) in
      let default :=
        if (1 <? length defaultMatch)%nat then sub defaultMatch 1 else "" in
      let commentMatch := FindStringSubmatch commentPattern (sub m 3) in
      let comment :=
        if (1 <? length commentMatch)%nat then sub commentMatch 1 else "" in
      append columns
        (Column.mk name type nullable default comment isPK false isUnique isAutoIncr).

Definition parseColumns (columnsDef : string) (dbType : DBType)
  : slice Column.t :=
  fold_left parseColumns_line (Split columnsDef ",") nil_slice.

Definition parsePrimaryKey (columnsDef : string) : slice string :=
  let m := FindStringSubmatch pkPattern columnsDef in
  if (length m <? 2)%nat then nil_slice
  else
    fold_left
      (fun pks col =>
         let col := TrimSpace col in
         let col := Trim col quote_cutset in
         if negb (String.eqb col "") then append pks col else pks)
      (Split (sub m 1) ",") nil_slice.

Definition parseForeignKeys (columnsDef : string) : slice FK.t :=
  fold_left
    (fun fks m =>
       let name :=
         if negb (String.eqb (sub m 1) "") then sub m 1
         else "fk_" +:+ sub m 2 +:+ "_" +:+ sub m 3 in
       append fks (FK.mk name (sub m 2) (sub m 3) (sub m 4) "" ""))
    (FindAllStringSubmatch fkPattern columnsDef) nil_slice.

(** The column list of one [CREATE INDEX] match. *)
Definition index_columns (columnStr : string) : slice string :=
  fold_left
    (fun columns col =>
       let col := TrimSpace col in
       let col := Trim col quote_cutset in
       let col := nth 0 (Split col " ") EmptyString in
       if negb (String.eqb col "") then append columns col else columns)
    (Split columnStr ",") nil_slice.

(** The [Index] built from one [CREATE INDEX] match. *)
Definition index_of_match (m : list string) : Index.t :=
  Index.mk (sub m 2) (index_columns (sub m 4))
           (negb (String.eqb (TrimSpace (sub m 1)) "")) "BTREE".

Definition add_index (t : Table.t) (idx : Index.t) : Table.t :=
  Table.mk (Table.Name t) (Table.Columns t) (Table.PrimaryKey t)
           (Table.ForeignKeys t) (append (Table.Indexes t) idx).

(** The inner loop of [parseIndexes]: the index goes to the first table
    whose name equals [tableName] up to case, and the loop stops there. *)
Fixpoint attach_index (tables : list Table.t) (tableName : string)
    (idx : Index.t) : list Table.t :=
  match tables with
  | [] => []
  | t :: rest =>
      if EqualFold (Table.Name t) tableName
      then add_index t idx :: rest
      else t :: attach_index rest tableName idx
  end.

Definition set_Tables (s : Schema.t) (tables : slice Table.t) : Schema.t :=
  Schema.mk (Schema.Database s) tables (Schema.DBType_ s).

Definition parseIndexes_match (schema : Schema.t) (m : list string) : Schema.t :=
  if (length m <? 5)%nat then schema
  else
    match Schema.Tables schema with
    | None => schema
    | Some tables =>
        set_Tables schema
          (Some (attach_index tables (sub m 3) (index_of_match m)))
    end.

(** [parseIndexes] updates the schema in place; here it returns it. *)
Definition parseIndexes (ddl : string) (schema : Schema.t) : Schema.t :=
  fold_left parseIndexes_match (FindAllStringSubmatch indexPattern ddl) schema.

(** The table built from one [CREATE TABLE] match. *)
Definition table_of_match (m : list string) (dbType : DBType) : Table.t :=
  let tableName := sub m 1 in
  let columnsDef := sub m 2 in
  Table.mk tableName (parseColumns columnsDef dbType)
           (parsePrimaryKey columnsDef) (parseForeignKeys columnsDef)
           nil_slice.

Definition ParseDDL_match (dbType : DBType) (schema : Schema.t)
    (m : list string) : Schema.t :=
  if (length m <? 3)%nat then schema
  else set_Tables schema
         (append (Schema.Tables schema) (table_of_match m dbType)).

Definition ParseDDL (ddl : string) (dbType : DBType) : result Schema.t :=
  let schema := Schema.mk "" (lit []) dbType in
  let matches := FindAllStringSubmatch tablePattern ddl in
  let schema := fold_left (ParseDDL_match dbType) matches schema in
  let schema := parseIndexes ddl schema in
  Ok schema.

End SchemaParser.

(** ** internal/db: folding metadata rows into indexes and foreign keys *)

Module DB.

Import SchemaParser.

(** What the driver hands over: the query may fail, and so may the [Scan]
    of any row. *)
Inductive scanned (R : Type) : Type :=
| Scanned (r : R)
| ScanError (e : string).
Arguments Scanned {R} r.
Arguments ScanError {R} e.

Inductive query_result (R : Type) : Type :=
| QueryError (e : string)
| Rows (rows : list (scanned R)).
Arguments QueryError {R} e.
Arguments Rows {R} rows.

(** One row of an index query: index name, column name, the dialect's
    uniqueness column, index type. *)
Record IndexRow (U : Type) : Type := mk_IndexRow {
  indexName : string;
  columnName : string;
  uniqueness : U;
  indexType : string
}.
Arguments mk_IndexRow {U} _ _ _ _.
Arguments indexName {U} _.
Arguments columnName {U} _.
Arguments uniqueness {U} _.
Arguments indexType {U} _.

Definition add_column (idx : Index.t) (columnName : string) : Index.t :=
  Index.mk (Index.Name idx) (append (Index.Columns idx) columnName)
           (Index.IsUnique idx) (Index.Type_ idx).

Section GetIndexes.

(** The dialect's test on the uniqueness column. *)
Context {U : Type} (is_unique : U -> bool).

(** The order in which [for _, idx := range indexMap] visits the entries;
    Go leaves it unspecified, so it is a parameter. *)
Variable range_order : gmap string Index.t -> list (string * Index.t).

(** The body of the [rows.Next()] loop, on the map of index records. *)
Definition index_row (indexMap : gmap string Index.t) (row : IndexRow U)
  : gmap string Index.t :=
  match indexMap !! indexName row with
  | Some idx => <[indexName row := add_column idx (columnName row)]> indexMap
  | None =>
      <[indexName row :=
          Index.mk (indexName row) (lit [columnName row])
                   (is_unique (uniqueness row)) (indexType row)]> indexMap
  end.

Fixpoint index_rows (rows : list (scanned (IndexRow U)))
    (indexMap : gmap string Index.t) : result (gmap string Index.t) :=
  match rows with
  | [] => Ok indexMap
  | ScanError e :: _ => Err e
  | Scanned row :: rest => index_rows rest (index_row indexMap row)
  end.

Definition getIndexes (q : query_result (IndexRow U)) : result (slice Index.t) :=
  match q with
  | QueryError e => Err e
  | Rows rows =>
      match index_rows rows ∅ with
      | Err e => Err e
      | Ok indexMap =>
          Ok (fold_left (fun indexes kv => append indexes (snd kv))
                        (range_order indexMap) nil_slice)
      end
  end.

End GetIndexes.

(** MySQL: [NON_UNIQUE] is an integer, unique when it is 0. *)
Definition MySQL_getIndexes := getIndexes (fun nonUnique : Z => nonUnique =? 0).

(** Oracle: [uniqueness] is a string, unique when it is [UNIQUE]. *)
Definition Oracle_getIndexes :=
  getIndexes (fun uniqueness : string => String.eqb uniqueness "UNIQUE").

(** PostgreSQL and SQL Server: the column is already a boolean. *)
Definition Postgres_getIndexes := getIndexes (fun isUnique : bool => isUnique).
Definition SQLServer_getIndexes := getIndexes (fun isUnique : bool => isUnique).

(** One row of a foreign-key query.  The Oracle connector scans the two
    reference columns into [sql.NullString], so they may be NULL; the other
    connectors scan them into strings, where a NULL is a [Scan] error, so
    their scanned rows always carry both. *)
Record FKRow : Type := mk_FKRow {
  constraintName : string;
  fkColumn : string;
  refTable : option string;
  refColumn : option string
}.

Definition null_string (s : option string) : string :=
  match s with
  | Some v => v
  | None => EmptyString
  end.

Definition fk_of_row (row : FKRow) : FK.t :=
  FK.mk (constraintName row) (fkColumn row) (null_string (refTable row))
        (null_string (refColumn row)) "" "".

Fixpoint fk_rows (rows : list (scanned FKRow)) (fks : slice FK.t)
  : result (slice FK.t) :=
  match rows with
  | [] => Ok fks
  | ScanError e :: _ => Err e
  | Scanned row :: rest => fk_rows rest (append fks (fk_of_row row))
  end.

(** [getForeignKeys]: one record per row, appended in the order of the
    rows. *)
Definition getForeignKeys (q : query_result FKRow) : result (slice FK.t) :=
  match q with
  | QueryError e => Err e
  | Rows rows => fk_rows rows nil_slice
  end.

End DB.

(** ** The texts of the documented examples *)

Module Examples.

(** The generation-mode reply of the specification's example. *)
Definition generation_reply : string :=
  "SQL:" +:+ LF +:+ "SELECT 1" +:+ LF +:+ LF +:+
  "설명:" +:+ LF +:+ "ok" +:+ LF +:+ LF +:+
  "최적화 팁:" +:+ LF +:+ "- use index" +:+ LF +:+ "- avoid scan".

(** An issue line whose fields carry English labels. *)
Definition issue_line_english : string :=
  "- [warning] missing index | location: users.email | suggestion: add index".

(** An issue line whose fields start with the labels of the prompt. *)
Definition issue_line_labelled : string :=
  "- [warning] missing index |위치: users.email |해결: add index".

Definition ddl_decimal : string :=
  "CREATE TABLE b (x INT, y DECIMAL(10,2) DEFAULT 0.00)".

Definition ddl_two_columns : string :=
  "CREATE TABLE t (id INT PRIMARY KEY AUTO_INCREMENT, name VARCHAR(100) NOT NULL)".

Definition ddl_users : string := "CREATE TABLE users (id INT, email TEXT);".

Definition ddl_index : string := "CREATE UNIQUE INDEX idx_e ON users (email);".

Definition ddl_table_then_index : string := ddl_users +:+ LF +:+ ddl_index.

Definition ddl_index_then_table : string := ddl_index +:+ LF +:+ ddl_users.

(** Two tables whose names differ by case only, then the index. *)
Definition ddl_two_users : string :=
  "CREATE TABLE USERS (a INT);" +:+ LF +:+ ddl_users +:+ LF +:+ ddl_index.

Definition idx_e : Index.t := Index.mk "idx_e" (lit ["email"]) true "BTREE".

End Examples.

(** ** Vocabulary of the statements about the matcher *)

Module MatcherTerms.

(** A continuation is used only at positions reachable from the current
    one: some bytes further on, with the text shortened by as many. *)
Definition reachable (pos : nat) (rest : string) (pos' : nat) (rest' : string) : Prop :=
  exists n, pos' = (pos + n)%nat
            /\ (n <= String.length rest)%nat
            /\ rest' = drop_bytes n rest.

Definition agree_from (pos : nat) (rest : string) (k k' : continuation) : Prop :=
  forall pos' rest' caps',
    reachable pos rest pos' rest' -> k pos' rest' caps' = k' pos' rest' caps'.

(** The continuation at the end of a match. *)
Definition final : continuation := fun e _ caps => Some (e, caps).

(** Leaving the body: the closing parenthesis ends group 2 where it
    stands. *)
Definition leave_body (p0 : nat) : continuation :=
  fun pos' rest' caps' =>
    exec (chr RPAREN) pos' rest' ((2%nat, (p0, pos')) :: caps') final.

End MatcherTerms.

(** ** Vocabulary of the statements about replies *)

Module ReplyTerms.

Import AI.

(** The line, once trimmed, starts with the header. *)
Definition has_header (header line : string) : bool :=
  HasPrefix (TrimSpace line) header.

(** No line of the reply starts with the header. *)
Definition omits_header (header response : string) : bool :=
  forallb (fun line => negb (has_header header line)) (Split response LF).

(** The token of a score line does not scan as an integer, or the integer
    lies outside 1..100. *)
Definition score_unusable (line : string) : bool :=
  match Sscanf_d (score_token (TrimSpace line)) with
  | None => true
  | Some n => (n <=? 0) || (100 <? n)
  end.

(** Properties of the loop state that every iteration keeps, provided the
    line read satisfies [Q]. *)
Definition kept_on (originalQuery : string) (Q : string -> Prop)
    (P : QueryValidation.t * string -> Prop) : Prop :=
  forall st line, Q line -> P st -> P (validation_line originalQuery st line).

End ReplyTerms.

(** ** Vocabulary of the statements about the DDL parser *)

Module DDLTerms.

Import SchemaParser.

(** The tables as the first pass builds them, before any index is
    attached. *)
Definition parsed_tables (ddl : string) (dbType : DBType) : list Table.t :=
  map (fun m => table_of_match m dbType) (FindAllStringSubmatch tablePattern ddl).

(** What the second pass may change in a table: nothing but its index list,
    which keeps the entries it has. *)
Definition grown (t t' : Table.t) : Prop :=
  Table.Name t' = Table.Name t
  /\ Table.Columns t' = Table.Columns t
  /\ Table.PrimaryKey t' = Table.PrimaryKey t
  /\ Table.ForeignKeys t' = Table.ForeignKeys t
  /\ forall idx, In idx (elems (Table.Indexes t)) -> In idx (elems (Table.Indexes t')).

Definition plain_column (name type : string) : Column.t :=
  Column.mk name type true "" "" false false false false.

Definition users_table : Table.t :=
  Table.mk "users" (lit [plain_column "id" "INT"; plain_column "email" "TEXT"])
           nil_slice nil_slice nil_slice.

Definition index_match : list string :=
  ["CREATE UNIQUE INDEX idx_e ON users (email)"; "UNIQUE "; "idx_e"; "users"; "email"].

End DDLTerms.

(** ** Vocabulary of the statements about the row folds *)

Module RowTerms.

Import DB.

Section IndexRows.

Context {U : Type} (is_unique : U -> bool).

(** The rows of one index, in the order supplied. *)
Definition rows_of (name : string) (rows : list (IndexRow U)) : list (IndexRow U) :=
  List.filter (fun r => String.eqb (indexName r) name) rows.

(** The record of an index after further rows of that index. *)
Definition extended (cur : option Index.t) (name : string)
    (rs : list (IndexRow U)) : option Index.t :=
  match cur, rs with
  | Some idx, _ => Some (fold_left add_column (map columnName rs) idx)
  | None, [] => None
  | None, r :: rs' =>
      Some (fold_left add_column (map columnName rs')
              (Index.mk name (lit [columnName r]) (is_unique (uniqueness r))
                        (indexType r)))
  end.

End IndexRows.

End RowTerms.

(** ** Vocabulary of the statements about JSON documents *)

Module JsonTerms.

Import Json.

(** The record that comes back: the same, with every string made
    well-formed UTF-8. *)
Definition norm_slice {A : Type} (f : A -> A) (s : slice A) : slice A :=
  option_map (map f) s.

Definition norm_Column (c : Column.t) : Column.t :=
  Column.mk (ToValidUTF8 (Column.Name c)) (ToValidUTF8 (Column.Type_ c))
            (Column.Nullable c) (ToValidUTF8 (Column.Default c))
            (ToValidUTF8 (Column.Comment c)) (Column.IsPK c) (Column.IsFK c)
            (Column.IsUnique c) (Column.IsAutoIncr c).

Definition norm_FK (f : FK.t) : FK.t :=
  FK.mk (ToValidUTF8 (FK.Name f)) (ToValidUTF8 (FK.Column f))
        (ToValidUTF8 (FK.RefTable f)) (ToValidUTF8 (FK.RefColumn f))
        (ToValidUTF8 (FK.OnDelete f)) (ToValidUTF8 (FK.OnUpdate f)).

Definition norm_Index (i : Index.t) : Index.t :=
  Index.mk (ToValidUTF8 (Index.Name i)) (norm_slice ToValidUTF8 (Index.Columns i))
           (Index.IsUnique i) (ToValidUTF8 (Index.Type_ i)).

Definition norm_Table (t : Table.t) : Table.t :=
  Table.mk (ToValidUTF8 (Table.Name t)) (norm_slice norm_Column (Table.Columns t))
           (norm_slice ToValidUTF8 (Table.PrimaryKey t))
           (norm_slice norm_FK (Table.ForeignKeys t))
           (norm_slice norm_Index (Table.Indexes t)).

Definition norm_Schema (s : Schema.t) : Schema.t :=
  Schema.mk (ToValidUTF8 (Schema.Database s)) (norm_slice norm_Table (Schema.Tables s))
            (ToValidUTF8 (Schema.DBType_ s)).

(** A record in memory none of whose backing arrays holds anything past
    the length of its slice. *)
Definition held_of {A : Type} (s : slice A) : held A := Held s [].

Definition mem_Index (i : Index.t) : IndexMem.t :=
  IndexMem.mk (Index.Name i) (held_of (Index.Columns i)) (Index.IsUnique i)
              (Index.Type_ i).

Definition mem_Table (t : Table.t) : TableMem.t :=
  TableMem.mk (Table.Name t) (held_of (Table.Columns t))
              (held_of (Table.PrimaryKey t)) (held_of (Table.ForeignKeys t))
              (held_of (option_map (map mem_Index) (Table.Indexes t))).

Definition mem_Schema (s : Schema.t) : SchemaMem.t :=
  SchemaMem.mk (Schema.Database s)
               (held_of (option_map (map mem_Table) (Schema.Tables s)))
               (Schema.DBType_ s).

(** A complete schema document in the documented form, whose only column
    spells out an empty default and an empty comment. *)
Definition explicit_defaults : json :=
  JObject
    [("database", JString "shop");
     ("tables",
      JArray
        [JObject
           [("name", JString "t");
            ("columns",
             JArray
               [JObject
                  [("name", JString "id"); ("type", JString "INT");
                   ("nullable", JBool false); ("default", JString "");
                   ("comment", JString ""); ("is_pk", JBool true);
                   ("is_fk", JBool false); ("is_unique", JBool false);
                   ("is_auto_incr", JBool true)]]);
            ("primary_key", JArray [JString "id"]);
            ("foreign_keys", JArray []);
            ("indexes", JArray [])]]);
     ("db_type", JString "mysql")].

End JsonTerms.

(** ** internal/schema/parser.go: writing a schema as DDL *)

Module DDLWriter.

Definition BACKTICK_s : string := String (byte_of BACKTICK) EmptyString.
Definition DQUOTE_s : string := String (byte_of DQUOTE) EmptyString.

(** The writer puts the result of [strings.ToUpper] into its text.  The
    function belongs to the standard library, not to the sources, and the
    model [ToUpper] above follows it on ASCII text only; the writer is
    therefore defined over the function itself, here [upper]. *)
Section Writer.

Variable upper : string -> string.

(** [quote]: the identifier in the dialect's quoting; Oracle names are
    upper-cased, an unknown dialect leaves the name as it is. *)
Definition quote (name : string) (dbType : DBType) : string :=
  if String.eqb dbType MySQL then BACKTICK_s +:+ name +:+ BACKTICK_s
  else if String.eqb dbType PostgreSQL then DQUOTE_s +:+ name +:+ DQUOTE_s
  else if String.eqb dbType SQLServer then "[" +:+ name +:+ "]"
  else if String.eqb dbType Oracle then DQUOTE_s +:+ upper name +:+ DQUOTE_s
  else name.

(** The definition line of one column. *)
Definition column_def (dbType : DBType) (col : Column.t) : string :=
  let colDef := "  " +:+ quote (Column.Name col) dbType +:+ " " +:+ Column.Type_ col in
  let colDef := if negb (Column.Nullable col) then colDef +:+ " NOT NULL" else colDef in
  let colDef :=
    if Column.IsAutoIncr col then
      if String.eqb dbType MySQL then colDef +:+ " AUTO_INCREMENT"
      else if String.eqb dbType SQLServer then colDef +:+ " IDENTITY(1,1)"
      else colDef
    else colDef in
  if negb (String.eqb (Column.Default col) "")
  then colDef +:+ " DEFAULT " +:+ Column.Default col
  else colDef.

Definition pk_def (dbType : DBType) (primaryKey : slice string) : string :=
  "  PRIMARY KEY ("
  +:+ Join (map (fun pk => quote pk dbType) (elems primaryKey)) ", " +:+ ")".

Definition fk_def (dbType : DBType) (fk : FK.t) : string :=
  "  CONSTRAINT " +:+ quote (FK.Name fk) dbType
  +:+ " FOREIGN KEY (" +:+ quote (FK.Column fk) dbType
  +:+ ") REFERENCES " +:+ quote (FK.RefTable fk) dbType
  +:+ "(" +:+ quote (FK.RefColumn fk) dbType +:+ ")".

(** The slice [columnDefs] once the three loops have run. *)
Definition column_defs (dbType : DBType) (table : Table.t) : list string :=
  map (column_def dbType) (elems (Table.Columns table))
  ++ (if (0 <? len (Table.PrimaryKey table))%nat
      then [pk_def dbType (Table.PrimaryKey table)] else [])
  ++ map (fk_def dbType) (elems (Table.ForeignKeys table)).

(** The body of the loop over the indexes of a table, on the text built so
    far. *)
Definition index_ddl (dbType : DBType) (table : Table.t) (sb : string)
    (idx : Index.t) : string :=
  if String.eqb (Index.Name idx) "PRIMARY" then sb
  else
    let unique := if Index.IsUnique idx then "UNIQUE " else "" in
    sb +:+ "CREATE " +:+ unique +:+ "INDEX " +:+ quote (Index.Name idx) dbType
       +:+ " ON " +:+ quote (Table.Name table) dbType
       +:+ " (" +:+ Join (map (fun col => quote col dbType) (elems (Index.Columns idx))) ", "
       +:+ ");" +:+ LF.

(** The body of the loop over the tables. *)
Definition table_ddl (dbType : DBType) (sb : string) (table : Table.t) : string :=
  let sb := sb +:+ "CREATE TABLE " +:+ quote (Table.Name table) dbType +:+ " (" +:+ LF in
  let sb := sb +:+ Join (column_defs dbType table) ("," +:+ LF) in
  let sb := sb +:+ LF +:+ ");" +:+ LF +:+ LF in
  fold_left (index_ddl dbType table) (elems (Table.Indexes table)) sb.

Definition GenerateDDL (schema : Schema.t) : string :=
  fold_left (table_ddl (Schema.DBType_ schema)) (elems (Schema.Tables schema))
            EmptyString.

End Writer.

End DDLWriter.

(** ** Package [ai]: the schema as it is written into a prompt *)

Module Prompt.

Definition column_flags (col : Column.t) : string :=
  let flags := "" in
  let flags := if Column.IsPK col then flags +:+ " [PK]" else flags in
  let flags := if Column.IsFK col then flags +:+ " [FK]" else flags in
  if Column.IsUnique col then flags +:+ " [UNIQUE]" else flags.

Definition column_line (sb : string) (col : Column.t) : string :=
  sb +:+ "  - " +:+ Column.Name col +:+ " " +:+ Column.Type_ col
     +:+ column_flags col +:+ LF.

Definition index_line (sb : string) (idx : Index.t) : string :=
  sb +:+ "  - " +:+ Index.Name idx
     +:+ " (" +:+ Join (elems (Index.Columns idx)) ", " +:+ ")" +:+ LF.

Definition fk_line (sb : string) (fk : FK.t) : string :=
  sb +:+ "  - " +:+ FK.Column fk +:+ " -> " +:+ FK.RefTable fk
     +:+ "." +:+ FK.RefColumn fk +:+ LF.

(** The body of the loop of [formatSchema] over the tables. *)
Definition table_text (sb : string) (table : Table.t) : string :=
  let sb := sb +:+ "테이블: " +:+ Table.Name table +:+ LF in
  let sb := sb +:+ "컬럼:" +:+ LF in
  let sb := fold_left column_line (elems (Table.Columns table)) sb in
  let sb :=
    if (0 <? len (Table.Indexes table))%nat
    then fold_left index_line (elems (Table.Indexes table)) (sb +:+ "인덱스:" +:+ LF)
    else sb in
  let sb :=
    if (0 <? len (Table.ForeignKeys table))%nat
    then fold_left fk_line (elems (Table.ForeignKeys table)) (sb +:+ "외래키:" +:+ LF)
    else sb in
  sb +:+ LF.

Definition formatSchema (schema : Schema.t) : string :=
  fold_left table_text (elems (Schema.Tables schema)) EmptyString.

End Prompt.

(** ** internal/db: reading a schema from a live database *)

Module Connectors.

Import DB.

(** The loop [for rows.Next()] that scans a row, makes one value of it and
    appends it; a [Scan] error ends the function with that error. *)
Fixpoint scan_rows {R A : Type} (f : R -> A) (rows : list (scanned R))
    (acc : slice A) : result (slice A) :=
  match rows with
  | [] => Ok acc
  | ScanError e :: _ => Err e
  | Scanned row :: rest => scan_rows f rest (append acc (f row))
  end.

Definition collect {R A : Type} (f : R -> A) (q : query_result R)
  : result (slice A) :=
  match q with
  | QueryError e => Err e
  | Rows rows => scan_rows f rows nil_slice
  end.

(** [getTables] and [getPrimaryKeys] are the same loop in the four
    connectors: one string per row. *)
Definition getTables (q : query_result string) : result (slice string) :=
  collect (fun name => name) q.

Definition getPrimaryKeys (q : query_result string) : result (slice string) :=
  collect (fun pk => pk) q.

(** One row of the MySQL column query; the default and the comment are
    scanned into [sql.NullString]. *)
Record MySQLColumnRow : Type := mk_MySQLColumnRow {
  my_name : string;
  my_type : string;
  my_nullable : string;
  my_defaultVal : option string;
  my_columnKey : string;
  my_extra : string;
  my_comment : option string
}.

Definition MySQL_column (row : MySQLColumnRow) : Column.t :=
  Column.mk (my_name row) (my_type row)
            (String.eqb (my_nullable row) "YES")
            (null_string (my_defaultVal row))
            (null_string (my_comment row))
            (String.eqb (my_columnKey row) "PRI")
            (String.eqb (my_columnKey row) "MUL")
            (String.eqb (my_columnKey row) "UNI")
            (Contains (my_extra row) "auto_increment").

Definition MySQL_getColumns (q : query_result MySQLColumnRow)
  : result (slice Column.t) :=
  collect MySQL_column q.

Record OracleColumnRow : Type := mk_OracleColumnRow {
  ora_name : string;
  ora_type : string;
  ora_nullable : string;
  ora_defaultVal : option string;
  ora_isPK : string
}.

Definition Oracle_column (row : OracleColumnRow) : Column.t :=
  Column.mk (ora_name row) (ora_type row)
            (String.eqb (ora_nullable row) "Y")
            (null_string (ora_defaultVal row))
            ""
            (String.eqb (ora_isPK row) "Y")
            false false false.

Definition Oracle_getColumns (q : query_result OracleColumnRow)
  : result (slice Column.t) :=
  collect Oracle_column q.

(** PostgreSQL: the two key flags are scanned straight into the column. *)
Record PostgresColumnRow : Type := mk_PostgresColumnRow {
  pg_name : string;
  pg_type : string;
  pg_nullable : string;
  pg_defaultVal : option string;
  pg_isPK : bool;
  pg_isFK : bool
}.

Definition Postgres_column (row : PostgresColumnRow) : Column.t :=
  Column.mk (pg_name row) (pg_type row)
            (String.eqb (pg_nullable row) "YES")
            (null_string (pg_defaultVal row))
            ""
            (pg_isPK row) (pg_isFK row) false
            (match pg_defaultVal row with
             | Some d => Contains d "nextval"
             | None => false
             end).

Definition Postgres_getColumns (q : query_result PostgresColumnRow)
  : result (slice Column.t) :=
  collect Postgres_column q.

Record SQLServerColumnRow : Type := mk_SQLServerColumnRow {
  ms_name : string;
  ms_type : string;
  ms_nullable : string;
  ms_defaultVal : option string;
  ms_isPK : Z;
  ms_isIdentity : Z
}.

Definition SQLServer_column (row : SQLServerColumnRow) : Column.t :=
  Column.mk (ms_name row) (ms_type row)
            (String.eqb (ms_nullable row) "YES")
            (null_string (ms_defaultVal row))
            ""
            (ms_isPK row =? 1) false false (ms_isIdentity row =? 1).

Definition SQLServer_getColumns (q : query_result SQLServerColumnRow)
  : result (slice Column.t) :=
  collect SQLServer_column q.

(** [ExtractSchema] is the same function in the four connectors, up to the
    dialect tag, the row types and the argument handed to the per-table
    queries (Oracle upper-cases the table name).  The database is
    represented by what its queries answer. *)
Section ExtractSchema.

Context {C U : Type}.

Variable dbType : DBType.
Variable column_of_row : C -> Column.t.
Variable is_unique : U -> bool.
Variable range_order : gmap string Index.t -> list (string * Index.t).
Variable table_arg : string -> string.

Record database : Type := mk_database {
  config_Database : string;
  tables_query : query_result string;
  columns_query : string -> query_result C;
  indexes_query : string -> query_result (IndexRow U);
  fks_query : string -> query_result FKRow;
  pks_query : string -> query_result string
}.

(** The body of the loop over the table names, up to the [append]. *)
Definition extract_table (db : database) (tableName : string) : result Table.t :=
  bind (collect column_of_row (columns_query db (table_arg tableName))) (fun columns =>
  bind (getIndexes is_unique range_order (indexes_query db (table_arg tableName))) (fun indexes =>
  bind (getForeignKeys (fks_query db (table_arg tableName))) (fun fks =>
  bind (getPrimaryKeys (pks_query db (table_arg tableName))) (fun pks =>
  Ok (Table.mk tableName columns pks fks indexes))))).

Fixpoint extract_tables (db : database) (tables : list string)
    (schema : Schema.t) : result Schema.t :=
  match tables with
  | [] => Ok schema
  | tableName :: rest =>
      bind (extract_table db tableName) (fun table =>
      extract_tables db rest
        (Schema.mk (Schema.Database schema)
                   (append (Schema.Tables schema) table)
                   (Schema.DBType_ schema)))
  end.

Definition ExtractSchema (db : database) : result Schema.t :=
  let schema := Schema.mk (config_Database db) (lit []) dbType in
  bind (getTables (tables_query db)) (fun tables =>
  extract_tables db (elems tables) schema).

End ExtractSchema.

Arguments database : clear implicits.
Arguments mk_database {C U} _ _ _ _ _ _.
Arguments config_Database {C U} _.
Arguments tables_query {C U} _.
Arguments columns_query {C U} _.
Arguments indexes_query {C U} _.
Arguments fks_query {C U} _.
Arguments pks_query {C U} _.


Definition Postgres_ExtractSchema :=
  ExtractSchema PostgreSQL Postgres_column (fun isUnique : bool => isUnique).

Definition Oracle_ExtractSchema :=
  ExtractSchema Oracle Oracle_column
                (fun uniqueness : string => String.eqb uniqueness "UNIQUE").

Definition SQLServer_ExtractSchema :=
  ExtractSchema SQLServer SQLServer_column (fun isUnique : bool => isUnique).

End Connectors.

(** ** Vocabulary of the statements about strings and loops over them *)

Module StringTerms.

(** Every byte of [q] belongs to the cutset. *)
Fixpoint all_in_cutset (cutset q : string) : bool :=
  match q with
  | EmptyString => true
  | String c q' => in_cutset cutset c && all_in_cutset cutset q'
  end.

(** A loop that only appends to the text built so far. *)
Definition appends {X : Type} (step : string -> X -> string) : Prop :=
  forall sb x, step sb x = sb +:+ step "" x.

End StringTerms.

(** ** Vocabulary of the statements about the DDL writer *)

Module WriterTerms.

Import DDLWriter.

(** What [GenerateDDL] reads of a schema: of a column its name, type,
    nullability and default, and the auto-increment flag under the two
    dialects that have a keyword for it; of a foreign key its name and the
    three names it relates; of an index, unless it is called [PRIMARY],
    its name, columns and uniqueness. *)
Definition keeps_auto_incr (dbType : DBType) : bool :=
  String.eqb dbType MySQL || String.eqb dbType SQLServer.

Definition read_Column (dbType : DBType) (c : Column.t) : Column.t :=
  Column.mk (Column.Name c) (Column.Type_ c) (Column.Nullable c)
            (Column.Default c) "" false false false
            (Column.IsAutoIncr c && keeps_auto_incr dbType).

Definition read_FK (f : FK.t) : FK.t :=
  FK.mk (FK.Name f) (FK.Column f) (FK.RefTable f) (FK.RefColumn f) "" "".

Definition read_Index (i : Index.t) : Index.t :=
  Index.mk (Index.Name i) (Index.Columns i) (Index.IsUnique i) "".

Definition written_index (i : Index.t) : bool :=
  negb (String.eqb (Index.Name i) "PRIMARY").

Definition read_Table (dbType : DBType) (t : Table.t) : Table.t :=
  Table.mk (Table.Name t)
           (option_map (map (read_Column dbType)) (Table.Columns t))
           (Table.PrimaryKey t)
           (option_map (map read_FK) (Table.ForeignKeys t))
           (option_map (fun l => map read_Index (List.filter written_index l))
                       (Table.Indexes t)).

Definition read_Schema (s : Schema.t) : Schema.t :=
  Schema.mk "" (option_map (map (read_Table (Schema.DBType_ s))) (Schema.Tables s))
            (Schema.DBType_ s).

(** The name as [quote] puts it between the quoting characters, and as the
    parser's [strings.Trim] is to find it again: upper-cased by the
    library's function under Oracle. *)
Definition quoted_by (upper : string -> string) (name : string) (dbType : DBType)
  : string :=
  if String.eqb dbType Oracle then upper name else name.

(** The same for a name that is a word of ASCII letters, digits and
    underscores, on which the model [ToUpper] is the library's function. *)
Definition quoted_name (name : string) (dbType : DBType) : string :=
  quoted_by ToUpper name dbType.

End WriterTerms.

(** ** Vocabulary of the statements about the section headers of a reply *)

Module HeaderTerms.

Import AI ReplyTerms.

(** The headers [parseQueryResponse] looks for. *)
Definition query_headers : list string := ["SQL:"; "설명:"; "최적화 팁:"].

(** The headers [parseValidationResponse] looks for. *)
Definition validation_headers : list string :=
  ["유효성:"; "점수:"; "문제점:"; "인덱스 활용:"; "최적화된 쿼리:";
   "실행 계획:"; "예상 시간:"; "개선 제안:"].

(** The line starts with none of the headers. *)
Definition plain_line (headers : list string) (line : string) : bool :=
  forallb (fun header => negb (has_header header line)) headers.

(** No line of the text starts with any of the headers. *)
Definition plain_text (headers : list string) (text : string) : bool :=
  forallb (plain_line headers) (Split text LF).

(** The severity tags of an issue. *)
Definition severities : list string := ["error"; "warning"; "info"].

(** An entry of the issue list as the loop admits it. *)
Definition issue_recorded (issue : Issue.t) : Prop :=
  Issue.Message issue <> "" /\ In (Issue.Type_ issue) severities.

End HeaderTerms.

(** ** Vocabulary of the statements about the connectors *)

Module ConnectorTerms.

Import DB Connectors.

(** A database with two tables, and the same with a primary-key query that
    fails for the second. *)
Definition shop (pks_of_items : query_result string) : database MySQLColumnRow Z :=
  mk_database "shop"
    (Rows [Scanned "users"; Scanned "items"])
    (fun table =>
       Rows [Scanned (mk_MySQLColumnRow "id" "int" "NO" None "PRI" "auto_increment" None)])
    (fun _ => Rows [])
    (fun _ => Rows [])
    (fun table => if String.eqb table "items" then pks_of_items else Rows [Scanned "id"]).

End ConnectorTerms.

(** ** Vocabulary of the statements about the index pass *)

Module IndexTerms.

Import SchemaParser.

(** The number of index records in a list of tables. *)
Definition total_indexes (tables : list Table.t) : nat :=
  list_sum (map (fun t => len (Table.Indexes t)) tables).

(** The statement names, up to case, one of the tables. *)
Definition targets_table (tables : list Table.t) (m : list string) : bool :=
  existsb (fun t => EqualFold (Table.Name t) (sub m 3)) tables.

(** What is known of an index record attached to the table [t]. *)
Definition from_statement (matches : list (list string)) (t : Table.t)
    (idx : Index.t) : Prop :=
  exists m,
    In m matches
    /\ idx = index_of_match m
    /\ EqualFold (Table.Name t) (sub m 3) = true.

Definition indexes_from (matches : list (list string)) (tables : list Table.t) : Prop :=
  Forall (fun t => Forall (from_statement matches t) (elems (Table.Indexes t))) tables.

End IndexTerms.

(** ** Vocabulary of the statements about what an expression matches *)

Module MatchTerms.

(** [matches r pos rest caps pos' rest' caps']: the expression [r] can take
    a match in progress from the position [pos], with [rest] left to read
    and the submatches [caps], to the position [pos'], with [rest'] left
    and the submatches [caps']. *)
Inductive matches : re -> nat -> string -> captures -> nat -> string -> captures -> Prop :=
| matches_Empty pos rest caps :
    matches Empty pos rest caps pos rest caps
| matches_Class c pos rest caps x w :
    DecodeRuneInString rest = (x, w) ->
    w <> O ->
    class_has c x = true ->
    matches (Class c) pos rest caps (pos + w)%nat (drop_bytes w rest) caps
| matches_Cat a b pos rest caps pos1 rest1 caps1 pos2 rest2 caps2 :
    matches a pos rest caps pos1 rest1 caps1 ->
    matches b pos1 rest1 caps1 pos2 rest2 caps2 ->
    matches (Cat a b) pos rest caps pos2 rest2 caps2
| matches_Alt_l a b pos rest caps pos' rest' caps' :
    matches a pos rest caps pos' rest' caps' ->
    matches (Alt a b) pos rest caps pos' rest' caps'
| matches_Alt_r a b pos rest caps pos' rest' caps' :
    matches b pos rest caps pos' rest' caps' ->
    matches (Alt a b) pos rest caps pos' rest' caps'
| matches_Star_stop greedy a pos rest caps :
    matches (Star greedy a) pos rest caps pos rest caps
| matches_Star_more greedy a pos rest caps pos1 rest1 caps1 pos2 rest2 caps2 :
    matches a pos rest caps pos1 rest1 caps1 ->
    (pos < pos1)%nat ->
    matches (Star greedy a) pos1 rest1 caps1 pos2 rest2 caps2 ->
    matches (Star greedy a) pos rest caps pos2 rest2 caps2
| matches_Cap n a pos rest caps pos' rest' caps' :
    matches a pos rest caps pos' rest' caps' ->
    matches (Cap n a) pos rest caps pos' rest' ((n, (pos, pos')) :: caps')
| matches_BeginText rest caps :
    matches BeginText O rest caps O rest caps
| matches_EndText pos caps :
    matches EndText pos EmptyString caps pos EmptyString caps.

(** The expression records no submatch. *)
Fixpoint cap_free (r : re) : bool :=
  match r with
  | Cat a b | Alt a b => cap_free a && cap_free b
  | Star _ a => cap_free a
  | Cap _ _ => false
  | _ => true
  end.

(** A byte of [[0-9A-Za-z_]], and a string of such bytes. *)
Definition word_byte (c : ascii) : bool :=
  class_has (mk_class false word_ranges) (byte_val c).

Fixpoint word_string (s : string) : bool :=
  match s with
  | EmptyString => true
  | String c s' => word_byte c && word_string s'
  end.

End MatchTerms.

(** ** Vocabulary of the statements about column definitions *)

Module ColumnTerms.

Import SchemaParser MatchTerms.

(** A run of ASCII bytes of a class, and a text at whose start the class
    matches nothing. *)
Fixpoint ascii_run (c : class) (s : string) : bool :=
  match s with
  | EmptyString => true
  | String ch s' => (byte_val ch <? 128) && class_has c (byte_val ch) && ascii_run c s'
  end.

Definition stops (c : class) (rest : string) : bool :=
  let '(x, w) := DecodeRuneInString rest in
  Nat.eqb w 0 || negb (class_has c x).

Definition ws_class : class := mk_class false space_ranges.
Definition word_class : class := mk_class false word_ranges.
Definition open_class : class := one_of [BACKTICK; DQUOTE; SQUOTE; LBRACKET].
Definition close_class : class := one_of [BACKTICK; DQUOTE; SQUOTE; RBRACKET].

(** Nothing, or one ASCII byte of the class. *)
Definition optional (c : class) (q : string) : bool :=
  match q with
  | EmptyString => true
  | String ch EmptyString => (byte_val ch <? 128) && class_has c (byte_val ch)
  | _ => false
  end.

(** No ASCII byte belongs to both classes. *)
Definition disjoint (c c' : class) : bool :=
  forallb (fun n => negb (class_has c (Z.of_nat n) && class_has c' (Z.of_nat n)))
          (seq 0 128).

(** The record that the loop of [parseColumns] builds from the three
    groups of a match of the column pattern. *)
Definition column_from (name type rest : string) : Column.t :=
  let constraints := ToUpper rest in
  let defaultMatch := FindStringSubmatch defaultPattern rest in
  let commentMatch := FindStringSubmatch commentPattern rest in
  Column.mk name type
            (negb (Contains constraints "NOT NULL"))
            (if (1 <? length defaultMatch)%nat then sub defaultMatch 1 else "")
            (if (1 <? length commentMatch)%nat then sub commentMatch 1 else "")
            (Contains constraints "PRIMARY KEY")
            false
            (Contains constraints "UNIQUE")
            (Contains constraints "AUTO_INCREMENT"
             || Contains (ToUpper type) "SERIAL"
             || Contains constraints "IDENTITY").

(** A column definition as a table body spells it: white space, the name,
    possibly between quoting characters, white space, the type, possibly
    white space and the constraints, and white space again. *)
Record column_text : Type := mk_column_text {
  lead : string;
  oquote : string;
  cname : string;
  cquote : string;
  gap : string;
  ctype : string;
  pad : string;
  tail : string;
  trail : string
}.

Definition core_of (t : column_text) : string :=
  oquote t +:+ cname t +:+ cquote t +:+ gap t +:+ ctype t +:+ pad t +:+ tail t.

Definition text_of (t : column_text) : string := lead t +:+ core_of t +:+ trail t.

(** The definition is one the loop reads as a column: trimming leaves
    the definition without the white space around it, the name and the
    type are plain words, the type has no parameters, the constraints are
    set off by white space and stay on the line, the piece holds no comma
    and does not start with one of the words that mark a constraint
    line. *)
Definition shaped (t : column_text) : Prop :=
  TrimSpace (text_of t) = core_of t
  /\ is_constraint_line (ToUpper (core_of t)) = false
  /\ Contains (text_of t) "," = false
  /\ optional open_class (oquote t) = true
  /\ word_string (cname t) = true /\ cname t <> ""
  /\ optional close_class (cquote t) = true
  /\ ascii_run ws_class (gap t) = true /\ gap t <> ""
  /\ word_string (ctype t) = true /\ ctype t <> ""
  /\ ascii_run ws_class (pad t) = true
  /\ (pad t = "" -> tail t = "")
  /\ stops ws_class (tail t) = true
  /\ Contains (tail t) LF = false.

Definition column_of (t : column_text) : Column.t :=
  column_from (cname t) (ctype t) (tail t).

(** What is known of a column parsed from a body. *)
Definition plain_words (c : Column.t) : Prop :=
  word_string (Column.Name c) = true /\ Column.Name c <> ""
  /\ word_string (Column.Type_ c) = true /\ Column.Type_ c <> "".

End ColumnTerms.

(** ** Vocabulary of the statements about scripts of table definitions *)

Module ScriptTerms.

Import SchemaParser MatchTerms ColumnTerms.

(** A word of the letters [A] to [Z]. *)
Fixpoint upper_word (s : string) : bool :=
  match s with
  | EmptyString => true
  | String c s' => in_range 65 90 (byte_val c) && upper_word s'
  end.

(** [kw] is the word [target] up to the case of its ASCII letters. *)
Fixpoint spells (target kw : string) : bool :=
  match target, kw with
  | EmptyString, EmptyString => true
  | String t target', String c kw' =>
      Ascii.eqb (upper_byte c) t && spells target' kw'
  | _, _ => false
  end.

(** White space and semicolons: what may stand between statements. *)
Definition SEMICOLON : rune := 59.
Definition trailer_class : class :=
  mk_class false (space_ranges ++ [(SEMICOLON, SEMICOLON)]).

(** A [CREATE TABLE] statement as a script spells it: the two keywords,
    the name, possibly between quoting characters, the column definitions
    between parentheses and separated by commas, and what follows the
    closing parenthesis up to the next statement. *)
Record table_text : Type := mk_table_text {
  create_kw : string;
  gap1 : string;
  table_kw : string;
  gap2 : string;
  topen : string;
  tname : string;
  tclose : string;
  gap3 : string;
  tcolumns : list column_text;
  trailer : string
}.

Definition body_of (t : table_text) : string :=
  Join (map text_of (tcolumns t)) ",".

(** The statement up to the table body, and the whole statement. *)
Definition head_of (t : table_text) : string :=
  create_kw t +:+ gap1 t +:+ table_kw t +:+ gap2 t +:+ topen t +:+ tname t
  +:+ tclose t +:+ gap3 t +:+ "(".

Definition statement_of (t : table_text) : string :=
  head_of t +:+ body_of t +:+ ")" +:+ trailer t.

Fixpoint script (l : list table_text) : string :=
  match l with
  | [] => EmptyString
  | t :: l' => statement_of t +:+ script l'
  end.

(** The statement is one of the plain shape: the keywords in any case and
    set off by white space, a plain word as the name, column definitions
    of the plain shape with no closing parenthesis among them, and only
    white space and semicolons after the closing parenthesis. *)
Definition well_formed (t : table_text) : Prop :=
  spells "CREATE" (create_kw t) = true
  /\ ascii_run ws_class (gap1 t) = true /\ gap1 t <> ""
  /\ spells "TABLE" (table_kw t) = true
  /\ ascii_run ws_class (gap2 t) = true /\ gap2 t <> ""
  /\ optional open_class (topen t) = true
  /\ word_string (tname t) = true /\ tname t <> ""
  /\ optional close_class (tclose t) = true
  /\ ascii_run ws_class (gap3 t) = true
  /\ tcolumns t <> []
  /\ Forall shaped (tcolumns t)
  /\ Contains (body_of t) ")" = false
  /\ ascii_run trailer_class (trailer t) = true.

(** The table the statement defines. *)
Definition table_of (t : table_text) : Table.t :=
  Table.mk (tname t) (lit (map column_of (tcolumns t)))
           nil_slice nil_slice nil_slice.

(** The strings of the match of the table pattern on the statement. *)
Definition match_of (t : table_text) : list string :=
  [head_of t +:+ body_of t +:+ ")"; tname t; body_of t].

End ScriptTerms.

(** ** Vocabulary of the statements about DDL written and read back *)

Module RoundTripTerms.

Import DDLWriter SchemaParser WriterTerms MatchTerms ColumnTerms ScriptTerms.

(** The dialects whose identifiers [quote] puts between quoting
    characters. *)
Definition known_dialect (dbType : DBType) : bool :=
  String.eqb dbType MySQL || String.eqb dbType PostgreSQL
  || String.eqb dbType SQLServer || String.eqb dbType Oracle.

(** The quoting characters of a dialect. *)
Definition quote_open (dbType : DBType) : string :=
  if String.eqb dbType MySQL then BACKTICK_s
  else if String.eqb dbType PostgreSQL then DQUOTE_s
  else if String.eqb dbType SQLServer then "["
  else if String.eqb dbType Oracle then DQUOTE_s
  else "".

Definition quote_close (dbType : DBType) : string :=
  if String.eqb dbType MySQL then BACKTICK_s
  else if String.eqb dbType PostgreSQL then DQUOTE_s
  else if String.eqb dbType SQLServer then "]"
  else if String.eqb dbType Oracle then DQUOTE_s
  else "".

(** Every ASCII byte of the first class belongs to the second. *)
Definition subclass (c c' : class) : bool :=
  forallb (fun n => implb (class_has c (Z.of_nat n)) (class_has c' (Z.of_nat n)))
          (seq 0 128).

(** Bytes that [TrimSpace] keeps; bytes that may stand in a default value
    which is to be read back (no white space, comma or closing
    parenthesis); bytes that may stand in the constraints of a column (the
    same and the blank); the class of the group of the default pattern. *)
Definition nonspace_class : class := none_of [(9, 13); (32, 32)].
Definition value_class : class :=
  none_of [(9, 13); (32, 32); (COMMA, COMMA); (RPAREN, RPAREN)].
Definition line_class : class := none_of [(9, 13); (COMMA, COMMA); (RPAREN, RPAREN)].
Definition default_class : class := none_of (space_ranges ++ [(COMMA, COMMA)]).

(** The text starts, or ends, with an ASCII byte that is not white
    space. *)
Definition starts_plain (s : string) : bool :=
  match s with
  | String c _ => (byte_val c <? 128) && class_has nonspace_class (byte_val c)
  | EmptyString => false
  end.

Definition ends_plain (s : string) : bool := starts_plain (rev_string s).

(** The constraints that [GenerateDDL] writes after the type of a column,
    when it does not write [IDENTITY(1,1)]. *)
Definition written_constraints (dbType : DBType) (c : Column.t) : list string :=
  (if negb (Column.Nullable c) then ["NOT NULL"] else [])
  ++ (if Column.IsAutoIncr c && String.eqb dbType MySQL then ["AUTO_INCREMENT"] else [])
  ++ (if negb (String.eqb (Column.Default c) "")
      then ["DEFAULT " +:+ Column.Default c] else []).

Definition written_tail (dbType : DBType) (c : Column.t) : string :=
  Join (written_constraints dbType c) " ".

(** The definition of a column as [GenerateDDL] writes it, with the line
    break before it and what follows it up to the next comma or the
    closing parenthesis. *)
Definition written_column (dbType : DBType) (trail : string) (c : Column.t)
  : column_text :=
  mk_column_text (LF +:+ "  ")
                 (quote_open dbType) (quoted_name (Column.Name c) dbType)
                 (quote_close dbType)
                 " " (Column.Type_ c)
                 (if String.eqb (written_tail dbType c) "" then "" else " ")
                 (written_tail dbType c)
                 trail.

Fixpoint written_columns (dbType : DBType) (cols : list Column.t)
  : list column_text :=
  match cols with
  | [] => []
  | [c] => [written_column dbType LF c]
  | c :: cols' => written_column dbType "" c :: written_columns dbType cols'
  end.

Definition written_table (dbType : DBType) (t : Table.t) : table_text :=
  mk_table_text "CREATE" " " "TABLE" " "
                (quote_open dbType) (quoted_name (Table.Name t) dbType)
                (quote_close dbType)
                " " (written_columns dbType (elems (Table.Columns t)))
                (";" +:+ LF +:+ LF).

(** The function upper-cases a word of ASCII letters, digits and
    underscores as [strings.ToUpper] does, that is as the model [ToUpper]
    does. *)
Definition upper_on_words (upper : string -> string) : Prop :=
  forall s, word_string s = true -> upper s = ToUpper s.

(** A column, a table and a schema that can be written and read back:
    names and types are plain words, a default value is made of ASCII
    bytes other than white space, comma and closing parenthesis, no column
    is written with [IDENTITY(1,1)], a table has columns but neither a
    primary-key list, nor foreign keys, nor indexes, and the dialect is one
    that quotes. *)
Definition simple_column (dbType : DBType) (c : Column.t) : Prop :=
  word_string (Column.Name c) = true /\ Column.Name c <> ""
  /\ word_string (Column.Type_ c) = true /\ Column.Type_ c <> ""
  /\ ascii_run value_class (Column.Default c) = true
  /\ (Column.IsAutoIncr c = true -> String.eqb dbType SQLServer = false).

Definition simple_table (dbType : DBType) (t : Table.t) : Prop :=
  word_string (Table.Name t) = true /\ Table.Name t <> ""
  /\ elems (Table.Columns t) <> []
  /\ Forall (simple_column dbType) (elems (Table.Columns t))
  /\ elems (Table.PrimaryKey t) = []
  /\ elems (Table.ForeignKeys t) = []
  /\ elems (Table.Indexes t) = [].

Definition simple_schema (s : Schema.t) : Prop :=
  known_dialect (Schema.DBType_ s) = true
  /\ Forall (simple_table (Schema.DBType_ s)) (elems (Schema.Tables s)).

(** What is read back of a column and of a table.  A name comes back as
    [quote] has written it between the quoting characters: upper-cased
    under Oracle, as it is under the other dialects. *)
Definition read_back_column (dbType : DBType) (c c' : Column.t) : Prop :=
  Column.Name c' = quoted_name (Column.Name c) dbType
  /\ Column.Type_ c' = Column.Type_ c
  /\ Column.Nullable c' = Column.Nullable c
  /\ Column.Default c' = Column.Default c
  /\ Column.IsFK c' = false.

Definition read_back_table (dbType : DBType) (t t' : Table.t) : Prop :=
  Table.Name t' = quoted_name (Table.Name t) dbType
  /\ Forall2 (read_back_column dbType) (elems (Table.Columns t))
             (elems (Table.Columns t'))
  /\ Table.PrimaryKey t' = nil_slice
  /\ Table.ForeignKeys t' = nil_slice.

End RoundTripTerms.


(** * Properties *)

(** ** The library functions on small inputs *)

Module LibraryExamples.

Example TrimSpace_ascii : TrimSpace ("  a b " +:+ LF) = "a b".
Proof. reflexivity. Qed.

(** U+3000 (ideographic space) on both sides of a Hangul syllable. *)
Example TrimSpace_unicode : TrimSpace "　가　" = "가".
Proof. vm_compute. reflexivity. Qed.

Example Split_commas : Split "a,b,,c" "," = ["a"; "b"; ""; "c"].
Proof. reflexivity. Qed.

Example Split_empty : Split "" "," = [""].
Proof. reflexivity. Qed.

Example Replace1_first : Replace1 "x[info]y[info]" "[info]" "" = "xy[info]".
Proof. reflexivity. Qed.

Example ToUpper_mixed : ToUpper "not Null 1" = "NOT NULL 1".
Proof. reflexivity. Qed.

Example EqualFold_names :
  EqualFold "Users" "uSERS" = true /\ EqualFold "users" "user" = false.
Proof. split; reflexivity. Qed.

Example Sscanf_d_cases :
  Sscanf_d "85/100" = Some 85
  /\ Sscanf_d "-7" = Some (-7)
  /\ Sscanf_d "high" = None
  /\ Sscanf_d "1_0" = Some 1
  /\ Sscanf_d "7_0" = Some 7
  /\ Sscanf_d " +42x" = Some 42
  /\ Sscanf_d "-" = None
  /\ Sscanf_d "99999999999999999999" = None.
Proof. repeat split; reflexivity. Qed.

(** Leftmost match, greedy and lazy repetition, a group that takes no part. *)
Example FindStringSubmatch_cases :
  FindStringSubmatch
    (MustCompile (cat [Cap 1 (plus word); quest (Cap 2 (chr COMMA)); star ws]) 2)
    "  ab  cd"
  = ["ab  "; "ab"; ""]
  /\ FindStringSubmatch
       (MustCompile (cat [chr LPAREN; Cap 1 (lazy_star any); chr RPAREN]) 1)
       "f(a)(b)"
     = ["(a)"; "a"]
  /\ FindStringSubmatch
       (MustCompile (cat [chr LPAREN; Cap 1 (star any); chr RPAREN]) 1)
       "f(a)(b)"
     = ["(a)(b)"; "a)(b"].
Proof. repeat split; reflexivity. Qed.

End LibraryExamples.

(** ** Bytes and runes *)

Module Utf8Props.

Lemma byte_at_take_app (w : nat) (s t : string) (i : nat) :
  (i < w)%nat -> 0 <= byte_at s i ->
  byte_at (take_bytes w s +:+ t) i = byte_at s i.
Proof.
  revert s i. induction w as [|w IH]; intros s i Hi Hb; [lia|].
  destruct s as [|c s]; [cbn in Hb; lia|].
  cbn [take_bytes String.append]. destruct i as [|i]; [reflexivity|].
  cbn [byte_at] in *. apply IH; [lia|exact Hb].
Qed.

Ltac split_tests H :=
  repeat match type of H with
         | context [if ?b then _ else _] => destruct b eqn:?
         end.

Ltac use_tests :=
  repeat match goal with
         | H : ?b = _ |- context [if ?b then _ else _] => rewrite H
         end.

(** A well-formed rune is decoded from its own bytes, whatever follows. *)
Lemma decode_prefix (s t : string) (r : rune) (w : nat) :
  DecodeRuneInString s = (r, w) ->
  w <> O ->
  ~ (r = RuneError /\ w = 1%nat) ->
  DecodeRuneInString (take_bytes w s +:+ t) = (r, w).
Proof.
  intros H Hw Hbad.
  unfold DecodeRuneInString, is_cont, in_range, RuneSelf in *.
  destruct (byte_at s 0 =? 224) eqn:?, (byte_at s 0 =? 237) eqn:?,
           (byte_at s 0 =? 240) eqn:?, (byte_at s 0 =? 244) eqn:?.
  all: split_tests H; injection H as <- <-; try congruence;
    try (exfalso; apply Hbad; split; reflexivity).
  all: rewrite ?(byte_at_take_app _ s t 0), ?(byte_at_take_app _ s t 1),
         ?(byte_at_take_app _ s t 2), ?(byte_at_take_app _ s t 3) by lia.
  all: use_tests; reflexivity.
Qed.

Lemma byte_at_length (s : string) (i : nat) :
  0 <= byte_at s i -> (i < String.length s)%nat.
Proof.
  revert i. induction s as [|c s IH]; intros i H; [cbn in H; lia|].
  destruct i as [|i]; cbn [String.length]; [lia|].
  cbn [byte_at] in H. specialize (IH i H). lia.
Qed.

(** The width of a decoded rune does not exceed the string. *)
Lemma decode_width (s : string) (r : rune) (w : nat) :
  DecodeRuneInString s = (r, w) -> (w <= String.length s)%nat.
Proof.
  intros H.
  unfold DecodeRuneInString, is_cont, in_range, RuneSelf in *.
  destruct (byte_at s 0 =? 224) eqn:?, (byte_at s 0 =? 237) eqn:?,
           (byte_at s 0 =? 240) eqn:?, (byte_at s 0 =? 244) eqn:?.
  all: split_tests H; injection H as <- <-; try lia.
  all: try (pose proof (byte_at_length s 0 ltac:(lia)); lia).
  all: try (pose proof (byte_at_length s 1 ltac:(lia)); lia).
  all: try (pose proof (byte_at_length s 2 ltac:(lia)); lia).
  all: try (pose proof (byte_at_length s 3 ltac:(lia)); lia).
Qed.

Lemma take_length (w : nat) (s : string) :
  (w <= String.length s)%nat -> String.length (take_bytes w s) = w.
Proof.
  revert s. induction w as [|w IH]; intros s H; [destruct s; reflexivity|].
  destruct s as [|c s]; cbn [String.length] in *; [lia|].
  cbn [take_bytes String.length]. rewrite IH; lia.
Qed.

Lemma take_app_exact (a t : string) :
  take_bytes (String.length a) (a +:+ t) = a.
Proof.
  induction a as [|c a IH].
  - destruct t; reflexivity.
  - change (String c (take_bytes (String.length a) (a +:+ t)) = String c a).
    rewrite IH. reflexivity.
Qed.

Lemma drop_app_exact (a t : string) :
  drop_bytes (String.length a) (a +:+ t) = t.
Proof.
  induction a as [|c a IH].
  - reflexivity.
  - exact IH.
Qed.

Lemma take_drop (w : nat) (s : string) : take_bytes w s +:+ drop_bytes w s = s.
Proof.
  revert s. induction w as [|w IH]; intros s; [destruct s; reflexivity|].
  destruct s as [|c s]; [reflexivity|].
  change (String c (take_bytes w s +:+ drop_bytes w s) = String c s).
  rewrite IH. reflexivity.
Qed.

Lemma drop_length (w : nat) (s : string) :
  String.length (drop_bytes w s) = (String.length s - w)%nat.
Proof.
  revert s. induction w as [|w IH]; intros s; [destruct s; cbn; lia|].
  destruct s as [|c s]; [reflexivity|].
  cbn [drop_bytes String.length Nat.sub]. apply IH.
Qed.

Lemma decode_width_pos (c : ascii) (s : string) (r : rune) (w : nat) :
  DecodeRuneInString (String c s) = (r, w) -> w <> O.
Proof.
  intros E ->. unfold DecodeRuneInString in E. cbn [byte_at] in E.
  unfold in_range, is_cont, RuneSelf in E.
  assert (0 <= byte_val c) by (unfold byte_val; lia).
  split_tests E; try discriminate E; lia.
Qed.

End Utf8Props.

(** ** The matcher *)

Module RegexpProps.

Import Utf8Props MatcherTerms.


Lemma drop_drop (n m : nat) (s : string) :
  drop_bytes m (drop_bytes n s) = drop_bytes (n + m) s.
Proof.
  revert s. induction n as [|n IH]; intros s; [destruct s; reflexivity|].
  destruct s as [|c s]; [destruct m; reflexivity|]. apply IH.
Qed.

Lemma reachable_len (pos : nat) (rest : string) (pos' : nat) (rest' : string) :
  reachable pos rest pos' rest' ->
  (pos <= pos')%nat /\ (pos' + String.length rest' = pos + String.length rest)%nat.
Proof. intros (n & -> & Hn & ->). rewrite drop_length. lia. Qed.

Lemma reachable_refl (pos : nat) (rest : string) : reachable pos rest pos rest.
Proof. exists O. split; [lia|]. split; [lia|]. destruct rest; reflexivity. Qed.

Lemma reachable_trans (p0 : nat) (r0 : string) (p1 : nat) (r1 : string)
    (p2 : nat) (r2 : string) :
  reachable p0 r0 p1 r1 -> reachable p1 r1 p2 r2 -> reachable p0 r0 p2 r2.
Proof.
  intros (n & -> & Hn & ->) (m & -> & Hm & ->). rewrite drop_length in Hm.
  exists (n + m)%nat. split; [lia|]. split; [lia|]. apply drop_drop.
Qed.

Lemma reachable_rune (pos : nat) (rest : string) (x : rune) (w : nat) :
  DecodeRuneInString rest = (x, w) ->
  reachable pos rest (pos + w) (drop_bytes w rest).
Proof.
  intros E. exists w. split; [reflexivity|]. split; [|reflexivity].
  exact (decode_width rest x w E).
Qed.

Lemma agree_from_later (p0 : nat) (r0 : string) (p1 : nat) (r1 : string)
    (k k' : continuation) :
  reachable p0 r0 p1 r1 -> agree_from p0 r0 k k' -> agree_from p1 r1 k k'.
Proof.
  intros H01 Hk p2 r2 c H12. apply Hk. eapply reachable_trans; eassumption.
Qed.

(** The rounds of a repetition do not depend on the fuel, once it exceeds
    the number of bytes left. *)
Lemma star_loop_fuel
    (body body' : nat -> string -> captures -> continuation -> outcome)
    (greedy : bool) :
  (forall pos rest caps k k',
      agree_from pos rest k k' -> body pos rest caps k = body' pos rest caps k') ->
  forall fuel fuel' pos rest caps k k',
    (String.length rest < fuel)%nat ->
    (String.length rest < fuel')%nat ->
    agree_from pos rest k k' ->
    star_loop body greedy k fuel pos rest caps
    = star_loop body' greedy k' fuel' pos rest caps.
Proof.
  intros Hbody fuel.
  induction fuel as [|fuel IH]; intros fuel' pos rest caps k k' Hf Hf' Hk; [lia|].
  destruct fuel' as [|fuel']; [lia|]. cbn [star_loop].
  rewrite (Hk pos rest caps (reachable_refl pos rest)).
  rewrite (Hbody pos rest caps _
             (fun pos' rest' caps' =>
                if (pos <? pos')%nat
                then star_loop body' greedy k' fuel' pos' rest' caps'
                else None)); [reflexivity|].
  intros pos' rest' caps' Hr.
  destruct (Nat.ltb_spec pos pos') as [Hlt|_]; [|reflexivity].
  destruct (reachable_len _ _ _ _ Hr) as [Hle Hlen].
  apply IH; [lia | lia |].
  apply (agree_from_later pos rest); [exact Hr | exact Hk].
Qed.

(** The matcher uses its continuation only at reachable positions, and its
    result does not depend on the slack given to repetitions. *)
Lemma exec_with_agree (r : re) :
  forall slack slack' pos rest caps k k',
    agree_from pos rest k k' ->
    exec_with slack r pos rest caps k = exec_with slack' r pos rest caps k'.
Proof.
  induction r as [|c|a IHa b IHb|a IHa b IHb|greedy a IHa|n a IHa| |];
    intros slack slack' pos rest caps k k' Hk; cbn [exec_with].
  - apply Hk, reachable_refl.
  - destruct (DecodeRuneInString rest) as [x w] eqn:E.
    destruct (Nat.eqb w 0); [reflexivity|].
    destruct (class_has c x); [|reflexivity].
    apply Hk. eapply reachable_rune; eassumption.
  - apply IHa. intros pos' rest' caps' Hr. apply IHb.
    eapply agree_from_later; eassumption.
  - rewrite (IHa slack slack' pos rest caps k k' Hk),
            (IHb slack slack' pos rest caps k k' Hk). reflexivity.
  - apply star_loop_fuel; [|lia|lia|exact Hk].
    intros p q c j j' Hj. apply IHa. exact Hj.
  - apply IHa. intros pos' rest' caps' Hr. apply Hk. exact Hr.
  - destruct (Nat.eqb pos 0); [|reflexivity]. apply Hk, reachable_refl.
  - destruct rest; [|reflexivity]. apply Hk, reachable_refl.
Qed.

(** The bound on the rounds of a repetition is never what ends it: any
    amount of slack gives the same match. *)
Lemma exec_slack_irrelevant (slack : nat) (r : re) (pos : nat) (rest : string)
    (caps : captures) (k : continuation) :
  exec_with slack r pos rest caps k = exec r pos rest caps k.
Proof. apply exec_with_agree. intros p q c _. reflexivity. Qed.

(** A successful match comes from a successful continuation, at a
    reachable position. *)
Lemma star_loop_reaches
    (body : nat -> string -> captures -> continuation -> outcome)
    (greedy : bool) (k : continuation) :
  (forall pos rest caps j res,
      body pos rest caps j = Some res ->
      exists pos' rest' caps',
        reachable pos rest pos' rest' /\ j pos' rest' caps' = Some res) ->
  forall fuel pos rest caps res,
    star_loop body greedy k fuel pos rest caps = Some res ->
    exists pos' rest' caps',
      reachable pos rest pos' rest' /\ k pos' rest' caps' = Some res.
Proof.
  intros Hbody fuel.
  induction fuel as [|fuel IH]; intros pos rest caps res H; [discriminate|].
  cbn [star_loop] in H.
  assert (Hmore : forall j,
             j = (fun pos' rest' caps' =>
                    if (pos <? pos')%nat
                    then star_loop body greedy k fuel pos' rest' caps'
                    else None) ->
             body pos rest caps j = Some res ->
             exists pos' rest' caps',
               reachable pos rest pos' rest' /\ k pos' rest' caps' = Some res).
  { intros j -> E. destruct (Hbody _ _ _ _ _ E) as (p & q & c & Hr & Hj).
    cbv beta in Hj. destruct (pos <? p)%nat; [|discriminate].
    destruct (IH _ _ _ _ Hj) as (p' & q' & c' & Hr' & Hk).
    exists p', q', c'. split; [eapply reachable_trans; eassumption|exact Hk]. }
  unfold or_else in H.
  destruct greedy.
  - destruct (body pos rest caps _) eqn:E.
    + injection H as ->. eapply Hmore; [reflexivity|exact E].
    + exists pos, rest, caps. split; [apply reachable_refl|exact H].
  - destruct (k pos rest caps) eqn:E.
    + injection H as ->. exists pos, rest, caps. split; [apply reachable_refl|exact E].
    + eapply Hmore; [reflexivity|exact H].
Qed.

Lemma exec_reaches (r : re) :
  forall slack pos rest caps k res,
    exec_with slack r pos rest caps k = Some res ->
    exists pos' rest' caps',
      reachable pos rest pos' rest' /\ k pos' rest' caps' = Some res.
Proof.
  induction r as [|c|a IHa b IHb|a IHa b IHb|greedy a IHa|n a IHa| |];
    intros slack pos rest caps k res H; cbn [exec_with] in H.
  - exists pos, rest, caps. split; [apply reachable_refl|exact H].
  - destruct (DecodeRuneInString rest) as [x w] eqn:E.
    destruct (Nat.eqb w 0); [discriminate|].
    destruct (class_has c x); [|discriminate].
    eexists _, _, _. split; [eapply reachable_rune; eassumption|exact H].
  - destruct (IHa _ _ _ _ _ _ H) as (p & q & c & Hr & Hb).
    destruct (IHb _ _ _ _ _ _ Hb) as (p' & q' & c' & Hr' & Hk).
    exists p', q', c'. split; [eapply reachable_trans; eassumption|exact Hk].
  - unfold or_else in H. destruct (exec_with slack a pos rest caps k) eqn:E.
    + injection H as ->. eapply IHa; eassumption.
    + eapply IHb; eassumption.
  - eapply star_loop_reaches; [|exact H].
    intros p q c j res' Hj. eapply IHa; eassumption.
  - destruct (IHa _ _ _ _ _ _ H) as (p & q & c & Hr & Hk).
    exists p, q, ((n, (pos, p)) :: c). split; assumption.
  - destruct (Nat.eqb pos 0); [|discriminate].
    exists pos, rest, caps. split; [apply reachable_refl|exact H].
  - destruct rest; [|discriminate].
    exists pos, EmptyString, caps. split; [apply reachable_refl|exact H].
Qed.

(** A match found from [pos] on lies between [pos] and the end of the
    text. *)
Lemma search_bounds (r : re) (rest : string) :
  forall skip pos b e caps,
    search r skip pos rest = Some (b, e, caps) ->
    (pos <= b)%nat /\ (b <= e)%nat /\ (e <= pos + String.length rest)%nat.
Proof.
  induction rest as [|c rest IH]; intros skip pos b e caps H.
  - destruct skip as [|skip]; cbn [search] in H; [|discriminate].
    destruct (exec r pos "" [] _) as [[e' caps']|] eqn:E; [|discriminate].
    injection H as <- <- <-.
    destruct (exec_reaches r 0 pos "" [] _ _ E) as (p & q & cc & Hr & Hk).
    destruct (reachable_len _ _ _ _ Hr) as [Hle Hlen].
    injection Hk as -> _. cbn [String.length] in *. lia.
  - destruct skip as [|skip]; cbn [search] in H.
    + destruct (exec r pos (String c rest) [] _) as [[e' caps']|] eqn:E.
      * injection H as <- <- <-.
        destruct (exec_reaches r 0 pos _ [] _ _ E) as (p & q & cc & Hr & Hk).
        destruct (reachable_len _ _ _ _ Hr) as [Hle Hlen].
        injection Hk as -> _. cbn [String.length] in *. lia.
      * apply IH in H. cbn [String.length]. lia.
    + apply IH in H. cbn [String.length]. lia.
Qed.

Lemma all_matches_S (fuel : nat) (r : re) (text : string) (pos : nat)
    (prev : option nat) :
  all_matches (S fuel) r text pos prev
  = if (String.length text <? pos)%nat then []
    else match search r O pos (drop_bytes pos text) with
         | None => []
         | Some (b, e, caps) =>
             if Nat.eqb e pos then
               (if match prev with
                   | Some p => negb (Nat.eqb b p)
                   | None => true
                   end
                then [(b, e, caps)] else [])
               ++ all_matches fuel r text
                    (if Nat.eqb (snd (DecodeRuneInString (drop_bytes pos text))) 0
                     then S (String.length text)
                     else (pos + snd (DecodeRuneInString (drop_bytes pos text)))%nat)
                    (Some e)
             else (b, e, caps) :: all_matches fuel r text e (Some e)
         end.
Proof. reflexivity. Qed.

(** The loop over the matches does not depend on its fuel, once that
    exceeds the number of positions left. *)
Lemma all_matches_fuel (r : re) (text : string) :
  forall fuel pos prev,
    (String.length text + 2 <= fuel + pos)%nat ->
    all_matches (S fuel) r text pos prev = all_matches fuel r text pos prev.
Proof.
  induction fuel as [|fuel IH]; intros pos prev Hf.
  - rewrite all_matches_S.
    destruct (Nat.ltb_spec (String.length text) pos); [reflexivity|lia].
  - rewrite (all_matches_S (S fuel)), (all_matches_S fuel r text pos prev).
    destruct (Nat.ltb_spec (String.length text) pos) as [|Hpos]; [reflexivity|].
    destruct (search r O pos (drop_bytes pos text)) as [[[b e] caps]|] eqn:E;
      [|reflexivity].
    apply search_bounds in E. destruct E as (Hb & He & _).
    destruct (Nat.eqb_spec e pos) as [->|Hne].
    + f_equal.
      destruct (Nat.eqb_spec (snd (DecodeRuneInString (drop_bytes pos text))) 0);
        apply IH; lia.
    + f_equal. apply IH. lia.
Qed.

(** Hence [FindAllStringSubmatch] would find the same matches with any
    larger bound on their number. *)
Lemma FindAllStringSubmatch_fuel (re : Regexp) (text : string) (extra : nat) :
  map (submatch_strings re text)
      (all_matches (extra + S (S (String.length text))) (prog re) text O None)
  = FindAllStringSubmatch re text.
Proof.
  unfold FindAllStringSubmatch. f_equal.
  induction extra as [|extra IH]; [reflexivity|].
  cbn [Nat.add]. rewrite all_matches_fuel; [exact IH|lia].
Qed.

End RegexpProps.

(** ** The body captured by the table pattern *)

Module TableBodyProps.

Import Utf8Props MatcherTerms RegexpProps SchemaParser.


Lemma Contains_char_cons (d c : ascii) (s : string) :
  Contains (String d s) (String c "") = Ascii.eqb d c || Contains s (String c "").
Proof.
  cbn [Contains HasPrefix]. destruct (Ascii.eqb d c); [|reflexivity].
  destruct s; reflexivity.
Qed.

Lemma Contains_char_app (a b : string) (c : ascii) :
  Contains (a +:+ b) (String c "")
  = Contains a (String c "") || Contains b (String c "").
Proof.
  induction a as [|d a IH].
  - change ("" +:+ b) with b. reflexivity.
  - change (String d a +:+ b) with (String d (a +:+ b)).
    rewrite !Contains_char_cons, IH. apply orb_assoc.
Qed.

Lemma take_add (n m : nat) (s : string) :
  take_bytes (n + m) s = take_bytes n s +:+ take_bytes m (drop_bytes n s).
Proof.
  revert s. induction n as [|n IH]; intros s; [destruct s; reflexivity|].
  destruct s as [|c s]; [destruct m; reflexivity|].
  change (String c (take_bytes (n + m) s)
          = String c (take_bytes n s +:+ take_bytes m (drop_bytes n s))).
  rewrite IH. reflexivity.
Qed.

(** The bytes of a rune other than a closing parenthesis contain no closing
    parenthesis: an ASCII rune is its byte, and the bytes of any other
    sequence, as well as a byte that is ill-formed, are 128 or more. *)
Lemma rune_bytes_no_rparen (s : string) (x : rune) (w : nat) :
  DecodeRuneInString s = (x, w) ->
  x <> RPAREN ->
  Contains (take_bytes w s) ")" = false.
Proof.
  intros H Hx.
  assert (Hb : forall c, byte_val c <> 41 -> Ascii.eqb c ")" = false).
  { intros c Hc. apply Ascii.eqb_neq. intros ->. apply Hc. reflexivity. }
  unfold DecodeRuneInString, is_cont, in_range, RuneSelf in H.
  destruct (byte_at s 0 =? 224) eqn:?, (byte_at s 0 =? 237) eqn:?,
           (byte_at s 0 =? 240) eqn:?, (byte_at s 0 =? 244) eqn:?.
  all: split_tests H; injection H as <- <-; try reflexivity.
  all: destruct s as [|c0 s]; try reflexivity; cbn [byte_at] in *.
  all: try (cbn [take_bytes]; rewrite Contains_char_cons, Hb by (unfold RPAREN in Hx; lia);
            reflexivity).
  all: destruct s as [|c1 s]; cbn [byte_at] in *; try lia.
  all: try (cbn [take_bytes]; rewrite !Contains_char_cons, !Hb by lia; reflexivity).
  all: destruct s as [|c2 s]; cbn [byte_at] in *; try lia.
  all: try (cbn [take_bytes]; rewrite !Contains_char_cons, !Hb by lia; reflexivity).
  all: destruct s as [|c3 s]; cbn [byte_at] in *; try lia.
  all: cbn [take_bytes]; rewrite !Contains_char_cons, !Hb by lia; reflexivity.
Qed.


(** The lazy scan of the body stops at the first closing parenthesis. *)
Lemma lazy_body_scan (p0 : nat) :
  forall fuel pos rest caps e cs,
    star_loop (exec any) false (leave_body p0) fuel pos rest caps = Some (e, cs) ->
    exists n,
      cs = (2%nat, (p0, (pos + n)%nat)) :: caps
      /\ Contains (take_bytes n rest) ")" = false.
Proof.
  induction fuel as [|fuel IH]; intros pos rest caps e cs H; [discriminate|].
  cbn [star_loop] in H. unfold or_else in H.
  destruct (leave_body p0 pos rest caps) as [res|] eqn:Eleave.
  - injection H as ->. exists O.
    unfold leave_body, exec, chr in Eleave. cbn [exec_with] in Eleave.
    destruct (DecodeRuneInString rest) as [x w].
    destruct (Nat.eqb w 0); [discriminate|].
    destruct (class_has _ x); [|discriminate].
    unfold final in Eleave. injection Eleave as _ <-.
    rewrite Nat.add_0_r. split; [reflexivity|]. destruct rest; reflexivity.
  - unfold exec, any in H. cbn [exec_with] in H.
    destruct (DecodeRuneInString rest) as [x w] eqn:E.
    destruct (Nat.eqb_spec w 0) as [|Hw]; [discriminate|].
    destruct (class_has _ x); [|discriminate].
    destruct (Nat.ltb_spec pos (pos + w)) as [_|]; [|lia].
    destruct (IH _ _ _ _ _ H) as (n & -> & Hn).
    exists (w + n)%nat. split; [f_equal; f_equal; f_equal; lia|].
    rewrite take_add, Contains_char_app, Hn, orb_false_r.
    apply (rune_bytes_no_rparen rest x w E).
    (* the parenthesis was not there, or the scan would have stopped *)
    intros ->. unfold leave_body, exec, chr in Eleave. cbn [exec_with] in Eleave.
    rewrite E in Eleave. apply Nat.eqb_neq in Hw. rewrite Hw in Eleave.
    vm_compute in Eleave. discriminate.
Qed.

(** A match found by [search] is a match of the expression at its start. *)
Lemma search_exec (r : re) (rest : string) :
  forall skip pos b e caps,
    search r skip pos rest = Some (b, e, caps) ->
    exists n, b = (pos + n)%nat
              /\ (n <= String.length rest)%nat
              /\ exec r b (drop_bytes n rest) [] final = Some (e, caps).
Proof.
  induction rest as [|c rest IH]; intros skip pos b e caps H.
  - destruct skip as [|skip]; cbn [search] in H; [|discriminate].
    destruct (exec r pos "" [] _) as [[e' caps']|] eqn:E; [|discriminate].
    injection H as <- <- <-. exists O. rewrite Nat.add_0_r.
    split; [reflexivity|]. split; [reflexivity|exact E].
  - assert (Hnext : forall k, search r k (S pos) rest = Some (b, e, caps) ->
                              exists n, b = (pos + n)%nat
                                        /\ (n <= String.length (String c rest))%nat
                                        /\ exec r b (drop_bytes n (String c rest)) [] final
                                           = Some (e, caps)).
    { intros k Hk. destruct (IH _ _ _ _ _ Hk) as (n & -> & Hn & E).
      exists (S n). cbn [String.length drop_bytes].
      split; [lia|]. split; [lia|exact E]. }
    destruct skip as [|skip]; cbn [search] in H; [|eapply Hnext; exact H].
    destruct (exec r pos (String c rest) [] _) as [[e' caps']|] eqn:E.
    + injection H as <- <- <-. exists O. rewrite Nat.add_0_r.
      split; [reflexivity|]. split; [cbn; lia|exact E].
    + eapply Hnext; exact H.
Qed.

(** Every match delivered by the loop is a match of the expression at its
    start in the text. *)
Lemma all_matches_exec (r : re) (text : string) :
  forall fuel pos prev b e caps,
    In (b, e, caps) (all_matches fuel r text pos prev) ->
    exec r b (drop_bytes b text) [] final = Some (e, caps).
Proof.
  induction fuel as [|fuel IH]; intros pos prev b e caps Hin; [destruct Hin|].
  rewrite all_matches_S in Hin.
  destruct (String.length text <? pos)%nat; [destruct Hin|].
  destruct (search r O pos (drop_bytes pos text)) as [[[b' e'] caps']|] eqn:E;
    [|destruct Hin].
  assert (Hhere : exec r b' (drop_bytes b' text) [] final = Some (e', caps')).
  { destruct (search_exec _ _ _ _ _ _ _ E) as (n & -> & _ & Hx).
    rewrite drop_drop in Hx. exact Hx. }
  destruct (Nat.eqb e' pos).
  - apply in_app_or in Hin. destruct Hin as [Hin|Hin]; [|eapply IH; exact Hin].
    destruct (match prev with Some p => negb (Nat.eqb b' p) | None => true end);
      [|destruct Hin].
    destruct Hin as [[= <- <- <-]|[]]. exact Hhere.
  - destruct Hin as [[= <- <- <-]|Hin]; [exact Hhere|eapply IH; exact Hin].
Qed.

(** A sequence hands over to its second part at a reachable position. *)
Lemma exec_Cat (a b : re) (pos : nat) (rest : string) (caps : captures)
    (k : continuation) (res : nat * captures) :
  exec (Cat a b) pos rest caps k = Some res ->
  exists pos' rest' caps',
    reachable pos rest pos' rest' /\ exec b pos' rest' caps' k = Some res.
Proof. intros H. exact (exec_reaches a 0 pos rest caps _ res H). Qed.

Ltac peel H :=
  let p := fresh "p" in
  let q := fresh "q" in
  let c := fresh "c" in
  let Hr := fresh "Hr" in
  apply exec_Cat in H; destruct H as (p & q & c & Hr & H);
  match goal with
  | Hprev : reachable ?p0 ?r0 _ _ |- _ =>
      lazymatch Hprev with
      | Hr => fail
      | _ => pose proof (reachable_trans _ _ _ _ _ _ Hprev Hr); clear Hprev Hr
      end
  | _ => idtac
  end.

(** The body captured by the table pattern never contains a closing
    parenthesis: the lazy scan ends at the first one after the opening
    parenthesis, wherever the table body really ends. *)
Lemma table_body_no_rparen (ddl : string) (m : list string) :
  In m (FindAllStringSubmatch tablePattern ddl) ->
  Contains (sub m 2) ")" = false.
Proof.
  unfold FindAllStringSubmatch. rewrite in_map_iff.
  intros ([[b e] caps] & <- & Hin).
  apply all_matches_exec in Hin.
  cbn [tablePattern prog cat] in Hin.
  pose proof (reachable_refl b (drop_bytes b ddl)) as Hstart.
  do 10 peel Hin.
  match goal with
  | Hr : reachable b (drop_bytes b ddl) ?p ?q |- _ =>
      destruct Hr as (n0 & Hp & Hn0 & Hq); rewrite drop_drop in Hq
  end.
  unfold exec, lazy_star in Hin. cbn [exec_with] in Hin.
  match type of Hin with
  | star_loop _ _ _ ?fuel ?p ?q ?c = _ =>
      destruct (lazy_body_scan p fuel p q c e caps Hin) as (n & -> & Hbody)
  end.
  unfold submatch_strings, sub. cbn [NumSubexp tablePattern seq map nth cap_lookup].
  cbn [Nat.eqb]. unfold slice_of.
  subst. replace (b + n0 + n - (b + n0))%nat with n by lia. exact Hbody.
Qed.

(** *** Patterns that need a closing parenthesis find nothing in a body *)

Lemma land_le_r (a b : Z) : 0 <= a -> 0 <= b -> Z.land a b <= b.
Proof.
  intros Ha Hb. rewrite <- (Z2N.id a Ha), <- (Z2N.id b Hb), <- N2Z.inj_land.
  apply N2Z.inj_le, N.land_le_r.
Qed.

Lemma lor_lower (a b : Z) : 0 <= a -> 0 <= b -> a <= Z.lor a b.
Proof.
  intros Ha Hb. pose proof (Z.add_lor_land a b). pose proof (land_le_r a b Ha Hb). lia.
Qed.

Lemma land_mask (b : Z) (n : Z) : 0 <= n -> Z.land b (2 ^ n - 1) = b mod 2 ^ n.
Proof.
  intros Hn. rewrite <- Z.land_ones by exact Hn.
  rewrite Z.ones_equiv, Z.sub_1_r. reflexivity.
Qed.

Ltac arith := first [lia | Z.to_euclidean_division_equations; lia].

(** Replaces each bitwise disjunction by a number that is at least its two
    operands. *)
Ltac bound_lors :=
  repeat match goal with
         | H : context [Z.lor ?a ?b] |- _ =>
             let Ha := fresh "Ha" in
             let Hb := fresh "Hb" in
             assert (Ha : 0 <= a) by arith;
             assert (Hb : 0 <= b) by arith;
             pose proof (lor_lower a b Ha Hb);
             pose proof (lor_lower b a Hb Ha);
             rewrite (Z.lor_comm b a) in *;
             generalize dependent (Z.lor a b); intros
         end.

(** An ASCII rune is decoded from the byte of that value only: longer
    sequences encode runes from 128 on. *)
Lemma decode_ascii (s : string) (x : rune) (w : nat) :
  DecodeRuneInString s = (x, w) -> x < 128 -> w <> O -> byte_at s 0 = x.
Proof.
  intros H Hx Hw.
  unfold DecodeRuneInString, is_cont, in_range, RuneSelf, RuneError in H.
  destruct (byte_at s 0 =? 224) eqn:?, (byte_at s 0 =? 237) eqn:?,
           (byte_at s 0 =? 240) eqn:?, (byte_at s 0 =? 244) eqn:?.
  all: split_tests H; injection H as <- <-; try reflexivity; try lia.
  all: exfalso.
  all: change 31 with (2 ^ 5 - 1) in Hx; change 15 with (2 ^ 4 - 1) in Hx;
       change 7 with (2 ^ 3 - 1) in Hx; change 63 with (2 ^ 6 - 1) in Hx.
  all: rewrite ?land_mask, ?Z.shiftl_mul_pow2 in Hx by lia.
  all: change (2 ^ 3) with 8 in Hx; change (2 ^ 4) with 16 in Hx;
       change (2 ^ 5) with 32 in Hx; change (2 ^ 6) with 64 in Hx;
       change (2 ^ 12) with 4096 in Hx; change (2 ^ 18) with 262144 in Hx.
  all: bound_lors; arith.
Qed.

Lemma byte_val_inj (c d : ascii) : byte_val c = byte_val d -> c = d.
Proof.
  unfold byte_val. intros H. apply N2Z.inj in H.
  rewrite <- (ascii_N_embedding c), <- (ascii_N_embedding d), H. reflexivity.
Qed.

Lemma rparen_at (s : string) (n : nat) :
  byte_at (drop_bytes n s) 0 = RPAREN -> Contains s ")" = true.
Proof.
  revert s. induction n as [|n IH]; intros s H.
  - destruct s as [|c s]; [discriminate H|].
    cbn [drop_bytes byte_at] in H. rewrite Contains_char_cons.
    rewrite (byte_val_inj c ")" H). reflexivity.
  - destruct s as [|c s]; [discriminate H|].
    cbn [drop_bytes] in H. rewrite Contains_char_cons, (IH s H).
    apply orb_true_r.
Qed.

(** A match of the literal closing parenthesis stands on that byte. *)
Lemma exec_rparen (pos : nat) (rest : string) (caps : captures)
    (k : continuation) (res : nat * captures) :
  exec (chr RPAREN) pos rest caps k = Some res -> byte_at rest 0 = RPAREN.
Proof.
  unfold exec, chr. cbn [exec_with]. intros H.
  destruct (DecodeRuneInString rest) as [x w] eqn:E.
  destruct (Nat.eqb_spec w 0) as [|Hw]; [discriminate|].
  destruct (class_has (one_of [RPAREN]) x) eqn:Hc; [|discriminate].
  assert (Hx : x = RPAREN).
  { unfold class_has, one_of, in_range, RPAREN in *. cbn in Hc. lia. }
  subst x. apply (decode_ascii rest RPAREN w E); [reflexivity|exact Hw].
Qed.

(** An expression that ends in a literal closing parenthesis matches only
    where the text has one. *)
Lemma exec_ends_in_rparen (l : list re) :
  forall pos rest caps res,
    exec (cat (l ++ [chr RPAREN])) pos rest caps final = Some res ->
    exists n, (n <= String.length rest)%nat
              /\ byte_at (drop_bytes n rest) 0 = RPAREN.
Proof.
  induction l as [|a l IH]; intros pos rest caps res H.
  - exists O. split; [lia|]. cbn [app cat] in H. apply exec_rparen in H.
    destruct rest; exact H.
  - assert (Hcat : cat ((a :: l) ++ [chr RPAREN]) = Cat a (cat (l ++ [chr RPAREN]))).
    { cbn [app cat]. destruct (l ++ [chr RPAREN]) eqn:El; [|reflexivity].
      destruct l; discriminate El. }
    rewrite Hcat in H. apply exec_Cat in H.
    destruct H as (p & q & c & (n & -> & Hn & ->) & H).
    destruct (IH _ _ _ _ H) as (m & Hm & Hb).
    rewrite drop_length in Hm. rewrite drop_drop in Hb.
    exists (n + m)%nat. split; [lia|exact Hb].
Qed.

Lemma no_match_without_rparen (l : list re) (text : string) :
  Contains text ")" = false ->
  (forall skip pos rest n,
      rest = drop_bytes n text -> search (cat (l ++ [chr RPAREN])) skip pos rest = None)
  /\ (forall fuel pos prev,
        all_matches fuel (cat (l ++ [chr RPAREN])) text pos prev = []).
Proof.
  intros Hno.
  assert (Hexec : forall b n e caps,
             exec (cat (l ++ [chr RPAREN])) b (drop_bytes n text) [] final
             <> Some (e, caps)).
  { intros b n e caps H. apply exec_ends_in_rparen in H.
    destruct H as (m & _ & Hb). rewrite drop_drop in Hb.
    apply rparen_at in Hb. congruence. }
  split.
  - intros skip pos rest n ->.
    destruct (search _ skip pos (drop_bytes n text)) as [[[b e] caps]|] eqn:E;
      [|reflexivity].
    apply search_exec in E. destruct E as (m & _ & _ & E).
    rewrite drop_drop in E. exfalso. eapply Hexec; exact E.
  - intros fuel pos prev.
    destruct (all_matches fuel _ text pos prev) as [|[[b e] caps] ms] eqn:E;
      [reflexivity|].
    exfalso. apply (Hexec b b e caps).
    apply (all_matches_exec _ text fuel pos prev). rewrite E. left. reflexivity.
Qed.

(** In a text without a closing parenthesis, neither a table-level primary
    key nor a foreign key is found. *)
Lemma no_constraints_without_rparen (columnsDef : string) :
  Contains columnsDef ")" = false ->
  parsePrimaryKey columnsDef = nil_slice
  /\ parseForeignKeys columnsDef = nil_slice.
Proof.
  intros Hno. split.
  - unfold parsePrimaryKey, FindStringSubmatch.
    change (prog pkPattern)
      with (cat ([str_i "PRIMARY"; plus ws; str_i "KEY"; star ws; chr LPAREN;
                  Cap 1 (plus not_rparen)] ++ [chr RPAREN])).
    rewrite (proj1 (no_match_without_rparen _ columnsDef Hno) O O columnsDef O)
      by (destruct columnsDef; reflexivity).
    reflexivity.
  - unfold parseForeignKeys, FindAllStringSubmatch.
    change (prog fkPattern)
      with (cat ([quest (cat [str_i "CONSTRAINT"; plus ws; Cap 1 (plus word_i); plus ws]);
                  str_i "FOREIGN"; plus ws; str_i "KEY"; star ws;
                  chr LPAREN; open_quote; Cap 2 (plus word_i); close_quote; chr RPAREN;
                  star ws; str_i "REFERENCES"; plus ws;
                  open_quote; Cap 3 (plus word_i); close_quote; star ws;
                  chr LPAREN; open_quote; Cap 4 (plus word_i); close_quote]
                 ++ [chr RPAREN])).
    rewrite (proj2 (no_match_without_rparen _ columnsDef Hno)). reflexivity.
Qed.

(** Hence no table that [ParseDDL] builds has a primary-key list or a
    foreign key: the body it hands to [parsePrimaryKey] and
    [parseForeignKeys] stops before the first closing parenthesis, which
    both patterns need. *)
Lemma table_constraints_never_found (ddl : string) (dbType : DBType) (m : list string) :
  In m (FindAllStringSubmatch tablePattern ddl) ->
  Table.PrimaryKey (table_of_match m dbType) = nil_slice
  /\ Table.ForeignKeys (table_of_match m dbType) = nil_slice.
Proof.
  intros Hin. unfold table_of_match. cbn [Table.PrimaryKey Table.ForeignKeys].
  apply no_constraints_without_rparen, (table_body_no_rparen ddl), Hin.
Qed.

End TableBodyProps.

(** ** The response extractors *)

Module AIProps.

Import AI QueryValidation Examples ReplyTerms.

(** C5: on the documented generation-mode reply the extractor returns the
    query [SELECT 1], the explanation [ok] and the two tips, in order. *)
Theorem parseQueryResponse_example :
  parseQueryResponse generation_reply
  = ("SELECT 1", "ok", lit ["use index"; "avoid scan"]).
Proof. vm_compute. reflexivity. Qed.

(** The claim of C7 as it is worded does not hold: on the line with the
    English labels the location is not [users.email]. *)
Lemma parseIssue_english_labels_kept :
  parseIssue issue_line_english
  <> Issue.mk "warning" "missing index" "users.email" "add index".
Proof. vm_compute. discriminate. Qed.

(** C7, amended: on the line with the English labels the severity and the
    message are extracted, and the second and third fields are stored
    trimmed, labels included, because the labels the code strips are the
    Korean ones of its prompt; a field that starts with such a label loses
    it. *)
Theorem parseIssue_example :
  parseIssue issue_line_english
  = Issue.mk "warning" "missing index" "location: users.email"
             "suggestion: add index"
  /\ parseIssue issue_line_labelled
     = Issue.mk "warning" "missing index" "users.email" "add index".
Proof. split; vm_compute; reflexivity. Qed.

(** *** Invariants of the validation loop *)

(** Splits the goal along every conditional of the loop body. *)
Ltac split_ifs :=
  repeat match goal with
         | |- context [if ?b then _ else _] => destruct b eqn:?
         end.

Section ValidationLoop.

Variable originalQuery : string.

Local Abbreviation step := (validation_line originalQuery).


Lemma fold_kept_on (Q : string -> Prop) (P : QueryValidation.t * string -> Prop) :
  kept_on originalQuery Q P ->
  forall lines st,
    (forall line, In line lines -> Q line) ->
    P st -> P (fold_left step lines st).
Proof.
  intros HP lines. induction lines as [|line lines IH]; intros st HQ Hst.
  - exact Hst.
  - cbn [fold_left]. apply IH.
    + intros l Hl. apply HQ. right. exact Hl.
    + apply HP; [apply HQ; left; reflexivity | exact Hst].
Qed.

Lemma OriginalQuery_kept :
  kept_on originalQuery (fun _ => True) (fun st => OriginalQuery (fst st) = originalQuery).
Proof.
  intros [v sec] line _ H. cbn [fst] in H. unfold validation_line.
  split_ifs; exact H.
Qed.

Lemma lists_allocated_kept :
  kept_on originalQuery (fun _ => True)
    (fun st => is_nil (Issues (fst st)) = false
               /\ is_nil (Suggestions (fst st)) = false
               /\ is_nil (IndexUsage (fst st)) = false).
Proof.
  intros [v sec] line _ (H1 & H2 & H3). cbn [fst] in *. unfold validation_line.
  split_ifs; repeat split; solve [assumption | reflexivity].
Qed.

Lemma Score_kept :
  kept_on originalQuery (fun line => has_header "점수:" line = true -> score_unusable line = true)
          (fun st => Score (fst st) = 50).
Proof.
  intros [v sec] line HQ H. cbn [fst] in H.
  unfold has_header, score_unusable in HQ. unfold validation_line.
  split_ifs; try exact H.
  exfalso. specialize (HQ eq_refl). unfold scanned_score in *.
  destruct (Sscanf_d _); [|discriminate]. lia.
Qed.

Lemma IsValid_kept :
  kept_on originalQuery (fun line => has_header "유효성:" line = false)
          (fun st => IsValid (fst st) = true).
Proof.
  intros [v sec] line HQ H. cbn [fst] in H.
  unfold has_header in HQ. unfold validation_line.
  rewrite HQ. split_ifs; exact H.
Qed.

Lemma OptimizedQuery_kept :
  kept_on originalQuery (fun line => has_header "최적화된 쿼리:" line = false)
          (fun st => snd st <> "optimized"
                     /\ OptimizedQuery (fst st) = originalQuery).
Proof.
  intros [v sec] line HQ [Hs H]. cbn [fst snd] in *.
  unfold has_header in HQ. unfold validation_line.
  rewrite HQ. split_ifs; (split; [|try exact H]); try exact Hs;
    try discriminate.
  all: exfalso; apply Hs; apply String.eqb_eq; assumption.
Qed.

End ValidationLoop.

Lemma forallb_In {A : Type} (f : A -> bool) (l : list A) :
  forallb f l = true -> forall x, In x l -> f x = true.
Proof. intros H x Hx. rewrite forallb_forall in H. exact (H x Hx). Qed.

(** C10: whatever the reply, the record carries the original query
    unchanged and its three lists are allocated (never nil). *)
Theorem parseValidationResponse_invariants (response originalQuery : string) :
  let v := parseValidationResponse response originalQuery in
  OriginalQuery v = originalQuery
  /\ is_nil (Issues v) = false
  /\ is_nil (Suggestions v) = false
  /\ is_nil (IndexUsage v) = false.
Proof.
  cbv zeta. unfold parseValidationResponse.
  pose proof (fold_kept_on originalQuery _ _ (OriginalQuery_kept originalQuery)
                (Split response LF) (initial_validation originalQuery, "")
                (fun _ _ => I) eq_refl) as HO.
  pose proof (fold_kept_on originalQuery _ _ (lists_allocated_kept originalQuery)
                (Split response LF) (initial_validation originalQuery, "")
                (fun _ _ => I) (conj eq_refl (conj eq_refl eq_refl))) as HL.
  destruct (fold_left _ _ _) as [v sec]. cbn [fst] in HO, HL.
  destruct HL as (H1 & H2 & H3). repeat split; assumption.
Qed.

(** The claim of C6 as it is worded does not hold: a reply without a score
    header may still declare the query invalid, and an original query that
    carries surrounding white space is not kept as it is. *)
Lemma validation_defaults_overridden :
  (omits_header "점수:" "유효성: false" = true
   /\ IsValid (parseValidationResponse "유효성: false" "SELECT 1") = false)
  /\ (omits_header "최적화된 쿼리:" "" = true
      /\ OptimizedQuery (parseValidationResponse "" " SELECT 1") <> " SELECT 1").
Proof. vm_compute. repeat split; discriminate. Qed.

(** C6, amended: the score stays at the default 50 when no line carries the
    score header, and more generally when every score line has a token
    that does not scan or lies outside 1..100; validity stays [true] when
    no line carries the validity header; and when no line carries the
    optimized-query header the optimized query is the original query after
    the final tidying (code fences and surrounding white space removed). *)
Theorem validation_defaults (response originalQuery : string) :
  let v := parseValidationResponse response originalQuery in
  (omits_header "점수:" response = true -> Score v = 50)
  /\ (forallb (fun line => negb (has_header "점수:" line) || score_unusable line)
              (Split response LF) = true -> Score v = 50)
  /\ (omits_header "유효성:" response = true -> IsValid v = true)
  /\ (omits_header "최적화된 쿼리:" response = true ->
      OptimizedQuery v = tidy_optimized originalQuery originalQuery).
Proof.
  cbv zeta.
  assert (Hscore :
    forallb (fun line => negb (has_header "점수:" line) || score_unusable line)
            (Split response LF) = true ->
    Score (parseValidationResponse response originalQuery) = 50).
  { intros Hall. unfold parseValidationResponse.
    pose proof (fold_kept_on originalQuery _ _ (Score_kept originalQuery)
                  (Split response LF) (initial_validation originalQuery, "")) as HS.
    destruct (fold_left _ _ _) as [v sec]. cbn [fst] in HS. apply HS; [|reflexivity].
    intros line Hin Hh. pose proof (forallb_In _ _ Hall line Hin) as Hl.
    cbv beta in Hl. rewrite Hh in Hl. exact Hl. }
  split; [|split; [exact Hscore|split]].
  - intros Hom. apply Hscore. unfold omits_header in Hom.
    apply forallb_forall. intros line Hin.
    rewrite (forallb_In _ _ Hom line Hin). reflexivity.
  - intros Hom. unfold parseValidationResponse.
    pose proof (fold_kept_on originalQuery _ _ (IsValid_kept originalQuery)
                  (Split response LF) (initial_validation originalQuery, "")) as HV.
    destruct (fold_left _ _ _) as [v sec]. cbn [fst] in HV. apply HV; [|reflexivity].
    intros line Hin. pose proof (forallb_In _ _ Hom line Hin) as Hl.
    cbv beta in Hl. apply negb_true_iff in Hl. exact Hl.
  - intros Hom. unfold parseValidationResponse.
    pose proof (fold_kept_on originalQuery _ _ (OptimizedQuery_kept originalQuery)
                  (Split response LF) (initial_validation originalQuery, "")) as HQ.
    destruct (fold_left _ _ _) as [v sec]. cbn [fst snd] in HQ.
    destruct HQ as [_ HQ].
    + intros line Hin. pose proof (forallb_In _ _ Hom line Hin) as Hl.
      cbv beta in Hl. apply negb_true_iff in Hl. exact Hl.
    + split; [discriminate | reflexivity].
    + cbn [OptimizedQuery set_OptimizedQuery]. rewrite HQ. reflexivity.
Qed.

(** A score line is read up to the end of its leading integer: [7_0] and
    [85/100] give 7 and 85, not the default. *)
Example Score_leading_integer :
  Score (parseValidationResponse "점수: 7_0" "SELECT 1") = 7
  /\ Score (parseValidationResponse "점수: 85/100" "SELECT 1") = 85
  /\ Score (parseValidationResponse "점수: high" "SELECT 1") = 50.
Proof. vm_compute. repeat split; reflexivity. Qed.

(** A reply whose only score line reads 0, with no validity and no
    optimized-query header. *)
Lemma validation_defaults_witness :
  let v := parseValidationResponse ("점수: 0" +:+ LF +:+ "문제점:") "SELECT 1" in
  Score v = 50 /\ IsValid v = true /\ OptimizedQuery v = "SELECT 1".
Proof.
  cbv zeta.
  destruct (validation_defaults ("점수: 0" +:+ LF +:+ "문제점:") "SELECT 1")
    as (_ & Hs & Hv & Ho).
  split; [apply Hs; vm_compute; reflexivity|].
  split; [apply Hv; vm_compute; reflexivity|].
  rewrite Ho; vm_compute; reflexivity.
Defined.

End AIProps.

(** ** The DDL parser *)

Module DDLProps.

Import SchemaParser Examples DDLTerms.

(** *** Shape of the submatch lists *)

Lemma submatch_strings_length (re : Regexp) (text : string) (m : match_pos) :
  length (submatch_strings re text m) = S (NumSubexp re).
Proof.
  destruct m as [[b e] caps]. unfold submatch_strings.
  cbn [length]. rewrite length_map, length_seq. reflexivity.
Qed.

Lemma FindAllStringSubmatch_length (re : Regexp) (text : string) (m : list string) :
  In m (FindAllStringSubmatch re text) -> length m = S (NumSubexp re).
Proof.
  unfold FindAllStringSubmatch. rewrite in_map_iff.
  intros (p & <- & _). apply submatch_strings_length.
Qed.

(** *** The two passes of [ParseDDL] *)


Lemma ParseDDL_match_step (dbType : DBType) (schema : Schema.t)
    (tables : list Table.t) (m : list string) :
  length m = 3%nat ->
  Schema.Tables schema = Some tables ->
  ParseDDL_match dbType schema m
  = Schema.mk (Schema.Database schema)
              (Some (tables ++ [table_of_match m dbType]))
              (Schema.DBType_ schema).
Proof.
  intros Hlen Ht. unfold ParseDDL_match, set_Tables, append.
  rewrite Hlen, Ht. reflexivity.
Qed.

Lemma ParseDDL_match_fold (dbType : DBType) (matches : list (list string)) :
  (forall m, In m matches -> length m = 3%nat) ->
  forall schema tables,
    Schema.Tables schema = Some tables ->
    fold_left (ParseDDL_match dbType) matches schema
    = Schema.mk (Schema.Database schema)
                (Some (tables ++ map (fun m => table_of_match m dbType) matches))
                (Schema.DBType_ schema).
Proof.
  induction matches as [|m matches IH]; intros Hlen schema tables Ht.
  - cbn [fold_left map]. rewrite app_nil_r, <- Ht. destruct schema; reflexivity.
  - cbn [fold_left map].
    rewrite (ParseDDL_match_step dbType schema tables m
               (Hlen m (or_introl eq_refl)) Ht).
    rewrite (IH (fun m' H => Hlen m' (or_intror H))
               (Schema.mk (Schema.Database schema)
                          (Some (tables ++ [table_of_match m dbType]))
                          (Schema.DBType_ schema))
               (tables ++ [table_of_match m dbType]) eq_refl).
    cbn [Schema.Database Schema.DBType_]. rewrite <- app_assoc. reflexivity.
Qed.


Lemma grown_refl (t : Table.t) : grown t t.
Proof. unfold grown. auto. Qed.

Lemma grown_trans (a b c : Table.t) : grown a b -> grown b c -> grown a c.
Proof.
  unfold grown. intros (?&?&?&?&?) (?&?&?&?&?).
  repeat split; try congruence. auto.
Qed.

Lemma grown_add_index (t : Table.t) (idx : Index.t) : grown t (add_index t idx).
Proof.
  unfold grown, add_index. cbn. repeat split; try reflexivity.
  intros x Hx. apply in_or_app. left. exact Hx.
Qed.

Lemma Forall2_grown_refl (l : list Table.t) : Forall2 grown l l.
Proof. induction l; constructor; auto using grown_refl. Qed.

Lemma Forall2_grown_trans (a b c : list Table.t) :
  Forall2 grown a b -> Forall2 grown b c -> Forall2 grown a c.
Proof.
  intros Hab. revert c. induction Hab; intros c Hbc; inversion Hbc; subst;
    constructor; eauto using grown_trans.
Qed.

Lemma attach_index_grown (tables : list Table.t) (name : string) (idx : Index.t) :
  Forall2 grown tables (attach_index tables name idx).
Proof.
  induction tables as [|t tables IH]; cbn [attach_index].
  - constructor.
  - destruct (EqualFold (Table.Name t) name).
    + constructor; [apply grown_add_index | apply Forall2_grown_refl].
    + constructor; [apply grown_refl | exact IH].
Qed.

(** The index lands in the first table whose name matches. *)
Lemma attach_index_first (pre post : list Table.t) (t : Table.t)
    (name : string) (idx : Index.t) :
  Forall (fun t' => EqualFold (Table.Name t') name = false) pre ->
  EqualFold (Table.Name t) name = true ->
  attach_index (pre ++ t :: post) name idx = pre ++ add_index t idx :: post.
Proof.
  intros Hpre Ht. induction Hpre as [|p pre Hp _ IH]; cbn [attach_index app].
  - rewrite Ht. reflexivity.
  - rewrite Hp, IH. reflexivity.
Qed.

Lemma parseIndexes_match_grown (schema : Schema.t) (m : list string)
    (tables : list Table.t) :
  Schema.Tables schema = Some tables ->
  exists tables',
    parseIndexes_match schema m
    = Schema.mk (Schema.Database schema) (Some tables') (Schema.DBType_ schema)
    /\ Forall2 grown tables tables'.
Proof.
  intros Ht. unfold parseIndexes_match. destruct (length m <? 5)%nat.
  - exists tables. split; [|apply Forall2_grown_refl].
    rewrite <- Ht. destruct schema; reflexivity.
  - rewrite Ht. eexists. split; [reflexivity|]. apply attach_index_grown.
Qed.

Lemma parseIndexes_fold_grown (matches : list (list string)) :
  forall (schema : Schema.t) (tables : list Table.t),
    Schema.Tables schema = Some tables ->
    exists tables',
      fold_left parseIndexes_match matches schema
      = Schema.mk (Schema.Database schema) (Some tables') (Schema.DBType_ schema)
      /\ Forall2 grown tables tables'.
Proof.
  induction matches as [|m matches IH]; intros schema tables Ht.
  - exists tables. split; [|apply Forall2_grown_refl].
    cbn [fold_left]. rewrite <- Ht. destruct schema; reflexivity.
  - cbn [fold_left].
    destruct (parseIndexes_match_grown schema m tables Ht) as (t1 & E1 & G1).
    rewrite E1.
    destruct (IH (Schema.mk (Schema.Database schema) (Some t1) (Schema.DBType_ schema))
                 t1 eq_refl) as (t2 & E2 & G2).
    exists t2. split; [exact E2|]. eapply Forall2_grown_trans; eassumption.
Qed.

(** [ParseDDL] as its two passes: the tables of the first, grown by the
    second. *)
Lemma ParseDDL_tables (ddl : string) (dbType : DBType) :
  exists tables,
    ParseDDL ddl dbType = Ok (Schema.mk "" (Some tables) dbType)
    /\ Forall2 grown (parsed_tables ddl dbType) tables.
Proof.
  unfold ParseDDL, parseIndexes.
  rewrite (ParseDDL_match_fold dbType _
             (fun m H => FindAllStringSubmatch_length tablePattern ddl m H)
             (Schema.mk "" (lit []) dbType) [] eq_refl).
  cbn [app Schema.Database Schema.DBType_].
  destruct (parseIndexes_fold_grown (FindAllStringSubmatch indexPattern ddl)
              (Schema.mk "" (Some (parsed_tables ddl dbType)) dbType)
              (parsed_tables ddl dbType) eq_refl) as (tables & E & G).
  exists tables. split; [|exact G].
  unfold parsed_tables in E. rewrite E. reflexivity.
Qed.

(** No table returned by [ParseDDL] has a primary-key list or a foreign
    key, whatever the text. *)
Lemma ParseDDL_no_table_constraints (ddl : string) (dbType : DBType)
    (schema : Schema.t) (t : Table.t) :
  ParseDDL ddl dbType = Ok schema ->
  In t (elems (Schema.Tables schema)) ->
  Table.PrimaryKey t = nil_slice /\ Table.ForeignKeys t = nil_slice.
Proof.
  destruct (ParseDDL_tables ddl dbType) as (tables & E & G).
  rewrite E. intros [= <-]. cbn [elems Schema.Tables]. intros Hin.
  apply list_elem_of_In in Hin.
  destruct (proj1 (list_elem_of_lookup _ _) Hin) as (i & Hi).
  destruct (Forall2_lookup_r _ _ _ _ _ G Hi) as (t0 & H0 & (_ & _ & Hpk & Hfk & _)).
  rewrite Hpk, Hfk.
  apply list_elem_of_lookup_2, list_elem_of_In in H0.
  unfold parsed_tables in H0. apply in_map_iff in H0.
  destruct H0 as (m & <- & Hm).
  exact (TableBodyProps.table_constraints_never_found ddl dbType m Hm).
Qed.

(** C3: [ParseDDL] returns a schema and a nil error on every input; the
    schema has the requested dialect and one table per match of the
    [CREATE TABLE] pattern, so a text without such a match gives the empty
    (allocated) table list. *)
Theorem ParseDDL_never_fails (ddl : string) (dbType : DBType) :
  exists schema tables,
    ParseDDL ddl dbType = Ok schema
    /\ Schema.DBType_ schema = dbType
    /\ Schema.Tables schema = Some tables
    /\ length tables = length (FindAllStringSubmatch tablePattern ddl)
    /\ (FindAllStringSubmatch tablePattern ddl = [] -> tables = []).
Proof.
  destruct (ParseDDL_tables ddl dbType) as (tables & E & G).
  exists (Schema.mk "" (Some tables) dbType), tables.
  assert (Hlen : length tables = length (FindAllStringSubmatch tablePattern ddl)).
  { rewrite <- (Forall2_length _ _ _ G). unfold parsed_tables.
    apply length_map. }
  repeat split; try assumption.
  intros Hnone. rewrite Hnone in Hlen. destruct tables; [reflexivity|discriminate].
Qed.

(** A text without any [CREATE TABLE]. *)
Lemma ParseDDL_never_fails_witness :
  ParseDDL "SELECT 1" MySQL = Ok (Schema.mk "" (lit []) MySQL).
Proof.
  destruct (ParseDDL_never_fails "SELECT 1" MySQL)
    as (schema & tables & E & Hd & Ht & _ & Hnone).
  rewrite E. f_equal. destruct schema as [db tbl ty].
  cbn in Hd, Ht. subst ty tbl. rewrite (Hnone eq_refl).
  vm_compute in E. injection E as <-. reflexivity.
Defined.

(** *** The documented examples *)


(** C1: what [ParseDDL] returns on the documented input.  The table body
    captured by the lazy [CREATE TABLE] pattern ends at the first closing
    parenthesis, the one inside [DECIMAL(10,2)]; column [y] is still found,
    but with type [DECIMAL] and without its default [0.00]. *)
Theorem ParseDDL_decimal_body_truncated (dbType : DBType) :
  FindAllStringSubmatch tablePattern ddl_decimal
  = [["CREATE TABLE b (x INT, y DECIMAL(10,2)"; "b"; "x INT, y DECIMAL(10,2"]]
  /\ ParseDDL ddl_decimal dbType
     = Ok (Schema.mk ""
             (lit [Table.mk "b"
                     (lit [plain_column "x" "INT"; plain_column "y" "DECIMAL"])
                     nil_slice nil_slice nil_slice])
             dbType).
Proof. split; vm_compute; reflexivity. Qed.

(** The claim of C2 as it is worded does not hold: no result of [ParseDDL]
    on the documented input has a column [id] that is not nullable. *)
Lemma ParseDDL_id_is_nullable :
  ~ exists dbType schema t id name,
      ParseDDL ddl_two_columns dbType = Ok schema
      /\ Schema.Tables schema = Some [t]
      /\ Table.Name t = "t"
      /\ Table.Columns t = Some [id; name]
      /\ Column.Name id = "id"
      /\ Column.IsPK id = true
      /\ Column.IsAutoIncr id = true
      /\ Column.Nullable id = false
      /\ Column.Name name = "name"
      /\ Column.Nullable name = false.
Proof.
  intros (dbType & schema & t & id & name & E & Ht & _ & Hc & _ & _ & _ & Hn & _).
  vm_compute in E. injection E as <-. cbn in Ht. injection Ht as <-.
  cbn in Hc. injection Hc as <- _. discriminate Hn.
Qed.

(** C2, amended: on the documented input [ParseDDL] returns one table [t]
    with the two columns [id] and [name]; [id] is a primary key,
    auto-incremented, and nullable, its clause having no [NOT NULL]. *)
Theorem ParseDDL_two_columns (dbType : DBType) :
  exists schema t id name,
    ParseDDL ddl_two_columns dbType = Ok schema
    /\ Schema.Tables schema = Some [t]
    /\ Table.Name t = "t"
    /\ Table.Columns t = Some [id; name]
    /\ Column.Name id = "id"
    /\ Column.IsPK id = true
    /\ Column.IsAutoIncr id = true
    /\ Column.Nullable id = true
    /\ Column.Name name = "name".
Proof.
  eexists _, _, _, _. split; [vm_compute; reflexivity|].
  cbn. repeat split.
Qed.

(** *** Indexes are attached whatever the order of the statements *)

(** The claim of C8 as it is worded does not hold: in a text that defines
    [USERS] and then [users], and contains the index statement, the index
    goes to [USERS]; the table named [users] has no index. *)
Lemma index_misses_users_table :
  Contains ddl_two_users ddl_users = true
  /\ Contains ddl_two_users ddl_index = true
  /\ exists schema t,
       ParseDDL ddl_two_users MySQL = Ok schema
       /\ In t (elems (Schema.Tables schema))
       /\ Table.Name t = "users"
       /\ ~ In idx_e (elems (Table.Indexes t)).
Proof.
  split; [vm_compute; reflexivity|]. split; [vm_compute; reflexivity|].
  eexists _, _. split; [vm_compute; reflexivity|].
  cbn [elems Schema.Tables]. split; [right; left; reflexivity|].
  split; [reflexivity|]. cbn. tauto.
Qed.

(** Growth keeps the first table matching a name where it is. *)
Lemma grown_first_match (name : string) (pre post : list Table.t) (t : Table.t)
    (tables : list Table.t) :
  Forall2 grown (pre ++ t :: post) tables ->
  Forall (fun t' => EqualFold (Table.Name t') name = false) pre ->
  exists pre' t' post',
    tables = pre' ++ t' :: post'
    /\ length pre' = length pre
    /\ grown t t'
    /\ Forall2 grown post post'
    /\ Forall (fun t' => EqualFold (Table.Name t') name = false) pre'.
Proof.
  revert tables. induction pre as [|p pre IH]; intros tables HG Hpre.
  - cbn [app] in HG. inversion HG as [|? t' ? post' Ht Hpost]; subst.
    exists [], t', post'.
    split; [reflexivity|]. split; [reflexivity|]. split; [exact Ht|].
    split; [exact Hpost|constructor].
  - cbn [app] in HG. inversion HG as [|? p' ? rest Hp Hrest]; subst.
    inversion Hpre as [|? ? Hpf Hpre']; subst.
    destruct (IH rest Hrest Hpre') as (pre' & t' & post' & -> & Hl & Ht & Hpost & Hf).
    exists (p' :: pre'), t', post'.
    split; [reflexivity|].
    split; [cbn [length]; rewrite Hl; reflexivity|].
    split; [exact Ht|]. split; [exact Hpost|].
    constructor; [|exact Hf]. destruct Hp as (Hname & _). rewrite Hname. exact Hpf.
Qed.

(** The second pass, match by match: every index statement found in the
    text reaches the first table whose name equals its table name up to
    case. *)
Lemma parseIndexes_fold_attaches (matches : list (list string)) (m : list string)
    (name : string) (idx : Index.t) :
  In m matches ->
  (forall m', In m' matches -> length m' = 5%nat) ->
  sub m 3 = name ->
  index_of_match m = idx ->
  forall (schema : Schema.t) (pre post : list Table.t) (t : Table.t),
    Schema.Tables schema = Some (pre ++ t :: post) ->
    Forall (fun t' => EqualFold (Table.Name t') name = false) pre ->
    EqualFold (Table.Name t) name = true ->
    exists pre' t' post',
      fold_left parseIndexes_match matches schema
      = Schema.mk (Schema.Database schema) (Some (pre' ++ t' :: post'))
                  (Schema.DBType_ schema)
      /\ length pre' = length pre
      /\ Table.Name t' = Table.Name t
      /\ Table.Columns t' = Table.Columns t
      /\ In idx (elems (Table.Indexes t')).
Proof.
  intros Hin Hlen Hname Hidx.
  induction matches as [|m0 matches IH]; [destruct Hin|].
  intros schema pre post t Ht Hpre Hmatch. cbn [fold_left].
  destruct Hin as [-> | Hin].
  - (* this is the statement: it is attached now and kept afterwards *)
    unfold parseIndexes_match at 2.
    rewrite (Hlen m (or_introl eq_refl)), Ht. cbn [Nat.ltb Nat.leb].
    rewrite Hname, Hidx, (attach_index_first pre post t name idx Hpre Hmatch).
    destruct (parseIndexes_fold_grown matches
                (set_Tables schema (Some (pre ++ add_index t idx :: post)))
                (pre ++ add_index t idx :: post) eq_refl) as (tables & E & G).
    destruct (grown_first_match name pre post (add_index t idx) tables G Hpre)
      as (pre' & t' & post' & -> & Hl & (Hn & Hc & _ & _ & Hi) & _ & _).
    exists pre', t', post'. split; [exact E|].
    split; [exact Hl|]. split; [exact Hn|]. split; [exact Hc|].
    apply Hi. cbn. apply in_or_app. right. left. reflexivity.
  - (* an earlier statement: the table stays the first match *)
    destruct (parseIndexes_match_grown schema m0 (pre ++ t :: post) Ht)
      as (tables & E & G).
    destruct (grown_first_match name pre post t tables G Hpre)
      as (pre1 & t1 & post1 & -> & Hl1 & (Hn1 & Hc1 & _) & _ & Hpre1).
    rewrite E.
    destruct (IH Hin (fun m' H => Hlen m' (or_intror H))
                 (Schema.mk (Schema.Database schema) (Some (pre1 ++ t1 :: post1))
                            (Schema.DBType_ schema))
                 pre1 post1 t1 eq_refl Hpre1)
      as (pre' & t' & post' & E' & Hl' & Hn' & Hc' & Hi').
    { rewrite Hn1. exact Hmatch. }
    exists pre', t', post'. split; [exact E'|].
    repeat split; [congruence | congruence | congruence | exact Hi'].
Qed.

(** C8, amended: for any text, wherever the statement
    [CREATE UNIQUE INDEX idx_e ON users (email)] is found relative to the
    table definitions, the index [idx_e] (unique, over [email]) is in the
    index list of the first parsed table whose name equals [users] up to
    case. *)
Theorem create_index_attached (ddl : string) (dbType : DBType)
    (pre post : list Table.t) (t : Table.t) (m : list string) :
  parsed_tables ddl dbType = pre ++ t :: post ->
  Forall (fun t' => EqualFold (Table.Name t') "users" = false) pre ->
  EqualFold (Table.Name t) "users" = true ->
  In m (FindAllStringSubmatch indexPattern ddl) ->
  sub m 3 = "users" ->
  index_of_match m = idx_e ->
  exists schema pre' t' post',
    ParseDDL ddl dbType = Ok schema
    /\ Schema.Tables schema = Some (pre' ++ t' :: post')
    /\ length pre' = length pre
    /\ Table.Name t' = Table.Name t
    /\ Table.Columns t' = Table.Columns t
    /\ In idx_e (elems (Table.Indexes t')).
Proof.
  intros Htables Hpre Ht Hin Hname Hidx.
  unfold ParseDDL, parseIndexes.
  rewrite (ParseDDL_match_fold dbType _
             (fun m H => FindAllStringSubmatch_length tablePattern ddl m H)
             (Schema.mk "" (lit []) dbType) [] eq_refl).
  cbn [app Schema.Database Schema.DBType_].
  fold (parsed_tables ddl dbType). rewrite Htables.
  destruct (parseIndexes_fold_attaches
              (FindAllStringSubmatch indexPattern ddl) m "users" idx_e Hin
              (fun m' H => FindAllStringSubmatch_length indexPattern ddl m' H)
              Hname Hidx
              (Schema.mk "" (Some (pre ++ t :: post)) dbType) pre post t
              eq_refl Hpre Ht)
    as (pre' & t' & post' & E & Hl & Hn & Hc & Hi).
  eexists _, pre', t', post'. split; [rewrite E; reflexivity|].
  repeat split; assumption.
Qed.


(** The index statement after the table definition, and before it. *)
Lemma create_index_attached_witness :
  (exists schema pre t post,
     ParseDDL ddl_table_then_index MySQL = Ok schema
     /\ Schema.Tables schema = Some (pre ++ t :: post)
     /\ length pre = 0%nat
     /\ Table.Name t = "users"
     /\ Table.Columns t = Table.Columns users_table
     /\ In idx_e (elems (Table.Indexes t)))
  /\ (exists schema pre t post,
        ParseDDL ddl_index_then_table MySQL = Ok schema
        /\ Schema.Tables schema = Some (pre ++ t :: post)
        /\ length pre = 0%nat
        /\ Table.Name t = "users"
        /\ Table.Columns t = Table.Columns users_table
        /\ In idx_e (elems (Table.Indexes t))).
Proof.
  split.
  - apply (create_index_attached ddl_table_then_index MySQL [] [] users_table
             index_match).
    + vm_compute; reflexivity.
    + constructor.
    + vm_compute; reflexivity.
    + vm_compute; left; reflexivity.
    + reflexivity.
    + vm_compute; reflexivity.
  - apply (create_index_attached ddl_index_then_table MySQL [] [] users_table
             index_match).
    + vm_compute; reflexivity.
    + constructor.
    + vm_compute; reflexivity.
    + vm_compute; left; reflexivity.
    + reflexivity.
    + vm_compute; reflexivity.
Defined.

End DDLProps.

(** ** Folding index and foreign-key rows *)

Module DBProps.

Import DB RowTerms.

Section IndexFold.

Context {U : Type} (is_unique : U -> bool).


Lemma add_columns_spec (cols : list string) (idx : Index.t) :
  fold_left add_column cols idx
  = Index.mk (Index.Name idx)
             (match cols with
              | [] => Index.Columns idx
              | _ => Some (elems (Index.Columns idx) ++ cols)
              end)
             (Index.IsUnique idx) (Index.Type_ idx).
Proof.
  revert idx. induction cols as [|c cols IH]; intros idx.
  - destruct idx; reflexivity.
  - cbn [fold_left]. rewrite IH. unfold add_column, append.
    cbn [Index.Name Index.Columns Index.IsUnique Index.Type_ elems].
    f_equal. destruct cols; [reflexivity|]. rewrite <- app_assoc. reflexivity.
Qed.

Lemma index_rows_spec (rows : list (IndexRow U)) :
  forall indexMap : gmap string Index.t,
  exists final : gmap string Index.t,
    index_rows is_unique (map Scanned rows) indexMap = Ok final
    /\ forall name, final !! name = extended is_unique (indexMap !! name) name (rows_of name rows).
Proof.
  induction rows as [|row rows IH]; intros indexMap.
  - exists indexMap. split; [reflexivity|]. intros name.
    cbn. destruct (indexMap !! name); reflexivity.
  - cbn [map index_rows].
    destruct (IH (index_row is_unique indexMap row)) as (final & E & Hfinal).
    exists final. split; [exact E|]. intros name. rewrite Hfinal.
    unfold rows_of. cbn [List.filter]. unfold index_row.
    destruct (String.eqb_spec (indexName row) name) as [->|Hne].
    + destruct (indexMap !! name) as [idx|] eqn:Hcur.
      * rewrite lookup_insert_eq. reflexivity.
      * rewrite lookup_insert_eq. reflexivity.
    + destruct (indexMap !! indexName row) as [idx|];
        rewrite lookup_insert_ne by exact Hne; reflexivity.
Qed.

(** The entry of an index in the map built from all the rows. *)
Lemma final_entry (rows : list (IndexRow U)) (name : string) (idx : Index.t) :
  extended is_unique None name (rows_of name rows) = Some idx ->
  Index.Name idx = name
  /\ Index.Columns idx = Some (map columnName (rows_of name rows))
  /\ In name (map indexName rows).
Proof.
  unfold extended. destruct (rows_of name rows) as [|r rs] eqn:Hrows; [discriminate|].
  intros [= <-]. rewrite add_columns_spec.
  cbn [Index.Name Index.Columns elems map lit].
  split; [reflexivity|]. split.
  - destruct (map columnName rs); reflexivity.
  - assert (Hr : In r (rows_of name rows)) by (rewrite Hrows; left; reflexivity).
    unfold rows_of in Hr. apply filter_In in Hr. destruct Hr as [Hr Hn].
    apply String.eqb_eq in Hn. subst name. apply in_map. exact Hr.
Qed.

Lemma final_entry_exists (rows : list (IndexRow U)) (name : string) :
  In name (map indexName rows) ->
  exists idx, extended is_unique None name (rows_of name rows) = Some idx.
Proof.
  intros Hin. apply in_map_iff in Hin. destruct Hin as (r & <- & Hr).
  assert (Hf : In r (rows_of (indexName r) rows)).
  { unfold rows_of. apply filter_In. split; [exact Hr|apply String.eqb_refl]. }
  unfold extended. destruct (rows_of (indexName r) rows); [destruct Hf|eauto].
Qed.

Lemma collect_spec (entries : list (string * Index.t)) (acc : slice Index.t) :
  elems (fold_left (fun indexes kv => append indexes (snd kv)) entries acc)
  = elems acc ++ map snd entries.
Proof.
  revert acc. induction entries as [|e entries IH]; intros acc.
  - cbn. rewrite app_nil_r. reflexivity.
  - cbn [fold_left map]. rewrite IH. unfold append. cbn [elems].
    rewrite <- app_assoc. reflexivity.
Qed.

End IndexFold.

Lemma fmap_map {A B : Type} (f : A -> B) (l : list A) : f <$> l = map f l.
Proof. induction l as [|a l IH]; [reflexivity|]. cbn. rewrite <- IH. reflexivity. Qed.

Lemma fk_rows_spec (rows : list FKRow) (fks : slice FK.t) :
  exists out,
    fk_rows (map Scanned rows) fks = Ok out
    /\ elems out = elems fks ++ map fk_of_row rows.
Proof.
  revert fks. induction rows as [|row rows IH]; intros fks.
  - exists fks. split; [reflexivity|]. cbn. rewrite app_nil_r. reflexivity.
  - cbn [map fk_rows]. destruct (IH (append fks (fk_of_row row))) as (out & E & Hout).
    exists out. split; [exact E|]. rewrite Hout. unfold append. cbn [elems].
    rewrite <- app_assoc. reflexivity.
Qed.

(** The claim of C9 as it is worded does not hold.  Foreign-key rows are
    not folded by constraint name: two rows of one constraint give two
    records of that name.  And the order of the index list is not fixed by
    the rows: it is the order in which Go ranges over the map, and two
    admissible orders give different lists. *)
Lemma rows_not_folded_in_order :
  (exists fks,
     getForeignKeys
       (Rows [Scanned (mk_FKRow "fk_a" "x" (Some "t") (Some "a"));
              Scanned (mk_FKRow "fk_a" "y" (Some "t") (Some "b"))])
     = Ok (Some fks)
     /\ map FK.Name fks = ["fk_a"; "fk_a"])
  /\ (let q := Rows [Scanned (mk_IndexRow "i1" "a" 1 "BTREE");
                     Scanned (mk_IndexRow "i2" "b" 1 "BTREE")] in
      (forall m : gmap string Index.t, map_to_list m ≡ₚ map_to_list m)
      /\ (forall m : gmap string Index.t, rev (map_to_list m) ≡ₚ map_to_list m)
      /\ MySQL_getIndexes map_to_list q
         <> MySQL_getIndexes (fun m => rev (map_to_list m)) q).
Proof.
  split.
  - eexists. split; vm_compute; reflexivity.
  - cbv zeta. split; [reflexivity|]. split.
    + intros m. symmetry. apply Permutation_rev.
    + vm_compute. discriminate.
Qed.

(** C9, amended: for every sequence of index rows, and whatever order Go
    ranges over the map in, [getIndexes] returns exactly one record per
    distinct index name, and the column list of each record is the columns
    of the rows of that index in the order the rows were supplied; the
    order of the records themselves is the range order of the map, not
    fixed by the rows.  Foreign-key rows are not folded: [getForeignKeys]
    returns one record per row, in the order of the rows.  (Instances:
    [MySQL_getIndexes], [Oracle_getIndexes].) *)
Theorem rows_folded {U : Type} (is_unique : U -> bool)
    (range_order : gmap string Index.t -> list (string * Index.t))
    (rows : list (IndexRow U)) (fkRows : list FKRow) :
  (forall m, range_order m ≡ₚ map_to_list m) ->
  (exists indexes,
     getIndexes is_unique range_order (Rows (map Scanned rows)) = Ok indexes
     /\ NoDup (map Index.Name (elems indexes))
     /\ (forall name, In name (map Index.Name (elems indexes))
                      <-> In name (map indexName rows))
     /\ (forall idx, In idx (elems indexes) ->
           Index.Columns idx
           = Some (map columnName (rows_of (Index.Name idx) rows))))
  /\ (exists fks,
        getForeignKeys (Rows (map Scanned fkRows)) = Ok fks
        /\ elems fks = map fk_of_row fkRows).
Proof.
  intros Horder. split.
  - unfold getIndexes.
    destruct (index_rows_spec is_unique rows ∅) as (final & E & Hfinal).
    rewrite E. eexists. split; [reflexivity|].
    rewrite collect_spec. cbn [elems nil_slice app].
    assert (Hentry : forall k idx, In (k, idx) (range_order final) ->
                                   extended is_unique None k (rows_of k rows) = Some idx).
    { intros k idx Hin. apply list_elem_of_In in Hin. rewrite (Horder final) in Hin.
      apply elem_of_map_to_list in Hin. rewrite Hfinal, lookup_empty in Hin.
      exact Hin. }
    assert (Hnames : map Index.Name (map snd (range_order final))
                     = map fst (range_order final)).
    { rewrite map_map. apply map_ext_in. intros [k idx] Hin.
      destruct (final_entry is_unique rows k idx (Hentry k idx Hin)) as (Hn & _).
      exact Hn. }
    split; [|split].
    + rewrite Hnames, <- fmap_map, (Horder final).
      apply NoDup_fst_map_to_list.
    + intros name. rewrite Hnames. split.
      * intros Hin. apply in_map_iff in Hin. destruct Hin as ([k idx] & <- & Hin).
        destruct (final_entry is_unique rows k idx (Hentry k idx Hin)) as (_ & _ & Hr).
        exact Hr.
      * intros Hin.
        destruct (final_entry_exists is_unique rows name Hin) as (idx & Hidx).
        apply in_map_iff. exists (name, idx). split; [reflexivity|].
        apply list_elem_of_In. rewrite (Horder final).
        apply elem_of_map_to_list. rewrite Hfinal, lookup_empty. exact Hidx.
    + intros idx Hin. apply in_map_iff in Hin. destruct Hin as ([k idx'] & Heq & Hin).
      cbn [snd] in Heq. subst idx'.
      destruct (final_entry is_unique rows k idx (Hentry k idx Hin)) as (Hn & Hc & _).
      rewrite Hn. exact Hc.
  - unfold getForeignKeys.
    destruct (fk_rows_spec fkRows nil_slice) as (out & E & Hout).
    exists out. split; [exact E|]. exact Hout.
Qed.

(** Two indexes over three rows, and a composite foreign key. *)
Lemma rows_folded_witness :
  (exists indexes,
     MySQL_getIndexes map_to_list
       (Rows (map Scanned [mk_IndexRow "i1" "a" 0 "BTREE";
                           mk_IndexRow "i2" "c" 1 "BTREE";
                           mk_IndexRow "i1" "b" 0 "BTREE"]))
     = Ok indexes
     /\ (forall idx, In idx (elems indexes) -> Index.Name idx = "i1" ->
          Index.Columns idx = Some ["a"; "b"]))
  /\ (exists fks,
        getForeignKeys
          (Rows (map Scanned [mk_FKRow "fk_a" "x" (Some "t") (Some "a");
                              mk_FKRow "fk_a" "y" (Some "t") (Some "b")]))
        = Ok fks
        /\ map FK.Column (elems fks) = ["x"; "y"]).
Proof.
  destruct (rows_folded (fun nonUnique : Z => nonUnique =? 0) map_to_list
              [mk_IndexRow "i1" "a" 0 "BTREE"; mk_IndexRow "i2" "c" 1 "BTREE";
               mk_IndexRow "i1" "b" 0 "BTREE"]
              [mk_FKRow "fk_a" "x" (Some "t") (Some "a");
               mk_FKRow "fk_a" "y" (Some "t") (Some "b")]
              (fun m => reflexivity (map_to_list m)))
    as ((indexes & E & _ & _ & Hcols) & (fks & F & Hfks)).
  split.
  - exists indexes. split; [exact E|]. intros idx Hin Hname.
    rewrite (Hcols idx Hin), Hname. reflexivity.
  - exists fks. split; [exact F|]. rewrite Hfks. reflexivity.
Defined.

End DBProps.

(** ** JSON round trips *)

Module JsonProps.

Import Json SchemaParser JsonTerms Utf8Props.

(** *** Well-formed UTF-8 is a fixed point of [ToValidUTF8] *)

Lemma to_valid_skip (k : nat) (s : string) :
  to_valid_from k s = take_bytes k s +:+ to_valid_from O (drop_bytes k s).
Proof.
  revert s. induction k as [|k IH]; intros s.
  - destruct s; reflexivity.
  - destruct s as [|c s]; [reflexivity|].
    cbn [to_valid_from take_bytes drop_bytes String.append]. rewrite IH. reflexivity.
Qed.

(** What [to_valid_from] does at the start of a rune. *)
Lemma to_valid_step (s : string) :
  s <> EmptyString ->
  to_valid_from O s
  = let '(r, w) := DecodeRuneInString s in
    if (r =? RuneError) && Nat.eqb w 1
    then replacement +:+ to_valid_from O (drop_bytes 1 s)
    else take_bytes w s +:+ to_valid_from O (drop_bytes w s).
Proof.
  intros Hs. destruct s as [|c s]; [congruence|]. cbn [to_valid_from drop_bytes].
  destruct (DecodeRuneInString (String c s)) as [r w] eqn:E.
  destruct ((r =? RuneError) && Nat.eqb w 1); [reflexivity|].
  rewrite to_valid_skip.
  pose proof (decode_width_pos c s r w E) as Hw.
  destruct w as [|w]; [congruence|]. reflexivity.
Qed.

(** A well-formed rune passes through unchanged. *)
Lemma to_valid_rune (s t : string) (r : rune) (w : nat) :
  DecodeRuneInString s = (r, w) ->
  w <> O ->
  (r =? RuneError) && Nat.eqb w 1 = false ->
  to_valid_from O (take_bytes w s +:+ t) = take_bytes w s +:+ to_valid_from O t.
Proof.
  intros E Hw Hok.
  assert (Hbad : ~ (r = RuneError /\ w = 1%nat)).
  { intros [-> ->]. discriminate Hok. }
  pose proof (decode_prefix s t r w E Hw Hbad) as E'.
  pose proof (take_length w s (decode_width s r w E)) as Hlen.
  rewrite to_valid_step.
  - rewrite E', Hok. rewrite <- Hlen at 1 3.
    rewrite take_app_exact, drop_app_exact. reflexivity.
  - destruct (take_bytes w s) eqn:Et; [cbn in Hlen; congruence|discriminate].
Qed.

Lemma to_valid_idem_length (n : nat) :
  forall s, (String.length s <= n)%nat ->
            to_valid_from O (to_valid_from O s) = to_valid_from O s.
Proof.
  induction n as [|n IH]; intros s Hn.
  - destruct s; [reflexivity|cbn in Hn; lia].
  - destruct s as [|c s]; [reflexivity|].
    rewrite (to_valid_step (String c s)) by discriminate.
    destruct (DecodeRuneInString (String c s)) as [r w] eqn:E.
    destruct ((r =? RuneError) && Nat.eqb w 1) eqn:Hok.
    + change replacement with (take_bytes 3 replacement).
      rewrite (to_valid_rune replacement _ RuneError 3 eq_refl) by (discriminate || reflexivity).
      rewrite IH; [reflexivity|]. cbn [drop_bytes String.length] in *. lia.
    + pose proof (decode_width_pos c s r w E) as Hw.
      rewrite (to_valid_rune (String c s) _ r w E Hw Hok).
      rewrite IH; [reflexivity|]. rewrite drop_length.
      cbn [String.length] in *. lia.
Qed.

(** [ToValidUTF8] is idempotent. *)
Lemma ToValidUTF8_idem (s : string) : ToValidUTF8 (ToValidUTF8 s) = ToValidUTF8 s.
Proof. apply (to_valid_idem_length (String.length s)). lia. Qed.

Lemma ToValidUTF8_empty (s : string) :
  String.eqb (ToValidUTF8 s) "" = String.eqb s "".
Proof.
  destruct s as [|c s]; [reflexivity|].
  unfold ToValidUTF8. cbn [to_valid_from].
  destruct (DecodeRuneInString (String c s)) as [r w].
  destruct ((r =? RuneError) && Nat.eqb w 1); reflexivity.
Qed.

(** *** Decoding what was encoded *)


Lemma dec_items_enc {A M : Type} (dec : M -> json -> result M) (enc : A -> json)
    (mem : A -> M) (zero : M) :
  (forall x, dec zero (enc x) = Ok (mem x)) ->
  forall l, dec_items dec zero [] (map enc l) = Ok (map mem l).
Proof.
  intros H l. induction l as [|x l IH]; [reflexivity|].
  cbn [map dec_items hd tl]. rewrite H. cbn [bind]. rewrite IH. reflexivity.
Qed.

Lemma dec_slice_enc {A M : Type} (dec : M -> json -> result M) (enc : A -> json)
    (mem : A -> M) (zero : M) :
  (forall x, dec zero (enc x) = Ok (mem x)) ->
  forall s, dec_slice dec zero unheld (enc_slice enc s)
            = Ok (held_of (option_map (map mem) s)).
Proof.
  intros H [[|x l]|]; [reflexivity| |reflexivity].
  cbn [enc_slice dec_slice map]. change (backing unheld) with (@nil M).
  change (enc x :: map enc l) with (map enc (x :: l)).
  rewrite (dec_items_enc dec enc mem zero H). reflexivity.
Qed.

Lemma mem_norm_slice {A M : Type} (mem : A -> M) (norm : A -> A) (s : slice A) :
  option_map (map (fun x => mem (norm x))) s
  = option_map (map mem) (norm_slice norm s).
Proof. destruct s as [l|]; [|reflexivity]. cbn. now rewrite map_map. Qed.

Lemma value_slice {A M : Type} (mem : A -> M) (value : M -> A) (s : slice A) :
  (forall x, value (mem x) = x) ->
  option_map (map value) (option_map (map mem) s) = s.
Proof.
  intros H. destruct s as [l|]; [|reflexivity]. cbn. f_equal.
  rewrite map_map. induction l as [|x l IH]; [reflexivity|].
  cbn [map]. now rewrite H, IH.
Qed.

Lemma value_mem_Index (i : Index.t) : IndexMem.value (mem_Index i) = i.
Proof. now destruct i. Qed.

Lemma value_mem_Table (t : Table.t) : TableMem.value (mem_Table t) = t.
Proof.
  destruct t as [name columns primaryKey foreignKeys indexes].
  unfold TableMem.value, mem_Table. cbn.
  now rewrite (value_slice mem_Index IndexMem.value indexes value_mem_Index).
Qed.

Lemma value_mem_Schema (s : Schema.t) : SchemaMem.value (mem_Schema s) = s.
Proof.
  destruct s as [database tables dbType].
  unfold SchemaMem.value, mem_Schema. cbn.
  now rewrite (value_slice mem_Table TableMem.value tables value_mem_Table).
Qed.

Lemma dec_string_enc (s : string) : dec_string "" (enc_string s) = Ok (ToValidUTF8 s).
Proof. reflexivity. Qed.

Lemma omitempty_cases (name s : string) :
  (s = "" /\ omitempty name s = [])
  \/ (ToValidUTF8 s <> "" /\ omitempty name s = [(name, enc_string s)]).
Proof.
  unfold omitempty. destruct (String.eqb_spec s "") as [->|Hne]; [left; auto|].
  right. split; [|reflexivity]. intros H.
  pose proof (ToValidUTF8_empty s) as E. rewrite H in E. cbn in E.
  symmetry in E. apply String.eqb_eq in E. contradiction.
Qed.

Lemma dec_Column_enc (c : Column.t) :
  dec_Column Column.zero (enc_Column c) = Ok (norm_Column c).
Proof.
  destruct c as [name type nullable default comment isPK isFK isUnique isAutoIncr].
  unfold enc_Column, norm_Column.
  cbn [Column.Name Column.Type_ Column.Nullable Column.Default Column.Comment
       Column.IsPK Column.IsFK Column.IsUnique Column.IsAutoIncr].
  destruct (omitempty_cases "default" default) as [[-> ->]|[_ ->]],
           (omitempty_cases "comment" comment) as [[-> ->]|[_ ->]];
    reflexivity.
Qed.

Lemma dec_FK_enc (f : FK.t) : dec_FK FK.zero (enc_FK f) = Ok (norm_FK f).
Proof.
  destruct f as [name column refTable refColumn onDelete onUpdate].
  unfold enc_FK, norm_FK.
  cbn [FK.Name FK.Column FK.RefTable FK.RefColumn FK.OnDelete FK.OnUpdate].
  destruct (omitempty_cases "on_delete" onDelete) as [[-> ->]|[_ ->]],
           (omitempty_cases "on_update" onUpdate) as [[-> ->]|[_ ->]];
    reflexivity.
Qed.

Lemma dec_members_cons {T : Type} (names : list string)
    (store : T -> nat -> json -> result T) (cur cur' : T) (key : string)
    (v : json) (rest : list (string * json)) (i : nat) :
  match_field names key = Some i ->
  store cur i v = Ok cur' ->
  dec_members names store cur ((key, v) :: rest)
  = dec_members names store cur' rest.
Proof. intros Hf Hs. cbn [dec_members]. rewrite Hf, Hs. reflexivity. Qed.

Lemma dec_Index_enc (i : Index.t) :
  dec_Index IndexMem.zero (enc_Index i) = Ok (mem_Index (norm_Index i)).
Proof.
  destruct i as [name columns isUnique type].
  unfold enc_Index, norm_Index, mem_Index, dec_Index, dec_object.
  cbn [Index.Name Index.Columns Index.IsUnique Index.Type_].
  erewrite dec_members_cons; [|reflexivity|reflexivity].
  erewrite dec_members_cons; [|reflexivity|].
  2:{ cbn [store_Index].
      rewrite (dec_slice_enc dec_string enc_string ToValidUTF8 "" dec_string_enc).
      reflexivity. }
  reflexivity.
Qed.

Lemma dec_Table_enc (t : Table.t) :
  dec_Table TableMem.zero (enc_Table t) = Ok (mem_Table (norm_Table t)).
Proof.
  destruct t as [name columns primaryKey foreignKeys indexes].
  unfold enc_Table, norm_Table, mem_Table, dec_Table, dec_object.
  cbn [Table.Name Table.Columns Table.PrimaryKey Table.ForeignKeys Table.Indexes].
  erewrite dec_members_cons; [|reflexivity|reflexivity].
  erewrite dec_members_cons; [|reflexivity|].
  2:{ cbn [store_Table].
      rewrite (dec_slice_enc dec_Column enc_Column norm_Column _ dec_Column_enc).
      reflexivity. }
  erewrite dec_members_cons; [|reflexivity|].
  2:{ cbn [store_Table].
      rewrite (dec_slice_enc dec_string enc_string ToValidUTF8 "" dec_string_enc).
      reflexivity. }
  erewrite dec_members_cons; [|reflexivity|].
  2:{ cbn [store_Table].
      rewrite (dec_slice_enc dec_FK enc_FK norm_FK _ dec_FK_enc).
      reflexivity. }
  erewrite dec_members_cons; [|reflexivity|].
  2:{ cbn [store_Table].
      rewrite (dec_slice_enc dec_Index enc_Index (fun i => mem_Index (norm_Index i))
                 _ dec_Index_enc), mem_norm_slice.
      reflexivity. }
  reflexivity.
Qed.

Lemma dec_Schema_enc (s : Schema.t) :
  dec_Schema SchemaMem.zero (enc_Schema s) = Ok (mem_Schema (norm_Schema s)).
Proof.
  destruct s as [database tables dbType].
  unfold enc_Schema, norm_Schema, mem_Schema, dec_Schema, dec_object.
  cbn [Schema.Database Schema.Tables Schema.DBType_].
  erewrite dec_members_cons; [|reflexivity|reflexivity].
  erewrite dec_members_cons; [|reflexivity|].
  2:{ cbn [store_Schema].
      rewrite (dec_slice_enc dec_Table enc_Table (fun t => mem_Table (norm_Table t))
                 _ dec_Table_enc), mem_norm_slice.
      reflexivity. }
  reflexivity.
Qed.

(** *** Encoding is insensitive to the normalisation *)

Lemma enc_string_norm (s : string) : enc_string (ToValidUTF8 s) = enc_string s.
Proof. unfold enc_string. rewrite ToValidUTF8_idem. reflexivity. Qed.

Lemma omitempty_norm (name s : string) :
  omitempty name (ToValidUTF8 s) = omitempty name s.
Proof.
  unfold omitempty. rewrite ToValidUTF8_empty, enc_string_norm. reflexivity.
Qed.

Lemma enc_slice_norm {A : Type} (enc : A -> json) (norm : A -> A) :
  (forall x, enc (norm x) = enc x) ->
  forall s, enc_slice enc (norm_slice norm s) = enc_slice enc s.
Proof.
  intros H [l|]; [|reflexivity]. cbn [norm_slice option_map enc_slice].
  rewrite map_map. f_equal. apply map_ext. exact H.
Qed.

Lemma enc_Column_norm (c : Column.t) : enc_Column (norm_Column c) = enc_Column c.
Proof.
  unfold enc_Column, norm_Column.
  cbn [Column.Name Column.Type_ Column.Nullable Column.Default Column.Comment
       Column.IsPK Column.IsFK Column.IsUnique Column.IsAutoIncr].
  rewrite !enc_string_norm, !omitempty_norm. reflexivity.
Qed.

Lemma enc_FK_norm (f : FK.t) : enc_FK (norm_FK f) = enc_FK f.
Proof.
  unfold enc_FK, norm_FK.
  cbn [FK.Name FK.Column FK.RefTable FK.RefColumn FK.OnDelete FK.OnUpdate].
  rewrite !enc_string_norm, !omitempty_norm. reflexivity.
Qed.

Lemma enc_Index_norm (i : Index.t) : enc_Index (norm_Index i) = enc_Index i.
Proof.
  unfold enc_Index, norm_Index.
  cbn [Index.Name Index.Columns Index.IsUnique Index.Type_].
  rewrite !enc_string_norm, (enc_slice_norm enc_string ToValidUTF8 enc_string_norm).
  reflexivity.
Qed.

Lemma enc_Table_norm (t : Table.t) : enc_Table (norm_Table t) = enc_Table t.
Proof.
  unfold enc_Table, norm_Table.
  cbn [Table.Name Table.Columns Table.PrimaryKey Table.ForeignKeys Table.Indexes].
  rewrite enc_string_norm,
    (enc_slice_norm enc_Column norm_Column enc_Column_norm),
    (enc_slice_norm enc_string ToValidUTF8 enc_string_norm),
    (enc_slice_norm enc_FK norm_FK enc_FK_norm),
    (enc_slice_norm enc_Index norm_Index enc_Index_norm).
  reflexivity.
Qed.

Lemma enc_Schema_norm (s : Schema.t) : enc_Schema (norm_Schema s) = enc_Schema s.
Proof.
  unfold enc_Schema, norm_Schema.
  cbn [Schema.Database Schema.Tables Schema.DBType_].
  rewrite !enc_string_norm, (enc_slice_norm enc_Table norm_Table enc_Table_norm).
  reflexivity.
Qed.

(** *** Repeated members *)

(** Members for the same field are stored one after the other into the
    same slice.  The second array is decoded into the elements the first
    has left and shortens the slice; the third finds the second table of
    the first still in the backing array and decodes into it. *)
Example Unmarshal_repeated_member :
  Unmarshal_Schema
    (WellFormed
       (JObject
          [("tables", JArray [JObject [("name", JString "a")];
                              JObject [("name", JString "b")]]);
           ("tables", JArray [JObject []]);
           ("tables", JArray [JObject []; JObject [("columns", JArray [])]])]))
  = Ok (Schema.mk ""
          (lit [Table.mk "a" nil_slice nil_slice nil_slice nil_slice;
                Table.mk "b" (lit []) nil_slice nil_slice nil_slice])
          "").
Proof. reflexivity. Qed.

(** An empty array and a [null] give up the backing array. *)
Example Unmarshal_emptied_member :
  Unmarshal_Schema
    (WellFormed
       (JObject
          [("tables", JArray [JObject [("name", JString "a")]]);
           ("tables", JArray []);
           ("tables", JArray [JObject []])]))
  = Ok (Schema.mk "" (lit [Table.zero]) "").
Proof. reflexivity. Qed.

(** *** Documents read and written *)

(** The claim of C4 as it is worded does not hold.  The document [{}]
    parses to the zero schema, which is written with all three members;
    and a complete document that spells out an empty default and comment
    parses, but is written back without these two members. *)
Lemma document_not_reproduced :
  (ParseJSON (WellFormed (JObject [])) = Ok Schema.zero
   /\ ToJSON Schema.zero
      = Ok (WellFormed (JObject [("database", JString ""); ("tables", JNull);
                                 ("db_type", JString "")]))
   /\ ToJSON Schema.zero <> Ok (WellFormed (JObject [])))
  /\ (exists schema,
        ParseJSON (WellFormed explicit_defaults) = Ok schema
        /\ ToJSON schema <> Ok (WellFormed explicit_defaults)).
Proof.
  split.
  - split; [reflexivity|]. split; [reflexivity|discriminate].
  - eexists. split; [vm_compute; reflexivity|]. vm_compute. discriminate.
Qed.

(** C4, amended: the round trip holds on the documents that [ToJSON] itself
    writes.  For every schema, the document written for it parses, the
    parsed schema is the original with its strings made well-formed UTF-8
    (the original itself when they already are), and writing the parsed
    schema gives the same document again. *)
Theorem written_document_round_trips (schema : Schema.t) :
  exists x,
    ToJSON schema = Ok x
    /\ ParseJSON x = Ok (norm_Schema schema)
    /\ ToJSON (norm_Schema schema) = Ok x.
Proof.
  exists (WellFormed (enc_Schema schema)). split; [reflexivity|]. split.
  - unfold ParseJSON, Unmarshal_Schema. rewrite dec_Schema_enc. cbn [bind].
    rewrite value_mem_Schema. reflexivity.
  - unfold ToJSON, MarshalIndent_Schema. rewrite enc_Schema_norm. reflexivity.
Qed.

End JsonProps.

(** ** Strings *)

Module StringProps.

Import TableBodyProps StringTerms.

Lemma append_cons (c : ascii) (a b : string) : String c a +:+ b = String c (a +:+ b).
Proof. reflexivity. Qed.

Lemma append_nil_l (a : string) : "" +:+ a = a.
Proof. reflexivity. Qed.

Lemma append_assoc (a b c : string) : (a +:+ b) +:+ c = a +:+ b +:+ c.
Proof.
  induction a as [|x a IH]; [reflexivity|]. rewrite !append_cons, IH. reflexivity.
Qed.

Lemma append_nil_r (a : string) : a +:+ "" = a.
Proof.
  induction a as [|x a IH]; [reflexivity|]. rewrite append_cons, IH. reflexivity.
Qed.

Lemma rev_acc_app (s acc : string) : rev_acc s acc = rev_acc s "" +:+ acc.
Proof.
  revert acc. induction s as [|c s IH]; intros acc; [reflexivity|].
  cbn [rev_acc].
  rewrite (IH (String c acc)), (IH (String c "")), append_assoc. reflexivity.
Qed.

Lemma rev_string_app (a b : string) :
  rev_string (a +:+ b) = rev_string b +:+ rev_string a.
Proof.
  unfold rev_string. induction a as [|c a IH].
  - rewrite append_nil_l. cbn [rev_acc]. now rewrite append_nil_r.
  - rewrite append_cons. cbn [rev_acc].
    rewrite (rev_acc_app (a +:+ b)), (rev_acc_app a), IH, append_assoc. reflexivity.
Qed.

Lemma all_in_cutset_rev_acc (cutset q acc : string) :
  all_in_cutset cutset q = true -> all_in_cutset cutset acc = true ->
  all_in_cutset cutset (rev_acc q acc) = true.
Proof.
  revert acc. induction q as [|c q IH]; intros acc Hq Hacc; simpl in *; [exact Hacc|].
  apply andb_prop in Hq as [Hc Hq]. apply IH; [exact Hq|]. simpl. now rewrite Hc.
Qed.

Lemma trim_left_cutset_prefix (cutset q s : string) :
  all_in_cutset cutset q = true ->
  trim_left_cutset cutset (q +:+ s) = trim_left_cutset cutset s.
Proof.
  induction q as [|c q IH]; intros H; [reflexivity|].
  cbn [all_in_cutset] in H. apply andb_prop in H as [Hc Hq].
  rewrite append_cons. cbn [trim_left_cutset]. rewrite Hc. auto.
Qed.

Lemma trim_left_cutset_suffix (cutset s q : string) :
  all_in_cutset cutset q = true ->
  trim_left_cutset cutset (s +:+ q)
  = match trim_left_cutset cutset s with
    | EmptyString => EmptyString
    | t => t +:+ q
    end.
Proof.
  intros Hq. induction s as [|c s IH].
  - rewrite append_nil_l. cbn [trim_left_cutset].
    rewrite <- (append_nil_r q), trim_left_cutset_prefix by exact Hq. reflexivity.
  - rewrite append_cons. cbn [trim_left_cutset].
    destruct (in_cutset cutset c); [exact IH | reflexivity].
Qed.

(** Cutset bytes around a text do not change what [Trim] leaves of it. *)
Lemma Trim_wrapped (cutset q s q' : string) :
  all_in_cutset cutset q = true ->
  all_in_cutset cutset q' = true ->
  Trim (q +:+ s +:+ q') cutset = Trim s cutset.
Proof.
  intros Hq Hq'. unfold Trim.
  rewrite trim_left_cutset_prefix by exact Hq.
  rewrite trim_left_cutset_suffix by exact Hq'.
  destruct (trim_left_cutset cutset s) as [|c t] eqn:E; [reflexivity|].
  rewrite rev_string_app, trim_left_cutset_prefix; [reflexivity|].
  unfold rev_string. now apply all_in_cutset_rev_acc.
Qed.

Lemma Forall_append {A : Type} (P : A -> Prop) (s : slice A) (x : A) :
  Forall P (elems s) -> P x -> Forall P (elems (append s x)).
Proof.
  intros Hs Hx. unfold append. cbn [elems]. apply Forall_app. split; [exact Hs|].
  constructor; [exact Hx | constructor].
Qed.

Lemma fold_left_map {A B C : Type} (f : A -> B -> A) (g : C -> B) (l : list C) (a : A) :
  fold_left f (map g l) a = fold_left (fun a x => f a (g x)) l a.
Proof. revert a. induction l as [|x l IH]; intros a; simpl; auto. Qed.

Lemma fold_left_ext {A B : Type} (f g : A -> B -> A) (l : list B) (a : A) :
  (forall a x, f a x = g a x) -> fold_left f l a = fold_left g l a.
Proof.
  intros H. revert a. induction l as [|x l IH]; intros a; simpl; [reflexivity|].
  now rewrite H, IH.
Qed.

Lemma HasPrefix_app (a b c : string) :
  HasPrefix a b = true -> HasPrefix (a +:+ c) b = true.
Proof.
  revert a. induction b as [|x b IH]; intros a H; [destruct (a +:+ c); reflexivity|].
  destruct a as [|y a]; [discriminate H|].
  rewrite append_cons. cbn [HasPrefix] in *.
  destruct (Ascii.eqb y x); [auto | discriminate H].
Qed.

Lemma HasPrefix_refl (b : string) : HasPrefix b b = true.
Proof.
  induction b as [|x b IH]; [reflexivity|]. cbn [HasPrefix].
  now rewrite Ascii.eqb_refl.
Qed.

Lemma Contains_unfold (s b : string) :
  Contains s b
  = if HasPrefix s b then true
    else match s with
         | EmptyString => false
         | String _ s' => Contains s' b
         end.
Proof. destruct s; reflexivity. Qed.

Lemma Contains_app_l (a b c : string) :
  Contains a b = true -> Contains (a +:+ c) b = true.
Proof.
  induction a as [|x a IH]; intros H.
  - rewrite Contains_unfold in H. destruct (HasPrefix "" b) eqn:E; [|discriminate H].
    rewrite Contains_unfold. change ("" +:+ c) with c.
    destruct b; [|discriminate E]. destruct c; reflexivity.
  - rewrite Contains_unfold in H. rewrite Contains_unfold, append_cons.
    destruct (HasPrefix (String x a) b) eqn:E.
    + apply (HasPrefix_app _ _ c) in E. rewrite append_cons in E. now rewrite E.
    + destruct (HasPrefix (String x (a +:+ c)) b); [reflexivity | auto].
Qed.

Lemma Contains_app_r (a b c : string) :
  Contains c b = true -> Contains (a +:+ c) b = true.
Proof.
  intros H. induction a as [|x a IH]; [exact H|].
  rewrite append_cons, Contains_unfold.
  destruct (HasPrefix (String x (a +:+ c)) b); [reflexivity | exact IH].
Qed.

Lemma Contains_refl (b : string) : Contains b b = true.
Proof. rewrite Contains_unfold, HasPrefix_refl. reflexivity. Qed.


(** *** Splitting at a one-byte separator *)

Lemma HasPrefix_char (x c : ascii) (s : string) :
  HasPrefix (String x s) (String c "") = Ascii.eqb x c.
Proof. cbn [HasPrefix]. destruct (Ascii.eqb x c); destruct s; reflexivity. Qed.

Lemma Contains_char_nil (c : ascii) : Contains "" (String c "") = false.
Proof. reflexivity. Qed.

Lemma split_from_char_app (c : ascii) (a b : string) :
  forall cur,
    split_from (String c "") O cur (a +:+ String c b)
    = split_from (String c "") O cur a ++ split_from (String c "") O "" b.
Proof.
  induction a as [|x a IH]; intros cur.
  - rewrite append_nil_l. cbn [split_from]. rewrite HasPrefix_char, Ascii.eqb_refl.
    reflexivity.
  - rewrite append_cons. cbn [split_from]. rewrite !HasPrefix_char.
    destruct (Ascii.eqb x c); cbn [String.length Nat.pred]; rewrite IH; reflexivity.
Qed.

Lemma split_from_no_sep (c : ascii) (s : string) :
  forall cur,
    Contains s (String c "") = false ->
    split_from (String c "") O cur s = [cur +:+ s].
Proof.
  induction s as [|x s IH]; intros cur H.
  - cbn [split_from]. now rewrite append_nil_r.
  - rewrite Contains_char_cons in H. apply orb_false_elim in H as [Hx Hs].
    cbn [split_from]. rewrite HasPrefix_char, Hx, IH by exact Hs.
    rewrite append_assoc. reflexivity.
Qed.

Lemma split_from_first (c : ascii) (s : string) :
  forall cur,
    Contains cur (String c "") = false ->
    Contains (nth 0 (split_from (String c "") O cur s) "") (String c "") = false.
Proof.
  induction s as [|x s IH]; intros cur H.
  - exact H.
  - cbn [split_from]. rewrite HasPrefix_char.
    destruct (Ascii.eqb x c) eqn:E; [exact H|].
    apply IH. rewrite Contains_char_app, H, Contains_char_cons, E. reflexivity.
Qed.

Lemma Split_LF_app (a b : string) :
  Split (a +:+ LF +:+ b) LF = Split a LF ++ Split b LF.
Proof. apply split_from_char_app. Qed.

(** *** Bytes that a trimmed or cut string cannot gain *)

Lemma Contains_char_drop (c : ascii) (n : nat) :
  forall s, Contains s (String c "") = false ->
            Contains (drop_bytes n s) (String c "") = false.
Proof.
  induction n as [|n IH]; intros s H; [exact H|].
  destruct s as [|x s]; [exact H|].
  rewrite Contains_char_cons in H. apply orb_false_elim in H as [_ Hs].
  cbn [drop_bytes]. auto.
Qed.

Lemma Contains_char_take (c : ascii) (n : nat) :
  forall s, Contains s (String c "") = false ->
            Contains (take_bytes n s) (String c "") = false.
Proof.
  induction n as [|n IH]; intros s H; [destruct s; reflexivity|].
  destruct s as [|x s]; [reflexivity|].
  rewrite Contains_char_cons in H. apply orb_false_elim in H as [Hx Hs].
  cbn [take_bytes]. rewrite Contains_char_cons, Hx. cbn [orb]. auto.
Qed.

Lemma Contains_char_rev (c : ascii) (s : string) :
  Contains (rev_string s) (String c "") = Contains s (String c "").
Proof.
  induction s as [|x s IH]; [reflexivity|].
  change (String x s) with (String x "" +:+ s) at 1.
  rewrite rev_string_app, Contains_char_app, IH, Contains_char_cons.
  change (rev_string (String x "")) with (String x "").
  rewrite Contains_char_cons, Contains_char_nil, orb_false_r. apply orb_comm.
Qed.

Lemma trim_left_space_suffix (s : string) :
  forall skip, exists n, trim_left_space skip s = drop_bytes n s.
Proof.
  induction s as [|x s IH]; intros skip; [exists O; destruct skip; reflexivity|].
  destruct skip as [|k].
  - cbn [trim_left_space]. destruct (DecodeRuneInString (String x s)) as [r w].
    destruct (unicode_IsSpace r); [|exists O; reflexivity].
    destruct (IH (Nat.pred w)) as [n Hn]. exists (S n). exact Hn.
  - cbn [trim_left_space]. destruct (IH k) as [n Hn]. exists (S n). exact Hn.
Qed.

Lemma trim_right_space_rev_suffix (s : string) :
  forall skip, exists n, trim_right_space_rev skip s = drop_bytes n s.
Proof.
  induction s as [|x s IH]; intros skip; [exists O; destruct skip; reflexivity|].
  destruct skip as [|k].
  - cbn [trim_right_space_rev]. destruct (DecodeLastRune_rev (String x s)) as [r w].
    destruct (unicode_IsSpace r); [|exists O; reflexivity].
    destruct (IH (Nat.pred w)) as [n Hn]. exists (S n). exact Hn.
  - cbn [trim_right_space_rev]. destruct (IH k) as [n Hn]. exists (S n). exact Hn.
Qed.

Lemma Contains_char_TrimSpace (c : ascii) (s : string) :
  Contains s (String c "") = false -> Contains (TrimSpace s) (String c "") = false.
Proof.
  intros H. unfold TrimSpace.
  destruct (trim_left_space_suffix s O) as [n ->].
  destruct (trim_right_space_rev_suffix (rev_string (drop_bytes n s)) O) as [m ->].
  rewrite Contains_char_rev. apply Contains_char_drop.
  rewrite Contains_char_rev. now apply Contains_char_drop.
Qed.

Lemma Contains_char_TrimPrefix (c : ascii) (s prefix : string) :
  Contains s (String c "") = false ->
  Contains (TrimPrefix s prefix) (String c "") = false.
Proof.
  intros H. unfold TrimPrefix. destruct (HasPrefix s prefix); [|exact H].
  now apply Contains_char_drop.
Qed.

Lemma Contains_char_Replace1 (c : ascii) (old : string) (s : string) :
  Contains s (String c "") = false ->
  Contains (Replace1 s old "") (String c "") = false.
Proof.
  induction s as [|x s IH]; intros H.
  - cbn [Replace1]. destruct (HasPrefix "" old); [|reflexivity].
    rewrite append_nil_l. now apply Contains_char_drop.
  - cbn [Replace1]. destruct (HasPrefix (String x s) old).
    + rewrite append_nil_l. now apply Contains_char_drop.
    + rewrite Contains_char_cons in *. apply orb_false_elim in H as [Hx Hs].
      rewrite Hx. cbn [orb]. auto.
Qed.

End StringProps.

(** ** The DDL writer *)

Module WriterProps.

Import SchemaParser DDLWriter WriterTerms StringTerms StringProps.

Lemma quote_cases (upper : string -> string) (name : string) (dbType : DBType) :
  exists q q',
    quote upper name dbType = q +:+ quoted_by upper name dbType +:+ q'
    /\ all_in_cutset quote_cutset q = true
    /\ all_in_cutset quote_cutset q' = true.
Proof.
  unfold quote, quoted_by.
  destruct (String.eqb dbType MySQL) eqn:E1.
  { apply String.eqb_eq in E1. subst dbType.
    exists BACKTICK_s, BACKTICK_s. repeat split; reflexivity. }
  destruct (String.eqb dbType PostgreSQL) eqn:E2.
  { apply String.eqb_eq in E2. subst dbType.
    exists DQUOTE_s, DQUOTE_s. repeat split; reflexivity. }
  destruct (String.eqb dbType SQLServer) eqn:E3.
  { apply String.eqb_eq in E3. subst dbType.
    exists "[", "]". repeat split; reflexivity. }
  destruct (String.eqb dbType Oracle) eqn:E4.
  - exists DQUOTE_s, DQUOTE_s. repeat split; reflexivity.
  - exists "", "". rewrite append_nil_l, append_nil_r. repeat split; reflexivity.
Qed.

(** X7: what [strings.Trim] with the parser's cutset leaves of a name that
    [quote] has quoted is what it leaves of the name itself (of the name as
    [strings.ToUpper] returns it under Oracle, whatever that function
    returns): the quoting characters of every dialect belong to the cutset
    that [parsePrimaryKey] and [parseIndexes] strip. *)
Theorem Trim_quote (upper : string -> string) (name : string) (dbType : DBType) :
  Trim (quote upper name dbType) quote_cutset
  = Trim (quoted_by upper name dbType) quote_cutset.
Proof.
  destruct (quote_cases upper name dbType) as (q & q' & -> & Hq & Hq').
  now apply Trim_wrapped.
Qed.

Lemma column_def_read (upper : string -> string) (dbType : DBType) (c : Column.t) :
  column_def upper dbType (read_Column dbType c) = column_def upper dbType c.
Proof.
  unfold column_def, read_Column, keeps_auto_incr. cbn [Column.Name Column.Type_
    Column.Nullable Column.IsAutoIncr Column.Default].
  destruct (Column.IsAutoIncr c); cbn [andb]; [|reflexivity].
  destruct (String.eqb dbType MySQL); cbn [orb]; [reflexivity|].
  destruct (String.eqb dbType SQLServer); reflexivity.
Qed.

Lemma index_fold_read (upper : string -> string) (dbType : DBType) (t t' : Table.t) (idxs : list Index.t) :
  Table.Name t' = Table.Name t ->
  forall sb,
    fold_left (index_ddl upper dbType t') (map read_Index (List.filter written_index idxs)) sb
    = fold_left (index_ddl upper dbType t) idxs sb.
Proof.
  intros Hn. induction idxs as [|i idxs IH]; intros sb; [reflexivity|].
  cbn [List.filter fold_left]. unfold written_index at 1.
  unfold index_ddl at 3.
  destruct (String.eqb (Index.Name i) "PRIMARY") eqn:E; cbn [negb].
  - apply IH.
  - cbn [map fold_left]. rewrite <- IH. f_equal.
    unfold index_ddl, read_Index. cbn [Index.Name Index.IsUnique Index.Columns].
    rewrite E, Hn. reflexivity.
Qed.

Lemma table_ddl_read (upper : string -> string) (dbType : DBType) (sb : string) (t : Table.t) :
  table_ddl upper dbType sb (read_Table dbType t) = table_ddl upper dbType sb t.
Proof.
  unfold table_ddl.
  assert (Hdefs : column_defs upper dbType (read_Table dbType t) = column_defs upper dbType t).
  { unfold column_defs, read_Table, pk_def.
    cbn [Table.Columns Table.PrimaryKey Table.ForeignKeys].
    f_equal; [|f_equal].
    - destruct (Table.Columns t) as [l|]; [|reflexivity]. cbn [option_map elems].
      rewrite map_map. apply map_ext. apply column_def_read.
    - destruct (Table.ForeignKeys t) as [l|]; [|reflexivity]. cbn [option_map elems].
      rewrite map_map. apply map_ext. reflexivity. }
  assert (Hidx : elems (Table.Indexes (read_Table dbType t))
                 = map read_Index (List.filter written_index (elems (Table.Indexes t)))).
  { unfold read_Table. cbn [Table.Indexes]. destruct (Table.Indexes t); reflexivity. }
  rewrite Hdefs, Hidx.
  change (Table.Name (read_Table dbType t)) with (Table.Name t).
  apply index_fold_read. reflexivity.
Qed.

(** X8: [GenerateDDL] writes the same text for a schema and for the schema
    reduced to what it reads: the database name, column comments, the
    column flags [IsPK], [IsFK] and [IsUnique], the type of an index, the
    [ON DELETE]/[ON UPDATE] actions of a foreign key, every index called
    [PRIMARY], and the auto-increment flag under any dialect but MySQL and
    SQL Server leave no trace in the DDL. *)
Theorem GenerateDDL_reads (upper : string -> string) (schema : Schema.t) :
  GenerateDDL upper (read_Schema schema) = GenerateDDL upper schema.
Proof.
  unfold GenerateDDL, read_Schema. cbn [Schema.DBType_ Schema.Tables].
  destruct (Schema.Tables schema) as [l|]; [|reflexivity]. cbn [option_map elems].
  rewrite fold_left_map. apply fold_left_ext. intros sb t. apply table_ddl_read.
Qed.

End WriterProps.

(** ** The schema text of the prompts *)

Module PromptProps.

Import Prompt StringTerms StringProps.

Lemma fold_appends {X : Type} (step : string -> X -> string) :
  appends step ->
  forall l sb, fold_left step l sb = sb +:+ fold_left step l "".
Proof.
  intros H. induction l as [|x l IH]; intros sb.
  - cbn [fold_left]. now rewrite append_nil_r.
  - cbn [fold_left]. rewrite (IH (step sb x)), (IH (step "" x)), (H sb x).
    apply append_assoc.
Qed.

Lemma fold_appends_contains {X : Type} (step : string -> X -> string) (x : X)
    (needle : string) :
  appends step ->
  Contains (step "" x) needle = true ->
  forall l sb, In x l -> Contains (fold_left step l sb) needle = true.
Proof.
  intros H Hx. induction l as [|y l IH]; intros sb Hin; [destruct Hin|].
  cbn [fold_left]. destruct Hin as [-> | Hin].
  - rewrite fold_appends by exact H. apply Contains_app_l.
    rewrite H. now apply Contains_app_r.
  - now apply IH.
Qed.

Lemma column_line_appends : appends column_line.
Proof. intros sb c. reflexivity. Qed.

Lemma index_line_appends : appends index_line.
Proof. intros sb c. reflexivity. Qed.

Lemma fk_line_appends : appends fk_line.
Proof. intros sb c. reflexivity. Qed.

(** The text of one table is headed by its name and lists every column. *)
Lemma table_text_shape (t : Table.t) :
  exists tail,
    table_text "" t
    = "테이블: " +:+ Table.Name t +:+ LF +:+ "컬럼:" +:+ LF
      +:+ fold_left column_line (elems (Table.Columns t)) "" +:+ tail.
Proof.
  unfold table_text. rewrite !append_nil_l.
  set (head := "테이블: " +:+ Table.Name t +:+ LF).
  set (cols := fold_left column_line (elems (Table.Columns t)) ((head +:+ "컬럼:" +:+ LF))).
  assert (Hcols : cols = head +:+ "컬럼:" +:+ LF
                         +:+ fold_left column_line (elems (Table.Columns t)) "").
  { unfold cols. rewrite fold_appends by exact column_line_appends.
    now rewrite !append_assoc. }
  clearbody cols. subst cols.
  set (body := head +:+ "컬럼:" +:+ LF +:+ fold_left column_line (elems (Table.Columns t)) "").
  assert (Hshape : forall tail, body +:+ tail
            = "테이블: " +:+ Table.Name t +:+ LF +:+ "컬럼:" +:+ LF
              +:+ fold_left column_line (elems (Table.Columns t)) "" +:+ tail).
  { intros tail. unfold body, head. now rewrite !append_assoc. }
  destruct (0 <? len (Table.Indexes t))%nat; destruct (0 <? len (Table.ForeignKeys t))%nat.
  - eexists. rewrite (fold_appends fk_line) by exact fk_line_appends.
    rewrite (fold_appends index_line) by exact index_line_appends.
    rewrite !append_assoc. apply Hshape.
  - eexists. rewrite (fold_appends index_line) by exact index_line_appends.
    rewrite !append_assoc. apply Hshape.
  - eexists. rewrite (fold_appends fk_line) by exact fk_line_appends.
    rewrite !append_assoc. apply Hshape.
  - eexists. apply Hshape.
Qed.

Lemma table_text_appends : appends table_text.
Proof.
  intros sb t. unfold table_text. rewrite !append_nil_l.
  rewrite (fold_appends column_line column_line_appends _ ((sb +:+ _) +:+ _)).
  rewrite (fold_appends column_line column_line_appends _ (_ +:+ "컬럼:" +:+ LF)).
  destruct (0 <? len (Table.Indexes t))%nat; destruct (0 <? len (Table.ForeignKeys t))%nat;
    repeat match goal with
           | |- context [fold_left fk_line ?l (?a +:+ ?b)] =>
               rewrite (fold_appends fk_line fk_line_appends l (a +:+ b))
           | |- context [fold_left index_line ?l (?a +:+ ?b)] =>
               rewrite (fold_appends index_line index_line_appends l (a +:+ b))
           end;
    now rewrite !append_assoc.
Qed.

(** X18: the text [formatSchema] writes into a prompt names every table of
    the schema, on a line of its own followed by the column header, and
    lists every column of it with its name, type and key flags. *)
Theorem formatSchema_names (schema : Schema.t) (t : Table.t) :
  In t (elems (Schema.Tables schema)) ->
  Contains (formatSchema schema)
           ("테이블: " +:+ Table.Name t +:+ LF +:+ "컬럼:" +:+ LF) = true
  /\ forall c, In c (elems (Table.Columns t)) ->
       Contains (formatSchema schema)
                ("  - " +:+ Column.Name c +:+ " " +:+ Column.Type_ c
                 +:+ column_flags c +:+ LF) = true.
Proof.
  intros Hin. destruct (table_text_shape t) as (tail & Hshape). split.
  - apply (fold_appends_contains table_text t); [exact table_text_appends | | exact Hin].
    rewrite Hshape.
    rewrite <- (append_assoc ("테이블: ")), <- (append_assoc ("테이블: " +:+ Table.Name t)),
      <- (append_assoc (("테이블: " +:+ Table.Name t) +:+ LF)),
      <- (append_assoc ((("테이블: " +:+ Table.Name t) +:+ LF) +:+ "컬럼:")).
    apply Contains_app_l.
    rewrite !append_assoc. apply Contains_refl.
  - intros c Hc.
    apply (fold_appends_contains table_text t); [exact table_text_appends | | exact Hin].
    rewrite Hshape.
    do 5 apply Contains_app_r. apply Contains_app_l.
    apply (fold_appends_contains column_line c);
      [exact column_line_appends | apply Contains_refl | exact Hc].
Qed.

Lemma formatSchema_names_witness :
  let users :=
    Table.mk "users"
      (lit [Column.mk "id" "INT" false "" "" true false false true]) nil_slice
      nil_slice nil_slice in
  Contains (formatSchema (Schema.mk "shop" (lit [users]) MySQL))
           ("테이블: users" +:+ LF +:+ "컬럼:" +:+ LF) = true.
Proof.
  intros users.
  exact (proj1 (formatSchema_names (Schema.mk "shop" (lit [users]) MySQL) users
                  (or_introl eq_refl))).
Defined.

End PromptProps.

(** ** Replies: what holds of every reply, and of a preamble *)

Module ReplyProps.

Import AI QueryValidation ReplyTerms HeaderTerms StringProps AIProps.

Lemma parseIssue_tag (line : string) :
  In (Issue.Type_ (parseIssue line)) severities.
Proof.
  unfold parseIssue, severities.
  set (l := TrimSpace _).
  destruct (Contains l "[error]"); [left; reflexivity|].
  destruct (Contains l "[warning]"); [right; left; reflexivity|].
  destruct (Contains l "[info]"); right; right; left; reflexivity.
Qed.

Lemma Contains_first_byte (c : ascii) (t s : string) :
  Contains s (String c "") = false -> Contains s (String c t) = false.
Proof.
  induction s as [|x s IH]; [reflexivity|].
  rewrite TableBodyProps.Contains_char_cons. intros H.
  apply orb_false_elim in H as [Hx Hs].
  rewrite Contains_unfold. cbn [HasPrefix]. rewrite Hx. exact (IH Hs).
Qed.

(** X10: the severity [parseIssue] gives is always one of [error],
    [warning] and [info], and it is [info] for a line that holds no opening
    bracket at all. *)
Theorem parseIssue_severity (line : string) :
  In (Issue.Type_ (parseIssue line)) severities
  /\ (Contains line "[" = false -> Issue.Type_ (parseIssue line) = "info").
Proof.
  split; [apply parseIssue_tag|]. intros H. unfold parseIssue.
  set (l := TrimSpace _).
  assert (Hl : Contains l "[" = false).
  { unfold l. apply Contains_char_TrimSpace. now do 2 apply Contains_char_TrimPrefix. }
  clearbody l.
  rewrite (Contains_first_byte _ "error]" l Hl), (Contains_first_byte _ "warning]" l Hl).
  destruct (Contains l "[info]"); reflexivity.
Qed.

Lemma parseIssue_severity_witness :
  Issue.Type_ (parseIssue "- missing index on users.email") = "info".
Proof.
  apply (proj2 (parseIssue_severity "- missing index on users.email")).
  reflexivity.
Defined.

(** X11: for a line without a pipe character, [parseIssue] leaves the
    location and the suggestion empty, and the message holds no pipe. *)
Theorem parseIssue_no_pipe (line : string) :
  Contains line "|" = false ->
  Issue.Location (parseIssue line) = ""
  /\ Issue.Suggestion (parseIssue line) = ""
  /\ Contains (Issue.Message (parseIssue line)) "|" = false.
Proof.
  intros H. unfold parseIssue.
  set (l := TrimSpace _).
  assert (Hl : Contains l "|" = false).
  { unfold l. apply Contains_char_TrimSpace. now do 2 apply Contains_char_TrimPrefix. }
  clearbody l.
  assert (Hsplit : forall s, Contains s "|" = false -> Split s "|" = [s]).
  { intros s Hs. unfold Split. rewrite split_from_no_sep by exact Hs. reflexivity. }
  destruct (Contains l "[error]");
    [|destruct (Contains l "[warning]"); [|destruct (Contains l "[info]")]];
    rewrite Hsplit by (try apply Contains_char_Replace1; exact Hl);
    cbn [length Nat.leb nth Issue.Location Issue.Suggestion Issue.Message];
    (repeat split; try reflexivity);
    apply Contains_char_TrimSpace; try apply Contains_char_Replace1; exact Hl.
Qed.

Lemma parseIssue_no_pipe_witness :
  Issue.Location (parseIssue "- [error] syntax error near FROM") = ""
  /\ Issue.Suggestion (parseIssue "- [error] syntax error near FROM") = ""
  /\ Contains (Issue.Message (parseIssue "- [error] syntax error near FROM")) "|"
     = false.
Proof. apply (parseIssue_no_pipe "- [error] syntax error near FROM"). reflexivity. Defined.

Section ValidationLoop.

Variable originalQuery : string.

Lemma Score_range_kept :
  kept_on originalQuery (fun _ => True) (fun st => 1 <= Score (fst st) <= 100).
Proof.
  intros [v sec] line _ H. cbn [fst] in H. unfold validation_line.
  split_ifs; try exact H.
  cbn [fst Score set_Score].
  match goal with
  | E : (_ && _) = true |- _ => apply andb_prop in E as [E1 E2]
  end.
  apply Z.ltb_lt in E1. apply Z.leb_le in E2. lia.
Qed.

Lemma nonempty_neq (s : string) : nonempty s = true -> s <> "".
Proof.
  unfold nonempty. intros H ->. discriminate H.
Qed.

Lemma entries_kept :
  kept_on originalQuery (fun _ => True)
    (fun st => Forall issue_recorded (elems (Issues (fst st)))
               /\ Forall (fun idx => idx <> "" /\ idx <> "없음")
                         (elems (IndexUsage (fst st)))
               /\ Forall (fun sug => sug <> "") (elems (Suggestions (fst st)))).
Proof.
  intros [v sec] line _ (H1 & H2 & H3). cbn [fst] in *. unfold validation_line.
  split_ifs; cbn [fst Issues IndexUsage Suggestions set_IsValid set_Score
                   set_EstimatedTime set_Issues set_IndexUsage set_OptimizedQuery
                   set_ExecutionPlan set_Suggestions];
    (split; [|split]); try assumption.
  - apply Forall_append; [exact H1|]. split.
    + now apply nonempty_neq.
    + apply parseIssue_tag.
  - apply Forall_append; [exact H2|].
    match goal with
    | E : (_ && _) = true |- _ => apply andb_prop in E as [E1 E2]
    end.
    split; [now apply nonempty_neq|].
    intros Heq. rewrite Heq in E2. discriminate E2.
  - apply Forall_append; [exact H3|]. now apply nonempty_neq.
Qed.

(** A plain line leaves the loop where it is as long as no header has been
    seen. *)
Lemma plain_line_skipped (v : QueryValidation.t) (line : string) :
  plain_line validation_headers line = true ->
  validation_line originalQuery (v, "") line = (v, "").
Proof.
  unfold plain_line, validation_headers, has_header. cbn [forallb]. intros H.
  repeat match type of H with
         | (negb _ && _) = true =>
             let E := fresh "E" in
             apply andb_prop in H as [E H]; apply negb_true_iff in E
         end.
  unfold validation_line. rewrite E, E0, E1, E2, E3, E4, E5, E6. reflexivity.
Qed.

Lemma plain_lines_skipped (v : QueryValidation.t) (lines : list string) :
  forallb (plain_line validation_headers) lines = true ->
  fold_left (validation_line originalQuery) lines (v, "") = (v, "").
Proof.
  induction lines as [|line lines IH]; intros H; [reflexivity|].
  cbn [forallb] in H. apply andb_prop in H as [Hl H].
  cbn [fold_left]. rewrite plain_line_skipped by exact Hl. auto.
Qed.

End ValidationLoop.

(** X12: whatever the reply, the score of the record that
    [parseValidationResponse] returns lies between 1 and 100. *)
Theorem Score_in_range (response originalQuery : string) :
  1 <= Score (parseValidationResponse response originalQuery) <= 100.
Proof.
  unfold parseValidationResponse.
  pose proof (fold_kept_on originalQuery _ _ (Score_range_kept originalQuery)
                (Split response LF) (initial_validation originalQuery, "")
                (fun _ _ => I)) as H.
  destruct (fold_left _ _ _) as [v sec]. cbn [fst] in H.
  cbn [Score set_OptimizedQuery]. apply H. cbn. lia.
Qed.

(** X13: whatever the reply, every issue recorded has a message and one
    of the three severities, every index-usage entry is non-empty and is
    not the "none" marker, and every suggestion is non-empty. *)
Theorem recorded_entries (response originalQuery : string) :
  let v := parseValidationResponse response originalQuery in
  Forall issue_recorded (elems (Issues v))
  /\ Forall (fun idx => idx <> "" /\ idx <> "없음") (elems (IndexUsage v))
  /\ Forall (fun sug => sug <> "") (elems (Suggestions v)).
Proof.
  cbv zeta. unfold parseValidationResponse.
  pose proof (fold_kept_on originalQuery _ _ (entries_kept originalQuery)
                (Split response LF) (initial_validation originalQuery, "")
                (fun _ _ => I)) as H.
  destruct (fold_left _ _ _) as [v sec]. cbn [fst] in H.
  cbn [Issues IndexUsage Suggestions set_OptimizedQuery]. apply H.
  repeat split; constructor.
Qed.

(** X14: when the original query is not empty, the optimized query of the
    record is not empty either, whatever the reply. *)
Theorem OptimizedQuery_nonempty (response originalQuery : string) :
  originalQuery <> "" ->
  OptimizedQuery (parseValidationResponse response originalQuery) <> "".
Proof.
  intros Ho. unfold parseValidationResponse.
  destruct (fold_left _ _ _) as [v sec].
  cbn [OptimizedQuery set_OptimizedQuery]. unfold tidy_optimized.
  destruct (String.eqb _ "") eqn:E; [exact Ho|].
  now apply String.eqb_neq in E.
Qed.

Lemma OptimizedQuery_nonempty_witness :
  OptimizedQuery (parseValidationResponse ("최적화된 쿼리:" +:+ LF +:+ "```") "SELECT 1")
  <> "".
Proof.
  apply (OptimizedQuery_nonempty ("최적화된 쿼리:" +:+ LF +:+ "```") "SELECT 1").
  discriminate.
Defined.

(** X15: lines before the first header do not count: a reply none of whose
    lines starts with a header gives the record of defaults, and such lines
    put before a reply do not change what is made of it. *)
Theorem validation_preamble_ignored (preamble rest originalQuery : string) :
  plain_text validation_headers preamble = true ->
  parseValidationResponse preamble originalQuery
  = mk true 50 originalQuery (tidy_optimized originalQuery originalQuery)
       (lit []) (lit []) (lit []) "" "" 0
  /\ parseValidationResponse (preamble +:+ LF +:+ rest) originalQuery
     = parseValidationResponse rest originalQuery.
Proof.
  intros H. unfold plain_text in H. split.
  - unfold parseValidationResponse.
    rewrite plain_lines_skipped by exact H. reflexivity.
  - unfold parseValidationResponse.
    rewrite Split_LF_app, fold_left_app, plain_lines_skipped by exact H.
    reflexivity.
Qed.

Lemma validation_preamble_ignored_witness :
  parseValidationResponse ("Sure, here is my review." +:+ LF +:+ "점수: 80") "SELECT 1"
  = parseValidationResponse "점수: 80" "SELECT 1".
Proof.
  apply (validation_preamble_ignored "Sure, here is my review." "점수: 80" "SELECT 1").
  vm_compute. reflexivity.
Defined.

(** *** [parseQueryResponse] *)

Lemma query_plain_line_skipped (st : query_acc) (line : string) :
  q_section st = "" ->
  plain_line query_headers line = true ->
  query_line st line = st.
Proof.
  unfold plain_line, query_headers, has_header. cbn [forallb]. intros Hs H.
  repeat match type of H with
         | (negb _ && _) = true =>
             let E := fresh "E" in
             apply andb_prop in H as [E H]; apply negb_true_iff in E
         end.
  unfold query_line. rewrite E, E0, E1, Hs. reflexivity.
Qed.

Lemma query_plain_lines_skipped (st : query_acc) (lines : list string) :
  q_section st = "" ->
  forallb (plain_line query_headers) lines = true ->
  fold_left query_line lines st = st.
Proof.
  intros Hs. induction lines as [|line lines IH]; intros H; [reflexivity|].
  cbn [forallb] in H. apply andb_prop in H as [Hl H].
  cbn [fold_left]. rewrite query_plain_line_skipped by assumption. auto.
Qed.

(** X16: [parseQueryResponse] likewise: a reply without any of the three
    headers gives an empty query, an empty explanation and no tip, and
    such lines put before a reply do not change what is made of it. *)
Theorem query_preamble_ignored (preamble rest : string) :
  plain_text query_headers preamble = true ->
  parseQueryResponse preamble = ("", "", lit [])
  /\ parseQueryResponse (preamble +:+ LF +:+ rest) = parseQueryResponse rest.
Proof.
  intros H. unfold plain_text in H. split.
  - unfold parseQueryResponse.
    rewrite query_plain_lines_skipped by (reflexivity || exact H). reflexivity.
  - unfold parseQueryResponse.
    rewrite Split_LF_app, fold_left_app.
    rewrite (query_plain_lines_skipped _ (Split preamble LF)) by (reflexivity || exact H).
    reflexivity.
Qed.

Lemma query_preamble_ignored_witness :
  parseQueryResponse "SELECT 1;" = ("", "", lit [])
  /\ parseQueryResponse ("Here you go:" +:+ LF +:+ "SQL:" +:+ LF +:+ "SELECT 1;")
     = parseQueryResponse ("SQL:" +:+ LF +:+ "SELECT 1;").
Proof.
  split.
  - apply (query_preamble_ignored "SELECT 1;" ""). vm_compute. reflexivity.
  - apply (query_preamble_ignored "Here you go:" ("SQL:" +:+ LF +:+ "SELECT 1;")).
    vm_compute. reflexivity.
Defined.

Lemma tips_allocated_kept (st : query_acc) (line : string) :
  is_nil (tips st) = false -> is_nil (tips (query_line st line)) = false.
Proof.
  intros H. unfold query_line. split_ifs; solve [exact H | reflexivity].
Qed.

(** X17: the tips that [parseQueryResponse] returns are never nil, whatever
    the reply. *)
Theorem tips_never_nil (response : string) :
  is_nil (snd (parseQueryResponse response)) = false.
Proof.
  unfold parseQueryResponse. cbn [snd].
  generalize (Split response LF).
  assert (H : is_nil (tips (mk_query_acc "" nil_slice nil_slice (lit []))) = false)
    by reflexivity.
  revert H. generalize (mk_query_acc "" nil_slice nil_slice (lit [])).
  intros st H lines. revert st H.
  induction lines as [|line lines IH]; intros st H; [exact H|].
  cbn [fold_left]. apply IH. now apply tips_allocated_kept.
Qed.

End ReplyProps.

(** ** Reading a schema from a database *)

Module ConnectorProps.

Import DB RowTerms Connectors ConnectorTerms DBProps.

Lemma scan_rows_spec {R A : Type} (f : R -> A) (rows : list R) :
  forall acc,
    scan_rows f (map Scanned rows) acc
    = Ok (match rows with
          | [] => acc
          | _ => lit (elems acc ++ map f rows)
          end).
Proof.
  induction rows as [|row rows IH]; intros acc; [reflexivity|].
  cbn [map scan_rows]. rewrite IH. unfold append, lit. cbn [elems].
  destruct rows; cbn [map]; rewrite <- ?app_assoc; reflexivity.
Qed.

Lemma scan_rows_error {R A : Type} (f : R -> A) (pre : list R) (e : string)
    (rest : list (scanned R)) :
  forall acc, scan_rows f (map Scanned pre ++ ScanError e :: rest) acc = Err e.
Proof.
  induction pre as [|row pre IH]; intros acc; [reflexivity|].
  cbn [map app scan_rows]. apply IH.
Qed.

(** X19: the row loop of [getTables], [getPrimaryKeys] and the four
    [getColumns]: when every row scans, the result has one entry per row in
    the order of the rows, and is nil when there is no row; the first row
    that fails to scan makes the call fail with that error, whatever was
    read before; a failed query is returned as it is. *)
Theorem collect_rows {R A : Type} (f : R -> A) :
  (forall rows,
      collect f (Rows (map Scanned rows))
      = Ok (match rows with
            | [] => nil_slice
            | _ => lit (map f rows)
            end))
  /\ (forall pre e rest,
        collect f (Rows (map Scanned pre ++ ScanError e :: rest)) = Err e)
  /\ (forall e, collect f (QueryError e) = Err e).
Proof.
  split; [|split].
  - intros rows. unfold collect. rewrite scan_rows_spec. destruct rows; reflexivity.
  - intros pre e rest. apply scan_rows_error.
  - reflexivity.
Qed.

Lemma scan_rows_Forall {R A : Type} (f : R -> A) (P : A -> Prop) :
  (forall row, P (f row)) ->
  forall rows acc out,
    Forall P (elems acc) ->
    scan_rows f rows acc = Ok out -> Forall P (elems out).
Proof.
  intros Hf. induction rows as [|[row|e] rows IH]; intros acc out Hacc E.
  - injection E as <-. exact Hacc.
  - cbn [scan_rows] in E. eapply IH; [|exact E].
    unfold append. cbn [elems]. apply Forall_app. split; [exact Hacc|].
    constructor; [apply Hf | constructor].
  - discriminate E.
Qed.

Lemma collect_Forall {R A : Type} (f : R -> A) (P : A -> Prop)
    (q : query_result R) (out : slice A) :
  (forall row, P (f row)) ->
  collect f q = Ok out -> Forall P (elems out).
Proof.
  intros Hf E. destruct q as [e|rows]; [discriminate E|].
  eapply scan_rows_Forall; [exact Hf | | exact E]. constructor.
Qed.

(** X20: a column read from MySQL carries at most one of the flags
    [IsPK], [IsFK], [IsUnique]: all three come from the one [COLUMN_KEY]
    value of its row. *)
Theorem MySQL_key_flags (q : query_result MySQLColumnRow) (columns : slice Column.t)
    (c : Column.t) :
  MySQL_getColumns q = Ok columns ->
  In c (elems columns) ->
  Column.IsPK c && Column.IsFK c = false
  /\ Column.IsPK c && Column.IsUnique c = false
  /\ Column.IsFK c && Column.IsUnique c = false.
Proof.
  intros E Hin.
  pose proof (collect_Forall MySQL_column
                (fun c => Column.IsPK c && Column.IsFK c = false
                          /\ Column.IsPK c && Column.IsUnique c = false
                          /\ Column.IsFK c && Column.IsUnique c = false)
                q columns) as H.
  rewrite List.Forall_forall in H. apply H; [|exact E|exact Hin].
  intros row. unfold MySQL_column.
  cbn [Column.IsPK Column.IsFK Column.IsUnique].
  destruct (String.eqb_spec (my_columnKey row) "PRI") as [->|_];
    [repeat split; reflexivity|].
  destruct (String.eqb_spec (my_columnKey row) "MUL") as [->|_];
    repeat split; reflexivity.
Qed.

Lemma MySQL_key_flags_witness :
  let c := Column.mk "email" "varchar" false "" "" false false true false in
  Column.IsPK c && Column.IsFK c = false
  /\ Column.IsPK c && Column.IsUnique c = false
  /\ Column.IsFK c && Column.IsUnique c = false.
Proof.
  intros c.
  apply (MySQL_key_flags
           (Rows [Scanned (mk_MySQLColumnRow "email" "varchar" "NO" None "UNI" "" None)])
           (lit [c]) c).
  - reflexivity.
  - left. reflexivity.
Defined.

(** X21: what the other connectors never report of a column: Oracle and
    SQL Server no foreign-key and no unique flag, PostgreSQL no unique
    flag, none of them a comment; Oracle no auto-increment either, and
    PostgreSQL only for a default that mentions [nextval]. *)
Theorem columns_never_flagged :
  (forall q columns,
      Oracle_getColumns q = Ok columns ->
      Forall (fun c => Column.IsFK c = false /\ Column.IsUnique c = false
                       /\ Column.IsAutoIncr c = false /\ Column.Comment c = "")
             (elems columns))
  /\ (forall q columns,
        Postgres_getColumns q = Ok columns ->
        Forall (fun c => Column.IsUnique c = false /\ Column.Comment c = ""
                         /\ (Column.IsAutoIncr c = true ->
                             Contains (Column.Default c) "nextval" = true))
               (elems columns))
  /\ (forall q columns,
        SQLServer_getColumns q = Ok columns ->
        Forall (fun c => Column.IsFK c = false /\ Column.IsUnique c = false
                         /\ Column.Comment c = "")
               (elems columns)).
Proof.
  split; [|split]; intros q columns E.
  - eapply collect_Forall; [|exact E]. intros row. repeat split; reflexivity.
  - eapply collect_Forall; [|exact E]. intros row. repeat split; try reflexivity.
    unfold Postgres_column. cbn [Column.IsAutoIncr Column.Default].
    destruct (pg_defaultVal row); [intros H; exact H | discriminate].
  - eapply collect_Forall; [|exact E]. intros row. repeat split; reflexivity.
Qed.

Lemma columns_never_flagged_witness :
  Forall (fun c => Column.IsFK c = false /\ Column.IsUnique c = false
                   /\ Column.IsAutoIncr c = false /\ Column.Comment c = "")
         [Column.mk "ID" "NUMBER" false "" "" true false false false].
Proof.
  apply (proj1 columns_never_flagged
           (Rows [Scanned (mk_OracleColumnRow "ID" "NUMBER" "N" None "Y")])
           (lit [Column.mk "ID" "NUMBER" false "" "" true false false false])).
  reflexivity.
Defined.

Section IndexRows.

Context {U : Type} (is_unique : U -> bool).
Variable range_order : gmap string Index.t -> list (string * Index.t).

Lemma index_rows_error (pre : list (IndexRow U)) (e : string)
    (rest : list (scanned (IndexRow U))) :
  forall indexMap,
    index_rows is_unique (map Scanned pre ++ ScanError e :: rest) indexMap = Err e.
Proof.
  induction pre as [|row pre IH]; intros indexMap; [reflexivity|].
  cbn [map app index_rows]. apply IH.
Qed.

Lemma fk_rows_error (pre : list FKRow) (e : string) (rest : list (scanned FKRow)) :
  forall fks, fk_rows (map Scanned pre ++ ScanError e :: rest) fks = Err e.
Proof.
  induction pre as [|row pre IH]; intros fks; [reflexivity|].
  cbn [map app fk_rows]. apply IH.
Qed.

Hypothesis range_order_perm : forall m, range_order m ≡ₚ map_to_list m.

Lemma range_order_empty : range_order ∅ = [].
Proof.
  apply Permutation_nil_r. rewrite range_order_perm, map_to_list_empty. reflexivity.
Qed.

(** X22: [getIndexes] and [getForeignKeys] fail with the error of the
    first row that does not scan, whatever was read before, and return nil
    when the query has no row. *)
Theorem index_fk_edge_cases :
  (forall pre e rest,
      getIndexes is_unique range_order (Rows (map Scanned pre ++ ScanError e :: rest))
      = Err e)
  /\ (forall pre e rest,
        getForeignKeys (Rows (map Scanned pre ++ ScanError e :: rest)) = Err e)
  /\ getIndexes is_unique range_order (Rows []) = Ok nil_slice
  /\ getForeignKeys (Rows []) = Ok nil_slice.
Proof.
  split; [|split; [|split]].
  - intros pre e rest. unfold getIndexes. rewrite index_rows_error. reflexivity.
  - intros pre e rest. apply fk_rows_error.
  - unfold getIndexes. cbn [index_rows]. rewrite range_order_empty. reflexivity.
  - reflexivity.
Qed.

(** X23: the uniqueness and the type of an index that [getIndexes]
    returns are those of the first row of that index; what later rows of
    the index say of them is not read. *)
Theorem index_flags_from_first_row (rows : list (IndexRow U))
    (indexes : slice Index.t) (idx : Index.t) :
  getIndexes is_unique range_order (Rows (map Scanned rows)) = Ok indexes ->
  In idx (elems indexes) ->
  exists r rs,
    rows_of (Index.Name idx) rows = r :: rs
    /\ Index.IsUnique idx = is_unique (uniqueness r)
    /\ Index.Type_ idx = indexType r.
Proof.
  unfold getIndexes.
  destruct (index_rows_spec is_unique rows ∅) as (final & E & Hfinal).
  rewrite E. intros [= <-]. rewrite collect_spec. cbn [elems nil_slice app].
  intros Hin. apply in_map_iff in Hin. destruct Hin as ([k idx'] & Heq & Hin).
  cbn [snd] in Heq. subst idx'.
  apply list_elem_of_In in Hin. rewrite (range_order_perm final) in Hin.
  apply elem_of_map_to_list in Hin. rewrite Hfinal, lookup_empty in Hin.
  destruct (final_entry is_unique rows k idx Hin) as (Hn & _ & _).
  rewrite Hn. unfold extended in Hin.
  destruct (rows_of k rows) as [|r rs]; [discriminate Hin|].
  injection Hin as <-. exists r, rs. rewrite add_columns_spec.
  repeat split; reflexivity.
Qed.

End IndexRows.

Lemma index_fk_edge_cases_witness :
  MySQL_getIndexes map_to_list
    (Rows [Scanned (mk_IndexRow "i1" "a" 0 "BTREE"); ScanError "bad row"])
  = Err "bad row".
Proof.
  apply (proj1 (index_fk_edge_cases (fun nonUnique : Z => nonUnique =? 0) map_to_list
                  (fun m => reflexivity (map_to_list m)))
           [mk_IndexRow "i1" "a" 0 "BTREE"] "bad row" []).
Defined.

Lemma index_flags_from_first_row_witness :
  exists r rs,
    rows_of "i1" [mk_IndexRow "i1" "a" 0 "BTREE"; mk_IndexRow "i1" "b" 1 "HASH"]
    = r :: rs
    /\ true = (uniqueness r =? 0)
    /\ "BTREE" = indexType r.
Proof.
  apply (index_flags_from_first_row (fun nonUnique : Z => nonUnique =? 0) map_to_list
           (fun m => reflexivity (map_to_list m))
           [mk_IndexRow "i1" "a" 0 "BTREE"; mk_IndexRow "i1" "b" 1 "HASH"]
           (lit [Index.mk "i1" (lit ["a"; "b"]) true "BTREE"])
           (Index.mk "i1" (lit ["a"; "b"]) true "BTREE")).
  - vm_compute. reflexivity.
  - left. reflexivity.
Defined.

Section Extract.

Context {C U : Type}.
Variable dbType : DBType.
Variable column_of_row : C -> Column.t.
Variable is_unique : U -> bool.
Variable range_order : gmap string Index.t -> list (string * Index.t).
Variable table_arg : string -> string.

Local Abbreviation extract := (extract_table column_of_row is_unique range_order table_arg).
Local Abbreviation extract_all := (extract_tables column_of_row is_unique range_order table_arg).

Lemma extract_table_name (db : database C U) (name : string) (t : Table.t) :
  extract db name = Ok t -> Table.Name t = name.
Proof.
  unfold extract_table, bind.
  destruct (collect _ _); [|discriminate].
  destruct (getIndexes _ _ _); [|discriminate].
  destruct (getForeignKeys _); [|discriminate].
  destruct (getPrimaryKeys _); [|discriminate].
  intros [= <-]. reflexivity.
Qed.

Lemma extract_tables_ok (db : database C U) (names : list string) :
  forall schema l0 out,
    Schema.Tables schema = Some l0 ->
    extract_all db names schema = Ok out ->
    Schema.Database out = Schema.Database schema
    /\ Schema.DBType_ out = Schema.DBType_ schema
    /\ exists tables,
         Schema.Tables out = Some (l0 ++ tables)
         /\ Forall2 (fun name t => extract db name = Ok t) names tables.
Proof.
  induction names as [|name names IH]; intros schema l0 out Hl0 E.
  - injection E as <-. split; [reflexivity|]. split; [reflexivity|].
    exists []. rewrite app_nil_r. split; [exact Hl0 | constructor].
  - cbn [extract_tables] in E. unfold bind in E at 1.
    destruct (extract db name) as [t|e] eqn:Et; [|discriminate E].
    apply (IH _ (l0 ++ [t])) in E;
      [|cbn [Schema.Tables]; rewrite Hl0; reflexivity].
    cbn [Schema.Database Schema.DBType_] in E.
    destruct E as (Hd & Ht & tables & Hel & Hall).
    split; [exact Hd|]. split; [exact Ht|].
    exists (t :: tables). split.
    + rewrite Hel, <- app_assoc. reflexivity.
    + constructor; [exact Et | exact Hall].
Qed.


(** X24: a schema that [ExtractSchema] returns carries the configured
    database name and the connector's dialect, and has one table per name
    that [getTables] listed, in that order, each made of what the column,
    index, foreign-key and primary-key queries returned for that name. *)
Theorem ExtractSchema_tables (db : database C U) (schema : Schema.t) :
  ExtractSchema dbType column_of_row is_unique range_order table_arg db = Ok schema ->
  Schema.Database schema = config_Database db
  /\ Schema.DBType_ schema = dbType
  /\ exists names tables,
       getTables (tables_query db) = Ok names
       /\ Schema.Tables schema = Some tables
       /\ map Table.Name tables = elems names
       /\ Forall2 (fun name t => extract db name = Ok t) (elems names) tables.
Proof.
  unfold ExtractSchema, bind.
  destruct (getTables (tables_query db)) as [names|e] eqn:En; [|discriminate].
  intros E. apply (extract_tables_ok _ _ _ []) in E; [|reflexivity].
  cbn [Schema.Database Schema.DBType_ app] in E.
  destruct E as (Hd & Ht & tables & Hel & Hall).
  split; [exact Hd|]. split; [exact Ht|].
  exists names, tables. split; [reflexivity|]. split; [exact Hel|].
  split; [|exact Hall].
  clear Hel En. induction Hall as [|n t ns ts Hnt _ IH]; [reflexivity|].
  cbn [map]. rewrite IH, (extract_table_name db n t Hnt). reflexivity.
Qed.


End Extract.

Lemma ExtractSchema_tables_witness :
  let id := Column.mk "id" "int" false "" "" true false false true in
  let table name := Table.mk name (lit [id]) (lit ["id"]) nil_slice nil_slice in
  let schema := Schema.mk "shop" (lit [table "users"; table "items"]) MySQL in
  Schema.Database schema = "shop"
  /\ Schema.DBType_ schema = MySQL
  /\ exists names tables,
       getTables (tables_query (shop (Rows [Scanned "id"]))) = Ok names
       /\ Schema.Tables schema = Some tables
       /\ map Table.Name tables = elems names
       /\ Forall2 (fun name t =>
                     extract_table MySQL_column (fun nonUnique : Z => nonUnique =? 0)
                                   map_to_list (fun name => name)
                                   (shop (Rows [Scanned "id"])) name = Ok t)
                  (elems names) tables.
Proof.
  intros id table schema.
  apply (ExtractSchema_tables MySQL MySQL_column (fun nonUnique : Z => nonUnique =? 0)
           map_to_list (fun name => name) (shop (Rows [Scanned "id"])) schema).
  vm_compute. reflexivity.
Defined.


End ConnectorProps.

(** ** The DDL parser: what holds of every text *)

Module ParserProps.

Import SchemaParser DDLTerms IndexTerms StringProps DDLProps.

Lemma parseColumns_line_IsFK (columns : slice Column.t) (line : string) :
  Forall (fun c => Column.IsFK c = false) (elems columns) ->
  Forall (fun c => Column.IsFK c = false) (elems (parseColumns_line columns line)).
Proof.
  intros H. unfold parseColumns_line.
  destruct (is_constraint_line _); [exact H|].
  destruct (length _ <? 3)%nat; [exact H|].
  apply Forall_append; [exact H | reflexivity].
Qed.

Lemma parseColumns_IsFK (columnsDef : string) (dbType : DBType) :
  Forall (fun c => Column.IsFK c = false) (elems (parseColumns columnsDef dbType)).
Proof.
  unfold parseColumns. generalize (Split columnsDef ",").
  assert (H : Forall (fun c => Column.IsFK c = false) (elems (@nil_slice Column.t)))
    by constructor.
  revert H. generalize (@nil_slice Column.t).
  intros columns H pieces. revert columns H.
  induction pieces as [|line pieces IH]; intros columns H; [exact H|].
  cbn [fold_left]. apply IH. now apply parseColumns_line_IsFK.
Qed.

(** Every table of the result comes from a table of the first pass. *)
Lemma ParseDDL_table_origin (ddl : string) (dbType : DBType) (schema : Schema.t)
    (t : Table.t) :
  ParseDDL ddl dbType = Ok schema ->
  In t (elems (Schema.Tables schema)) ->
  exists m,
    In m (FindAllStringSubmatch tablePattern ddl)
    /\ grown (table_of_match m dbType) t.
Proof.
  destruct (ParseDDL_tables ddl dbType) as (tables & E & G).
  rewrite E. intros [= <-]. cbn [elems Schema.Tables]. intros Hin.
  apply list_elem_of_In in Hin.
  destruct (proj1 (list_elem_of_lookup _ _) Hin) as (i & Hi).
  destruct (Forall2_lookup_r _ _ _ _ _ G Hi) as (t0 & H0 & Hg).
  apply list_elem_of_lookup_2, list_elem_of_In in H0.
  unfold parsed_tables in H0. apply in_map_iff in H0.
  destruct H0 as (m & <- & Hm). exists m. split; assumption.
Qed.

(** X1: whatever the text, no table that [ParseDDL] returns has a
    primary-key list or a foreign key, and no column of it is flagged as a
    foreign key: the body handed to [parsePrimaryKey] and
    [parseForeignKeys] stops before the first closing parenthesis, and
    [parseColumns] never sets the flag. *)
Theorem ParseDDL_reports_no_keys (ddl : string) (dbType : DBType)
    (schema : Schema.t) (t : Table.t) :
  ParseDDL ddl dbType = Ok schema ->
  In t (elems (Schema.Tables schema)) ->
  Table.PrimaryKey t = nil_slice
  /\ Table.ForeignKeys t = nil_slice
  /\ forall c, In c (elems (Table.Columns t)) -> Column.IsFK c = false.
Proof.
  intros E Hin.
  destruct (ParseDDL_table_origin ddl dbType schema t E Hin)
    as (m & Hm & (_ & Hc & Hpk & Hfk & _)).
  destruct (TableBodyProps.table_constraints_never_found ddl dbType m Hm) as [Hp Hf].
  rewrite Hpk, Hfk, Hc. split; [exact Hp|]. split; [exact Hf|].
  intros c Hcin. unfold table_of_match in Hcin. cbn [Table.Columns] in Hcin.
  pose proof (parseColumns_IsFK (sub m 2) dbType) as H.
  rewrite List.Forall_forall in H. exact (H c Hcin).
Qed.

Lemma ParseDDL_reports_no_keys_witness :
  let o := Table.mk "o" (lit [plain_column "id" "INT"; plain_column "u" "INT"])
                    nil_slice nil_slice nil_slice in
  Table.PrimaryKey o = nil_slice
  /\ Table.ForeignKeys o = nil_slice
  /\ forall c, In c (elems (Table.Columns o)) -> Column.IsFK c = false.
Proof.
  intros o.
  apply (ParseDDL_reports_no_keys
           "CREATE TABLE o (id INT, u INT, PRIMARY KEY (id), FOREIGN KEY (u) REFERENCES users(id))"
           MySQL (Schema.mk "" (lit [o]) MySQL) o).
  - vm_compute. reflexivity.
  - left. reflexivity.
Defined.

(** X4: [ParseDDL] always returns a schema whose tables are, in order,
    those of the matches of the table pattern: the name is the first group
    and the columns are [parseColumns] of the second; the index pass
    changes neither. *)
Theorem ParseDDL_first_pass_kept (ddl : string) (dbType : DBType) :
  exists schema tables,
    ParseDDL ddl dbType = Ok schema
    /\ Schema.Tables schema = Some tables
    /\ map Table.Name tables
       = map (fun m => sub m 1) (FindAllStringSubmatch tablePattern ddl)
    /\ map Table.Columns tables
       = map (fun m => parseColumns (sub m 2) dbType)
             (FindAllStringSubmatch tablePattern ddl).
Proof.
  destruct (ParseDDL_tables ddl dbType) as (tables & E & G).
  exists (Schema.mk "" (Some tables) dbType), tables.
  split; [exact E|]. split; [reflexivity|]. clear E.
  unfold parsed_tables in G. revert G.
  generalize (FindAllStringSubmatch tablePattern ddl). intros ms. revert tables.
  induction ms as [|m ms IH]; intros tables G.
  - inversion G. split; reflexivity.
  - cbn [map] in G. inversion G as [|t0 t l0 l (Hn & Hc & _) Hrest]. subst.
    destruct (IH _ Hrest) as [IHn IHc]. cbn [map]. rewrite IHn, IHc, Hn, Hc.
    split; reflexivity.
Qed.

(** *** The index pass *)

Lemma index_columns_entries (columnStr : string) :
  Forall (fun col => col <> "" /\ Contains col " " = false)
         (elems (index_columns columnStr)).
Proof.
  unfold index_columns. generalize (Split columnStr ",").
  assert (H : Forall (fun col => col <> "" /\ Contains col " " = false)
                     (elems (@nil_slice string))) by constructor.
  revert H. generalize (@nil_slice string).
  intros columns H pieces. revert columns H.
  induction pieces as [|piece pieces IH]; intros columns H; [exact H|].
  cbn [fold_left]. apply IH.
  set (col := nth 0 (Split _ " ") "").
  destruct (String.eqb col "") eqn:E; cbn [negb]; [exact H|].
  apply Forall_append; [exact H|]. split.
  - now apply String.eqb_neq.
  - unfold col, Split. apply split_from_first. reflexivity.
Qed.

Lemma attach_index_from (matches : list (list string)) (m : list string)
    (tables : list Table.t) :
  In m matches ->
  indexes_from matches tables ->
  indexes_from matches (attach_index tables (sub m 3) (index_of_match m)).
Proof.
  intros Hm. unfold indexes_from. induction tables as [|t tables IH]; intros H.
  - constructor.
  - inversion H as [|? ? Ht Hrest]. subst. cbn [attach_index].
    destruct (EqualFold (Table.Name t) (sub m 3)) eqn:E.
    + constructor; [|exact Hrest]. unfold add_index. cbn [Table.Indexes Table.Name].
      apply Forall_append.
      * exact Ht.
      * exists m. repeat split; assumption.
    + constructor; [exact Ht | apply IH; exact Hrest].
Qed.

Lemma parseIndexes_fold_from (matches : list (list string)) :
  forall ms schema tables,
    (forall m, In m ms -> In m matches) ->
    Schema.Tables schema = Some tables ->
    indexes_from matches tables ->
    exists tables',
      Schema.Tables (fold_left parseIndexes_match ms schema) = Some tables'
      /\ indexes_from matches tables'.
Proof.
  induction ms as [|m ms IH]; intros schema tables Hms Ht H.
  - exists tables. split; assumption.
  - cbn [fold_left]. unfold parseIndexes_match at 2.
    destruct (length m <? 5)%nat.
    + apply (IH schema tables); [intros m' Hm'; apply Hms; right|..]; assumption.
    + rewrite Ht.
      apply (IH _ (attach_index tables (sub m 3) (index_of_match m)));
        [intros m' Hm'; apply Hms; right; exact Hm' | reflexivity |].
      apply attach_index_from; [apply Hms; left; reflexivity | exact H].
Qed.

(** X5: every index record of a table that [ParseDDL] returns comes from a
    [CREATE INDEX] statement of the text that names that table up to
    case; its type is [BTREE], and its columns are non-empty and hold no
    blank. *)
Theorem ParseDDL_indexes (ddl : string) (dbType : DBType) (schema : Schema.t)
    (t : Table.t) (idx : Index.t) :
  ParseDDL ddl dbType = Ok schema ->
  In t (elems (Schema.Tables schema)) ->
  In idx (elems (Table.Indexes t)) ->
  (exists m,
     In m (FindAllStringSubmatch indexPattern ddl)
     /\ idx = index_of_match m
     /\ EqualFold (Table.Name t) (sub m 3) = true)
  /\ Index.Type_ idx = "BTREE"
  /\ Forall (fun col => col <> "" /\ Contains col " " = false)
            (elems (Index.Columns idx)).
Proof.
  unfold ParseDDL, parseIndexes.
  rewrite (ParseDDL_match_fold dbType _
             (fun m H => FindAllStringSubmatch_length tablePattern ddl m H)
             (Schema.mk "" (lit []) dbType) [] eq_refl).
  cbn [app Schema.Database Schema.DBType_].
  intros [= <-] Ht Hidx.
  destruct (parseIndexes_fold_from (FindAllStringSubmatch indexPattern ddl)
              (FindAllStringSubmatch indexPattern ddl)
              (Schema.mk "" (Some (map (fun m => table_of_match m dbType)
                                       (FindAllStringSubmatch tablePattern ddl))) dbType)
              _ (fun m H => H) eq_refl)
    as (tables' & E' & H').
  { apply List.Forall_forall. intros t0 H0. apply in_map_iff in H0.
    destruct H0 as (m & <- & _). constructor. }
  rewrite E' in Ht. cbn [elems] in Ht.
  unfold indexes_from in H'. rewrite List.Forall_forall in H'.
  specialize (H' t Ht). rewrite List.Forall_forall in H'.
  destruct (H' idx Hidx) as (m & Hm & -> & He).
  split; [exists m; repeat split; assumption|].
  split; [reflexivity|]. apply index_columns_entries.
Qed.

Lemma ParseDDL_indexes_witness :
  (exists m,
     In m (FindAllStringSubmatch indexPattern Examples.ddl_table_then_index)
     /\ Examples.idx_e = index_of_match m
     /\ EqualFold "users" (sub m 3) = true)
  /\ Index.Type_ Examples.idx_e = "BTREE"
  /\ Forall (fun col => col <> "" /\ Contains col " " = false)
            (elems (Index.Columns Examples.idx_e)).
Proof.
  apply (ParseDDL_indexes Examples.ddl_table_then_index MySQL
           (Schema.mk ""
              (lit [Table.mk "users"
                      (lit [plain_column "id" "INT"; plain_column "email" "TEXT"])
                      nil_slice nil_slice (lit [Examples.idx_e])])
              MySQL)
           (Table.mk "users"
              (lit [plain_column "id" "INT"; plain_column "email" "TEXT"])
              nil_slice nil_slice (lit [Examples.idx_e]))
           Examples.idx_e).
  - vm_compute. reflexivity.
  - left. reflexivity.
  - left. reflexivity.
Defined.

Lemma attach_index_names (tables : list Table.t) (name : string) (idx : Index.t) :
  map Table.Name (attach_index tables name idx) = map Table.Name tables.
Proof.
  induction tables as [|t tables IH]; [reflexivity|]. cbn [attach_index].
  destruct (EqualFold (Table.Name t) name); cbn [map]; [reflexivity|].
  now rewrite IH.
Qed.

Lemma list_sum_cons (a : nat) (l : list nat) :
  list_sum (a :: l) = (a + list_sum l)%nat.
Proof. reflexivity. Qed.

Lemma attach_index_total (tables : list Table.t) (name : string) (idx : Index.t) :
  total_indexes (attach_index tables name idx)
  = (total_indexes tables
     + if existsb (fun t => EqualFold (Table.Name t) name) tables then 1 else 0)%nat.
Proof.
  unfold total_indexes. induction tables as [|t tables IH]; [reflexivity|].
  cbn [attach_index existsb].
  destruct (EqualFold (Table.Name t) name); cbn [orb map]; rewrite !list_sum_cons.
  - unfold add_index, append, len. cbn [Table.Indexes elems].
    rewrite length_app. cbn [length]. lia.
  - rewrite IH. lia.
Qed.

Lemma targets_table_names (tables tables' : list Table.t) (m : list string) :
  map Table.Name tables = map Table.Name tables' ->
  targets_table tables m = targets_table tables' m.
Proof.
  unfold targets_table. revert tables'.
  induction tables as [|t tables IH]; intros [|t' tables'] H; try discriminate H;
    [reflexivity|].
  cbn [map] in H. injection H as Hn H. cbn [existsb]. rewrite Hn, (IH _ H).
  reflexivity.
Qed.

Lemma parseIndexes_fold_total (tables0 : list Table.t) :
  forall ms schema tables,
    (forall m, In m ms -> length m = 5%nat) ->
    Schema.Tables schema = Some tables ->
    map Table.Name tables = map Table.Name tables0 ->
    exists tables',
      Schema.Tables (fold_left parseIndexes_match ms schema) = Some tables'
      /\ total_indexes tables'
         = (total_indexes tables + length (List.filter (targets_table tables0) ms))%nat.
Proof.
  induction ms as [|m ms IH]; intros schema tables Hlen Ht Hn.
  - exists tables. split; [exact Ht | cbn; lia].
  - cbn [fold_left]. unfold parseIndexes_match at 2.
    rewrite (Hlen m (or_introl eq_refl)). cbn [Nat.ltb Nat.leb]. rewrite Ht.
    destruct (IH (set_Tables schema
                    (Some (attach_index tables (sub m 3) (index_of_match m))))
                 (attach_index tables (sub m 3) (index_of_match m)))
      as (tables' & E' & Htot).
    + intros m' Hm'. apply Hlen. right. exact Hm'.
    + reflexivity.
    + rewrite attach_index_names. exact Hn.
    + exists tables'. split; [exact E'|]. rewrite Htot, attach_index_total.
      cbn [List.filter]. rewrite <- (targets_table_names tables tables0 m Hn).
      unfold targets_table. destruct (existsb _ tables); cbn [length]; lia.
Qed.

(** X6: the tables that [ParseDDL] returns hold, together, as many index
    records as the text has [CREATE INDEX] statements that name, up to
    case, a table the text creates: each such statement adds one record to
    one table, and a statement on any other table is dropped. *)
Theorem ParseDDL_index_count (ddl : string) (dbType : DBType) :
  exists schema tables,
    ParseDDL ddl dbType = Ok schema
    /\ Schema.Tables schema = Some tables
    /\ total_indexes tables
       = length (List.filter (targets_table (parsed_tables ddl dbType))
                             (FindAllStringSubmatch indexPattern ddl)).
Proof.
  unfold ParseDDL, parseIndexes.
  rewrite (ParseDDL_match_fold dbType _
             (fun m H => FindAllStringSubmatch_length tablePattern ddl m H)
             (Schema.mk "" (lit []) dbType) [] eq_refl).
  cbn [app Schema.Database Schema.DBType_]. fold (parsed_tables ddl dbType).
  destruct (parseIndexes_fold_total (parsed_tables ddl dbType)
              (FindAllStringSubmatch indexPattern ddl)
              (Schema.mk "" (Some (parsed_tables ddl dbType)) dbType)
              (parsed_tables ddl dbType)
              (fun m H => FindAllStringSubmatch_length indexPattern ddl m H)
              eq_refl eq_refl)
    as (tables' & E' & Htot).
  eexists. exists tables'. split; [reflexivity|]. split; [exact E'|].
  rewrite Htot.
  assert (H0 : total_indexes (parsed_tables ddl dbType) = 0%nat).
  { unfold parsed_tables, total_indexes.
    induction (FindAllStringSubmatch tablePattern ddl) as [|m ms IH]; [reflexivity|].
    cbn [map]. rewrite list_sum_cons, IH. reflexivity. }
  rewrite H0. reflexivity.
Qed.

End ParserProps.

(** ** What a successful run of the matcher has matched *)

Module MatchProps.

Import Utf8Props MatcherTerms RegexpProps TableBodyProps MatchTerms StringProps.

Lemma star_loop_sound (a : re)
    (body : nat -> string -> captures -> continuation -> outcome)
    (greedy : bool) (k : continuation) :
  (forall pos rest caps j res,
      body pos rest caps j = Some res ->
      exists pos' rest' caps',
        matches a pos rest caps pos' rest' caps' /\ j pos' rest' caps' = Some res) ->
  forall fuel pos rest caps res,
    star_loop body greedy k fuel pos rest caps = Some res ->
    exists pos' rest' caps',
      matches (Star greedy a) pos rest caps pos' rest' caps'
      /\ k pos' rest' caps' = Some res.
Proof.
  intros Hbody fuel.
  induction fuel as [|fuel IH]; intros pos rest caps res H; [discriminate|].
  cbn [star_loop] in H.
  assert (Hmore : forall j,
             j = (fun pos' rest' caps' =>
                    if (pos <? pos')%nat
                    then star_loop body greedy k fuel pos' rest' caps'
                    else None) ->
             body pos rest caps j = Some res ->
             exists pos' rest' caps',
               matches (Star greedy a) pos rest caps pos' rest' caps'
               /\ k pos' rest' caps' = Some res).
  { intros j -> E. destruct (Hbody _ _ _ _ _ E) as (p & q & c & Hm & Hj).
    cbv beta in Hj. destruct (Nat.ltb_spec pos p) as [Hlt|]; [|discriminate].
    destruct (IH _ _ _ _ Hj) as (p' & q' & c' & Hm' & Hk).
    exists p', q', c'. split; [|exact Hk].
    eapply matches_Star_more; eassumption. }
  unfold or_else in H.
  destruct greedy.
  - destruct (body pos rest caps _) eqn:E.
    + injection H as ->. eapply Hmore; [reflexivity|exact E].
    + exists pos, rest, caps. split; [apply matches_Star_stop|exact H].
  - destruct (k pos rest caps) eqn:E.
    + injection H as ->. exists pos, rest, caps.
      split; [apply matches_Star_stop|exact E].
    + eapply Hmore; [reflexivity|exact H].
Qed.

(** The matcher is sound: the result it returns is the continuation's, at a
    point the expression leads to. *)
Lemma exec_sound (r : re) :
  forall slack pos rest caps k res,
    exec_with slack r pos rest caps k = Some res ->
    exists pos' rest' caps',
      matches r pos rest caps pos' rest' caps' /\ k pos' rest' caps' = Some res.
Proof.
  induction r as [|c|a IHa b IHb|a IHa b IHb|greedy a IHa|n a IHa| |];
    intros slack pos rest caps k res H; cbn [exec_with] in H.
  - exists pos, rest, caps. split; [constructor|exact H].
  - destruct (DecodeRuneInString rest) as [x w] eqn:E.
    destruct (Nat.eqb_spec w 0) as [|Hw]; [discriminate|].
    destruct (class_has c x) eqn:Hc; [|discriminate].
    eexists _, _, _. split; [eapply matches_Class; eassumption|exact H].
  - destruct (IHa _ _ _ _ _ _ H) as (p & q & c & Hm & Hb).
    destruct (IHb _ _ _ _ _ _ Hb) as (p' & q' & c' & Hm' & Hk).
    exists p', q', c'. split; [eapply matches_Cat; eassumption|exact Hk].
  - unfold or_else in H. destruct (exec_with slack a pos rest caps k) eqn:E.
    + injection H as ->. destruct (IHa _ _ _ _ _ _ E) as (p & q & c & Hm & Hk).
      exists p, q, c. split; [apply matches_Alt_l; exact Hm|exact Hk].
    + destruct (IHb _ _ _ _ _ _ H) as (p & q & c & Hm & Hk).
      exists p, q, c. split; [apply matches_Alt_r; exact Hm|exact Hk].
  - eapply star_loop_sound; [|exact H].
    intros p q c j res' Hj. eapply IHa; eassumption.
  - destruct (IHa _ _ _ _ _ _ H) as (p & q & c & Hm & Hk).
    exists p, q, ((n, (pos, p)) :: c). split; [constructor; exact Hm|exact Hk].
  - destruct (Nat.eqb_spec pos 0) as [->|]; [|discriminate].
    exists O, rest, caps. split; [constructor|exact H].
  - destruct rest; [|discriminate].
    exists pos, EmptyString, caps. split; [constructor|exact H].
Qed.

Lemma matches_reach (r : re) (pos : nat) (rest : string) (caps : captures)
    (pos' : nat) (rest' : string) (caps' : captures) :
  matches r pos rest caps pos' rest' caps' -> reachable pos rest pos' rest'.
Proof.
  induction 1; try apply reachable_refl.
  - eapply reachable_rune; eassumption.
  - eapply reachable_trans; eassumption.
  - assumption.
  - assumption.
  - eapply reachable_trans; eassumption.
  - assumption.
Qed.

Lemma matches_cap_free (r : re) (pos : nat) (rest : string) (caps : captures)
    (pos' : nat) (rest' : string) (caps' : captures) :
  matches r pos rest caps pos' rest' caps' -> cap_free r = true -> caps' = caps.
Proof.
  induction 1; cbn [cap_free]; intros Hf; try reflexivity.
  - apply andb_prop in Hf as [Ha Hb]. rewrite IHmatches2, IHmatches1; auto.
  - apply andb_prop in Hf as [Ha Hb]. auto.
  - apply andb_prop in Hf as [Ha Hb]. auto.
  - rewrite IHmatches2, IHmatches1; auto.
  - discriminate Hf.
Qed.

Lemma matches_Cat_inv (a b : re) (pos : nat) (rest : string) (caps : captures)
    (pos2 : nat) (rest2 : string) (caps2 : captures) :
  matches (Cat a b) pos rest caps pos2 rest2 caps2 ->
  exists pos1 rest1 caps1,
    matches a pos rest caps pos1 rest1 caps1
    /\ matches b pos1 rest1 caps1 pos2 rest2 caps2.
Proof. inversion 1; subst. eauto. Qed.

Lemma matches_Alt_inv (a b : re) (pos : nat) (rest : string) (caps : captures)
    (pos' : nat) (rest' : string) (caps' : captures) :
  matches (Alt a b) pos rest caps pos' rest' caps' ->
  matches a pos rest caps pos' rest' caps' \/ matches b pos rest caps pos' rest' caps'.
Proof. inversion 1; subst; auto. Qed.

Lemma matches_Empty_inv (pos : nat) (rest : string) (caps : captures)
    (pos' : nat) (rest' : string) (caps' : captures) :
  matches Empty pos rest caps pos' rest' caps' ->
  pos' = pos /\ rest' = rest /\ caps' = caps.
Proof. inversion 1; subst; auto. Qed.

Lemma matches_Cap_inv (n : nat) (a : re) (pos : nat) (rest : string)
    (caps : captures) (pos' : nat) (rest' : string) (caps' : captures) :
  matches (Cap n a) pos rest caps pos' rest' caps' ->
  exists caps1,
    matches a pos rest caps pos' rest' caps1
    /\ caps' = (n, (pos, pos')) :: caps1.
Proof. inversion 1; subst. eauto. Qed.

Lemma matches_Class_inv (c : class) (pos : nat) (rest : string) (caps : captures)
    (pos' : nat) (rest' : string) (caps' : captures) :
  matches (Class c) pos rest caps pos' rest' caps' ->
  exists x w,
    DecodeRuneInString rest = (x, w) /\ w <> O /\ class_has c x = true
    /\ pos' = (pos + w)%nat /\ rest' = drop_bytes w rest /\ caps' = caps.
Proof. inversion 1; subst. eauto 10. Qed.

(** A rune below 128 is one byte, the byte of that value. *)
Lemma ascii_rune (rest : string) (x : rune) (w : nat) :
  DecodeRuneInString rest = (x, w) -> w <> O -> x < 128 ->
  exists ch rest0, rest = String ch rest0 /\ byte_val ch = x /\ w = 1%nat.
Proof.
  intros E Hw Hx. pose proof (decode_ascii rest x w E Hx Hw) as Hb.
  destruct rest as [|ch rest0].
  - cbn in E. injection E as _ <-. now destruct Hw.
  - exists ch, rest0. cbn [byte_at] in Hb. split; [reflexivity|]. split; [exact Hb|].
    unfold DecodeRuneInString in E. cbn [byte_at] in E. rewrite Hb in E.
    assert (H0 : 0 <= x) by (rewrite <- Hb; unfold byte_val; lia).
    destruct (Z.ltb_spec x 0) as [|_]; [lia|].
    unfold RuneSelf in E. destruct (Z.ltb_spec x 128) as [_|]; [|lia].
    injection E as <-. reflexivity.
Qed.

Lemma word_rune (x : rune) :
  class_has (mk_class false word_ranges) x = true -> x < 128.
Proof.
  unfold class_has, word_ranges, in_range. cbn [negated ranges existsb fst snd xorb].
  intros H. repeat (apply orb_prop in H as [H|H]); try discriminate H;
    apply andb_prop in H as [_ H]; apply Z.leb_le in H; lia.
Qed.

Lemma matches_word (pos : nat) (rest : string) (caps : captures)
    (pos' : nat) (rest' : string) (caps' : captures) :
  matches word pos rest caps pos' rest' caps' ->
  exists ch rest0,
    rest = String ch rest0 /\ word_byte ch = true
    /\ pos' = S pos /\ rest' = rest0 /\ caps' = caps.
Proof.
  unfold word. intros H.
  apply matches_Class_inv in H as (x & w & E & Hw & Hc & -> & -> & ->).
  destruct (ascii_rune _ _ _ E Hw (word_rune _ Hc)) as (ch & rest0 & -> & Hb & ->).
  exists ch, rest0. unfold word_byte. rewrite Hb.
  split; [reflexivity|]. split; [exact Hc|]. split; [lia|].
  split; reflexivity.
Qed.

Lemma matches_word_star (greedy : bool) (pos : nat) (rest : string) (caps : captures)
    (pos' : nat) (rest' : string) (caps' : captures) :
  matches (Star greedy word) pos rest caps pos' rest' caps' ->
  exists n,
    pos' = (pos + n)%nat /\ rest' = drop_bytes n rest /\ caps' = caps
    /\ (n <= String.length rest)%nat
    /\ word_string (take_bytes n rest) = true.
Proof.
  remember (Star greedy word) as r eqn:Hr. intros H. revert Hr.
  induction H; intros Hr; try discriminate Hr.
  - exists O. rewrite Nat.add_0_r.
    split; [reflexivity|]. split; [reflexivity|]. split; [reflexivity|].
    split; [lia|]. destruct rest; reflexivity.
  - injection Hr as -> ->.
    apply matches_word in H as (ch & rest0 & -> & Hch & -> & -> & ->).
    destruct (IHmatches2 eq_refl) as (n & -> & -> & -> & Hn & Hw).
    exists (S n).
    split; [lia|]. split; [reflexivity|]. split; [reflexivity|].
    split; [cbn [String.length]; lia|].
    cbn [take_bytes word_string]. now rewrite Hch, Hw.
Qed.

Lemma matches_plus_word (pos : nat) (rest : string) (caps : captures)
    (pos' : nat) (rest' : string) (caps' : captures) :
  matches (plus word) pos rest caps pos' rest' caps' ->
  exists n,
    pos' = (pos + S n)%nat /\ rest' = drop_bytes (S n) rest /\ caps' = caps
    /\ (S n <= String.length rest)%nat
    /\ word_string (take_bytes (S n) rest) = true.
Proof.
  unfold plus. intros H. apply matches_Cat_inv in H as (p & q & c & Ha & Hb).
  apply matches_word in Ha as (ch & rest0 & -> & Hch & -> & -> & ->).
  apply matches_word_star in Hb as (n & -> & -> & -> & Hn & Hw).
  exists n.
  split; [lia|]. split; [reflexivity|]. split; [reflexivity|].
  split; [cbn [String.length]; lia|].
  cbn [take_bytes word_string]. now rewrite Hch, Hw.
Qed.

(** A closing parenthesis that is matched is in the text. *)
Lemma matches_rparen (text : string) (n : nat) (pos : nat) (caps : captures)
    (pos' : nat) (rest' : string) (caps' : captures) :
  matches (chr RPAREN) pos (drop_bytes n text) caps pos' rest' caps' ->
  Contains text ")" = true.
Proof.
  unfold chr. intros H.
  apply matches_Class_inv in H as (x & w & E & Hw & Hc & _).
  assert (Hx : x = RPAREN).
  { unfold class_has, one_of, in_range in Hc.
    cbn [negated ranges map existsb fst snd xorb] in Hc.
    rewrite orb_false_r in Hc. apply andb_prop in Hc as [H1 H2].
    apply Z.leb_le in H1. apply Z.leb_le in H2. lia. }
  subst x.
  assert (Hb : byte_at (drop_bytes n text) 0 = RPAREN).
  { apply (decode_ascii _ _ _ E); [unfold RPAREN; lia | exact Hw]. }
  eapply rparen_at. exact Hb.
Qed.

Lemma word_string_no_lparen (s : string) :
  word_string s = true -> Contains s "(" = false.
Proof.
  induction s as [|c s IH]; [reflexivity|]. cbn [word_string]. intros H.
  apply andb_prop in H as [Hc Hs]. rewrite Contains_char_cons, (IH Hs), orb_false_r.
  apply Ascii.eqb_neq. intros ->. vm_compute in Hc. discriminate Hc.
Qed.

Lemma take_nonempty (n : nat) (s : string) :
  (S n <= String.length s)%nat -> take_bytes (S n) s <> "".
Proof. destruct s; cbn; [lia | discriminate]. Qed.

End MatchProps.

(** ** The names and types that the parser captures *)

Module ColumnProps.

Import Utf8Props MatcherTerms RegexpProps TableBodyProps MatchTerms ColumnTerms
       StringProps MatchProps SchemaParser DDLTerms DDLProps.

(** The text left at a position is the text from that position on. *)
Lemma rest_step (text : string) (r : re) (pos : nat) (caps : captures)
    (pos' : nat) (rest' : string) (caps' : captures) :
  matches r pos (drop_bytes pos text) caps pos' rest' caps' ->
  rest' = drop_bytes pos' text.
Proof.
  intros H. apply matches_reach in H as (n & -> & _ & ->). apply drop_drop.
Qed.

Lemma matches_free_step (text : string) (r : re) (pos : nat) (caps : captures)
    (pos' : nat) (rest' : string) (caps' : captures) :
  cap_free r = true ->
  matches r pos (drop_bytes pos text) caps pos' rest' caps' ->
  rest' = drop_bytes pos' text /\ caps' = caps.
Proof.
  intros Hf H. split; [eapply rest_step; eassumption|].
  eapply matches_cap_free; eassumption.
Qed.

Lemma matches_quest_paren (text : string) (pos : nat)
    (caps : captures) (pos' : nat) (rest' : string) (caps' : captures) :
  Contains text ")" = false ->
  matches (quest (Cat (chr LPAREN) (Cat (plus not_rparen) (chr RPAREN))))
          pos (drop_bytes pos text) caps pos' rest' caps' ->
  pos' = pos /\ caps' = caps.
Proof.
  intros Hno H. unfold quest in H.
  apply matches_Alt_inv in H as [H|H].
  - exfalso.
    apply matches_Cat_inv in H as (p1 & r1 & c1 & H1 & H).
    apply rest_step in H1 as ->.
    apply matches_Cat_inv in H as (p2 & r2 & c2 & H2 & H).
    apply rest_step in H2 as ->.
    apply matches_rparen in H. rewrite H in Hno. discriminate Hno.
  - apply matches_Empty_inv in H as (-> & _ & ->). split; reflexivity.
Qed.

(** What the column pattern captures in a piece without a closing
    parenthesis: two non-empty words. *)
Lemma columnPattern_groups (line : string) (b e : nat) (caps : captures) :
  Contains line ")" = false ->
  search (prog columnPattern) O O line = Some (b, e, caps) ->
  let m := submatch_strings columnPattern line (b, e, caps) in
  word_string (sub m 1) = true /\ sub m 1 <> ""
  /\ word_string (sub m 2) = true /\ sub m 2 <> "".
Proof.
  intros Hno Hs. apply search_exec in Hs as (n & Hb & Hn & Hexec).
  unfold exec in Hexec. apply exec_sound in Hexec as (p' & r' & c' & Hm & Hfinal).
  unfold final in Hfinal. injection Hfinal as <- <-.
  cbn [columnPattern prog cat] in Hm.
  apply matches_Cat_inv in Hm as (p0 & r0 & c0 & H0 & Hm).
  assert (Hstart : p0 = O /\ r0 = drop_bytes O line /\ c0 = []).
  { inversion H0; subst.
    match goal with
    | Heq : O = (0 + n)%nat |- _ => cbn in Heq; subst n
    end.
    repeat split; reflexivity. }
  destruct Hstart as (-> & -> & ->). clear H0.
  apply matches_Cat_inv in Hm as (p1 & r1 & c1 & H1 & Hm).
  apply matches_free_step in H1 as [-> ->]; [|reflexivity].
  apply matches_Cat_inv in Hm as (p2 & r2 & c2 & H2 & Hm).
  apply matches_free_step in H2 as [-> ->]; [|reflexivity].
  apply matches_Cat_inv in Hm as (p3 & r3 & c3 & H3 & Hm).
  pose proof (rest_step _ _ _ _ _ _ _ H3) as ->.
  apply matches_Cap_inv in H3 as (c3' & H3 & ->).
  apply matches_plus_word in H3 as (n1 & -> & _ & -> & Hn1 & Hw1).
  apply matches_Cat_inv in Hm as (p4 & r4 & c4 & H4 & Hm).
  apply matches_free_step in H4 as [-> ->]; [|reflexivity].
  apply matches_Cat_inv in Hm as (p5 & r5 & c5 & H5 & Hm).
  apply matches_free_step in H5 as [-> ->]; [|reflexivity].
  apply matches_Cat_inv in Hm as (p6 & r6 & c6 & H6 & Hm).
  apply matches_Cap_inv in H6 as (c6' & H6 & ->).
  apply matches_Cat_inv in H6 as (q & rq & cq & Hword & Hparen).
  pose proof (rest_step _ _ _ _ _ _ _ Hword) as ->.
  apply matches_plus_word in Hword as (n2 & -> & _ & -> & Hn2 & Hw2).
  pose proof (rest_step _ _ _ _ _ _ _ Hparen) as ->.
  apply matches_quest_paren in Hparen as (-> & ->); [|exact Hno].
  apply matches_Cat_inv in Hm as (p7 & r7 & c7 & H7 & Hm).
  apply matches_free_step in H7 as [-> ->]; [|reflexivity].
  apply matches_Cat_inv in Hm as (p8 & r8 & c8 & H8 & Hm).
  apply matches_Cap_inv in H8 as (c8' & H8 & ->).
  apply matches_cap_free in H8; [|reflexivity]. subst c8'.
  inversion Hm; subst.
  cbv zeta. unfold submatch_strings, sub.
  cbn [NumSubexp columnPattern seq map nth cap_lookup Nat.eqb]. unfold slice_of.
  replace (p2 + S n1 - p2)%nat with (S n1) by lia.
  replace (p5 + S n2 - p5)%nat with (S n2) by lia.
  split; [exact Hw1|]. split; [now apply take_nonempty|].
  split; [exact Hw2|]. now apply take_nonempty.
Qed.

(** A rune of a class is at least one byte of the text. *)
Lemma matches_plus_Class (c : class) (pos : nat) (rest : string) (caps : captures)
    (pos' : nat) (rest' : string) (caps' : captures) :
  matches (plus (Class c)) pos rest caps pos' rest' caps' ->
  exists n, pos' = (pos + S n)%nat /\ (S n <= String.length rest)%nat /\ caps' = caps.
Proof.
  intros H. pose proof (matches_cap_free _ _ _ _ _ _ _ H eq_refl) as ->.
  unfold plus in H. apply matches_Cat_inv in H as (p & q & c1 & Ha & Hb).
  apply matches_Class_inv in Ha as (x & w & E & Hw & _ & -> & -> & _).
  pose proof (decode_width _ _ _ E) as Hwl.
  apply matches_reach in Hb as (n & -> & Hn & _). rewrite drop_length in Hn.
  exists (w + n - 1)%nat. split; [lia|]. split; [lia | reflexivity].
Qed.

(** The table pattern captures a non-empty name. *)
Lemma tablePattern_name (ddl : string) (m : list string) :
  In m (FindAllStringSubmatch tablePattern ddl) -> sub m 1 <> "".
Proof.
  unfold FindAllStringSubmatch. rewrite in_map_iff.
  intros ([[b e] caps] & <- & Hin).
  apply all_matches_exec in Hin.
  unfold exec in Hin. apply exec_sound in Hin as (p' & r' & c' & Hm & Hfinal).
  unfold final in Hfinal. injection Hfinal as <- <-.
  cbn [tablePattern prog cat] in Hm.
  apply matches_Cat_inv in Hm as (p1 & r1 & c1 & H1 & Hm).
  apply matches_free_step in H1 as [-> ->]; [|reflexivity].
  apply matches_Cat_inv in Hm as (p2 & r2 & c2 & H2 & Hm).
  apply matches_free_step in H2 as [-> ->]; [|reflexivity].
  apply matches_Cat_inv in Hm as (p3 & r3 & c3 & H3 & Hm).
  apply matches_free_step in H3 as [-> ->]; [|reflexivity].
  apply matches_Cat_inv in Hm as (p4 & r4 & c4 & H4 & Hm).
  apply matches_free_step in H4 as [-> ->]; [|reflexivity].
  apply matches_Cat_inv in Hm as (p5 & r5 & c5 & H5 & Hm).
  apply matches_free_step in H5 as [-> ->]; [|reflexivity].
  apply matches_Cat_inv in Hm as (p6 & r6 & c6 & H6 & Hm).
  apply matches_free_step in H6 as [-> ->]; [|reflexivity].
  apply matches_Cat_inv in Hm as (p7 & r7 & c7 & H7 & Hm).
  pose proof (rest_step _ _ _ _ _ _ _ H7) as ->.
  apply matches_Cap_inv in H7 as (c7' & H7 & ->).
  unfold word_i in H7.
  apply matches_plus_Class in H7 as (n1 & -> & Hn1 & ->).
  apply matches_Cat_inv in Hm as (p8 & r8 & c8 & H8 & Hm).
  apply matches_free_step in H8 as [-> ->]; [|reflexivity].
  apply matches_Cat_inv in Hm as (p9 & r9 & c9 & H9 & Hm).
  apply matches_free_step in H9 as [-> ->]; [|reflexivity].
  apply matches_Cat_inv in Hm as (p10 & r10 & c10 & H10 & Hm).
  apply matches_free_step in H10 as [-> ->]; [|reflexivity].
  apply matches_Cat_inv in Hm as (p11 & r11 & c11 & H11 & Hm).
  pose proof (rest_step _ _ _ _ _ _ _ H11) as ->.
  apply matches_Cap_inv in H11 as (c11' & H11 & ->).
  apply matches_cap_free in H11; [|reflexivity]. subst c11'.
  apply matches_cap_free in Hm; [|reflexivity]. subst c'.
  unfold submatch_strings, sub.
  cbn [NumSubexp tablePattern seq map nth cap_lookup Nat.eqb]. unfold slice_of.
  replace (p6 + S n1 - p6)%nat with (S n1) by lia.
  now apply take_nonempty.
Qed.

Lemma split_from_pieces (c : ascii) (sep : string) (s : string) :
  forall skip cur piece,
    Contains s (String c "") = false ->
    Contains cur (String c "") = false ->
    In piece (split_from sep skip cur s) ->
    Contains piece (String c "") = false.
Proof.
  induction s as [|x s IH]; intros skip cur piece Hs Hcur Hin.
  - destruct Hin as [<-|[]]. exact Hcur.
  - rewrite Contains_char_cons in Hs. apply orb_false_elim in Hs as [Hx Hs].
    cbn [split_from] in Hin. destruct skip as [|k].
    + destruct (HasPrefix (String x s) sep).
      * destruct Hin as [<-|Hin]; [exact Hcur|].
        exact (IH _ "" piece Hs eq_refl Hin).
      * eapply IH; [exact Hs | | exact Hin].
        rewrite Contains_char_app, Hcur, Contains_char_cons, Hx. reflexivity.
    + eapply IH; eassumption.
Qed.

Lemma parseColumns_line_words (columns : slice Column.t) (line : string) :
  Contains line ")" = false ->
  Forall plain_words (elems columns) ->
  Forall plain_words (elems (parseColumns_line columns line)).
Proof.
  intros Hno H. unfold parseColumns_line.
  destruct (is_constraint_line _); [exact H|].
  apply Contains_char_TrimSpace in Hno.
  unfold FindStringSubmatch.
  destruct (search (prog columnPattern) 0 0 (TrimSpace line))
    as [[[b e] caps]|] eqn:Hs; [|exact H].
  rewrite submatch_strings_length. cbn [NumSubexp columnPattern Nat.ltb Nat.leb].
  unfold append. cbn [elems]. apply Forall_app. split; [exact H|].
  constructor; [|constructor].
  exact (columnPattern_groups _ b e caps Hno Hs).
Qed.

Lemma parseColumns_words (columnsDef : string) (dbType : DBType) :
  Contains columnsDef ")" = false ->
  Forall plain_words (elems (parseColumns columnsDef dbType)).
Proof.
  intros Hno. unfold parseColumns.
  assert (Hpieces : forall piece, In piece (Split columnsDef ",") ->
                                  Contains piece ")" = false).
  { intros piece Hin. unfold Split in Hin.
    exact (split_from_pieces _ _ _ _ "" piece Hno eq_refl Hin). }
  revert Hpieces. generalize (Split columnsDef ",").
  assert (H : Forall plain_words (elems (@nil_slice Column.t))) by constructor.
  revert H. generalize (@nil_slice Column.t).
  intros columns H pieces. revert columns H.
  induction pieces as [|line pieces IH]; intros columns H Hp; [exact H|].
  cbn [fold_left]. apply IH.
  - apply parseColumns_line_words; [apply Hp; left; reflexivity | exact H].
  - intros piece Hin. apply Hp. right. exact Hin.
Qed.

(** X2: whatever the text, every table that [ParseDDL] returns has a
    non-empty name, and every column of it a non-empty name and type made
    of the bytes of [[0-9A-Za-z_]] only: a type never keeps a parenthesised
    parameter. *)
Theorem ParseDDL_plain_words (ddl : string) (dbType : DBType) (schema : Schema.t)
    (t : Table.t) :
  ParseDDL ddl dbType = Ok schema ->
  In t (elems (Schema.Tables schema)) ->
  Table.Name t <> ""
  /\ forall c, In c (elems (Table.Columns t)) ->
       word_string (Column.Name c) = true /\ Column.Name c <> ""
       /\ word_string (Column.Type_ c) = true /\ Column.Type_ c <> ""
       /\ Contains (Column.Type_ c) "(" = false.
Proof.
  intros E Hin.
  destruct (ParserProps.ParseDDL_table_origin ddl dbType schema t E Hin)
    as (m & Hm & (Hn & Hc & _)).
  rewrite Hn, Hc. unfold table_of_match. cbn [Table.Name Table.Columns].
  split; [exact (tablePattern_name ddl m Hm)|].
  intros c Hcin.
  pose proof (parseColumns_words (sub m 2) dbType (table_body_no_rparen ddl m Hm)) as H.
  rewrite List.Forall_forall in H. destruct (H c Hcin) as (H1 & H2 & H3 & H4).
  repeat split; try assumption. now apply word_string_no_lparen.
Qed.

Lemma ParseDDL_plain_words_witness :
  let b := Table.mk "b" (lit [plain_column "x" "INT"; plain_column "y" "DECIMAL"])
                    nil_slice nil_slice nil_slice in
  Table.Name b <> ""
  /\ forall c, In c (elems (Table.Columns b)) ->
       word_string (Column.Name c) = true /\ Column.Name c <> ""
       /\ word_string (Column.Type_ c) = true /\ Column.Type_ c <> ""
       /\ Contains (Column.Type_ c) "(" = false.
Proof.
  intros b.
  apply (ParseDDL_plain_words Examples.ddl_decimal MySQL (Schema.mk "" (lit [b]) MySQL) b).
  - vm_compute. reflexivity.
  - left. reflexivity.
Defined.

End ColumnProps.

(** ** Column definitions that the loop reads as written *)

Module ShapedProps.

Import Utf8Props MatcherTerms RegexpProps TableBodyProps MatchTerms ColumnTerms
       StringProps MatchProps SchemaParser DDLTerms DDLProps.

Lemma decode_byte (ch : ascii) (rest : string) :
  byte_val ch < 128 -> DecodeRuneInString (String ch rest) = (byte_val ch, 1%nat).
Proof.
  intros H. unfold DecodeRuneInString. cbn [byte_at].
  assert (H0 : 0 <= byte_val ch) by (unfold byte_val; lia).
  destruct (Z.ltb_spec (byte_val ch) 0) as [|_]; [lia|].
  unfold RuneSelf. destruct (Z.ltb_spec (byte_val ch) 128) as [_|]; [reflexivity | lia].
Qed.

(** *** One step of a run *)

Section Run.

Variable slack : nat.

Lemma run_Class_hit (k : continuation) (c : class) (pos : nat) (ch : ascii) (rest : string)
    (caps : captures) :
  (byte_val ch <? 128) && class_has c (byte_val ch) = true ->
  exec_with slack (Class c) pos (String ch rest) caps k = k (S pos) rest caps.
Proof.
  intros H. apply andb_prop in H as [Hb Hc]. apply Z.ltb_lt in Hb.
  cbn [exec_with]. rewrite (decode_byte ch rest Hb), Hc. cbn [Nat.eqb drop_bytes].
  rewrite Nat.add_1_r. reflexivity.
Qed.

Lemma run_Class_miss (k : continuation) (c : class) (pos : nat) (rest : string) (caps : captures) :
  stops c rest = true ->
  exec_with slack (Class c) pos rest caps k = None.
Proof.
  unfold stops. cbn [exec_with]. destruct (DecodeRuneInString rest) as [x w].
  destruct (Nat.eqb w 0); [reflexivity|]. cbn [orb].
  destruct (class_has c x); [discriminate | reflexivity].
Qed.

Lemma star_loop_run (k : continuation) (res : nat * captures) (c : class) (rest : string) (caps : captures) :
  stops c rest = true ->
  forall run fuel pos,
    ascii_run c run = true ->
    (String.length run < fuel)%nat ->
    k (pos + String.length run)%nat rest caps = Some res ->
    star_loop (exec_with slack (Class c)) true k fuel pos (run +:+ rest) caps
    = Some res.
Proof.
  intros Hstop. induction run as [|ch run IH]; intros fuel pos Hrun Hfuel Hk.
  - destruct fuel as [|fuel]; [cbn in Hfuel; lia|].
    rewrite append_nil_l. cbn [star_loop].
    rewrite run_Class_miss by exact Hstop. cbn [or_else].
    cbn [String.length] in Hk. rewrite Nat.add_0_r in Hk. exact Hk.
  - destruct fuel as [|fuel]; [cbn in Hfuel; lia|].
    cbn [ascii_run] in Hrun. apply andb_prop in Hrun as [Hch Hrun].
    rewrite append_cons. cbn [star_loop].
    rewrite run_Class_hit by exact Hch.
    destruct (Nat.ltb_spec pos (S pos)) as [_|]; [|lia].
    rewrite (IH fuel (S pos) Hrun); [reflexivity | cbn [String.length] in Hfuel; lia |].
    cbn [String.length] in Hk.
    replace (S pos + String.length run)%nat with (pos + S (String.length run))%nat by lia.
    exact Hk.
Qed.

Lemma length_append (a b : string) :
  String.length (a +:+ b) = (String.length a + String.length b)%nat.
Proof.
  induction a as [|x a IH]; [reflexivity|].
  rewrite append_cons. cbn [String.length]. now rewrite IH.
Qed.

Lemma run_star (k : continuation) (res : nat * captures) (c : class) (run rest : string) (pos : nat) (caps : captures) :
  ascii_run c run = true ->
  stops c rest = true ->
  k (pos + String.length run)%nat rest caps = Some res ->
  exec_with slack (star (Class c)) pos (run +:+ rest) caps k = Some res.
Proof.
  intros Hrun Hstop Hk. unfold star. cbn [exec_with].
  apply star_loop_run; try assumption. rewrite length_append. lia.
Qed.

Lemma run_star_none (k : continuation) (res : nat * captures) (c : class) (rest : string) (pos : nat) (caps : captures) :
  stops c rest = true ->
  k pos rest caps = Some res ->
  exec_with slack (star (Class c)) pos rest caps k = Some res.
Proof.
  intros Hstop Hk. apply (run_star k res c "" rest pos caps eq_refl Hstop).
  cbn [String.length]. rewrite Nat.add_0_r. exact Hk.
Qed.

Lemma run_quest_miss (k : continuation) (res : nat * captures) (c : class) (rest : string) (pos : nat) (caps : captures) :
  stops c rest = true ->
  k pos rest caps = Some res ->
  exec_with slack (quest (Class c)) pos rest caps k = Some res.
Proof.
  intros Hstop Hk. unfold quest. cbn [exec_with].
  change (or_else (exec_with slack (Class c) pos rest caps k) (k pos rest caps) = Some res).
  rewrite run_Class_miss by exact Hstop. exact Hk.
Qed.

Lemma run_quest_Cat_miss (k : continuation) (res : nat * captures) (c : class) (a : re) (rest : string) (pos : nat)
    (caps : captures) :
  stops c rest = true ->
  k pos rest caps = Some res ->
  exec_with slack (quest (Cat (Class c) a)) pos rest caps k = Some res.
Proof.
  intros Hstop Hk. unfold quest.
  change (or_else (exec_with slack (Class c) pos rest caps
                     (fun p r cs => exec_with slack a p r cs k))
                  (k pos rest caps) = Some res).
  rewrite run_Class_miss by exact Hstop. exact Hk.
Qed.

Lemma run_EndText (k : continuation) (res : nat * captures) (pos : nat) (caps : captures) :
  k pos "" caps = Some res ->
  exec_with slack EndText pos "" caps k = Some res.
Proof. intros H. exact H. Qed.

Lemma run_plus (k : continuation) (res : nat * captures)
    (c : class) (run rest : string) (pos : nat) (caps : captures) :
  ascii_run c run = true ->
  run <> "" ->
  stops c rest = true ->
  k (pos + String.length run)%nat rest caps = Some res ->
  exec_with slack (plus (Class c)) pos (run +:+ rest) caps k = Some res.
Proof.
  intros Hrun Hne Hstop Hk. destruct run as [|ch run]; [now destruct Hne|].
  cbn [ascii_run] in Hrun. apply andb_prop in Hrun as [Hch Hrun].
  unfold plus. rewrite append_cons.
  change (exec_with slack (Class c) pos (String ch (run +:+ rest)) caps
            (fun p r cs => exec_with slack (star (Class c)) p r cs k) = Some res).
  rewrite run_Class_hit by exact Hch.
  apply run_star; try assumption.
  cbn [String.length] in Hk.
  replace (S pos + String.length run)%nat with (pos + S (String.length run))%nat by lia.
  exact Hk.
Qed.

End Run.

Lemma Contains_LF_head (s : string) :
  byte_at s 0 = 10 -> Contains s LF = true.
Proof.
  destruct s as [|ch s]; cbn [byte_at]; [lia|]. intros H.
  unfold LF. rewrite Contains_char_cons.
  replace ch with (ascii_of_nat 10); [reflexivity|].
  apply byte_val_inj. rewrite H. reflexivity.
Qed.

(** A greedy run of [.] takes a text without a newline to its end. *)
Lemma star_loop_dot (slack : nat) (k : continuation) (res : nat * captures)
    (caps : captures) :
  forall n tail fuel pos,
    (String.length tail <= n)%nat ->
    (String.length tail < fuel)%nat ->
    Contains tail LF = false ->
    k (pos + String.length tail)%nat "" caps = Some res ->
    star_loop (exec_with slack dot) true k fuel pos tail caps = Some res.
Proof.
  induction n as [|n IH]; intros tail fuel pos Hn Hfuel Hno Hk.
  - destruct tail; [|cbn in Hn; lia]. destruct fuel; [cbn in Hfuel; lia|].
    cbn [String.length] in Hk. rewrite Nat.add_0_r in Hk.
    cbn. exact Hk.
  - destruct fuel as [|fuel]; [lia|].
    destruct tail as [|ch tail].
    { cbn [String.length] in Hk. rewrite Nat.add_0_r in Hk. cbn. exact Hk. }
    cbn [star_loop]. unfold dot at 1. cbn [exec_with].
    destruct (DecodeRuneInString (String ch tail)) as [x w] eqn:E.
    pose proof (decode_width_pos _ _ _ _ E) as Hw.
    pose proof (decode_width _ _ _ E) as Hwl.
    destruct (Nat.eqb_spec w 0) as [|_]; [contradiction|].
    assert (Hx : class_has (none_of [(10, 10)]) x = true).
    { unfold class_has, none_of, in_range. cbn [negated ranges existsb fst snd].
      rewrite orb_false_r.
      destruct (Z.leb_spec 10 x), (Z.leb_spec x 10); try reflexivity.
      exfalso. assert (x = 10) by lia. subst x.
      pose proof (decode_ascii _ _ _ E ltac:(lia) Hw) as Hb.
      apply Contains_LF_head in Hb. rewrite Hb in Hno. discriminate Hno. }
    rewrite Hx.
    destruct (Nat.ltb_spec pos (pos + w)) as [_|]; [|lia].
    rewrite (IH (drop_bytes w (String ch tail)) fuel (pos + w)%nat); [reflexivity|..].
    + rewrite drop_length. cbn [String.length] in *. lia.
    + rewrite drop_length. cbn [String.length] in *. lia.
    + unfold LF. apply Contains_char_drop. exact Hno.
    + rewrite drop_length.
      replace (pos + w + (String.length (String ch tail) - w))%nat
        with (pos + String.length (String ch tail))%nat by lia.
      exact Hk.
Qed.

Lemma run_star_dot (slack : nat) (k : continuation) (res : nat * captures)
    (tail : string) (pos : nat) (caps : captures) :
  Contains tail LF = false ->
  k (pos + String.length tail)%nat "" caps = Some res ->
  exec_with slack (star dot) pos tail caps k = Some res.
Proof.
  intros Hno Hk. unfold star. cbn [exec_with].
  apply (star_loop_dot slack k res caps (String.length tail)); try assumption; lia.
Qed.

Lemma search_hit (r : re) (pos : nat) (rest : string) (e : nat) (caps : captures) :
  exec r pos rest [] final = Some (e, caps) ->
  search r O pos rest = Some (pos, e, caps).
Proof.
  intros H. unfold final in H. destruct rest; cbn [search]; rewrite H; reflexivity.
Qed.

(** *** Bytes and classes *)

Lemma word_byte_run (s : string) : word_string s = true -> ascii_run word_class s = true.
Proof.
  induction s as [|ch s IH]; [reflexivity|]. cbn [word_string ascii_run]. intros H.
  apply andb_prop in H as [Hch Hs]. rewrite (IH Hs), andb_true_r.
  unfold word_byte in Hch. unfold word_class. rewrite Hch, andb_true_r.
  apply Z.ltb_lt. now apply word_rune.
Qed.

(** A text that starts with an ASCII byte outside the class, or is empty. *)
Lemma stops_byte (c : class) (ch : ascii) (rest : string) :
  byte_val ch < 128 -> class_has c (byte_val ch) = false ->
  stops c (String ch rest) = true.
Proof.
  intros Hb Hc. unfold stops. rewrite (decode_byte ch rest Hb), Hc. reflexivity.
Qed.

Lemma disjoint_spec (c c' : class) (ch : ascii) :
  disjoint c c' = true ->
  byte_val ch < 128 ->
  class_has c (byte_val ch) = true ->
  class_has c' (byte_val ch) = false.
Proof.
  unfold disjoint. intros H Hb Hc. rewrite forallb_forall in H.
  assert (H0 : 0 <= byte_val ch) by (unfold byte_val; lia).
  specialize (H (Z.to_nat (byte_val ch))). rewrite Z2Nat.id in H by exact H0.
  rewrite Hc in H. cbn [andb] in H. apply negb_true_iff. apply H.
  apply in_seq. lia.
Qed.

(** A run of one class in front of a text stops any class disjoint from
    it. *)
Lemma stops_run (c c' : class) (run rest : string) :
  ascii_run c run = true -> run <> "" -> disjoint c c' = true ->
  stops c' (run +:+ rest) = true.
Proof.
  destruct run as [|ch run']; [intros _ H; now destruct H|]. cbn [ascii_run].
  intros H _ Hd. apply andb_prop in H as [H _]. apply andb_prop in H as [Hb Hc].
  apply Z.ltb_lt in Hb. rewrite append_cons.
  apply stops_byte; [exact Hb | exact (disjoint_spec c c' ch Hd Hb Hc)].
Qed.

Lemma stops_app (c c' : class) (run rest : string) :
  ascii_run c run = true -> disjoint c c' = true ->
  stops c' rest = true ->
  stops c' (run +:+ rest) = true.
Proof.
  intros Hrun Hd Hrest. destruct run as [|ch run'] eqn:E; [exact Hrest|].
  rewrite <- E in *. apply (stops_run c c'); [exact Hrun | now rewrite E | exact Hd].
Qed.

Lemma optional_run (c : class) (q : string) :
  optional c q = true -> ascii_run c q = true.
Proof.
  destruct q as [|ch [|]]; [reflexivity | | discriminate].
  cbn [optional ascii_run]. intros ->. reflexivity.
Qed.

(** *** The column pattern on a definition of the expected shape *)

Lemma run_Cat (slack : nat) (k : continuation) (res : nat * captures) (a b : re)
    (pos : nat) (rest : string) (caps : captures) :
  exec_with slack a pos rest caps (fun p r c => exec_with slack b p r c k) = Some res ->
  exec_with slack (Cat a b) pos rest caps k = Some res.
Proof. intros H. exact H. Qed.

Lemma run_Cap (slack : nat) (k : continuation) (res : nat * captures) (n : nat)
    (a : re) (pos : nat) (rest : string) (caps : captures) :
  exec_with slack a pos rest caps (fun p r c => k p r ((n, (pos, p)) :: c)) = Some res ->
  exec_with slack (Cap n a) pos rest caps k = Some res.
Proof. intros H. exact H. Qed.

Lemma run_BeginText (slack : nat) (k : continuation) (res : nat * captures)
    (rest : string) (caps : captures) :
  k O rest caps = Some res ->
  exec_with slack BeginText O rest caps k = Some res.
Proof. intros H. exact H. Qed.

(** An optional quoting character, present or not. *)
Lemma run_quest_optional (slack : nat) (k : continuation) (res : nat * captures)
    (c : class) (q rest : string) (pos : nat) (caps : captures) :
  optional c q = true ->
  (q = "" -> stops c rest = true) ->
  k (pos + String.length q)%nat rest caps = Some res ->
  exec_with slack (quest (Class c)) pos (q +:+ rest) caps k = Some res.
Proof.
  intros Hq Hstop Hk. destruct q as [|ch [|]]; [| |discriminate Hq].
  - rewrite append_nil_l. apply run_quest_miss; [now apply Hstop|].
    cbn [String.length] in Hk. rewrite Nat.add_0_r in Hk. exact Hk.
  - cbn [optional] in Hq. unfold quest.
    change (or_else (exec_with slack (Class c) pos (String ch rest) caps k)
                    (k pos (String ch rest) caps) = Some res).
    rewrite run_Class_hit by exact Hq.
    cbn [String.length] in Hk. rewrite Nat.add_1_r in Hk. rewrite Hk. reflexivity.
Qed.

Lemma take_all (s : string) : take_bytes (String.length s) s = s.
Proof.
  rewrite <- (append_nil_r s) at 2. apply take_app_exact.
Qed.

Lemma drop_app_add (a b : string) (n : nat) :
  drop_bytes (String.length a + n) (a +:+ b) = drop_bytes n b.
Proof. rewrite <- drop_drop, drop_app_exact. reflexivity. Qed.

Lemma columnPattern_shaped (oq name cq gap type pad tail : string) :
  optional open_class oq = true ->
  word_string name = true -> name <> "" ->
  optional close_class cq = true ->
  ascii_run ws_class gap = true -> gap <> "" ->
  word_string type = true -> type <> "" ->
  ascii_run ws_class pad = true ->
  (pad = "" -> tail = "") ->
  stops ws_class tail = true ->
  Contains tail LF = false ->
  FindStringSubmatch columnPattern
    (oq +:+ name +:+ cq +:+ gap +:+ type +:+ pad +:+ tail)
  = [oq +:+ name +:+ cq +:+ gap +:+ type +:+ pad +:+ tail; name; type; tail].
Proof.
  intros Hoq Hname Hname0 Hcq Hgap Hgap0 Htype Htype0 Hpad Hpad0 Htail HnoLF.
  pose proof (word_byte_run name Hname) as Rname.
  pose proof (word_byte_run type Htype) as Rtype.
  assert (Safter : forall c, disjoint ws_class c = true -> stops c (pad +:+ tail) = true).
  { intros c Hc. destruct pad as [|ch pad'] eqn:Epad.
    - rewrite (Hpad0 eq_refl). reflexivity.
    - apply (stops_run ws_class c); [exact Hpad | discriminate | exact Hc]. }
  set (line := oq +:+ name +:+ cq +:+ gap +:+ type +:+ pad +:+ tail).
  set (p0 := (0 + String.length oq)%nat).
  set (p1 := (p0 + String.length name)%nat).
  set (pc := (p1 + String.length cq)%nat).
  set (p2 := (pc + String.length gap)%nat).
  set (p3 := (p2 + String.length type)%nat).
  set (p4 := (p3 + String.length pad)%nat).
  set (e := (p4 + String.length tail)%nat).
  assert (Hexec : exec (prog columnPattern) O line [] final
                  = Some (e, [(3%nat, (p4, e)); (2%nat, (p2, p3)); (1%nat, (p0, p1))])).
  { unfold exec. cbn [columnPattern prog cat].
    apply run_Cat, run_BeginText. cbv beta.
    apply run_Cat, (run_star_none _ _ _ ws_class).
    { apply (stops_app open_class); [now apply optional_run | reflexivity |].
      apply (stops_run word_class); [exact Rname | exact Hname0 | reflexivity]. }
    cbv beta.
    apply run_Cat. unfold open_quote.
    apply (run_quest_optional _ _ _ open_class oq); [exact Hoq | |].
    { intros _. apply (stops_run word_class); [exact Rname | exact Hname0 | reflexivity]. }
    cbv beta. fold p0.
    apply run_Cat, run_Cap. unfold word at 1.
    apply (run_plus _ _ _ word_class name); [exact Rname | exact Hname0 | |].
    { apply (stops_app close_class); [now apply optional_run | reflexivity |].
      apply (stops_run ws_class); [exact Hgap | exact Hgap0 | reflexivity]. }
    cbv beta. fold p1.
    apply run_Cat. unfold close_quote.
    apply (run_quest_optional _ _ _ close_class cq); [exact Hcq | |].
    { intros _. apply (stops_run ws_class); [exact Hgap | exact Hgap0 | reflexivity]. }
    cbv beta. fold pc.
    apply run_Cat. unfold ws at 1.
    apply (run_plus _ _ _ ws_class gap); [exact Hgap | exact Hgap0 | |].
    { apply (stops_run word_class); [exact Rtype | exact Htype0 | reflexivity]. }
    cbv beta. fold p2.
    apply run_Cat, run_Cap, run_Cat. unfold word at 1.
    apply (run_plus _ _ _ word_class type); [exact Rtype | exact Htype0 | |].
    { apply Safter. reflexivity. }
    cbv beta. fold p3.
    unfold chr at 1. apply run_quest_Cat_miss.
    { apply Safter. reflexivity. }
    cbv beta.
    apply run_Cat. unfold ws at 1.
    apply (run_star _ _ _ ws_class pad tail); [exact Hpad | exact Htail |].
    cbv beta. fold p4.
    apply run_Cat, run_Cap, run_star_dot; [exact HnoLF|].
    cbv beta. fold e.
    apply run_EndText. reflexivity. }
  unfold FindStringSubmatch. rewrite (search_hit _ _ _ _ _ Hexec).
  unfold submatch_strings.
  cbn [NumSubexp columnPattern seq map cap_lookup Nat.eqb]. unfold slice_of.
  assert (He : e = String.length line).
  { unfold e, p4, p3, p2, pc, p1, p0, line. rewrite !length_append. lia. }
  replace (e - 0)%nat with (String.length line) by lia.
  replace (p1 - p0)%nat with (String.length name) by (unfold p1; lia).
  replace (p3 - p2)%nat with (String.length type) by (unfold p3; lia).
  replace (e - p4)%nat with (String.length tail) by (unfold e; lia).
  cbn [drop_bytes]. rewrite take_all.
  assert (H0 : drop_bytes p0 line = name +:+ cq +:+ gap +:+ type +:+ pad +:+ tail).
  { unfold p0, line. cbn [Nat.add].
    rewrite <- (Nat.add_0_r (String.length oq)). rewrite drop_app_add. reflexivity. }
  assert (H2 : drop_bytes p2 line = type +:+ pad +:+ tail).
  { unfold p2, pc, p1.
    rewrite <- !Nat.add_assoc, <- drop_drop, H0, drop_app_add, drop_app_add.
    rewrite <- (Nat.add_0_r (String.length gap)). rewrite drop_app_add. reflexivity. }
  assert (H4 : drop_bytes p4 line = tail).
  { unfold p4, p3. rewrite <- Nat.add_assoc, <- drop_drop, H2.
    rewrite drop_app_add. rewrite <- (Nat.add_0_r (String.length pad)) at 1.
    rewrite drop_app_add. reflexivity. }
  rewrite H0, H2, H4. rewrite !take_app_exact, take_all. reflexivity.
Qed.

(** The loop body on a definition of the expected shape. *)
Lemma parseColumns_line_shaped (columns : slice Column.t) (t : column_text) :
  shaped t ->
  parseColumns_line columns (text_of t) = append columns (column_of t).
Proof.
  intros (Htrim & Hcon & _ & H0 & H1 & H2 & Hc & H3 & H4 & H5 & H6 & H7 & H8 & H9 & H10).
  unfold parseColumns_line. rewrite Htrim, Hcon. unfold core_of.
  rewrite (columnPattern_shaped _ _ _ _ _ _ _ H0 H1 H2 Hc H3 H4 H5 H6 H7 H8 H9 H10).
  reflexivity.
Qed.

Lemma Join_cons (x y : string) (rest : list string) (sep : string) :
  Join (x :: y :: rest) sep = x +:+ sep +:+ Join (y :: rest) sep.
Proof. reflexivity. Qed.

(** Pieces without a comma are what splitting their join at the commas
    gives back. *)
Lemma Split_Join (pieces : list string) :
  pieces <> [] ->
  Forall (fun piece => Contains piece "," = false) pieces ->
  Split (Join pieces ",") "," = pieces.
Proof.
  intros Hne H. induction H as [|x rest Hx Hrest IH]; [now destruct Hne|].
  destruct rest as [|y rest].
  - cbn [Join]. unfold Split. rewrite split_from_no_sep by exact Hx. reflexivity.
  - rewrite Join_cons. unfold Split.
    change ("," +:+ Join (y :: rest) ",") with (String "," (Join (y :: rest) ",")).
    rewrite split_from_char_app, split_from_no_sep by exact Hx.
    unfold Split in IH. rewrite IH by discriminate. reflexivity.
Qed.

Lemma parseColumns_fold_shaped (cols : list column_text) :
  Forall shaped cols ->
  forall columns,
    fold_left parseColumns_line (map text_of cols) columns
    = match cols with
      | [] => columns
      | _ => lit (elems columns ++ map column_of cols)
      end.
Proof.
  induction 1 as [|t cols Ht Hcols IH]; intros columns; [reflexivity|].
  cbn [map fold_left]. rewrite parseColumns_line_shaped by exact Ht. rewrite IH.
  unfold append, lit. cbn [elems].
  destruct cols; cbn [map]; rewrite <- ?app_assoc; reflexivity.
Qed.

(** X3: a body made of column definitions of the plain shape (name,
    possibly quoted, white space, type without parameters, and possibly
    white space and constraints, with white space around the definition),
    separated by commas, parses to exactly these columns, in order: name
    and type as written, the flags decided by the words of the
    constraints. *)
Theorem parseColumns_shaped (cols : list column_text) (dbType : DBType) :
  cols <> [] ->
  Forall shaped cols ->
  parseColumns (Join (map text_of cols) ",") dbType = lit (map column_of cols).
Proof.
  intros Hne Hall. unfold parseColumns.
  rewrite Split_Join.
  - rewrite (parseColumns_fold_shaped cols Hall). destruct cols; [now destruct Hne|].
    reflexivity.
  - destruct cols; [now destruct Hne | discriminate].
  - rewrite List.Forall_forall in *. intros piece Hin. apply in_map_iff in Hin.
    destruct Hin as (t & <- & Ht). apply (Hall t Ht).
Qed.

Lemma parseColumns_shaped_witness :
  parseColumns
    ("id INT NOT NULL AUTO_INCREMENT," +:+ LF +:+ "  `email` TEXT DEFAULT 'x' UNIQUE"
     +:+ LF)
    MySQL
  = lit [Column.mk "id" "INT" false "" "" false false false true;
         Column.mk "email" "TEXT" true "'x'" "" false false true false].
Proof.
  apply (parseColumns_shaped
           [mk_column_text "" "" "id" "" " " "INT" " " "NOT NULL AUTO_INCREMENT" "";
            mk_column_text (LF +:+ "  ") "`" "email" "`" " " "TEXT" " "
              "DEFAULT 'x' UNIQUE" LF]
           MySQL).
  - discriminate.
  - repeat constructor; try reflexivity; try discriminate.
Defined.

End ShapedProps.

(** ** Scripts of table definitions of the plain shape *)

Module ScriptProps.

Import Utf8Props MatcherTerms RegexpProps TableBodyProps MatchTerms ColumnTerms
       ScriptTerms StringProps MatchProps ShapedProps SchemaParser DDLTerms DDLProps.

(** *** Keywords *)

(** A byte that upper-cases to a letter is that letter in one of its two
    cases. *)
Lemma spelled_byte (c t : ascii) :
  Ascii.eqb (upper_byte c) t = true ->
  in_range 65 90 (byte_val t) = true ->
  (byte_val c <? 128) && class_has (one_of (fold_orbit (byte_val t))) (byte_val c) = true
  /\ (byte_val c <? 128) && class_has word_class (byte_val c) = true.
Proof.
  intros H Ht. apply Ascii.eqb_eq in H. subst t.
  destruct c as [[] [] [] [] [] [] [] []]; vm_compute in Ht;
    first [discriminate Ht | split; vm_compute; reflexivity].
Qed.

Lemma spells_word (target : string) :
  forall kw,
    spells target kw = true -> upper_word target = true ->
    ascii_run word_class kw = true /\ (target <> "" -> kw <> "").
Proof.
  induction target as [|t target IH]; intros [|c kw] H Hup; try discriminate H.
  - split; [reflexivity | intros E; now destruct E].
  - cbn [spells] in H. cbn [upper_word] in Hup.
    apply andb_prop in H as [Hc H]. apply andb_prop in Hup as [Ht Hup].
    destruct (spelled_byte c t Hc Ht) as [_ Hw].
    destruct (IH kw H Hup) as [Hrun _].
    split; [|discriminate]. cbn [ascii_run]. rewrite Hw, Hrun. reflexivity.
Qed.

(** The literal [target] under [(?i)] takes a spelling of it. *)
Lemma run_spelled (slack : nat) (k : continuation) (rest : string) (caps : captures)
    (target : string) :
  forall kw pos,
    spells target kw = true -> upper_word target = true ->
    exec_with slack
      (cat (map (fun ch => chr_i (byte_val ch)) (list_ascii_of_string target)))
      pos (kw +:+ rest) caps k
    = k (pos + String.length kw)%nat rest caps.
Proof.
  induction target as [|t target IH]; intros [|c kw] pos H Hup; try discriminate H.
  - rewrite append_nil_l. cbn [String.length]. rewrite Nat.add_0_r. reflexivity.
  - cbn [spells] in H. cbn [upper_word] in Hup.
    apply andb_prop in H as [Hc H]. apply andb_prop in Hup as [Ht Hup].
    destruct (spelled_byte c t Hc Ht) as [Hhit _].
    rewrite append_cons. cbn [list_ascii_of_string map String.length].
    destruct target as [|t' target].
    + destruct kw; [|discriminate H]. rewrite append_nil_l.
      cbn [list_ascii_of_string map cat]. unfold chr_i.
      rewrite run_Class_hit by exact Hhit. rewrite Nat.add_1_r. reflexivity.
    + specialize (IH kw (S pos) H Hup).
      cbn [list_ascii_of_string map] in IH |- *.
      change (exec_with slack (chr_i (byte_val t)) pos (String c (kw +:+ rest)) caps
                (fun p r cs =>
                   exec_with slack
                     (cat (chr_i (byte_val t')
                           :: map (fun ch => chr_i (byte_val ch)) (list_ascii_of_string target)))
                     p r cs k)
              = k (pos + S (String.length kw))%nat rest caps).
      unfold chr_i at 1. rewrite run_Class_hit by exact Hhit.
      rewrite IH. f_equal. lia.
Qed.

Lemma run_CREATE (slack : nat) (k : continuation) (kw rest : string) (pos : nat)
    (caps : captures) :
  spells "CREATE" kw = true ->
  exec_with slack (str_i "CREATE") pos (kw +:+ rest) caps k
  = k (pos + String.length kw)%nat rest caps.
Proof. intros H. exact (run_spelled slack k rest caps "CREATE" kw pos H eq_refl). Qed.

Lemma run_TABLE (slack : nat) (k : continuation) (kw rest : string) (pos : nat)
    (caps : captures) :
  spells "TABLE" kw = true ->
  exec_with slack (str_i "TABLE") pos (kw +:+ rest) caps k
  = k (pos + String.length kw)%nat rest caps.
Proof. intros H. exact (run_spelled slack k rest caps "TABLE" kw pos H eq_refl). Qed.

(** *** Bytes that a class takes or refuses *)

Lemma hit_stops (c : class) (ch : ascii) (rest : string) :
  (byte_val ch <? 128) && class_has c (byte_val ch) = true ->
  stops c (String ch rest) = false.
Proof.
  intros H. apply andb_prop in H as [Hb Hc]. apply Z.ltb_lt in Hb.
  unfold stops. rewrite (decode_byte ch rest Hb), Hc. reflexivity.
Qed.

Lemma hit_clash (c c' : class) (ch : ascii) :
  disjoint c c' = true ->
  (byte_val ch <? 128) && class_has c (byte_val ch) = true ->
  (byte_val ch <? 128) && class_has c' (byte_val ch) = true ->
  False.
Proof.
  intros Hd H H'. apply andb_prop in H as [Hb Hc]. apply andb_prop in H' as [_ Hc'].
  apply Z.ltb_lt in Hb. rewrite (disjoint_spec c c' ch Hd Hb Hc) in Hc'. discriminate Hc'.
Qed.

Lemma word_byte_hit (ch : ascii) :
  word_byte ch = true ->
  (byte_val ch <? 128) && class_has word_class (byte_val ch) = true.
Proof.
  intros H. pose proof (word_byte_run (String ch "")) as Hrun.
  cbn [word_string ascii_run] in Hrun. rewrite H in Hrun.
  specialize (Hrun eq_refl). rewrite andb_true_r in Hrun. exact Hrun.
Qed.

(** What follows a table name stops every class that holds neither a
    closing quote, nor white space, nor the opening parenthesis. *)
Lemma after_name_stops (c : class) (cq g3 R : string) :
  optional close_class cq = true ->
  ascii_run ws_class g3 = true ->
  disjoint close_class c = true ->
  disjoint ws_class c = true ->
  class_has c LPAREN = false ->
  stops c (cq +:+ g3 +:+ "(" +:+ R) = true.
Proof.
  intros Hcq Hg3 Hd1 Hd2 Hp.
  apply (stops_app close_class); [now apply optional_run | exact Hd1 |].
  apply (stops_app ws_class); [exact Hg3 | exact Hd2 |].
  rewrite append_cons, append_nil_l. apply stops_byte; [reflexivity | exact Hp].
Qed.

(** A rune of a class of ASCII runes is one byte of the text. *)
Lemma matches_ascii_Class (c : class) (pos : nat) (rest : string) (caps : captures)
    (pos' : nat) (rest' : string) (caps' : captures) :
  (forall x, class_has c x = true -> x < 128) ->
  matches (Class c) pos rest caps pos' rest' caps' ->
  exists ch,
    rest = String ch rest'
    /\ (byte_val ch <? 128) && class_has c (byte_val ch) = true
    /\ pos' = S pos /\ caps' = caps.
Proof.
  intros Hascii H.
  apply matches_Class_inv in H as (x & w & E & Hw & Hc & -> & -> & ->).
  destruct (ascii_rune _ _ _ E Hw (Hascii _ Hc)) as (ch & rest0 & -> & Hb & ->).
  exists ch. cbn [drop_bytes]. rewrite Hb, Hc.
  split; [reflexivity|]. split; [|split; [lia | reflexivity]].
  rewrite andb_true_r. apply Z.ltb_lt. exact (Hascii _ Hc).
Qed.

(** A repetition of such a class stays inside a run of the class that
    ends where the class stops. *)
Lemma matches_star_run (c : class) (greedy : bool) (pos : nat) (text : string)
    (caps : captures) (pos' : nat) (rest' : string) (caps' : captures) :
  (forall x, class_has c x = true -> x < 128) ->
  matches (Star greedy (Class c)) pos text caps pos' rest' caps' ->
  forall run rest,
    text = run +:+ rest ->
    ascii_run c run = true ->
    stops c rest = true ->
    exists run', ascii_run c run' = true /\ rest' = run' +:+ rest.
Proof.
  intros Hascii H. remember (Star greedy (Class c)) as r eqn:Hr. revert Hr.
  induction H; intros Hr; try discriminate Hr; intros run rest0 Ht Hrun Hstop.
  - exists run. split; [exact Hrun | exact Ht].
  - injection Hr as -> ->.
    apply (matches_ascii_Class c) in H as (ch & -> & Hhit & -> & ->); [|exact Hascii].
    destruct run as [|ch' run].
    + rewrite append_nil_l in Ht. subst rest0.
      rewrite (hit_stops c ch rest1 Hhit) in Hstop. discriminate Hstop.
    + rewrite append_cons in Ht. injection Ht as _ ->.
      cbn [ascii_run] in Hrun. apply andb_prop in Hrun as [_ Hrun].
      exact (IHmatches2 eq_refl run rest0 eq_refl Hrun Hstop).
Qed.

Lemma one_of_ascii (l : list rune) :
  forallb (fun r => r <? 128) l = true ->
  forall x, class_has (one_of l) x = true -> x < 128.
Proof.
  intros Hl x H. unfold class_has, one_of in H. cbn [negated ranges xorb] in H.
  rewrite existsb_exists in H. destruct H as ([lo hi] & Hin & Hx).
  apply in_map_iff in Hin as (r & [= <- <-] & Hin).
  rewrite forallb_forall in Hl. specialize (Hl r Hin).
  unfold in_range in Hx. cbn [fst snd] in Hx. lia.
Qed.

Lemma ws_ascii (x : rune) : class_has ws_class x = true -> x < 128.
Proof.
  unfold class_has, ws_class, space_ranges, in_range.
  cbn [negated ranges existsb fst snd xorb]. lia.
Qed.

(** *** The optional clause of the table pattern *)

(** The clause [IF NOT EXISTS] takes no part in the match of a statement
    that goes on with the table name, whatever the name. *)
Lemma exists_clause_fails (slack : nat) (k : continuation) (pos : nat) (caps : captures)
    (oq name cq g3 R : string) :
  optional open_class oq = true ->
  word_string name = true ->
  optional close_class cq = true ->
  ascii_run ws_class g3 = true ->
  exec_with slack
    (cat [str_i "IF"; plus ws; str_i "NOT"; plus ws; str_i "EXISTS"; plus ws])
    pos (oq +:+ name +:+ cq +:+ g3 +:+ "(" +:+ R) caps k
  = None.
Proof.
  intros Hoq Hname Hcq Hg3.
  destruct (exec_with slack _ pos _ caps k) as [res|] eqn:E; [exfalso | reflexivity].
  apply exec_sound in E as (p' & r' & c' & Hm & _).
  change (cat [str_i "IF"; plus ws; str_i "NOT"; plus ws; str_i "EXISTS"; plus ws])
    with (Cat (Cat (chr_i 73) (chr_i 70))
              (Cat (Cat ws (Star true ws))
                   (Cat (Cat (chr_i 78) (Cat (chr_i 79) (chr_i 84)))
                        (cat [plus ws; str_i "EXISTS"; plus ws])))) in Hm.
  apply matches_Cat_inv in Hm as (p1 & r1 & c1 & H1 & Hm).
  apply matches_Cat_inv in H1 as (pa & ra & ca & Hi & Hf).
  apply matches_Cat_inv in Hm as (p2 & r2 & c2 & H2 & Hm).
  apply matches_Cat_inv in H2 as (pb & rb & cb & Hw & Hstar).
  apply matches_Cat_inv in Hm as (p3 & r3 & c3 & H3 & _).
  apply matches_Cat_inv in H3 as (pc & rc & cc & Hn & _).
  unfold chr_i in Hi, Hf, Hn. unfold ws in Hw, Hstar.
  apply matches_ascii_Class in Hi as (i & Ei & Hi & _); [|now apply one_of_ascii].
  apply matches_ascii_Class in Hf as (f & Ef & Hf & _); [|now apply one_of_ascii].
  apply matches_ascii_Class in Hw as (w & Ew & Hw & _); [|exact ws_ascii].
  apply matches_ascii_Class in Hn as (n & En & Hn & _); [|now apply one_of_ascii].
  subst ra r1.
  assert (Hafter : forall c,
             disjoint close_class c = true -> disjoint ws_class c = true ->
             class_has c LPAREN = false ->
             stops c (cq +:+ g3 +:+ "(" +:+ R) = true).
  { intros c. now apply after_name_stops. }
  (* no opening quote *)
  destruct oq as [|q [|]]; [| |discriminate Hoq].
  2:{ rewrite append_cons, append_nil_l in Ei. injection Ei as -> _.
      cbn [optional] in Hoq.
      exact (hit_clash open_class (one_of (fold_orbit 73)) i eq_refl Hoq Hi). }
  rewrite append_nil_l in Ei.
  (* the name is [IF], in some case *)
  destruct name as [|n1 name].
  { rewrite append_nil_l in Ei.
    pose proof (Hafter (one_of (fold_orbit 73)) eq_refl eq_refl eq_refl) as Hs.
    rewrite Ei, (hit_stops _ i _ Hi) in Hs. discriminate Hs. }
  rewrite append_cons in Ei. injection Ei as _ Ei.
  cbn [word_string] in Hname. apply andb_prop in Hname as [_ Hname].
  destruct name as [|n2 name].
  { rewrite append_nil_l in Ei.
    pose proof (Hafter (one_of (fold_orbit 70)) eq_refl eq_refl eq_refl) as Hs.
    rewrite Ei, (hit_stops _ f _ Hf) in Hs. discriminate Hs. }
  rewrite append_cons in Ei. injection Ei as _ Ei.
  cbn [word_string] in Hname. apply andb_prop in Hname as [_ Hname].
  destruct name as [|n3 name].
  2:{ rewrite append_cons in Ei. injection Ei as -> _.
      cbn [word_string] in Hname. apply andb_prop in Hname as [Hn3 _].
      exact (hit_clash word_class ws_class w eq_refl (word_byte_hit w Hn3) Hw). }
  rewrite append_nil_l in Ei.
  (* no closing quote, and white space before the parenthesis *)
  destruct cq as [|q [|]]; [| |discriminate Hcq].
  2:{ rewrite append_cons, append_nil_l in Ei. injection Ei as -> _.
      cbn [optional] in Hcq.
      exact (hit_clash close_class ws_class w eq_refl Hcq Hw). }
  rewrite append_nil_l in Ei.
  destruct g3 as [|w' g3].
  { rewrite append_nil_l, append_cons in Ei. injection Ei as <- _.
    vm_compute in Hw. discriminate Hw. }
  rewrite append_cons in Ei. injection Ei as _ Ei.
  cbn [ascii_run] in Hg3. apply andb_prop in Hg3 as [_ Hg3].
  assert (Hparen : stops ws_class ("(" +:+ R) = true).
  { rewrite append_cons, append_nil_l. apply stops_byte; reflexivity. }
  destruct (matches_star_run ws_class true _ _ _ _ _ _ ws_ascii Hstar g3 ("(" +:+ R)
              (eq_sym Ei) Hg3 Hparen) as (run' & Hrun' & Er3).
  assert (Hs : stops (one_of (fold_orbit 78)) (run' +:+ "(" +:+ R) = true).
  { apply (stops_app ws_class); [exact Hrun' | reflexivity |].
    rewrite append_cons, append_nil_l. apply stops_byte; reflexivity. }
  rewrite <- Er3, En, (hit_stops _ n _ Hn) in Hs. discriminate Hs.
Qed.

(** *** The lazy scan of the table body *)

Lemma lor_upper (a b : Z) : 0 <= a -> 0 <= b -> Z.lor a b <= a + b.
Proof.
  intros Ha Hb. pose proof (Z.add_lor_land a b).
  assert (0 <= Z.land a b) by (apply Z.land_nonneg; now left). lia.
Qed.

Ltac bound_lors_both :=
  repeat match goal with
         | H : context [Z.lor ?a ?b] |- _ =>
             let Ha := fresh "Ha" in
             let Hb := fresh "Hb" in
             assert (Ha : 0 <= a) by arith;
             assert (Hb : 0 <= b) by arith;
             pose proof (lor_lower a b Ha Hb);
             pose proof (lor_upper a b Ha Hb);
             generalize dependent (Z.lor a b); intros
         end.

(** Every decoded rune is a code point. *)
Lemma decode_range (s : string) (x : rune) (w : nat) :
  DecodeRuneInString s = (x, w) -> 0 <= x <= 1114111.
Proof.
  intros H. remember x as y eqn:Hy. rewrite Hy in H. 
  unfold DecodeRuneInString, is_cont, in_range, RuneSelf, RuneError in H.
  destruct (byte_at s 0 =? 224) eqn:?, (byte_at s 0 =? 237) eqn:?,
           (byte_at s 0 =? 240) eqn:?, (byte_at s 0 =? 244) eqn:?.
  all: split_tests H; injection H as Hx _; rewrite <- Hx in Hy; clear Hx; try lia.
  all: change 31 with (2 ^ 5 - 1) in Hy; change 15 with (2 ^ 4 - 1) in Hy;
       change 7 with (2 ^ 3 - 1) in Hy; change 63 with (2 ^ 6 - 1) in Hy.
  all: rewrite ?land_mask, ?Z.shiftl_mul_pow2 in Hy by lia.
  all: change (2 ^ 3) with 8 in Hy; change (2 ^ 4) with 16 in Hy;
       change (2 ^ 5) with 32 in Hy; change (2 ^ 6) with 64 in Hy;
       change (2 ^ 12) with 4096 in Hy; change (2 ^ 18) with 262144 in Hy.
  all: bound_lors_both; arith.
Qed.

Lemma take_before_rparen (body rest : string) :
  forall w,
    Contains (take_bytes w (body +:+ ")" +:+ rest)) ")" = false ->
    (w <= String.length body)%nat.
Proof.
  induction body as [|c body IH]; intros [|w] H; cbn [String.length]; try lia.
  - rewrite append_nil_l, append_cons in H. cbn [take_bytes] in H.
    rewrite Contains_char_cons in H. discriminate H.
  - rewrite append_cons in H. cbn [take_bytes] in H.
    rewrite Contains_char_cons in H. apply orb_false_elim in H as [_ H].
    specialize (IH w H). lia.
Qed.

Lemma drop_app_le (a b : string) :
  forall n, (n <= String.length a)%nat -> drop_bytes n (a +:+ b) = drop_bytes n a +:+ b.
Proof.
  induction a as [|c a IH]; intros [|n] H; cbn [String.length] in H; try lia.
  - reflexivity.
  - reflexivity.
  - rewrite append_cons. cbn [drop_bytes]. apply IH. lia.
Qed.

Lemma one_of_single (c x : rune) : class_has (one_of [c]) x = true -> x = c.
Proof.
  unfold class_has, one_of, in_range. cbn [negated ranges map existsb fst snd xorb]. lia.
Qed.

(** The lazy scan goes through a body without a closing parenthesis and
    leaves it at the parenthesis that follows. *)
Lemma lazy_scan_run (slack : nat) (k : continuation) (res : nat * captures) (p0 : nat)
    (X : string) (caps : captures) :
  forall n body fuel pos,
    (String.length body <= n)%nat ->
    (String.length body < fuel)%nat ->
    Contains body ")" = false ->
    k (S (pos + String.length body)) X
      ((2%nat, (p0, (pos + String.length body)%nat)) :: caps) = Some res ->
    star_loop (exec_with slack any) false
      (fun p r c => exec_with slack (chr RPAREN) p r ((2%nat, (p0, p)) :: c) k)
      fuel pos (body +:+ ")" +:+ X) caps
    = Some res.
Proof.
  induction n as [|n IH]; intros body fuel pos Hn Hfuel Hno Hk.
  all: destruct fuel as [|fuel]; [lia|].
  all: destruct body as [|ch body]; [|cbn [String.length] in Hn; try lia].
  1, 2: rewrite append_nil_l, append_cons, append_nil_l; cbn [star_loop];
    unfold chr; rewrite run_Class_hit by reflexivity;
    cbn [String.length] in Hk; rewrite Nat.add_0_r in Hk; rewrite Hk; reflexivity.
  rewrite append_cons. cbn [star_loop].
  destruct (DecodeRuneInString (String ch (body +:+ ")" +:+ X))) as [x w] eqn:E.
  pose proof (decode_width_pos _ _ _ _ E) as Hw.
  assert (Hx : x <> RPAREN).
  { intros ->. pose proof (decode_ascii _ _ _ E ltac:(unfold RPAREN; lia) Hw) as Hb.
    cbn [byte_at] in Hb. apply (byte_val_inj ch ")") in Hb. subst ch.
    rewrite Contains_char_cons in Hno. discriminate Hno. }
  pose proof (rune_bytes_no_rparen _ _ _ E Hx) as Htake.
  rewrite <- append_cons in Htake. apply take_before_rparen in Htake.
  assert (Hleave : exec_with slack (chr RPAREN) pos (String ch (body +:+ ")" +:+ X))
                     ((2%nat, (p0, pos)) :: caps) k = None).
  { unfold chr. cbn [exec_with]. rewrite E.
    destruct (Nat.eqb w 0); [reflexivity|].
    destruct (class_has (one_of [RPAREN]) x) eqn:Hc; [|reflexivity].
    apply one_of_single in Hc. contradiction. }
  rewrite Hleave. cbn [or_else]. unfold any at 1. cbn [exec_with]. rewrite E.
  destruct (Nat.eqb_spec w 0) as [|_]; [contradiction|].
  assert (Hany : class_has (mk_class false [(0, 1114111)]) x = true).
  { pose proof (decode_range _ _ _ E) as Hr.
    unfold class_has, in_range. cbn [negated ranges existsb fst snd xorb]. lia. }
  rewrite Hany.
  destruct (Nat.ltb_spec pos (pos + w)) as [_|]; [|lia].
  rewrite <- append_cons, drop_app_le by exact Htake.
  apply (IH (drop_bytes w (String ch body)) fuel (pos + w)%nat).
  - rewrite drop_length. cbn [String.length]. lia.
  - rewrite drop_length. cbn [String.length] in *. lia.
  - apply Contains_char_drop. exact Hno.
  - rewrite drop_length.
    replace (pos + w + (String.length (String ch body) - w))%nat
      with (pos + String.length (String ch body))%nat by lia.
    exact Hk.
Qed.

(** *** The table pattern on a statement of the plain shape *)

Lemma run_quest_fail (slack : nat) (k : continuation) (res : nat * captures) (a : re)
    (pos : nat) (rest : string) (caps : captures) :
  exec_with slack a pos rest caps k = None ->
  k pos rest caps = Some res ->
  exec_with slack (quest a) pos rest caps k = Some res.
Proof.
  intros Ha Hk. unfold quest.
  change (or_else (exec_with slack a pos rest caps k) (k pos rest caps) = Some res).
  rewrite Ha. exact Hk.
Qed.

Lemma run_lazy_star (slack : nat) (k : continuation) (a : re) (pos : nat) (rest : string)
    (caps : captures) :
  exec_with slack (lazy_star a) pos rest caps k
  = star_loop (exec_with slack a) false k (slack + S (String.length rest)) pos rest caps.
Proof. reflexivity. Qed.

Lemma word_run_i (s : string) :
  word_string s = true ->
  ascii_run (mk_class false (word_ranges ++ [(383, 383); (8490, 8490)])) s = true.
Proof.
  induction s as [|ch s IH]; [reflexivity|]. cbn [word_string ascii_run]. intros H.
  apply andb_prop in H as [Hch Hs]. rewrite (IH Hs), andb_true_r.
  clear -Hch. destruct ch as [[] [] [] [] [] [] [] []]; vm_compute in Hch |- *;
    first [discriminate Hch | reflexivity].
Qed.

Lemma tablePattern_statement (kw1 g1 kw2 g2 oq name cq g3 body X : string) (pos : nat) :
  spells "CREATE" kw1 = true ->
  ascii_run ws_class g1 = true -> g1 <> "" ->
  spells "TABLE" kw2 = true ->
  ascii_run ws_class g2 = true -> g2 <> "" ->
  optional open_class oq = true ->
  word_string name = true -> name <> "" ->
  optional close_class cq = true ->
  ascii_run ws_class g3 = true ->
  Contains body ")" = false ->
  exists pn pb,
    exec (prog tablePattern) pos
      (kw1 +:+ g1 +:+ kw2 +:+ g2 +:+ oq +:+ name +:+ cq +:+ g3 +:+ "(" +:+ body +:+ ")" +:+ X)
      [] final
    = Some (S (pb + String.length body),
            [(2%nat, (pb, (pb + String.length body)%nat));
             (1%nat, (pn, (pn + String.length name)%nat))])
    /\ pn = (pos + String.length (kw1 +:+ g1 +:+ kw2 +:+ g2 +:+ oq))%nat
    /\ pb = (pos + String.length (kw1 +:+ g1 +:+ kw2 +:+ g2 +:+ oq +:+ name +:+ cq
                                  +:+ g3 +:+ "("))%nat.
Proof.
  intros Hkw1 Hg1 Hg1' Hkw2 Hg2 Hg2' Hoq Hname Hname' Hcq Hg3 Hbody.
  pose proof (word_byte_run name Hname) as Rname.
  destruct (spells_word "TABLE" kw2 Hkw2 eq_refl) as [Rkw2 Nkw2].
  specialize (Nkw2 ltac:(discriminate)).
  assert (Hparen : forall c R, class_has c LPAREN = false -> stops c ("(" +:+ R) = true).
  { intros c R Hc. rewrite append_cons, append_nil_l. apply stops_byte; [reflexivity | exact Hc]. }
  eexists _, _. split; [|split].
  - unfold exec. cbn [tablePattern prog cat].
    apply run_Cat. rewrite run_CREATE by exact Hkw1. cbv beta.
    apply run_Cat. unfold ws at 1.
    apply (run_plus _ _ _ ws_class g1); [exact Hg1 | exact Hg1' | |].
    { apply (stops_run word_class); [exact Rkw2 | exact Nkw2 | reflexivity]. }
    cbv beta.
    apply run_Cat. rewrite run_TABLE by exact Hkw2. cbv beta.
    apply run_Cat. unfold ws at 1.
    apply (run_plus _ _ _ ws_class g2); [exact Hg2 | exact Hg2' | |].
    { apply (stops_app open_class); [now apply optional_run | reflexivity |].
      apply (stops_run word_class); [exact Rname | exact Hname' | reflexivity]. }
    cbv beta.
    apply run_Cat. apply run_quest_fail.
    { apply exists_clause_fails; assumption. }
    apply run_Cat. unfold open_quote.
    apply (run_quest_optional _ _ _ open_class oq); [exact Hoq | |].
    { intros _. apply (stops_run word_class); [exact Rname | exact Hname' | reflexivity]. }
    cbv beta.
    apply run_Cat, run_Cap. unfold word_i at 1.
    apply (run_plus _ _ _ _ name); [now apply word_run_i | exact Hname' | |].
    { apply after_name_stops; try assumption; reflexivity. }
    cbv beta.
    apply run_Cat. unfold close_quote.
    apply (run_quest_optional _ _ _ close_class cq); [exact Hcq | |].
    { intros _. apply (stops_app ws_class); [exact Hg3 | reflexivity |].
      apply Hparen. reflexivity. }
    cbv beta.
    apply run_Cat. unfold ws at 1.
    apply (run_star _ _ _ ws_class g3); [exact Hg3 | apply Hparen; reflexivity |].
    cbv beta.
    apply run_Cat. unfold chr at 1.
    rewrite (append_cons "(" "" (body +:+ ")" +:+ X)), append_nil_l.
    rewrite run_Class_hit by reflexivity. cbv beta.
    apply run_Cat, run_Cap. cbv beta. rewrite run_lazy_star.
    apply (lazy_scan_run 0 final _ _ X _ (String.length body) body);
      [lia | rewrite length_append; lia | exact Hbody |].
    unfold final. reflexivity.
  - rewrite !length_append. cbn [String.length]. lia.
  - rewrite !length_append. cbn [String.length]. lia.
Qed.

(** *** From one statement to the next *)

(** The table pattern matches only where the text has the letter [C]. *)
Lemma tablePattern_needs_C (pos : nat) (text : string) (caps : captures)
    (k : continuation) :
  stops (one_of (fold_orbit 67)) text = true ->
  exec (prog tablePattern) pos text caps k = None.
Proof.
  intros H. unfold exec. cbn [tablePattern prog cat].
  change (str_i "CREATE") with (Cat (chr_i 67) (str_i "REATE")).
  change (exec_with 0 (chr_i 67) pos text caps
            (fun p r c =>
               exec_with 0 (str_i "REATE") p r c
                 (fun p' r' c' =>
                    exec_with 0
                      (cat [plus ws; str_i "TABLE"; plus ws;
                            quest (cat [str_i "IF"; plus ws; str_i "NOT"; plus ws;
                                        str_i "EXISTS"; plus ws]);
                            open_quote; Cap 1 (plus word_i); close_quote; star ws;
                            chr LPAREN; Cap 2 (lazy_star any); chr RPAREN])
                      p' r' c' k))
          = None).
  unfold chr_i. now apply run_Class_miss.
Qed.

Lemma search_skip (sep rest : string) :
  forall pos,
    ascii_run trailer_class sep = true ->
    search (prog tablePattern) O pos (sep +:+ rest)
    = search (prog tablePattern) O (pos + String.length sep) rest.
Proof.
  induction sep as [|ch sep IH]; intros pos Hsep.
  - rewrite append_nil_l. cbn [String.length]. now rewrite Nat.add_0_r.
  - cbn [ascii_run] in Hsep. apply andb_prop in Hsep as [Hch Hsep].
    rewrite append_cons. cbn [search].
    change (fun (e : nat) (_ : string) (caps : captures) => Some (e, caps)) with final.
    rewrite tablePattern_needs_C.
    2:{ apply andb_prop in Hch as [Hb Hc]. apply Z.ltb_lt in Hb.
        apply stops_byte; [exact Hb|].
        exact (disjoint_spec trailer_class (one_of (fold_orbit 67)) ch eq_refl Hb Hc). }
    apply andb_prop in Hch as [Hb _]. apply Z.ltb_lt in Hb.
    rewrite (decode_byte ch _ Hb). cbn [snd Nat.pred].
    rewrite IH by exact Hsep. cbn [String.length]. f_equal. lia.
Qed.

Lemma search_end (pos : nat) : search (prog tablePattern) O pos "" = None.
Proof.
  cbn [search].
  change (fun (e : nat) (_ : string) (caps : captures) => Some (e, caps)) with final.
  rewrite tablePattern_needs_C by reflexivity. reflexivity.
Qed.

Lemma slice_mid (a m c : string) (b e : nat) :
  b = String.length a -> e = (b + String.length m)%nat ->
  slice_of (a +:+ m +:+ c) b e = m.
Proof.
  intros -> ->. unfold slice_of.
  replace (String.length a + String.length m - String.length a)%nat
    with (String.length m) by lia.
  rewrite drop_app_exact, take_app_exact. reflexivity.
Qed.

(** The matches of the table pattern in a script: one per statement, with
    the name and the body as written. *)
Lemma all_matches_script (stmts : list table_text) :
  forall P sep fuel prev,
    Forall well_formed stmts ->
    ascii_run trailer_class sep = true ->
    (length stmts <= fuel)%nat ->
    map (submatch_strings tablePattern (P +:+ sep +:+ script stmts))
        (all_matches fuel (prog tablePattern) (P +:+ sep +:+ script stmts)
                     (String.length P) prev)
    = map match_of stmts.
Proof.
  induction stmts as [|t stmts IH]; intros P sep fuel prev Hall Hsep Hfuel.
  - cbn [script map]. destruct fuel as [|fuel]; [reflexivity|].
    rewrite all_matches_S.
    destruct (Nat.ltb_spec (String.length (P +:+ sep +:+ "")) (String.length P)) as [|_];
      [reflexivity|].
    rewrite drop_app_exact, search_skip, search_end by exact Hsep. reflexivity.
  - destruct fuel as [|fuel]; [cbn [length] in Hfuel; lia|].
    cbn [length] in Hfuel.
    apply Forall_cons_iff in Hall as [Ht Hall].
    destruct Ht as (H1 & H2 & H3 & H4 & H5 & H6 & H7 & H8 & H9 & H10 & H11 & H12
                    & H13 & H14 & H15).
    cbn [script map]. rewrite all_matches_S.
    set (text := P +:+ sep +:+ statement_of t +:+ script stmts).
    assert (Htext : text = (P +:+ sep +:+ head_of t +:+ body_of t +:+ ")")
                           +:+ trailer t +:+ script stmts).
    { unfold text, statement_of. rewrite !append_assoc. reflexivity. }
    destruct (Nat.ltb_spec (String.length text) (String.length P)) as [Hlt|_].
    { unfold text in Hlt. rewrite length_append in Hlt. lia. }
    assert (Hdrop : drop_bytes (String.length P) text
                    = sep +:+ statement_of t +:+ script stmts).
    { unfold text. apply drop_app_exact. }
    rewrite Hdrop, search_skip by exact Hsep.
    destruct (tablePattern_statement (create_kw t) (gap1 t) (table_kw t) (gap2 t)
                (topen t) (tname t) (tclose t) (gap3 t) (body_of t)
                (trailer t +:+ script stmts) (String.length P + String.length sep)
                H1 H2 H3 H4 H5 H6 H7 H8 H9 H10 H11 H14)
      as (pn & pb & Hexec & Hpn & Hpb).
    assert (Hstmt : statement_of t +:+ script stmts
                    = create_kw t +:+ gap1 t +:+ table_kw t +:+ gap2 t +:+ topen t
                      +:+ tname t +:+ tclose t +:+ gap3 t +:+ "(" +:+ body_of t +:+ ")"
                      +:+ trailer t +:+ script stmts).
    { unfold statement_of, head_of. rewrite !append_assoc. reflexivity. }
    rewrite Hstmt, (search_hit _ _ _ _ _ Hexec).
    assert (Hhead : String.length (head_of t)
                    = String.length (create_kw t +:+ gap1 t +:+ table_kw t +:+ gap2 t
                                     +:+ topen t +:+ tname t +:+ tclose t +:+ gap3 t
                                     +:+ "(")).
    { reflexivity. }
    assert (He : S (pb + String.length (body_of t))
                 = String.length (P +:+ sep +:+ head_of t +:+ body_of t +:+ ")")).
    { rewrite Hpb, <- Hhead, !length_append. cbn [String.length]. lia. }
    destruct (Nat.eqb_spec (S (pb + String.length (body_of t))) (String.length P)) as [E|_].
    { rewrite He, !length_append in E. cbn [String.length] in E. lia. }
    cbn [map]. f_equal.
    + unfold submatch_strings, match_of.
      cbn [NumSubexp tablePattern seq map cap_lookup Nat.eqb]. f_equal; [|f_equal; [|f_equal]].
      * replace text with ((P +:+ sep) +:+ (head_of t +:+ body_of t +:+ ")")
                          +:+ trailer t +:+ script stmts)
          by (unfold text, statement_of; rewrite !append_assoc; reflexivity).
        apply slice_mid; [now rewrite length_append|].
        rewrite Hpb, <- Hhead, !length_append. cbn [String.length]. lia.
      * replace text with ((P +:+ sep +:+ create_kw t +:+ gap1 t +:+ table_kw t
                            +:+ gap2 t +:+ topen t)
                           +:+ tname t
                           +:+ tclose t +:+ gap3 t +:+ "(" +:+ body_of t +:+ ")"
                           +:+ trailer t +:+ script stmts)
          by (unfold text; rewrite Hstmt, !append_assoc; reflexivity).
        apply slice_mid; [|reflexivity].
        rewrite Hpn, !length_append. lia.
      * replace text with ((P +:+ sep +:+ head_of t) +:+ body_of t
                           +:+ ")" +:+ trailer t +:+ script stmts)
          by (unfold text, statement_of; rewrite !append_assoc; reflexivity).
        apply slice_mid; [|reflexivity].
        rewrite Hpb, <- Hhead, !length_append. lia.
    + rewrite He, Htext. apply IH; [exact Hall | exact H15 | lia].
Qed.

Lemma tablePattern_script (preamble : string) (stmts : list table_text) :
  ascii_run trailer_class preamble = true ->
  Forall well_formed stmts ->
  FindAllStringSubmatch tablePattern (preamble +:+ script stmts) = map match_of stmts.
Proof.
  intros Hpre Hall.
  rewrite <- (FindAllStringSubmatch_fuel tablePattern _ (length stmts)).
  pose proof (all_matches_script stmts "" preamble
                (length stmts + S (S (String.length (preamble +:+ script stmts))))
                None Hall Hpre ltac:(lia)) as H.
  rewrite append_nil_l in H. cbn [String.length] in H. exact H.
Qed.

(** *** The schema of a script *)

Lemma table_of_match_of (t : table_text) (dbType : DBType) :
  well_formed t -> table_of_match (match_of t) dbType = table_of t.
Proof.
  intros (_ & _ & _ & _ & _ & _ & _ & _ & _ & _ & _ & Hne & Hcols & Hbody & _).
  unfold table_of_match, match_of, sub, table_of. cbn [nth].
  destruct (no_constraints_without_rparen (body_of t) Hbody) as [-> ->].
  f_equal. unfold parseColumns, body_of. rewrite Split_Join.
  - rewrite (parseColumns_fold_shaped _ Hcols).
    destruct (tcolumns t); [now destruct Hne | reflexivity].
  - destruct (tcolumns t); [now destruct Hne | discriminate].
  - rewrite List.Forall_forall in *. intros piece Hin. apply in_map_iff in Hin.
    destruct Hin as (c & <- & Hc). apply (Hcols c Hc).
Qed.

Lemma ParseDDL_match_script (dbType : DBType) (stmts : list table_text) :
  Forall well_formed stmts ->
  forall acc,
    fold_left (ParseDDL_match dbType) (map match_of stmts) (Schema.mk "" (lit acc) dbType)
    = Schema.mk "" (lit (acc ++ map table_of stmts)) dbType.
Proof.
  induction 1 as [|t stmts Ht Hall IH]; intros acc.
  - cbn [map fold_left]. now rewrite app_nil_r.
  - cbn [map fold_left]. unfold ParseDDL_match at 2.
    change (length (match_of t) <? 3)%nat with false. cbv iota.
    rewrite (table_of_match_of t dbType Ht).
    unfold set_Tables, append. cbn [Schema.Database Schema.Tables Schema.DBType_ elems lit].
    fold (lit (acc ++ [table_of t])). rewrite IH, <- app_assoc. reflexivity.
Qed.

(** X26: a script of [CREATE TABLE] statements of the plain shape (the
    keywords in any case, the name possibly quoted, plain column
    definitions with no closing parenthesis in the body, white space and
    semicolons between the statements) parses to one table per statement,
    in order, each with the name and the columns as written and with
    neither a primary key nor foreign keys; the second pass may then only
    attach indexes. *)
Theorem ParseDDL_script (preamble : string) (stmts : list table_text) (dbType : DBType) :
  ascii_run trailer_class preamble = true ->
  Forall well_formed stmts ->
  ParseDDL (preamble +:+ script stmts) dbType
  = Ok (parseIndexes (preamble +:+ script stmts)
          (Schema.mk "" (lit (map table_of stmts)) dbType)).
Proof.
  intros Hpre Hall. unfold ParseDDL. f_equal. f_equal.
  rewrite (tablePattern_script preamble stmts Hpre Hall).
  apply (ParseDDL_match_script dbType stmts Hall []).
Qed.

Lemma ParseDDL_script_witness :
  ParseDDL ("CREATE TABLE users (" +:+ LF
            +:+ "  id INT NOT NULL," +:+ LF
            +:+ "  name TEXT" +:+ LF
            +:+ ");" +:+ LF
            +:+ "create table `orders` (id INT)") MySQL
  = Ok (Schema.mk ""
          (lit [Table.mk "users"
                  (lit [Column.mk "id" "INT" false "" "" false false false false;
                        Column.mk "name" "TEXT" true "" "" false false false false])
                  nil_slice nil_slice nil_slice;
                Table.mk "orders"
                  (lit [Column.mk "id" "INT" true "" "" false false false false])
                  nil_slice nil_slice nil_slice])
          MySQL).
Proof.
  apply (ParseDDL_script ""
           [mk_table_text "CREATE" " " "TABLE" " " "" "users" "" " "
              [mk_column_text (LF +:+ "  ") "" "id" "" " " "INT" " " "NOT NULL" "";
               mk_column_text (LF +:+ "  ") "" "name" "" " " "TEXT" "" "" LF]
              (";" +:+ LF);
            mk_table_text "create" " " "table" " " "`" "orders" "`" " "
              [mk_column_text "" "" "id" "" " " "INT" "" "" ""]
              ""]
           MySQL).
  - reflexivity.
  - repeat constructor; try reflexivity; try discriminate.
Defined.

End ScriptProps.

(** ** DDL written by [GenerateDDL] and read back by [ParseDDL] *)

Module RoundTripProps.

Import Utf8Props MatcherTerms RegexpProps TableBodyProps MatchTerms ColumnTerms
       ScriptTerms WriterTerms RoundTripTerms StringProps MatchProps ShapedProps
       ScriptProps SchemaParser DDLWriter DDLTerms DDLProps.

(** *** Runs of ASCII bytes *)

Lemma ascii_run_app (c : class) (a b : string) :
  ascii_run c (a +:+ b) = ascii_run c a && ascii_run c b.
Proof.
  induction a as [|ch a IH]; [reflexivity|].
  rewrite append_cons. cbn [ascii_run]. rewrite IH. now rewrite andb_assoc.
Qed.

Lemma subclass_spec (c c' : class) (ch : ascii) :
  subclass c c' = true ->
  (byte_val ch <? 128) && class_has c (byte_val ch) = true ->
  (byte_val ch <? 128) && class_has c' (byte_val ch) = true.
Proof.
  unfold subclass. intros H Hhit. apply andb_prop in Hhit as [Hb Hc].
  rewrite Hb. cbn [andb]. apply Z.ltb_lt in Hb. rewrite forallb_forall in H.
  assert (H0 : 0 <= byte_val ch) by (unfold byte_val; lia).
  specialize (H (Z.to_nat (byte_val ch))). rewrite Z2Nat.id in H by exact H0.
  rewrite Hc in H. apply H. apply in_seq. lia.
Qed.

Lemma ascii_run_mono (c c' : class) (s : string) :
  subclass c c' = true -> ascii_run c s = true -> ascii_run c' s = true.
Proof.
  intros Hsub. induction s as [|ch s IH]; [reflexivity|]. cbn [ascii_run]. intros H.
  apply andb_prop in H as [Hch Hs].
  rewrite (subclass_spec c c' ch Hsub Hch), (IH Hs). reflexivity.
Qed.

(** A run of a class holds no byte that the class refuses. *)
Lemma run_without (c : class) (x : ascii) (s : string) :
  ascii_run c s = true -> class_has c (byte_val x) = false ->
  Contains s (String x "") = false.
Proof.
  intros Hs Hx. induction s as [|ch s IH]; [reflexivity|].
  cbn [ascii_run] in Hs. apply andb_prop in Hs as [Hch Hs].
  apply andb_prop in Hch as [_ Hc].
  rewrite Contains_char_cons, (IH Hs), orb_false_r.
  apply Ascii.eqb_neq. intros ->. rewrite Hc in Hx. discriminate Hx.
Qed.

Lemma ascii_run_rev (c : class) (s : string) :
  ascii_run c (rev_string s) = ascii_run c s.
Proof.
  induction s as [|ch s IH]; [reflexivity|].
  change (String ch s) with (String ch "" +:+ s) at 1.
  rewrite rev_string_app, ascii_run_app, IH.
  change (rev_string (String ch "")) with (String ch "").
  cbn [ascii_run]. rewrite andb_true_r. apply andb_comm.
Qed.

Lemma rev_string_involutive (s : string) : rev_string (rev_string s) = s.
Proof.
  induction s as [|ch s IH]; [reflexivity|].
  change (String ch s) with (String ch "" +:+ s) at 1.
  rewrite rev_string_app, rev_string_app, IH. reflexivity.
Qed.

(** *** [TrimSpace] on a text between runs of white space *)

Lemma ws_is_space (x : rune) : class_has ws_class x = true -> unicode_IsSpace x = true.
Proof.
  unfold class_has, ws_class, space_ranges, unicode_IsSpace, in_range.
  cbn [negated ranges existsb fst snd xorb]. intros H.
  assert (Hx : x = 9 \/ x = 10 \/ x = 12 \/ x = 13 \/ x = 32) by lia.
  destruct Hx as [->|[->|[->|[->| ->]]]]; reflexivity.
Qed.

Lemma nonspace_not_space (x : rune) :
  x < 128 -> class_has nonspace_class x = true -> unicode_IsSpace x = false.
Proof.
  unfold class_has, nonspace_class, none_of, unicode_IsSpace, in_range.
  cbn [negated ranges existsb fst snd xorb]. intros Hb H.
  destruct ((9 <=? x) && (x <=? 13) || ((32 <=? x) && (x <=? 32) || false)) eqn:E;
    [discriminate H|].
  assert (Hx : ~ (9 <= x <= 13) /\ x <> 32) by lia.
  repeat match goal with
         | |- context [Z.leb ?a ?b] => destruct (Z.leb_spec a b); try lia
         | |- context [Z.eqb ?a ?b] => destruct (Z.eqb_spec a b); try lia
         end.
  all: reflexivity.
Qed.

Lemma trim_left_space_run (lead s : string) :
  ascii_run ws_class lead = true ->
  trim_left_space O (lead +:+ s) = trim_left_space O s.
Proof.
  induction lead as [|ch lead IH]; intros H; [reflexivity|].
  cbn [ascii_run] in H. apply andb_prop in H as [Hch H].
  apply andb_prop in Hch as [Hb Hc]. apply Z.ltb_lt in Hb.
  rewrite append_cons. cbn [trim_left_space].
  rewrite (decode_byte ch _ Hb), (ws_is_space _ Hc). cbn [Nat.pred]. now apply IH.
Qed.

Lemma trim_left_space_plain (s : string) :
  starts_plain s = true -> trim_left_space O s = s.
Proof.
  destruct s as [|ch s]; [discriminate|]. cbn [starts_plain]. intros H.
  apply andb_prop in H as [Hb Hc]. apply Z.ltb_lt in Hb.
  cbn [trim_left_space].
  rewrite (decode_byte ch _ Hb), (nonspace_not_space _ Hb Hc). reflexivity.
Qed.

Lemma decode_last_byte (ch : ascii) (rs : string) :
  byte_val ch < 128 -> DecodeLastRune_rev (String ch rs) = (byte_val ch, 1%nat).
Proof.
  intros Hb. unfold DecodeLastRune_rev. cbn [byte_at].
  assert (H0 : 0 <= byte_val ch) by (unfold byte_val; lia).
  destruct (Z.ltb_spec (byte_val ch) 0) as [|_]; [lia|].
  unfold RuneSelf. destruct (Z.ltb_spec (byte_val ch) 128) as [_|]; [reflexivity | lia].
Qed.

Lemma trim_right_space_run (trail rs : string) :
  ascii_run ws_class trail = true ->
  trim_right_space_rev O (trail +:+ rs) = trim_right_space_rev O rs.
Proof.
  induction trail as [|ch trail IH]; intros H; [reflexivity|].
  cbn [ascii_run] in H. apply andb_prop in H as [Hch H].
  apply andb_prop in Hch as [Hb Hc]. apply Z.ltb_lt in Hb.
  rewrite append_cons. cbn [trim_right_space_rev].
  rewrite (decode_last_byte ch _ Hb), (ws_is_space _ Hc). cbn [Nat.pred]. now apply IH.
Qed.

Lemma trim_right_space_plain (rs : string) :
  starts_plain rs = true -> trim_right_space_rev O rs = rs.
Proof.
  destruct rs as [|ch rs]; [discriminate|]. cbn [starts_plain]. intros H.
  apply andb_prop in H as [Hb Hc]. apply Z.ltb_lt in Hb.
  cbn [trim_right_space_rev].
  rewrite (decode_last_byte ch _ Hb), (nonspace_not_space _ Hb Hc). reflexivity.
Qed.

(** Trimming takes the runs of white space off a text that starts and
    ends with an ASCII byte other than white space. *)
Lemma TrimSpace_plain (lead core trail : string) :
  ascii_run ws_class lead = true ->
  ascii_run ws_class trail = true ->
  starts_plain core = true ->
  ends_plain core = true ->
  TrimSpace (lead +:+ core +:+ trail) = core.
Proof.
  intros Hlead Htrail Hs He. unfold TrimSpace.
  rewrite (trim_left_space_run lead _ Hlead).
  assert (Hs' : starts_plain (core +:+ trail) = true).
  { destruct core; [discriminate Hs | exact Hs]. }
  rewrite (trim_left_space_plain _ Hs'), rev_string_app.
  rewrite trim_right_space_run by (now rewrite ascii_run_rev).
  rewrite (trim_right_space_plain _ He). apply rev_string_involutive.
Qed.

Lemma starts_plain_app (a b : string) :
  a <> "" -> starts_plain (a +:+ b) = starts_plain a.
Proof. destruct a; [intros H; now destruct H | reflexivity]. Qed.

Lemma ends_plain_app (a b : string) :
  b <> "" -> ends_plain (a +:+ b) = ends_plain b.
Proof.
  intros Hb. unfold ends_plain. rewrite rev_string_app. apply starts_plain_app.
  intros E. apply Hb. rewrite <- (rev_string_involutive b), E. reflexivity.
Qed.

Lemma run_ends_plain (s : string) :
  ascii_run nonspace_class s = true -> s <> "" -> ends_plain s = true.
Proof.
  intros Hs Hne. unfold ends_plain. rewrite <- ascii_run_rev in Hs.
  assert (Hr : rev_string s <> "").
  { intros E. apply Hne. rewrite <- (rev_string_involutive s), E. reflexivity. }
  destruct (rev_string s) as [|ch rs]; [now destruct Hr|].
  cbn [ascii_run] in Hs. apply andb_prop in Hs as [Hch _]. exact Hch.
Qed.

(** *** [ToUpper] on ASCII text *)

Lemma ToUpper_cons (ch : ascii) (s : string) :
  byte_val ch < 128 -> ToUpper (String ch s) = String (upper_byte ch) (ToUpper s).
Proof.
  intros Hb. destruct s as [|d s]; [reflexivity|].
  change (ToUpper (String ch (String d s)))
    with (if (byte_val ch =? 196) && (byte_val d =? 177)
          then String (byte_of 73) (ToUpper s)
          else if (byte_val ch =? 197) && (byte_val d =? 191)
               then String (byte_of 83) (ToUpper s)
               else String (upper_byte ch) (ToUpper (String d s))).
  destruct (Z.eqb_spec (byte_val ch) 196) as [|_]; [lia|].
  destruct (Z.eqb_spec (byte_val ch) 197) as [|_]; [lia|]. reflexivity.
Qed.

Lemma ToUpper_app (c : class) (a b : string) :
  ascii_run c a = true -> ToUpper (a +:+ b) = ToUpper a +:+ ToUpper b.
Proof.
  induction a as [|ch a IH]; intros H; [reflexivity|].
  cbn [ascii_run] in H. apply andb_prop in H as [Hch H].
  apply andb_prop in Hch as [Hb _]. apply Z.ltb_lt in Hb.
  rewrite append_cons, !ToUpper_cons, append_cons, IH by assumption. reflexivity.
Qed.

Lemma upper_byte_facts (ch : ascii) :
  byte_val ch < 128 ->
  (word_byte ch = true -> word_byte (upper_byte ch) = true)
  /\ ((byte_val (upper_byte ch) <? 128)
      && class_has default_class (byte_val (upper_byte ch))
      = (byte_val ch <? 128) && class_has default_class (byte_val ch))
  /\ (Ascii.eqb (upper_byte ch) " " = Ascii.eqb ch " ").
Proof.
  destruct ch as [[] [] [] [] [] [] [] []]; intros Hb; vm_compute in Hb;
    try discriminate Hb; repeat split; vm_compute; intros; congruence.
Qed.

Lemma ToUpper_word (s : string) :
  word_string s = true -> word_string (ToUpper s) = true /\ (s <> "" -> ToUpper s <> "").
Proof.
  induction s as [|ch s IH]; intros H; [split; [reflexivity | intros E; now destruct E]|].
  cbn [word_string] in H. apply andb_prop in H as [Hch Hs].
  pose proof (word_byte_hit ch Hch) as Hhit. apply andb_prop in Hhit as [Hb _].
  apply Z.ltb_lt in Hb. rewrite ToUpper_cons by exact Hb.
  destruct (IH Hs) as [Hw _]. split; [|discriminate].
  cbn [word_string]. rewrite Hw, (proj1 (upper_byte_facts ch Hb) Hch). reflexivity.
Qed.

(** *** The constraints that are written *)

Ltac tail_cases dbType c Ed :=
  unfold written_tail, written_constraints;
  destruct (Column.Nullable c), (Column.IsAutoIncr c && String.eqb dbType MySQL),
           (String.eqb (Column.Default c) "") eqn:Ed;
  cbn [negb app Join].

Lemma written_tail_line (dbType : DBType) (c : Column.t) :
  ascii_run value_class (Column.Default c) = true ->
  ascii_run line_class (written_tail dbType c) = true.
Proof.
  intros Hd. apply (ascii_run_mono value_class line_class) in Hd; [|reflexivity].
  tail_cases dbType c Ed; rewrite ?ascii_run_app, ?Hd; reflexivity.
Qed.

Lemma written_tail_stops (dbType : DBType) (c : Column.t) :
  stops ws_class (written_tail dbType c) = true.
Proof.
  tail_cases dbType c Ed;
    first [reflexivity | rewrite append_cons; apply stops_byte; reflexivity].
Qed.

Lemma eqb_empty (s : string) : String.eqb s "" = false -> s <> "".
Proof. intros H ->. discriminate H. Qed.

Lemma written_tail_ends (dbType : DBType) (c : Column.t) :
  ascii_run value_class (Column.Default c) = true ->
  written_tail dbType c <> "" ->
  ends_plain (written_tail dbType c) = true.
Proof.
  intros Hd. apply (ascii_run_mono value_class nonspace_class) in Hd; [|reflexivity].
  tail_cases dbType c Ed; intros Hne; try reflexivity; try (now destruct Hne).
  all: rewrite <- ?append_assoc, ends_plain_app by (now apply eqb_empty).
  all: apply run_ends_plain; [exact Hd | now apply eqb_empty].
Qed.

(** *** Nullability is read back *)

Lemma HasPrefix_needs (x : ascii) (a b : string) :
  forall s, HasPrefix s (a +:+ String x b) = true -> Contains s (String x "") = true.
Proof.
  induction a as [|y a IH]; intros [|c s] H.
  - discriminate H.
  - rewrite append_nil_l in H. cbn [HasPrefix] in H.
    rewrite Contains_char_cons. destruct (Ascii.eqb c x); [reflexivity | discriminate H].
  - rewrite append_cons in H. discriminate H.
  - rewrite append_cons in H. cbn [HasPrefix] in H.
    destruct (Ascii.eqb c y); [|discriminate H].
    rewrite Contains_char_cons, (IH s H). apply orb_true_r.
Qed.

Lemma Contains_needs (x : ascii) (a b s : string) :
  Contains s (String x "") = false -> Contains s (a +:+ String x b) = false.
Proof.
  induction s as [|c s IH]; intros H.
  - rewrite Contains_unfold. destruct (HasPrefix "" (a +:+ String x b)) eqn:E; [|reflexivity].
    apply HasPrefix_needs in E. rewrite E in H. discriminate H.
  - rewrite Contains_unfold.
    destruct (HasPrefix (String c s) (a +:+ String x b)) eqn:E.
    + apply HasPrefix_needs in E. rewrite E in H. discriminate H.
    + rewrite Contains_char_cons in H. apply orb_false_elim in H as [_ H]. auto.
Qed.

Lemma Contains_skip (c : ascii) (s pat : string) :
  HasPrefix (String c s) pat = false -> Contains (String c s) pat = Contains s pat.
Proof. intros H. rewrite Contains_unfold, H. reflexivity. Qed.

Lemma ToUpper_no_blank (s : string) :
  ascii_run value_class s = true -> Contains (ToUpper s) " " = false.
Proof.
  induction s as [|ch s IH]; intros H; [reflexivity|].
  cbn [ascii_run] in H. apply andb_prop in H as [Hch H].
  apply andb_prop in Hch as [Hb Hc]. apply Z.ltb_lt in Hb.
  rewrite ToUpper_cons by exact Hb.
  rewrite Contains_char_cons, (IH H), orb_false_r.
  rewrite (proj2 (proj2 (upper_byte_facts ch Hb))).
  apply Ascii.eqb_neq. intros ->. vm_compute in Hc. discriminate Hc.
Qed.

Lemma Nullable_read_back (dbType : DBType) (c : Column.t) :
  ascii_run value_class (Column.Default c) = true ->
  negb (Contains (ToUpper (written_tail dbType c)) "NOT NULL") = Column.Nullable c.
Proof.
  intros Hd.
  assert (Hup : Contains (ToUpper (Column.Default c)) "NOT NULL" = false).
  { apply (Contains_needs " " "NOT" "NULL"). now apply ToUpper_no_blank. }
  tail_cases dbType c Ed; try reflexivity.
  all: rewrite ?(ToUpper_app line_class) by reflexivity.
  all: try (change (ToUpper "NOT NULL") with "NOT NULL";
            rewrite (Contains_app_l "NOT NULL" "NOT NULL" _ eq_refl); reflexivity).
  all: change (ToUpper "AUTO_INCREMENT") with "AUTO_INCREMENT";
       change (ToUpper " ") with " "; change (ToUpper "DEFAULT ") with "DEFAULT ".
  all: rewrite ?append_cons, ?append_nil_l.
  all: rewrite !Contains_skip by reflexivity.
  all: rewrite Hup; reflexivity.
Qed.

(** *** The default value is read back *)

(** The default pattern matches only where the text has the letter [D]. *)
Lemma defaultPattern_needs_D (pos : nat) (text : string) (caps : captures)
    (k : continuation) :
  stops (one_of (fold_orbit 68)) text = true ->
  exec (prog defaultPattern) pos text caps k = None.
Proof.
  intros H. unfold exec. cbn [defaultPattern prog cat].
  change (str_i "DEFAULT") with (Cat (chr_i 68) (str_i "EFAULT")).
  change (exec_with 0 (chr_i 68) pos text caps
            (fun p r c =>
               exec_with 0 (str_i "EFAULT") p r c
                 (fun p' r' c' =>
                    exec_with 0
                      (cat [plus ws;
                            Cap 1 (plus (Class (none_of (space_ranges ++ [(COMMA, COMMA)]))))])
                      p' r' c' k))
          = None).
  unfold chr_i. now apply run_Class_miss.
Qed.

Lemma search_skip_default (sep rest : string) :
  forall pos,
    ascii_run (none_of [(68, 68); (100, 100)]) sep = true ->
    search (prog defaultPattern) O pos (sep +:+ rest)
    = search (prog defaultPattern) O (pos + String.length sep) rest.
Proof.
  induction sep as [|ch sep IH]; intros pos Hsep.
  - rewrite append_nil_l. cbn [String.length]. now rewrite Nat.add_0_r.
  - cbn [ascii_run] in Hsep. apply andb_prop in Hsep as [Hch Hsep].
    rewrite append_cons. cbn [search].
    change (fun (e : nat) (_ : string) (caps : captures) => Some (e, caps)) with final.
    rewrite defaultPattern_needs_D.
    2:{ apply andb_prop in Hch as [Hb Hc]. apply Z.ltb_lt in Hb.
        apply stops_byte; [exact Hb|].
        exact (disjoint_spec (none_of [(68, 68); (100, 100)]) (one_of (fold_orbit 68))
                 ch eq_refl Hb Hc). }
    apply andb_prop in Hch as [Hb _]. apply Z.ltb_lt in Hb.
    rewrite (decode_byte ch _ Hb). cbn [snd Nat.pred].
    rewrite IH by exact Hsep. cbn [String.length]. f_equal. lia.
Qed.

(** The first [DEFAULT] of a text, followed by a blank and a value that
    goes to the end of the text, is what the default pattern finds. *)
Lemma defaultPattern_reads (P d : string) :
  ascii_run (none_of [(68, 68); (100, 100)]) P = true ->
  ascii_run value_class d = true -> d <> "" ->
  FindStringSubmatch defaultPattern (P +:+ "DEFAULT " +:+ d) = ["DEFAULT " +:+ d; d].
Proof.
  intros HP Hd Hne. unfold FindStringSubmatch.
  rewrite (search_skip_default P _ O HP).
  assert (Hexec : exec (prog defaultPattern) (0 + String.length P) ("DEFAULT " +:+ d) [] final
                  = Some ((0 + String.length P + 7 + 1 + String.length d)%nat,
                          [(1%nat, ((0 + String.length P + 7 + 1)%nat,
                                    (0 + String.length P + 7 + 1 + String.length d)%nat))])).
  { unfold exec. cbn [defaultPattern prog cat].
    apply run_Cat.
    change ("DEFAULT " +:+ d) with ("DEFAULT" +:+ " " +:+ d).
    rewrite (run_spelled 0 _ (" " +:+ d) [] "DEFAULT" "DEFAULT" _ eq_refl eq_refl).
    cbv beta. change (String.length "DEFAULT") with 7%nat.
    apply run_Cat. unfold ws at 1.
    apply (run_plus _ _ _ ws_class " " d); [reflexivity | discriminate | |].
    { rewrite <- (append_nil_r d).
      apply (stops_run value_class ws_class); [exact Hd | exact Hne | reflexivity]. }
    cbv beta. change (String.length " ") with 1%nat.
    apply run_Cap. rewrite <- (append_nil_r d) at 1.
    apply (run_plus _ _ _ _ d "");
      [apply (ascii_run_mono value_class); [reflexivity | exact Hd] | exact Hne
       | reflexivity |].
    reflexivity. }
  rewrite (search_hit _ _ _ _ _ Hexec).
  unfold submatch_strings. cbn [NumSubexp defaultPattern seq map cap_lookup Nat.eqb].
  f_equal; [|f_equal].
  - rewrite <- (append_nil_r d) at 1. rewrite <- (append_nil_r d) at 2.
    replace (P +:+ "DEFAULT " +:+ d +:+ "") with (P +:+ ("DEFAULT " +:+ d) +:+ "")
      by (rewrite !append_assoc; reflexivity).
    apply slice_mid; [reflexivity|]. rewrite !length_append.
    change (String.length "DEFAULT ") with 8%nat. cbn [String.length]. lia.
  - rewrite <- (append_nil_r d) at 1.
    replace (P +:+ "DEFAULT " +:+ d +:+ "") with ((P +:+ "DEFAULT ") +:+ d +:+ "")
      by (rewrite !append_assoc; reflexivity).
    apply slice_mid; [|reflexivity]. rewrite !length_append.
    change (String.length "DEFAULT ") with 8%nat. cbn [String.length]. lia.
Qed.

Lemma Default_read_back (dbType : DBType) (c : Column.t) :
  ascii_run value_class (Column.Default c) = true ->
  (if (1 <? length (FindStringSubmatch defaultPattern (written_tail dbType c)))%nat
   then sub (FindStringSubmatch defaultPattern (written_tail dbType c)) 1
   else "")
  = Column.Default c.
Proof.
  intros Hd. tail_cases dbType c Ed.
  all: try (apply String.eqb_eq in Ed; rewrite Ed; vm_compute; reflexivity).
  all: apply eqb_empty in Ed.
  all: match goal with
       | |- context [FindStringSubmatch defaultPattern ?t] =>
           first
             [ change t with ("" +:+ "DEFAULT " +:+ Column.Default c)
             | change t with ("NOT NULL " +:+ "DEFAULT " +:+ Column.Default c)
             | change t with ("AUTO_INCREMENT " +:+ "DEFAULT " +:+ Column.Default c)
             | change t with ("NOT NULL AUTO_INCREMENT " +:+ "DEFAULT " +:+ Column.Default c) ]
       end.
  all: erewrite defaultPattern_reads by first [exact Hd | exact Ed | reflexivity];
    reflexivity.
Qed.

(** *** What [GenerateDDL] writes has the plain shape *)

Lemma known_dialect_cases (dbType : DBType) :
  known_dialect dbType = true ->
  dbType = MySQL \/ dbType = PostgreSQL \/ dbType = SQLServer \/ dbType = Oracle.
Proof.
  unfold known_dialect. intros H.
  repeat (apply orb_prop in H as [H|H]); apply String.eqb_eq in H; auto.
Qed.

Lemma quote_split (upper : string -> string) (name : string) (dbType : DBType) :
  quote upper name dbType
  = quote_open dbType +:+ quoted_by upper name dbType +:+ quote_close dbType.
Proof.
  unfold quote, quote_open, quote_close, quoted_by.
  destruct (String.eqb dbType MySQL) eqn:E1.
  { apply String.eqb_eq in E1. subst dbType. reflexivity. }
  destruct (String.eqb dbType PostgreSQL) eqn:E2.
  { apply String.eqb_eq in E2. subst dbType. reflexivity. }
  destruct (String.eqb dbType SQLServer) eqn:E3.
  { apply String.eqb_eq in E3. subst dbType. reflexivity. }
  destruct (String.eqb dbType Oracle); [reflexivity|].
  rewrite append_nil_l, append_nil_r. reflexivity.
Qed.

Lemma quoted_by_word (upper : string -> string) (name : string) (dbType : DBType) :
  upper_on_words upper -> word_string name = true ->
  quoted_by upper name dbType = quoted_name name dbType.
Proof.
  intros Hup Hw. unfold quoted_name, quoted_by.
  destruct (String.eqb dbType Oracle); [now apply Hup | reflexivity].
Qed.

(** The quoting characters of a dialect that quotes. *)
Lemma quotes_known (dbType : DBType) :
  known_dialect dbType = true ->
  exists qo qc,
    quote_open dbType = String qo "" /\ quote_close dbType = String qc ""
    /\ optional open_class (String qo "") = true
    /\ optional close_class (String qc "") = true
    /\ byte_val qo < 128
    /\ (forall rest, is_constraint_line (String (upper_byte qo) rest) = false)
    /\ (forall rest, starts_plain (String qo rest) = true).
Proof.
  intros H. destruct (known_dialect_cases dbType H) as [->|[->|[->| ->]]].
  - exists "`"%char, "`"%char. repeat split.
  - exists (byte_of DQUOTE), (byte_of DQUOTE). repeat split.
  - exists "["%char, "]"%char. repeat split.
  - exists (byte_of DQUOTE), (byte_of DQUOTE). repeat split.
Qed.

Lemma quoted_name_word (name : string) (dbType : DBType) :
  word_string name = true -> name <> "" ->
  word_string (quoted_name name dbType) = true /\ quoted_name name dbType <> "".
Proof.
  intros Hw Hne. unfold quoted_name, quoted_by.
  destruct (String.eqb dbType Oracle); [|now split].
  destruct (ToUpper_word name Hw) as [H1 H2]. split; [exact H1 | now apply H2].
Qed.

(** A byte that none of the classes of a column definition holds does not
    occur in the definition as written. *)
Lemma written_column_without (x : ascii) (dbType : DBType) (trail : string) (c : Column.t) :
  simple_column dbType c ->
  class_has ws_class (byte_val x) = false ->
  class_has open_class (byte_val x) = false ->
  class_has close_class (byte_val x) = false ->
  class_has word_class (byte_val x) = false ->
  class_has line_class (byte_val x) = false ->
  Contains trail (String x "") = false ->
  Contains (text_of (written_column dbType trail c)) (String x "") = false.
Proof.
  intros (Hn & Hn' & Ht & Ht' & Hd & _) Hws Hopen Hclose Hword Hline Htrail.
  unfold text_of, core_of, written_column.
  cbn [lead oquote cname cquote gap ctype pad tail ColumnTerms.trail].
  destruct (quoted_name_word _ dbType Hn Hn') as [Hq _].
  rewrite !Contains_char_app, Htrail.
  rewrite (run_without ws_class x LF eq_refl Hws).
  rewrite (run_without ws_class x "  " eq_refl Hws).
  rewrite (run_without ws_class x " " eq_refl Hws).
  rewrite (run_without word_class x _ (word_byte_run _ Hq) Hword).
  rewrite (run_without word_class x _ (word_byte_run _ Ht) Hword).
  rewrite (run_without line_class x _ (written_tail_line dbType c Hd) Hline).
  assert (Hpad : Contains (if String.eqb (written_tail dbType c) "" then "" else " ")
                          (String x "") = false).
  { destruct (String.eqb (written_tail dbType c) ""); [reflexivity|].
    exact (run_without ws_class x " " eq_refl Hws). }
  rewrite Hpad.
  assert (Hqo : Contains (quote_open dbType) (String x "") = false).
  { apply (run_without open_class); [|exact Hopen].
    unfold quote_open. repeat (match goal with |- context [String.eqb ?a ?b] =>
                                 destruct (String.eqb a b) end); reflexivity. }
  assert (Hqc : Contains (quote_close dbType) (String x "") = false).
  { apply (run_without close_class); [|exact Hclose].
    unfold quote_close. repeat (match goal with |- context [String.eqb ?a ?b] =>
                                  destruct (String.eqb a b) end); reflexivity. }
  rewrite Hqo, Hqc. reflexivity.
Qed.

Lemma written_column_shaped (dbType : DBType) (trail : string) (c : Column.t) :
  known_dialect dbType = true ->
  simple_column dbType c ->
  ascii_run ws_class trail = true ->
  shaped (written_column dbType trail c).
Proof.
  intros Hk Hc Htrail.
  pose proof (written_column_without "," dbType trail c Hc eq_refl eq_refl eq_refl
                eq_refl eq_refl (run_without ws_class "," trail Htrail eq_refl)) as Hcomma.
  destruct Hc as (Hn & Hn' & Ht & Ht' & Hd & _).
  destruct (quotes_known dbType Hk) as (qo & qc & Eo & Ec & Ho & Hcl & Hb & Hline & Hstart).
  destruct (quoted_name_word _ dbType Hn Hn') as [Hq Hq'].
  pose proof (written_tail_line dbType c Hd) as Tline.
  pose proof (written_tail_stops dbType c) as Tstops.
  pose proof (written_tail_ends dbType c Hd) as Tends.
  unfold shaped. rewrite Hcomma.
  unfold text_of, core_of, written_column.
  cbn [lead oquote cname cquote gap ctype pad tail ColumnTerms.trail].
  rewrite Eo, Ec.
  split; [|split; [|split; [reflexivity|]]].
  - apply TrimSpace_plain; [reflexivity | exact Htrail | rewrite append_cons; apply Hstart |].
    destruct (String.eqb (written_tail dbType c) "") eqn:Et.
    + apply String.eqb_eq in Et. rewrite Et, !append_nil_r.
      rewrite <- !append_assoc. rewrite ends_plain_app by exact Ht'.
      apply run_ends_plain; [|exact Ht'].
      apply (ascii_run_mono word_class); [reflexivity | now apply word_byte_run].
    + apply eqb_empty in Et. rewrite <- !append_assoc.
      rewrite ends_plain_app by exact Et. now apply Tends.
  - rewrite append_cons, ToUpper_cons by exact Hb. apply Hline.
  - split; [exact Ho|]. split; [exact Hq|]. split; [exact Hq'|]. split; [exact Hcl|].
    split; [reflexivity|]. split; [discriminate|]. split; [exact Ht|]. split; [exact Ht'|].
    split; [destruct (String.eqb (written_tail dbType c) ""); reflexivity|].
    split.
    { destruct (String.eqb (written_tail dbType c) "") eqn:Et; [|discriminate].
      intros _. now apply String.eqb_eq. }
    split; [exact Tstops|].
    exact (run_without line_class (ascii_of_nat 10) _ Tline eq_refl).
Qed.

Lemma written_columns_shaped (dbType : DBType) (cols : list Column.t) :
  known_dialect dbType = true ->
  Forall (simple_column dbType) cols ->
  Forall shaped (written_columns dbType cols).
Proof.
  intros Hk. induction 1 as [|c cols Hc Hcols IH]; [constructor|].
  cbn [written_columns]. destruct cols as [|c2 cols].
  - constructor; [|constructor]. now apply written_column_shaped.
  - constructor; [|exact IH]. now apply written_column_shaped.
Qed.

Lemma Join_without (x : ascii) (sep : string) (l : list string) :
  Contains sep (String x "") = false ->
  Forall (fun s => Contains s (String x "") = false) l ->
  Contains (Join l sep) (String x "") = false.
Proof.
  intros Hsep. induction 1 as [|s l Hs Hl IH]; [reflexivity|].
  destruct l as [|s2 l]; [exact Hs|].
  rewrite Join_cons, !Contains_char_app, Hs, Hsep, IH. reflexivity.
Qed.

Lemma written_columns_without_rparen (dbType : DBType) (cols : list Column.t) :
  Forall (simple_column dbType) cols ->
  Contains (Join (map text_of (written_columns dbType cols)) ",") ")" = false.
Proof.
  intros Hcols. apply Join_without; [reflexivity|].
  induction Hcols as [|c cols Hc Hcols IH]; [constructor|].
  cbn [written_columns]. destruct cols as [|c2 cols].
  - constructor; [|constructor]. now apply written_column_without.
  - cbn [map]. constructor; [|exact IH]. now apply written_column_without.
Qed.

Lemma written_columns_nonempty (dbType : DBType) (cols : list Column.t) :
  cols <> [] -> written_columns dbType cols <> [].
Proof. destruct cols as [|c [|c2 cols]]; [intros H; now destruct H | |]; discriminate. Qed.

Lemma written_table_well_formed (dbType : DBType) (t : Table.t) :
  known_dialect dbType = true ->
  simple_table dbType t ->
  well_formed (written_table dbType t).
Proof.
  intros Hk (Hn & Hn' & Hne & Hcols & _).
  destruct (quotes_known dbType Hk) as (qo & qc & Eo & Ec & Ho & Hcl & _).
  destruct (quoted_name_word _ dbType Hn Hn') as [Hq Hq'].
  unfold well_formed, written_table, body_of.
  cbn [create_kw gap1 table_kw gap2 topen tname tclose gap3 tcolumns trailer].
  rewrite Eo, Ec.
  repeat (split; [first [reflexivity | discriminate | assumption]|]).
  split; [now apply written_columns_nonempty|].
  split; [now apply written_columns_shaped|].
  split; [now apply written_columns_without_rparen | reflexivity].
Qed.

(** *** The text that [GenerateDDL] writes, as a script *)

Lemma column_def_written (upper : string -> string) (dbType : DBType) (trail : string)
    (c : Column.t) :
  upper_on_words upper ->
  simple_column dbType c ->
  column_def upper dbType c = "  " +:+ core_of (written_column dbType trail c).
Proof.
  intros Hup (Hn & _ & _ & _ & _ & Hauto).
  unfold column_def, core_of, written_column, written_tail, written_constraints.
  cbn [oquote cname cquote gap ctype pad tail].
  rewrite quote_split, (quoted_by_word upper _ dbType Hup Hn).
  destruct (Column.Nullable c), (Column.IsAutoIncr c) eqn:Ea,
           (String.eqb dbType MySQL), (String.eqb (Column.Default c) "");
    cbn [negb andb app Join String.eqb Ascii.eqb];
    rewrite ?(Hauto eq_refl), ?append_assoc, ?append_nil_r; reflexivity.
Qed.

Lemma written_columns_cons (dbType : DBType) (c c2 : Column.t) (cols : list Column.t) :
  written_columns dbType (c :: c2 :: cols)
  = written_column dbType "" c :: written_columns dbType (c2 :: cols).
Proof. reflexivity. Qed.

Lemma body_written (upper : string -> string) (dbType : DBType) (cols : list Column.t) :
  upper_on_words upper ->
  cols <> [] ->
  Forall (simple_column dbType) cols ->
  LF +:+ Join (map (column_def upper dbType) cols) ("," +:+ LF) +:+ LF
  = Join (map text_of (written_columns dbType cols)) ",".
Proof.
  intros Hup Hne Hcols. induction Hcols as [|c cols Hc Hcols IH]; [now destruct Hne|].
  destruct cols as [|c2 cols].
  - cbn [map written_columns Join]. unfold text_of.
    rewrite (column_def_written upper dbType LF c Hup Hc).
    cbn [lead trail written_column]. rewrite !append_assoc. reflexivity.
  - rewrite written_columns_cons.
    change (map text_of (written_column dbType "" c :: written_columns dbType (c2 :: cols)))
      with (text_of (written_column dbType "" c)
            :: map text_of (written_columns dbType (c2 :: cols))).
    change (map (column_def upper dbType) (c :: c2 :: cols))
      with (column_def upper dbType c :: column_def upper dbType c2 :: map (column_def upper dbType) cols).
    assert (Hnext : exists s l, map text_of (written_columns dbType (c2 :: cols)) = s :: l).
    { destruct cols; eexists _, _; reflexivity. }
    destruct Hnext as (s & l & Hnext). rewrite Hnext, !Join_cons, <- Hnext.
    rewrite <- IH by discriminate.
    change (map (column_def upper dbType) (c2 :: cols))
      with (column_def upper dbType c2 :: map (column_def upper dbType) cols).
    unfold text_of at 1. rewrite (column_def_written upper dbType "" c Hup Hc).
    cbn [lead trail written_column]. rewrite !append_assoc, append_nil_l. reflexivity.
Qed.

Lemma table_ddl_written (upper : string -> string) (dbType : DBType) (sb : string)
    (t : Table.t) :
  upper_on_words upper ->
  simple_table dbType t ->
  table_ddl upper dbType sb t = sb +:+ statement_of (written_table dbType t).
Proof.
  intros Hup (Hn & _ & Hne & Hcols & Hpk & Hfk & Hidx).
  unfold table_ddl, column_defs, len. rewrite Hpk, Hfk, Hidx.
  cbn [length Nat.ltb Nat.leb map fold_left]. rewrite !app_nil_r.
  unfold statement_of, head_of, body_of, written_table.
  cbn [create_kw gap1 table_kw gap2 topen tname tclose gap3 tcolumns trailer].
  rewrite <- (body_written upper dbType _ Hup Hne Hcols), quote_split.
  rewrite (quoted_by_word upper _ dbType Hup Hn).
  rewrite !append_assoc. reflexivity.
Qed.

Lemma GenerateDDL_script (upper : string -> string) (dbType : DBType)
    (tables : list Table.t) :
  upper_on_words upper ->
  Forall (simple_table dbType) tables ->
  forall sb,
    fold_left (table_ddl upper dbType) tables sb
    = sb +:+ script (map (written_table dbType) tables).
Proof.
  intros Hup. induction 1 as [|t tables Ht Htables IH]; intros sb.
  - cbn [fold_left map script]. now rewrite append_nil_r.
  - cbn [fold_left map script]. rewrite (table_ddl_written upper dbType sb t Hup Ht), IH.
    now rewrite append_assoc.
Qed.

(** *** Reading back *)

Lemma written_column_read_back (dbType : DBType) (trail : string) (c : Column.t) :
  simple_column dbType c ->
  read_back_column dbType c (column_of (written_column dbType trail c)).
Proof.
  intros (_ & _ & _ & _ & Hd & _).
  unfold read_back_column, column_of, column_from, written_column.
  cbn [cname ctype tail Column.Name Column.Type_ Column.Nullable Column.Default
       Column.IsFK].
  split; [reflexivity|]. split; [reflexivity|].
  split; [now apply Nullable_read_back|].
  split; [now apply Default_read_back | reflexivity].
Qed.

Lemma written_columns_read_back (dbType : DBType) (cols : list Column.t) :
  Forall (simple_column dbType) cols ->
  Forall2 (read_back_column dbType) cols (map column_of (written_columns dbType cols)).
Proof.
  induction 1 as [|c cols Hc Hcols IH]; [constructor|].
  destruct cols as [|c2 cols].
  - cbn [written_columns map]. constructor; [|constructor].
    now apply written_column_read_back.
  - rewrite written_columns_cons.
    change (map column_of (written_column dbType "" c
                           :: written_columns dbType (c2 :: cols)))
      with (column_of (written_column dbType "" c)
            :: map column_of (written_columns dbType (c2 :: cols))).
    constructor; [now apply written_column_read_back | exact IH].
Qed.

Lemma written_table_read_back (dbType : DBType) (t t' : Table.t) :
  simple_table dbType t ->
  grown (table_of (written_table dbType t)) t' ->
  read_back_table dbType t t'.
Proof.
  intros (_ & _ & _ & Hcols & _) (Hname & Hc & Hpk & Hfk & _).
  unfold read_back_table. rewrite Hname, Hc, Hpk, Hfk.
  unfold table_of, written_table.
  cbn [tname tcolumns Table.Name Table.Columns Table.PrimaryKey Table.ForeignKeys elems lit].
  split; [reflexivity|]. split; [|split; reflexivity].
  now apply written_columns_read_back.
Qed.

Lemma tables_read_back (dbType : DBType) (tables : list Table.t) :
  Forall (simple_table dbType) tables ->
  forall tables',
    Forall2 grown (map table_of (map (written_table dbType) tables)) tables' ->
    Forall2 (read_back_table dbType) tables tables'.
Proof.
  induction 1 as [|t tables Ht Htables IH]; intros tables' H; cbn [map] in H.
  - inversion H. constructor.
  - inversion H as [|a b la lb Hab Hrest]; subst.
    constructor; [now apply written_table_read_back | now apply IH].
Qed.

(** X27: what [GenerateDDL] writes, [ParseDDL] reads back.  For a schema
    of a dialect that quotes, whose tables have columns but neither a
    primary-key list, nor foreign keys, nor indexes, whose names and types
    are plain words, whose default values are ASCII without white space,
    comma and closing parenthesis, and none of whose columns is written
    with [IDENTITY(1,1)], parsing the generated text succeeds and gives the
    same tables in the same order, with neither primary key nor foreign
    keys, and with their columns in order, each with its type, nullability
    and default value.  The name of a table and the name of a column come
    back as [quote] has written them: upper-cased under Oracle, unchanged
    under the other dialects.  The library's [strings.ToUpper] enters as
    [upper], of which only its action on plain words is used. *)
Theorem GenerateDDL_read_back (upper : string -> string) (schema : Schema.t)
    (dbType : DBType) :
  upper_on_words upper ->
  simple_schema schema ->
  exists tables',
    ParseDDL (GenerateDDL upper schema) dbType = Ok (Schema.mk "" (lit tables') dbType)
    /\ Forall2 (read_back_table (Schema.DBType_ schema))
               (elems (Schema.Tables schema)) tables'.
Proof.
  intros Hup [Hk Htables].
  set (d := Schema.DBType_ schema) in *.
  set (stmts := map (written_table d) (elems (Schema.Tables schema))).
  assert (Hwf : Forall well_formed stmts).
  { unfold stmts. rewrite List.Forall_forall in *. intros x Hx.
    apply in_map_iff in Hx as (t & <- & Ht).
    apply written_table_well_formed; [exact Hk | now apply Htables]. }
  assert (Hddl : GenerateDDL upper schema = "" +:+ script stmts).
  { unfold GenerateDDL. fold d. apply (GenerateDDL_script upper d _ Hup Htables ""). }
  assert (Htab : FindAllStringSubmatch tablePattern (GenerateDDL upper schema)
                 = map match_of stmts).
  { rewrite Hddl. exact (tablePattern_script "" stmts eq_refl Hwf). }
  unfold ParseDDL, parseIndexes. cbv zeta.
  rewrite Htab, (ParseDDL_match_script dbType stmts Hwf []). cbn [app].
  destruct (parseIndexes_fold_grown
              (FindAllStringSubmatch indexPattern (GenerateDDL upper schema))
              (Schema.mk "" (lit (map table_of stmts)) dbType)
              (map table_of stmts) eq_refl) as (tables' & E & G).
  exists tables'. split; [rewrite E; reflexivity|].
  now apply tables_read_back.
Qed.

(** An Oracle schema: the names come back upper-cased. *)
Lemma GenerateDDL_read_back_witness :
  exists tables',
    ParseDDL
      (GenerateDDL ToUpper
         (Schema.mk "shop"
            (lit [Table.mk "users"
                    (lit [Column.mk "id" "INT" false "" "" true false false false;
                          Column.mk "name" "TEXT" true "'x'" "" false false false false])
                    nil_slice nil_slice nil_slice])
            Oracle))
      Oracle
    = Ok (Schema.mk "" (lit tables') Oracle)
    /\ Forall2 (read_back_table Oracle)
               [Table.mk "users"
                  (lit [Column.mk "id" "INT" false "" "" true false false false;
                        Column.mk "name" "TEXT" true "'x'" "" false false false false])
                  nil_slice nil_slice nil_slice]
               tables'.
Proof.
  apply (GenerateDDL_read_back ToUpper
           (Schema.mk "shop"
              (lit [Table.mk "users"
                      (lit [Column.mk "id" "INT" false "" "" true false false false;
                            Column.mk "name" "TEXT" true "'x'" "" false false false false])
                      nil_slice nil_slice nil_slice])
              Oracle)
           Oracle).
  - intros s _. reflexivity.
  - split; [reflexivity|].
    repeat constructor; try reflexivity; try discriminate.
Defined.

(** What comes back in that case. *)
Example GenerateDDL_read_back_Oracle :
  ParseDDL
    (GenerateDDL ToUpper
       (Schema.mk "shop"
          (lit [Table.mk "users"
                  (lit [Column.mk "id" "INT" false "" "" true false false false;
                        Column.mk "name" "TEXT" true "'x'" "" false false false false])
                  nil_slice nil_slice nil_slice])
          Oracle))
    Oracle
  = Ok (Schema.mk ""
          (lit [Table.mk "USERS"
                  (lit [Column.mk "ID" "INT" false "" "" false false false false;
                        Column.mk "NAME" "TEXT" true "'x'" "" false false false false])
                  nil_slice nil_slice nil_slice])
          Oracle).
Proof. vm_compute. reflexivity. Qed.

End RoundTripProps.

(** ** Documents with members the records do not have *)

Module DocumentProps.

Import Json SchemaParser.

Lemma dec_members_skip {T : Type} (names : list string)
    (store : T -> nat -> json -> result T) (key : string) (v : json)
    (pre post : list (string * json)) :
  match_field names key = None ->
  forall cur,
    dec_members names store cur (pre ++ (key, v) :: post)
    = dec_members names store cur (pre ++ post).
Proof.
  intros Hk. induction pre as [|[k w] pre IH]; intros cur.
  - cbn [app dec_members]. rewrite Hk. reflexivity.
  - cbn [app dec_members]. destruct (match_field names k); [|apply IH].
    destruct (store cur n w); cbn [bind]; [apply IH | reflexivity].
Qed.

(** X9: [ParseJSON] skips a member of the document whose name matches no
    field of the schema, whatever its value and wherever it stands. *)
Theorem ParseJSON_skips_unknown (key : string) (v : json)
    (pre post : list (string * json)) :
  match_field Schema_fields key = None ->
  ParseJSON (WellFormed (JObject (pre ++ (key, v) :: post)))
  = ParseJSON (WellFormed (JObject (pre ++ post))).
Proof.
  intros Hk. unfold ParseJSON, Unmarshal_Schema, dec_Schema, dec_object.
  rewrite (dec_members_skip Schema_fields store_Schema key v pre post Hk).
  reflexivity.
Qed.

Lemma ParseJSON_skips_unknown_witness :
  ParseJSON (WellFormed (JObject [("database", JString "shop");
                                  ("version", JNumber "2");
                                  ("db_type", JString "mysql")]))
  = ParseJSON (WellFormed (JObject [("database", JString "shop");
                                    ("db_type", JString "mysql")])).
Proof.
  apply (ParseJSON_skips_unknown "version" (JNumber "2")
           [("database", JString "shop")] [("db_type", JString "mysql")]).
  reflexivity.
Defined.

End DocumentProps.
